(** * ISAT binary partition tree (TDAC): shallow embedding and verification

    The development embeds [binaryTree.C] (with the node layout of
    [binaryNode.H] and the leaf accessors of [chemPointISAT.H]) as pure
    functions over an explicit store: the C++ objects live in two finite
    maps (one for [binaryNode], one for [chemPointISAT]), pointers are
    optional addresses ([None] is [NULL]), and every dereference of a null
    or dangling pointer, and every out-of-range index, is a [Fault].
    Recursion and [while] loops over the pointer structure take fuel.

    Floating point values are kept abstract ([scalar] with the operations
    the code uses); no law of arithmetic is assumed about them. *)

From stdpp Require Import gmap list fin_maps sorting.
From Stdlib Require Import ZArith Lia.
From Stdlib Require QArith Qabs.

#[global] Set Warnings "-clear-no-such-hyp".

(** ** Scalars *)

(** [scalar] is OpenFOAM's floating point type. The comparisons are three
    separate operations because [>] and [<=] are not complementary on
    floating point values. [sLit05] is the literal [0.5], [sGREAT] is
    OpenFOAM's constant [GREAT], [ofLabel] the conversion of a [label]. *)
Class ScalarOps := {
  scalar : Type;
  sZero : scalar;
  sLit05 : scalar;
  sGREAT : scalar;
  ofLabel : Z → scalar;
  sadd : scalar → scalar → scalar;
  ssub : scalar → scalar → scalar;
  smul : scalar → scalar → scalar;
  sdiv : scalar → scalar → scalar;
  ssqr : scalar → scalar;
  sfabs : scalar → scalar;
  sgt : scalar → scalar → bool;
  slt : scalar → scalar → bool;
  sle : scalar → scalar → bool
}.

(** Addresses of heap objects; a pointer is an optional address. *)
Abbreviation addr := positive (only parsing).
Abbreviation nptr := (option positive) (only parsing).
Abbreviation lptr := (option positive) (only parsing).

(** ** Outcomes of an execution *)

Inductive outcome (A : Type) : Type :=
  | Done (a : A)
  | Fault
  | OutOfFuel.
Arguments Done {A} a.
Arguments Fault {A}.
Arguments OutOfFuel {A}.

#[export] Instance outcome_bind : MBind outcome := λ A B k m,
  match m with
  | Done a => k a
  | Fault => Fault
  | OutOfFuel => OutOfFuel
  end.

Definition ofOption {A : Type} (o : option A) : outcome A :=
  match o with
  | Some a => Done a
  | None => Fault
  end.

Section Model.
Context `{SO : ScalarOps}.

(** ** Objects *)

(** [chemPointISAT]: the fields the tree reads or writes, and the payload
    fields [phi_], [Rphi_], [A_], [LT_] (with [QT_] and [scaleFactor_]). *)
Record chemPointISAT : Type := mkChP {
  phi_ : list scalar;
  Rphi_ : list scalar;
  LT_ : list (list scalar);
  QT_ : list (list scalar);
  A_ : list (list scalar);
  scaleFactor_ : list scalar;
  node_ : nptr;
  nUsed_ : Z;
  nGrown_ : Z
}.

(** [binaryNode], as declared in binaryNode.H. *)
Record binaryNode : Type := mkBn {
  elementLeft_ : lptr;
  elementRight_ : lptr;
  left_ : nptr;
  right_ : nptr;
  parent_ : nptr;
  v_ : list scalar;
  a_ : scalar
}.

(** Modelled from the spec: binaryTree.H, which declares the members of
    [binaryTree], is missing. The record holds the members binaryTree.C
    reads and initialises, together with the store of the objects the tree
    owns. [nEqns_] stands for [chemistry_.nEqns()]. The counters are
    [label]s, [balanceProp_] (a fraction) is a [scalar].
    [minBalanceThreshold_] (a number of leaves) is only compared with the
    label [size_] and is taken as a [label]. [maxNbBalanceTest_] is the
    cap on the number of trials: the constructor reads it with the
    [scalar] default [0.01*nSpecie()], the specification lists the same
    fractional default, and [balance] compares the label [nbTests] with
    it; it is taken as a [scalar], and a member declared as a [label] is
    the case of a whole value [ofLabel k]. *)
Record binaryTree : Type := mkTree {
  root_ : nptr;
  maxElements_ : Z;
  size_ : Z;
  n2ndSearch_ : Z;
  max2ndSearch_ : Z;
  minBalanceThreshold_ : Z;
  maxNbBalanceTest_ : scalar;
  balanceProp_ : scalar;
  nEqns_ : Z;
  nodes : gmap positive binaryNode;
  leaves : gmap positive chemPointISAT
}.

Definition setRoot (r : nptr) (t : binaryTree) : binaryTree :=
  mkTree r (maxElements_ t) (size_ t) (n2ndSearch_ t) (max2ndSearch_ t)
    (minBalanceThreshold_ t) (maxNbBalanceTest_ t) (balanceProp_ t)
    (nEqns_ t) (nodes t) (leaves t).

Definition setSize (s : Z) (t : binaryTree) : binaryTree :=
  mkTree (root_ t) (maxElements_ t) s (n2ndSearch_ t) (max2ndSearch_ t)
    (minBalanceThreshold_ t) (maxNbBalanceTest_ t) (balanceProp_ t)
    (nEqns_ t) (nodes t) (leaves t).

Definition setN2ndSearch (c : Z) (t : binaryTree) : binaryTree :=
  mkTree (root_ t) (maxElements_ t) (size_ t) c (max2ndSearch_ t)
    (minBalanceThreshold_ t) (maxNbBalanceTest_ t) (balanceProp_ t)
    (nEqns_ t) (nodes t) (leaves t).

Definition setNodes (m : gmap positive binaryNode) (t : binaryTree) : binaryTree :=
  mkTree (root_ t) (maxElements_ t) (size_ t) (n2ndSearch_ t) (max2ndSearch_ t)
    (minBalanceThreshold_ t) (maxNbBalanceTest_ t) (balanceProp_ t)
    (nEqns_ t) m (leaves t).

Definition setLeaves (m : gmap positive chemPointISAT) (t : binaryTree) : binaryTree :=
  mkTree (root_ t) (maxElements_ t) (size_ t) (n2ndSearch_ t) (max2ndSearch_ t)
    (minBalanceThreshold_ t) (maxNbBalanceTest_ t) (balanceProp_ t)
    (nEqns_ t) (nodes t) m.

(** Field updates of single objects. *)
Definition withElementLeft (e : lptr) (n : binaryNode) : binaryNode :=
  mkBn e (elementRight_ n) (left_ n) (right_ n) (parent_ n) (v_ n) (a_ n).
Definition withElementRight (e : lptr) (n : binaryNode) : binaryNode :=
  mkBn (elementLeft_ n) e (left_ n) (right_ n) (parent_ n) (v_ n) (a_ n).
Definition withLeft (c : nptr) (n : binaryNode) : binaryNode :=
  mkBn (elementLeft_ n) (elementRight_ n) c (right_ n) (parent_ n) (v_ n) (a_ n).
Definition withRight (c : nptr) (n : binaryNode) : binaryNode :=
  mkBn (elementLeft_ n) (elementRight_ n) (left_ n) c (parent_ n) (v_ n) (a_ n).
Definition withParent (p : nptr) (n : binaryNode) : binaryNode :=
  mkBn (elementLeft_ n) (elementRight_ n) (left_ n) (right_ n) p (v_ n) (a_ n).
Definition withNode (p : nptr) (c : chemPointISAT) : chemPointISAT :=
  mkChP (phi_ c) (Rphi_ c) (LT_ c) (QT_ c) (A_ c) (scaleFactor_ c) p
    (nUsed_ c) (nGrown_ c).

(** ** Store access *)

Definition getNode (t : binaryTree) (p : nptr) : outcome binaryNode :=
  match p with
  | Some n => ofOption (nodes t !! n)
  | None => Fault
  end.

Definition getLeaf (t : binaryTree) (p : lptr) : outcome chemPointISAT :=
  match p with
  | Some l => ofOption (leaves t !! l)
  | None => Fault
  end.

(** [p->field() = ...] on a node: the object must exist. *)
Definition updNode (t : binaryTree) (p : nptr) (f : binaryNode → binaryNode)
    : outcome binaryTree :=
  nd ← getNode t p ;
  match p with
  | Some n => Done (setNodes (<[n := f nd]> (nodes t)) t)
  | None => Fault
  end.

Definition updLeaf (t : binaryTree) (p : lptr) (f : chemPointISAT → chemPointISAT)
    : outcome binaryTree :=
  lf ← getLeaf t p ;
  match p with
  | Some l => Done (setLeaves (<[l := f lf]> (leaves t)) t)
  | None => Fault
  end.

(** [new bn(...)] and [new chP(...)]: a fresh address of the store. *)
Definition newNodeAddr (t : binaryTree) : positive := fresh (dom (nodes t)).
Definition newLeafAddr (t : binaryTree) : positive := fresh (dom (leaves t)).

(** [deleteDemandDrivenData(p)] of OpenFOAM: [if (p) { delete p; p = 0; }].
    These two give the store after the [delete]; resetting the pointer
    variable is done by the caller where the variable is observable. *)
Definition deleteNodeData (t : binaryTree) (p : nptr) : outcome binaryTree :=
  match p with
  | None => Done t
  | Some n =>
      match nodes t !! n with
      | Some _ => Done (setNodes (delete n (nodes t)) t)
      | None => Fault
      end
  end.

Definition deleteLeafData (t : binaryTree) (p : lptr) : outcome binaryTree :=
  match p with
  | None => Done t
  | Some l =>
      match leaves t !! l with
      | Some _ => Done (setLeaves (delete l (leaves t)) t)
      | None => Fault
      end
  end.

(** ** Code outside the sources *)

(** The numerical kernels of the leaf and of the node are defined in
    chemPointISAT.C and binaryNode.C, and [SortableList] in OpenFOAM; none
    of them is part of the sources. They are parameters of the model:
    [inEOA] is the ellipsoid test of a leaf, [calcV] and [calcA] compute
    the hyperplane of a node from its two leaves, [initLT] and [initQT]
    the ellipsoid factors of a new leaf, and [sortedIndices] the index
    permutation [SortableList::sort] leaves in [indices()]. *)
Class LeafOps := {
  inEOA : chemPointISAT → list scalar → bool;
  calcV : chemPointISAT → chemPointISAT → list scalar;
  calcA : chemPointISAT → chemPointISAT → scalar;
  initLT : list (list scalar) → list scalar → scalar → Z → list (list scalar);
  initQT : list (list scalar) → list scalar → scalar → Z → list (list scalar);
  sortedIndices : list scalar → list Z
}.
Context `{LO : LeafOps}.

(** Modelled from the spec: the constructor of chemPointISAT.C is missing.
    A new leaf stores the sampled input and output, the Jacobian and the
    scale factors it is given, the ellipsoid factors computed from them and
    the node it is attached to; its usage counters start at zero. *)
Definition newChP (phiq Rphiq : list scalar) (A : list (list scalar))
    (scaleFactor : list scalar) (epsTol : scalar) (nCols : Z) (node : nptr)
    : chemPointISAT :=
  mkChP phiq Rphiq (initLT A scaleFactor epsTol nCols)
    (initQT A scaleFactor epsTol nCols) A scaleFactor node 0 0.

(** Modelled from the spec: the constructors of binaryNode.C are missing.
    The null constructor gives the empty node used as root placeholder (no
    hyperplane: [v_] is empty and [a_], which the C++ leaves unset, is
    never read on it). *)
Definition bnNull : binaryNode :=
  mkBn None None None None None [] sZero.

(** Modelled from the spec: the constructors of binaryNode.C are missing.
    A node built from two leaves and a parent holds the leaves in its
    element slots, has no child node, and carries the hyperplane computed
    from the two leaves (both are dereferenced). *)
Definition bnFrom (t : binaryTree) (eL eR : lptr) (parent : nptr) : outcome binaryNode :=
  cl ← getLeaf t eL ;
  cr ← getLeaf t eR ;
  Done (mkBn eL eR None None parent (calcV cl cr) (calcA cl cr)).

(** ** Primary search *)

(** [for (label i=0; i<phiq.size(); i++) vPhi += phiq[i]*v[i];] *)
Fixpoint vDotPhi (vPhi : scalar) (phiq v : list scalar) : outcome scalar :=
  match phiq with
  | [] => Done vPhi
  | p :: phiq' =>
      match v with
      | [] => Fault
      | x :: v' => vDotPhi (sadd vPhi (smul p x)) phiq' v'
      end
  end.

Fixpoint binaryTreeSearch (fuel : nat) (t : binaryTree) (phiq : list scalar)
    (node : nptr) : outcome lptr :=
  if (1 <? size_ t)%Z then
    match fuel with
    | O => OutOfFuel
    | S fuel' =>
        nd ← getNode t node ;
        vPhi ← vDotPhi sZero phiq (v_ nd) ;
        if sgt vPhi (a_ nd) then
          match right_ nd with
          | Some r => binaryTreeSearch fuel' t phiq (Some r)
          | None => Done (elementRight_ nd)
          end
        else
          match left_ nd with
          | Some l => binaryTreeSearch fuel' t phiq (Some l)
          | None => Done (elementLeft_ nd)
          end
    end
  else if (size_ t =? 1)%Z then
    rt ← getNode t (root_ t) ;
    Done (elementLeft_ rt)
  else Done None.

(** [depth(subTreeRoot)] *)
Fixpoint depth (fuel : nat) (t : binaryTree) (subTreeRoot : nptr) : outcome Z :=
  match subTreeRoot with
  | None => Done 0%Z
  | Some _ =>
      match fuel with
      | O => OutOfFuel
      | S fuel' =>
          nd ← getNode t subTreeRoot ;
          dl ← depth fuel' t (left_ nd) ;
          dr ← depth fuel' t (right_ nd) ;
          Done (1 + Z.max dl dr)%Z
      end
  end.

(** ** Siblings *)

(** [chemPSibling(bn* y)] *)
Definition chemPSiblingN (t : binaryTree) (y : nptr) : outcome lptr :=
  ynd ← getNode t y ;
  match parent_ ynd with
  | Some _ =>
      pnd ← getNode t (parent_ ynd) ;
      if bool_decide (y = left_ pnd) then Done (elementRight_ pnd)
      else Done (elementLeft_ pnd)
  | None => Done None
  end.

(** [chemPSibling(chP* x)] *)
Definition chemPSibling (t : binaryTree) (x : lptr) : outcome lptr :=
  if (1 <? size_ t)%Z then
    xlf ← getLeaf t x ;
    ynd ← getNode t (node_ xlf) ;
    if bool_decide (x = elementLeft_ ynd) then Done (elementRight_ ynd)
    else Done (elementLeft_ ynd)
  else Done None.

(** [nodeSibling(bn* y)] *)
Definition nodeSiblingN (t : binaryTree) (y : nptr) : outcome nptr :=
  ynd ← getNode t y ;
  match parent_ ynd with
  | Some _ =>
      pnd ← getNode t (parent_ ynd) ;
      if bool_decide (y = left_ pnd) then Done (right_ pnd)
      else Done (left_ pnd)
  | None => Done None
  end.

(** [nodeSibling(chP* x)] *)
Definition nodeSibling (t : binaryTree) (x : lptr) : outcome nptr :=
  if (1 <? size_ t)%Z then
    xlf ← getLeaf t x ;
    ynd ← getNode t (node_ xlf) ;
    if bool_decide (x = elementLeft_ ynd) then Done (right_ ynd)
    else Done (left_ ynd)
  else Done None.

(** ** Insertion *)

(** [insertNode(phi0, newNode)] *)
Definition insertNode (t : binaryTree) (phi0 : lptr) (newNode : nptr)
    : outcome binaryTree :=
  lf ← getLeaf t phi0 ;
  pnd ← getNode t (node_ lf) ;
  if bool_decide (phi0 = elementRight_ pnd) then
    updNode t (node_ lf) (λ n, withRight newNode (withElementRight None n))
  else
    updNode t (node_ lf) (λ n, withLeft newNode (withElementLeft None n)).

(** [insertNewLeaf(phiq, Rphiq, A, scaleFactor, epsTol, nCols, phi0)]. The
    reference argument [phi0] is returned with the tree. *)
Definition insertNewLeaf (fuel : nat) (t : binaryTree) (phiq Rphiq : list scalar)
    (A : list (list scalar)) (scaleFactor : list scalar) (epsTol : scalar)
    (nCols : Z) (phi0 : lptr) : outcome (binaryTree * lptr) :=
  '(t', phi0') ←
    (if (size_ t =? 0)%Z then
       let r := newNodeAddr t in
       let t1 := setRoot (Some r) (setNodes (<[r := bnNull]> (nodes t)) t) in
       let c := newLeafAddr t1 in
       let t2 := setLeaves
         (<[c := newChP phiq Rphiq A scaleFactor epsTol nCols (root_ t1)]> (leaves t1)) t1 in
       t3 ← updNode t2 (root_ t2) (withElementLeft (Some c)) ;
       Done (t3, phi0)
     else
       phi0' ← match phi0 with
               | None => binaryTreeSearch fuel t phiq (root_ t)
               | Some _ => Done phi0
               end ;
       lf0 ← getLeaf t phi0' ;
       let parentNode := node_ lf0 in
       let c := newLeafAddr t in
       let t1 := setLeaves
         (<[c := newChP phiq Rphiq A scaleFactor epsTol nCols None]> (leaves t)) t in
       '(t2, newNode) ←
         (if (1 <? size_ t1)%Z then
            nd ← bnFrom t1 phi0' (Some c) parentNode ;
            let n := newNodeAddr t1 in
            let t2 := setNodes (<[n := nd]> (nodes t1)) t1 in
            t3 ← insertNode t2 phi0' (Some n) ;
            Done (t3, Some n)
          else
            t2 ← deleteNodeData t1 (root_ t1) ;
            let t2 := setRoot None t2 in
            nd ← bnFrom t2 phi0' (Some c) None ;
            let n := newNodeAddr t2 in
            Done (setRoot (Some n) (setNodes (<[n := nd]> (nodes t2)) t2), Some n)) ;
       t3 ← updLeaf t2 phi0' (withNode newNode) ;
       t4 ← updLeaf t3 (Some c) (withNode newNode) ;
       Done (t4, phi0')) ;
  Done (setSize (size_ t' + 1)%Z t', phi0').

(** ** Deletion *)

(** [transplant(u, v)] *)
Definition transplant (t : binaryTree) (u v : nptr) : outcome binaryTree :=
  und ← getNode t u ;
  t1 ← match parent_ und with
       | None => Done (setRoot v t)
       | Some _ =>
           pnd ← getNode t (parent_ und) ;
           if bool_decide (u = left_ pnd) then updNode t (parent_ und) (withLeft v)
           else updNode t (parent_ und) (withRight v)
       end ;
  match v with
  | Some _ =>
      und' ← getNode t1 u ;
      updNode t1 v (withParent (parent_ und'))
  | None => Done t1
  end.

(** [deleteLeaf(phi0)] *)
Definition deleteLeaf (t : binaryTree) (phi0 : lptr) : outcome binaryTree :=
  t' ←
    (if (size_ t =? 1)%Z then
       t1 ← deleteLeafData t phi0 ;
       t2 ← deleteNodeData t1 (root_ t1) ;
       Done (setRoot None t2)
     else if (1 <? size_ t)%Z then
       lf ← getLeaf t phi0 ;
       let z := node_ lf in
       siblingPhi0 ← chemPSibling t phi0 ;
       znd ← getNode t z ;
       t1 ← match siblingPhi0 with
            | Some _ =>
                match parent_ znd with
                | None =>
                    let r := newNodeAddr t in
                    let t1 := setRoot (Some r) (setNodes (<[r := bnNull]> (nodes t)) t) in
                    t2 ← updNode t1 (root_ t1) (withElementLeft siblingPhi0) ;
                    updLeaf t2 siblingPhi0 (withNode (root_ t2))
                | Some _ =>
                    pnd ← getNode t (parent_ znd) ;
                    if bool_decide (z = left_ pnd) then
                      t1 ← updNode t (parent_ znd) (withElementLeft siblingPhi0) ;
                      t2 ← updNode t1 (parent_ znd) (withLeft None) ;
                      updLeaf t2 siblingPhi0 (withNode (parent_ znd))
                    else
                      t1 ← updNode t (parent_ znd) (withElementRight siblingPhi0) ;
                      t2 ← updNode t1 (parent_ znd) (withRight None) ;
                      updLeaf t2 siblingPhi0 (withNode (parent_ znd))
                end
            | None =>
                x ← nodeSibling t phi0 ;
                transplant t z x
            end ;
       t2 ← deleteLeafData t1 phi0 ;
       deleteNodeData t2 z
     else Done t) ;
  Done (setSize (size_ t' - 1)%Z t').

(** [deleteSubTree(subTreeRoot)]. The element slots are references, so
    [deleteDemandDrivenData] also resets them in the node. *)
Fixpoint deleteSubTree (fuel : nat) (t : binaryTree) (subTreeRoot : nptr)
    : outcome binaryTree :=
  match subTreeRoot with
  | None => Done t
  | Some _ =>
      match fuel with
      | O => OutOfFuel
      | S fuel' =>
          nd ← getNode t subTreeRoot ;
          t1 ← deleteLeafData t (elementLeft_ nd) ;
          t1 ← updNode t1 subTreeRoot (withElementLeft None) ;
          t2 ← deleteLeafData t1 (elementRight_ nd) ;
          t2 ← updNode t2 subTreeRoot (withElementRight None) ;
          t3 ← deleteSubTree fuel' t2 (left_ nd) ;
          t4 ← deleteSubTree fuel' t3 (right_ nd) ;
          deleteNodeData t4 subTreeRoot
      end
  end.

(** [deleteAllNode(subTreeRoot)] *)
Fixpoint deleteAllNode (fuel : nat) (t : binaryTree) (subTreeRoot : nptr)
    : outcome binaryTree :=
  match subTreeRoot with
  | None => Done t
  | Some _ =>
      match fuel with
      | O => OutOfFuel
      | S fuel' =>
          nd ← getNode t subTreeRoot ;
          t1 ← deleteAllNode fuel' t (left_ nd) ;
          t2 ← deleteAllNode fuel' t1 (right_ nd) ;
          deleteNodeData t2 subTreeRoot
      end
  end.

(** [clear()]. Modelled from the spec: binaryTree.H, which declares the
    overload [deleteSubTree()] without argument, is missing; it deletes
    the subtree of [root_]. *)
Definition clear (fuel : nat) (t : binaryTree) : outcome binaryTree :=
  t1 ← deleteSubTree fuel t (root_ t) ;
  Done (setSize 0%Z (setRoot None t1)).

(** [isFull()] *)
Definition isFull (t : binaryTree) : bool := (maxElements_ t <=? size_ t)%Z.

(** ** Secondary search *)

(** The state the secondary search threads through its calls: the member
    [n2ndSearch_], the reference argument [x], and (as a ghost) the leaves
    on which [inEOA] has been called, in call order. The state is returned
    with every outcome, also with [Fault] and [OutOfFuel]. *)
Record search2 : Type := mkS2 {
  cnt : Z;
  xref : lptr;
  tested : list positive
}.

Definition sbind {A B : Type} (m : search2 * outcome A)
    (k : search2 → A → search2 * outcome B) : search2 * outcome B :=
  match m with
  | (s, Done a) => k s a
  | (s, Fault) => (s, Fault)
  | (s, OutOfFuel) => (s, OutOfFuel)
  end.

(** [n2ndSearch_++; x = e; ... x->inEOA(phiq)] of [inSubTree]. *)
Definition eoaTestSet (t : binaryTree) (phiq : list scalar) (e : lptr)
    (s : search2) : search2 * outcome bool :=
  match e with
  | Some l =>
      match leaves t !! l with
      | Some lf => (mkS2 (cnt s + 1) e (tested s ++ [l]), Done (inEOA lf phiq))
      | None => (mkS2 (cnt s + 1) e (tested s), Fault)
      end
  | None => (mkS2 (cnt s + 1) e (tested s), Fault)
  end.

(** [n2ndSearch_++; if (xS->inEOA(phiq)) { x = xS; return true; }] of
    [secondaryBTSearch]. *)
Definition eoaTestKeep (t : binaryTree) (phiq : list scalar) (xS : lptr)
    (s : search2) : search2 * outcome bool :=
  match xS with
  | Some l =>
      match leaves t !! l with
      | Some lf =>
          if inEOA lf phiq then (mkS2 (cnt s + 1) xS (tested s ++ [l]), Done true)
          else (mkS2 (cnt s + 1) (xref s) (tested s ++ [l]), Done false)
      | None => (mkS2 (cnt s + 1) (xref s) (tested s), Fault)
      end
  | None => (mkS2 (cnt s + 1) (xref s) (tested s), Fault)
  end.

(** [inSubTree(phiq, y, x)] *)
Fixpoint inSubTree (fuel : nat) (t : binaryTree) (phiq : list scalar)
    (y : nptr) (s : search2) : search2 * outcome bool :=
  if (cnt s <? max2ndSearch_ t)%Z && bool_decide (y ≠ None) then
    match fuel with
    | O => (s, OutOfFuel)
    | S fuel' =>
        sbind (s, getNode t y) (λ s ynd,
        sbind (s, vDotPhi sZero phiq (v_ ynd)) (λ s vPhi,
        if sle vPhi (a_ ynd) then
          sbind
            (match left_ ynd with
             | None => eoaTestSet t phiq (elementLeft_ ynd) s
             | Some _ => inSubTree fuel' t phiq (left_ ynd) s
             end)
            (λ s found,
             if found then (s, Done true)
             else if (cnt s <? max2ndSearch_ t)%Z && bool_decide (right_ ynd = None)
             then eoaTestSet t phiq (elementRight_ ynd) s
             else inSubTree fuel' t phiq (right_ ynd) s)
        else
          sbind
            (match right_ ynd with
             | None => eoaTestSet t phiq (elementRight_ ynd) s
             | Some _ => inSubTree fuel' t phiq (right_ ynd) s
             end)
            (λ s found,
             if found then (s, Done true)
             else if (cnt s <? max2ndSearch_ t)%Z && bool_decide (left_ ynd = None)
             then eoaTestSet t phiq (elementLeft_ ynd) s
             else inSubTree fuel' t phiq (left_ ynd) s)))
    end
  else (s, Done false).

(** The [while] loop of [secondaryBTSearch], entered with [y]. *)
Fixpoint secondaryClimb (fuel : nat) (t : binaryTree) (phiq : list scalar)
    (y : nptr) (s : search2) : search2 * outcome bool :=
  sbind (s, getNode t y) (λ s ynd,
  if bool_decide (parent_ ynd ≠ None) && (cnt s <? max2ndSearch_ t)%Z then
    match fuel with
    | O => (s, OutOfFuel)
    | S fuel' =>
        sbind (s, chemPSiblingN t y) (λ s xS,
        sbind
          (match xS with
           | Some _ => eoaTestKeep t phiq xS s
           | None =>
               sbind (s, nodeSiblingN t y) (λ s ys, inSubTree fuel' t phiq ys s)
           end)
          (λ s found,
           if found then (s, Done true)
           else secondaryClimb fuel' t phiq (parent_ ynd) s))
    end
  else (s, Done false)).

(** The body of [secondaryBTSearch(phiq, x)] on the threaded state. *)
Definition secondaryBTSearchFrom (fuel : nat) (t : binaryTree)
    (phiq : list scalar) (s0 : search2) : search2 * outcome bool :=
  let s := mkS2 0%Z (xref s0) (tested s0) in
  if (cnt s <? max2ndSearch_ t)%Z && (1 <? size_ t)%Z then
    sbind (s, chemPSibling t (xref s)) (λ s xS,
    sbind
      (match xS with
       | Some _ => eoaTestKeep t phiq xS s
       | None =>
           sbind (s, nodeSibling t (xref s)) (λ s ys, inSubTree fuel t phiq ys s)
       end)
      (λ s found,
       if found then (s, Done true)
       else
         sbind (s, getLeaf t (xref s)) (λ s xlf,
         secondaryClimb fuel t phiq (node_ xlf) s)))
  else (s, Done false).

(** [secondaryBTSearch(phiq, x)]: the tree with the counter it leaves, the
    final value of [x], the leaves tested, and the returned flag. *)
Definition secondaryBTSearch (fuel : nat) (t : binaryTree) (phiq : list scalar)
    (x : lptr) : binaryTree * lptr * list positive * outcome bool :=
  let '(s, r) := secondaryBTSearchFrom fuel t phiq (mkS2 (n2ndSearch_ t) x []) in
  (setN2ndSearch (cnt s) t, xref s, tested s, r).

(** ** Traversal *)

(** [treeMin(subTreeRoot)] *)
Fixpoint treeMinLoop (fuel : nat) (t : binaryTree) (subTreeRoot : nptr)
    : outcome lptr :=
  nd ← getNode t subTreeRoot ;
  match left_ nd with
  | Some _ =>
      match fuel with
      | O => OutOfFuel
      | S fuel' => treeMinLoop fuel' t (left_ nd)
      end
  | None => Done (elementLeft_ nd)
  end.

Definition treeMin (fuel : nat) (t : binaryTree) (subTreeRoot : nptr)
    : outcome lptr :=
  match subTreeRoot with
  | Some _ => treeMinLoop fuel t subTreeRoot
  | None => Done None
  end.

(** The [while] loop of [treeSuccessor], entered with [y]. *)
Fixpoint successorClimb (fuel : nat) (t : binaryTree) (y : nptr) : outcome lptr :=
  ynd ← getNode t y ;
  match parent_ ynd with
  | None => Done None
  | Some _ =>
      match fuel with
      | O => OutOfFuel
      | S fuel' =>
          pnd ← getNode t (parent_ ynd) ;
          if bool_decide (y = left_ pnd) then
            match right_ pnd with
            | None => Done (elementRight_ pnd)
            | Some _ => treeMin fuel' t (right_ pnd)
            end
          else successorClimb fuel' t (parent_ ynd)
      end
  end.

(** [treeSuccessor(x)] *)
Definition treeSuccessor (fuel : nat) (t : binaryTree) (x : lptr) : outcome lptr :=
  if (1 <? size_ t)%Z then
    xlf ← getLeaf t x ;
    xnd ← getNode t (node_ xlf) ;
    if bool_decide (x = elementLeft_ xnd) then
      match right_ xnd with
      | None => Done (elementRight_ xnd)
      | Some _ => treeMin fuel t (right_ xnd)
      end
    else successorClimb fuel t (node_ xlf)
  else Done None.

(** ** Lists indexed by labels *)

Definition zlookup {A : Type} (l : list A) (i : Z) : outcome A :=
  if (i <? 0)%Z then Fault else ofOption (l !! Z.to_nat i).

Definition zinsert {A : Type} (l : list A) (i : Z) (x : A) : outcome (list A) :=
  if (i <? 0)%Z then Fault
  else if (Z.to_nat i <? length l)%nat then Done (<[Z.to_nat i := x]> l)
  else Fault.

(** [mean += phij]: elementwise over the extent of [mean]. *)
Fixpoint fieldAdd (mean phij : list scalar) : outcome (list scalar) :=
  match mean with
  | [] => Done []
  | m :: mean' =>
      match phij with
      | [] => Fault
      | x :: phij' => r ← fieldAdd mean' phij' ; Done (sadd m x :: r)
      end
  end.

(** [variance[vi] += sqr(phij[vi]-mean[vi])] for every [vi]. *)
Fixpoint varianceAdd (variance phij mean : list scalar) : outcome (list scalar) :=
  match variance with
  | [] => Done []
  | w :: variance' =>
      match phij, mean with
      | x :: phij', m :: mean' =>
          r ← varianceAdd variance' phij' mean' ;
          Done (sadd w (ssqr (ssub x m)) :: r)
      | _, _ => Fault
      end
  end.

(** ** Rebalancing *)

(** Step 1 and 2 of [balance]: the [while (x != NULL)] loop that walks the
    leaves with [treeSuccessor], sums their [phi] and stores them. *)
Fixpoint collectLeaves (fuel : nat) (t : binaryTree) (x : lptr)
    (mean : list scalar) (chemPoints : list lptr) (chPi : Z)
    : outcome (list scalar * list lptr) :=
  match x with
  | None => Done (mean, chemPoints)
  | Some _ =>
      match fuel with
      | O => OutOfFuel
      | S fuel' =>
          xlf ← getLeaf t x ;
          mean' ← fieldAdd mean (phi_ xlf) ;
          chemPoints' ← zinsert chemPoints chPi x ;
          x' ← treeSuccessor fuel' t x ;
          collectLeaves fuel' t x' mean' chemPoints' (chPi + 1)%Z
      end
  end.

(** Step 3: the variance loop over [chemPoints]. *)
Fixpoint varianceLoop (t : binaryTree) (chemPoints : list lptr)
    (mean variance : list scalar) : outcome (list scalar) :=
  match chemPoints with
  | [] => Done variance
  | c :: chemPoints' =>
      clf ← getLeaf t c ;
      variance' ← varianceAdd variance (phi_ clf) mean ;
      varianceLoop t chemPoints' mean variance'
  end.

(** The inner [forAll] of step 4: the number of leaves below the mean in
    direction [curDir]. *)
Fixpoint countLeft (t : binaryTree) (chemPoints : list lptr)
    (mean : list scalar) (curDir : Z) (nbLeft : Z) : outcome Z :=
  match chemPoints with
  | [] => Done nbLeft
  | c :: chemPoints' =>
      clf ← getLeaf t c ;
      phiMaxDir ← zlookup (phi_ clf) curDir ;
      meanDir ← zlookup mean curDir ;
      countLeft t chemPoints' mean curDir
        (if slt phiMaxDir meanDir then nbLeft + 1 else nbLeft)%Z
  end.

(** The condition of the [while] loop of step 4. In
    [nbTests<maxNbBalanceTest_] the label [nbTests] is compared with the
    cap as a scalar. *)
Definition balanceGuard (t : binaryTree) (varianceSize nbLeft nbTests : Z) : bool :=
  (slt (ofLabel nbLeft) (smul (balanceProp_ t) (ofLabel (size_ t)))
   || sgt (ofLabel nbLeft)
        (smul (ssub (ofLabel 1) (balanceProp_ t)) (ofLabel (size_ t))))
  && (slt (ofLabel nbTests) (maxNbBalanceTest_ t)
      && (nbTests <? varianceSize - 1)%Z).

(** The [while] loop of step 4; it returns [maxDir]. The loop runs at most
    [varianceSize - 1] times, which bounds [fuel]. *)
Fixpoint selectDir (fuel : nat) (t : binaryTree) (chemPoints : list lptr)
    (mean : list scalar) (indices : list Z) (varianceSize : Z)
    (maxDir nbLeft nbTests : Z) (bestBalance : scalar) : outcome Z :=
  if balanceGuard t varianceSize nbLeft nbTests then
    match fuel with
    | O => OutOfFuel
    | S fuel' =>
        let nbTests := (nbTests + 1)%Z in
        curDir ← zlookup indices (varianceSize - nbTests)%Z ;
        nbLeft ← countLeft t chemPoints mean curDir 0%Z ;
        let b := sfabs (ssub (ofLabel nbLeft) (smul (ofLabel (size_ t)) sLit05)) in
        if slt b bestBalance
        then selectDir fuel' t chemPoints mean indices varianceSize curDir nbLeft nbTests b
        else selectDir fuel' t chemPoints mean indices varianceSize maxDir nbLeft nbTests
               bestBalance
    end
  else Done maxDir.

(** The [forAll] that looks for the extreme leaves in direction [maxDir];
    it returns [(minId, maxId)]. *)
Fixpoint findExtremes (t : binaryTree) (chemPoints : list lptr) (maxDir : Z)
    (j : Z) (maxPhi minPhi : scalar) (minId maxId : Z) : outcome (Z * Z) :=
  match chemPoints with
  | [] => Done (minId, maxId)
  | c :: chemPoints' =>
      clf ← getLeaf t c ;
      phiMaxDir ← zlookup (phi_ clf) maxDir ;
      let '(maxId, maxPhi) :=
        if sgt phiMaxDir maxPhi then (j, phiMaxDir) else (maxId, maxPhi) in
      let '(minId, minPhi) :=
        if slt phiMaxDir minPhi then (j, phiMaxDir) else (minId, minPhi) in
      findExtremes t chemPoints' maxDir (j + 1)%Z maxPhi minPhi minId maxId
  end.

(** The shuffle of [chPIndex]: [rand i] is the value
    [randGenerator.integer(i, size_-1)] returns in iteration [i]. *)
Fixpoint shuffle (rand : Z → Z) (n : nat) (i : Z) (chPIndex : list Z)
    : outcome (list Z) :=
  match n with
  | O => Done chPIndex
  | S n' =>
      let j := rand i in
      tmp ← zlookup chPIndex i ;
      cj ← zlookup chPIndex j ;
      l1 ← zinsert chPIndex i cj ;
      l2 ← zinsert l1 j tmp ;
      shuffle rand n' (i + 1)%Z l2
  end.

(** The body of the last [forAll] of [balance], for one [cpi]. *)
Definition reinsertOne (fuel : nat) (t : binaryTree) (chemPoints : list lptr)
    (minId maxId : Z) (idx : Z) : outcome binaryTree :=
  if negb (idx =? minId)%Z && negb (idx =? maxId)%Z then
    c ← zlookup chemPoints idx ;
    clf ← getLeaf t c ;
    phi0 ← binaryTreeSearch fuel t (phi_ clf) (root_ t) ;
    lf0 ← getLeaf t phi0 ;
    nd ← bnFrom t phi0 c (node_ lf0) ;
    let n := newNodeAddr t in
    let t1 := setNodes (<[n := nd]> (nodes t)) t in
    t2 ← insertNode t1 phi0 (Some n) ;
    t3 ← updLeaf t2 phi0 (withNode (Some n)) ;
    updLeaf t3 c (withNode (Some n))
  else Done t.

Fixpoint reinsertAll (fuel : nat) (t : binaryTree) (chemPoints : list lptr)
    (minId maxId : Z) (chPIndex : list Z) (cpi : nat) (todo : nat)
    : outcome binaryTree :=
  match todo with
  | O => Done t
  | S todo' =>
      idx ← ofOption (chPIndex !! cpi) ;
      t' ← reinsertOne fuel t chemPoints minId maxId idx ;
      reinsertAll fuel t' chemPoints minId maxId chPIndex (S cpi) todo'
  end.

(** The first half of [balance]: the leaves in traversal order, the split
    direction and the positions of the two extreme leaves. Modelled from
    the spec: binaryTree.H, which declares the overload [treeMin()]
    without argument, is missing; it starts at [root_]. *)
Definition balanceSelect (fuel : nat) (t : binaryTree)
    : outcome (list lptr * Z * Z * Z) :=
  let n := Z.to_nat (nEqns_ t) in
  x ← treeMin fuel t (root_ t) ;
  '(mean, chemPoints) ←
    collectLeaves fuel t x (replicate n sZero)
      (replicate (Z.to_nat (size_ t)) None) 0%Z ;
  let mean := (λ m, sdiv m (ofLabel (size_ t))) <$> mean in
  variance ← varianceLoop t chemPoints mean (replicate n sZero) ;
  let indices := sortedIndices variance in
  maxDir ← selectDir n t chemPoints mean indices (Z.of_nat (length variance))
             (-1)%Z 0%Z 0%Z (ofLabel (size_ t)) ;
  '(minId, maxId) ←
    findExtremes t chemPoints maxDir 0%Z (ofLabel 0) sGREAT (-1)%Z (-1)%Z ;
  Done (chemPoints, maxDir, minId, maxId).

(** [balance()]. Modelled from the spec: binaryTree.H, which declares the
    overload [deleteAllNode()] without argument, is missing; it deletes the
    nodes under [root_]. *)
Definition balance (fuel : nat) (rand : Z → Z) (t : binaryTree)
    : outcome (binaryTree * bool) :=
  if (minBalanceThreshold_ t <? size_ t)%Z then
    '(chemPoints, maxDir, minId, maxId) ← balanceSelect fuel t ;
    minRef ← zlookup chemPoints minId ;
    maxRef ← zlookup chemPoints maxId ;
    t1 ← deleteAllNode fuel t (root_ t) ;
    let t1 := setRoot None t1 in
    nd ← bnFrom t1 minRef maxRef None ;
    let n := newNodeAddr t1 in
    let t2 := setRoot (Some n) (setNodes (<[n := nd]> (nodes t1)) t1) in
    t3 ← updLeaf t2 minRef (withNode (Some n)) ;
    t4 ← updLeaf t3 maxRef (withNode (Some n)) ;
    chPIndex ← shuffle rand (Z.to_nat (size_ t4)) 0%Z
                 (Z.of_nat <$> seq 0 (Z.to_nat (size_ t4))) ;
    t5 ← reinsertAll fuel t4 chemPoints minId maxId chPIndex 0 (length chemPoints) ;
    Done (t5, true)
  else Done (t, false).

(** ** Abstract shape of a tree and its representation in the store *)

(** A side of a node is either a leaf slot or a child node. *)
Inductive shape : Type :=
  | Leaf (l : positive)
  | Node (n : positive) (tl tr : shape).

#[export] Instance shape_eq_dec : EqDecision shape.
Proof. solve_decision. Defined.

(** The leaves of a shape from left to right, and its nodes. *)
Fixpoint shapeLeaves (T : shape) : list positive :=
  match T with
  | Leaf l => [l]
  | Node _ tl tr => shapeLeaves tl ++ shapeLeaves tr
  end.

Fixpoint shapeNodes (T : shape) : list positive :=
  match T with
  | Leaf _ => []
  | Node n tl tr => n :: shapeNodes tl ++ shapeNodes tr
  end.

Fixpoint shapeHeight (T : shape) : nat :=
  match T with
  | Leaf _ => 0
  | Node _ tl tr => S (shapeHeight tl `max` shapeHeight tr)
  end.

(** [repr N L p T c e]: the side with child pointer [c] and element
    pointer [e] of the node [p] holds the shape [T] in the store [(N, L)].
    A leaf slot has no child node and the leaf points back to [p]; a child
    node has an empty element slot, its parent pointer is [p], and its two
    sides hold the two subshapes. *)
Fixpoint repr (N : gmap positive binaryNode) (L : gmap positive chemPointISAT)
    (p : nptr) (T : shape) (c : nptr) (e : lptr) : Prop :=
  match T with
  | Leaf l =>
      c = None ∧ e = Some l ∧ ∃ lf, L !! l = Some lf ∧ node_ lf = p
  | Node n tl tr =>
      c = Some n ∧ e = None ∧
      ∃ nd, N !! n = Some nd ∧ parent_ nd = p ∧
        repr N L (Some n) tl (left_ nd) (elementLeft_ nd) ∧
        repr N L (Some n) tr (right_ nd) (elementRight_ nd)
  end.

(** The three kinds of tree states of the data model: no leaf; one leaf
    held in the left slot of an empty root node; two leaves or more. *)
Inductive abstree : Type :=
  | TEmpty
  | TSingle (r l : positive)
  | TFull (n : positive) (tl tr : shape).

Definition treeLeaves (a : abstree) : list positive :=
  match a with
  | TEmpty => []
  | TSingle _ l => [l]
  | TFull n tl tr => shapeLeaves (Node n tl tr)
  end.

Definition treeNodes (a : abstree) : list positive :=
  match a with
  | TEmpty => []
  | TSingle r _ => [r]
  | TFull n tl tr => shapeNodes (Node n tl tr)
  end.

(** The invariant of the data model (spec, tree invariants 1 to 3). *)
Definition treeInv (t : binaryTree) (a : abstree) : Prop :=
  size_ t = Z.of_nat (length (treeLeaves a)) ∧
  NoDup (treeNodes a) ∧ NoDup (treeLeaves a) ∧
  match a with
  | TEmpty => root_ t = None
  | TSingle r l =>
      root_ t = Some r ∧
      ∃ nd, nodes t !! r = Some nd ∧ parent_ nd = None ∧
        left_ nd = None ∧ right_ nd = None ∧ elementRight_ nd = None ∧
        repr (nodes t) (leaves t) (Some r) (Leaf l) (left_ nd) (elementLeft_ nd)
  | TFull n tl tr =>
      repr (nodes t) (leaves t) None (Node n tl tr) (root_ t) None
  end.

(** The tree owns every object of the store. *)
Definition ownsStore (t : binaryTree) (a : abstree) : Prop :=
  (∀ n, is_Some (nodes t !! n) → n ∈ treeNodes a) ∧
  (∀ l, is_Some (leaves t !! l) → l ∈ treeLeaves a).

(** ** Leaves stored in a tree, directly on the store *)

Inductive reachable (t : binaryTree) : positive → Prop :=
  | reach_root n : root_ t = Some n → reachable t n
  | reach_left n nd m :
      reachable t n → nodes t !! n = Some nd → left_ nd = Some m → reachable t m
  | reach_right n nd m :
      reachable t n → nodes t !! n = Some nd → right_ nd = Some m → reachable t m.

(** [l] sits in an element slot of the node [n]. *)
Definition holds (t : binaryTree) (n l : positive) : Prop :=
  ∃ nd, nodes t !! n = Some nd ∧
    (elementLeft_ nd = Some l ∨ elementRight_ nd = Some l).

(** [l] is a leaf of the tree: a node reachable from the root holds it. *)
Definition stored (t : binaryTree) (l : positive) : Prop :=
  ∃ n, reachable t n ∧ holds t n l.

(** The node back-pointer of [l] refers to a node that holds [l]. *)
Definition backPointerOk (t : binaryTree) (l : positive) : Prop :=
  ∃ lf n, leaves t !! l = Some lf ∧ node_ lf = Some n ∧ holds t n l.

(** The payload of a leaf: everything but its node back-pointer. *)
Definition payload (c : chemPointISAT) : chemPointISAT := withNode None c.

(** The slot of a leaf of a represented shape: the leaf points to the node
    whose left or right side is its slot. *)
Definition leafSlot (N : gmap positive binaryNode) (q l : positive) : Prop :=
  ∃ qnd, N !! q = Some qnd ∧
    ((left_ qnd = None ∧ elementLeft_ qnd = Some l) ∨
     (right_ qnd = None ∧ elementRight_ qnd = Some l)).

(** What [insertNode] does to the node that holds [l]. *)
Definition spliceSide (l n : positive) (qnd : binaryNode) : binaryNode :=
  if bool_decide (Some l = elementRight_ qnd)
  then withRight (Some n) (withElementRight None qnd)
  else withLeft (Some n) (withElementLeft None qnd).

(** The store after hanging the leaf [c] next to the leaf [l] under the
    new node [newNodeAddr t]. *)
Definition spliceStore (t : binaryTree) (l c : positive) : binaryTree :=
  let n := newNodeAddr t in
  match leaves t !! l, leaves t !! c with
  | Some lfl, Some clf =>
      match node_ lfl with
      | Some q =>
          match nodes t !! q with
          | Some qnd =>
              setLeaves
                (<[c := withNode (Some n) clf]>
                   (<[l := withNode (Some n) lfl]> (leaves t)))
                (setNodes
                   (<[q := spliceSide l n qnd]>
                      (<[n := mkBn (Some l) (Some c) None None (Some q)
                                (calcV lfl clf) (calcA lfl clf)]> (nodes t))) t)
          | None => t
          end
      | None => t
      end
  | _, _ => t
  end.

(** ** The operations on shapes *)

(** Insertion: the leaf slot of [l] is replaced by a node [n] with the
    leaves [l] and [c]. *)
Fixpoint shapeSplice (l n c : positive) (T : shape) : shape :=
  match T with
  | Leaf l' => if decide (l' = l) then Node n (Leaf l) (Leaf c) else Leaf l'
  | Node m tl tr => Node m (shapeSplice l n c tl) (shapeSplice l n c tr)
  end.

(** Deletion: the node whose slot holds [x] is replaced by its other
    side. *)
Fixpoint shapeRemove (x : positive) (T : shape) : shape :=
  match T with
  | Leaf l => Leaf l
  | Node z tl tr =>
      if decide (tl = Leaf x) then tr
      else if decide (tr = Leaf x) then tl
      else Node z (shapeRemove x tl) (shapeRemove x tr)
  end.

Definition treeRemove (r : positive) (x : positive) (a : abstree) : abstree :=
  match a with
  | TEmpty => TEmpty
  | TSingle _ _ => TEmpty
  | TFull n tl tr =>
      match shapeRemove x (Node n tl tr) with
      | Leaf l => TSingle r l
      | Node n' tl' tr' => TFull n' tl' tr'
      end
  end.

(** ** Primary search, as the specification words it *)

(** [descendsTo t phiq n e]: starting at node [n], computing [v.phiq] at
    each node and going right when it exceeds [a] and left otherwise, the
    walk ends on a side without child node whose element slot is [e]. *)
Inductive descendsTo (t : binaryTree) (phiq : list scalar) : positive → lptr → Prop :=
  | descends_right_leaf n nd vPhi :
      nodes t !! n = Some nd → vDotPhi sZero phiq (v_ nd) = Done vPhi →
      sgt vPhi (a_ nd) = true → right_ nd = None →
      descendsTo t phiq n (elementRight_ nd)
  | descends_right_node n nd vPhi r e :
      nodes t !! n = Some nd → vDotPhi sZero phiq (v_ nd) = Done vPhi →
      sgt vPhi (a_ nd) = true → right_ nd = Some r →
      descendsTo t phiq r e → descendsTo t phiq n e
  | descends_left_leaf n nd vPhi :
      nodes t !! n = Some nd → vDotPhi sZero phiq (v_ nd) = Done vPhi →
      sgt vPhi (a_ nd) = false → left_ nd = None →
      descendsTo t phiq n (elementLeft_ nd)
  | descends_left_node n nd vPhi l e :
      nodes t !! n = Some nd → vDotPhi sZero phiq (v_ nd) = Done vPhi →
      sgt vPhi (a_ nd) = false → left_ nd = Some l →
      descendsTo t phiq l e → descendsTo t phiq n e.

Definition treeHeight (a : abstree) : nat :=
  match a with
  | TFull n tl tr => shapeHeight (Node n tl tr)
  | _ => 0
  end.

(** Every node of the store has a hyperplane normal long enough for the
    query [phiq]. *)
Definition dimsOk (t : binaryTree) (phiq : list scalar) : Prop :=
  ∀ m nd, nodes t !! m = Some nd → length phiq ≤ length (v_ nd).

(** The leaves of the store keep their payload from [t] to [t']. *)
Definition payloadKept (t t' : binaryTree) : Prop :=
  ∀ k lf, leaves t !! k = Some lf →
    ∃ lf', leaves t' !! k = Some lf' ∧ payload lf' = payload lf.

(** ** The store after a deletion *)

(** The side of the node [znd] that does not hold the leaf [x], as
    [chemPSibling] and [nodeSibling] read it from a leaf. *)
Definition siblingSide (x : positive) (znd : binaryNode) : nptr * lptr :=
  if bool_decide (Some x = elementLeft_ znd)
  then (right_ znd, elementRight_ znd)
  else (left_ znd, elementLeft_ znd).

(** The side of [gnd] on which the node [z] hangs receives the child [cS]
    and the element [eS]. *)
Definition moveUp (z : positive) (cS : nptr) (eS : lptr) (gnd : binaryNode)
    : binaryNode :=
  if bool_decide (Some z = left_ gnd)
  then withLeft cS (withElementLeft eS gnd)
  else withRight cS (withElementRight eS gnd).

Definition reparentN (cS p : nptr) (N : gmap positive binaryNode)
    : gmap positive binaryNode :=
  match cS with
  | Some m =>
      match N !! m with
      | Some mnd => <[m := withParent p mnd]> N
      | None => N
      end
  | None => N
  end.

Definition reparentL (eS : lptr) (p : nptr) (L : gmap positive chemPointISAT)
    : gmap positive chemPointISAT :=
  match eS with
  | Some l =>
      match L !! l with
      | Some lfl => <[l := withNode p lfl]> L
      | None => L
      end
  | None => L
  end.

(** The store [deleteLeaf] leaves when the tree has two leaves or more:
    the other side of the node [z] of [x] moves into the slot of [z] in
    its parent (or becomes the root, a single leaf being held by a new
    empty root node), and [x] and [z] are freed. *)
Definition removeStore (t : binaryTree) (x : positive) : binaryTree :=
  match leaves t !! x with
  | Some lfx =>
      match node_ lfx with
      | Some z =>
          match nodes t !! z with
          | Some znd =>
              let '(cS, eS) := siblingSide x znd in
              match parent_ znd with
              | Some g =>
                  match nodes t !! g with
                  | Some gnd =>
                      setLeaves (delete x (reparentL eS (Some g) (leaves t)))
                        (setNodes
                           (delete z (reparentN cS (Some g)
                                        (<[g := moveUp z cS eS gnd]> (nodes t)))) t)
                  | None => t
                  end
              | None =>
                  match eS with
                  | Some _ =>
                      let r := newNodeAddr t in
                      setLeaves (delete x (reparentL eS (Some r) (leaves t)))
                        (setNodes
                           (delete z (<[r := withElementLeft eS bnNull]> (nodes t)))
                           (setRoot (Some r) t))
                  | None =>
                      setLeaves (delete x (leaves t))
                        (setNodes (delete z (reparentN cS None (nodes t)))
                           (setRoot cS t))
                  end
              end
          | None => t
          end
      | None => t
      end
  | None => t
  end.

(** [x] sits in a slot of the root node of [T]. *)
Definition immediate (x : positive) (T : shape) : Prop :=
  match T with
  | Node _ a b => a = Leaf x ∨ b = Leaf x
  | Leaf _ => False
  end.

#[export] Instance immediate_dec x T : Decision (immediate x T).
Proof. destruct T; simpl; apply _. Defined.

(** ** What a call of the secondary search guarantees *)

(** [searchPost strong t phiq s (s', r)]: a call entered in state [s] and
    left in state [s'] with outcome [r] has tested the leaves [new], each
    counted by [n2ndSearch_], within the budget; without a test it
    returns [false] and leaves [x] alone. When it returns [true], [x] is
    the last leaf tested and its EOA contains [phiq]. With [strong] (the
    contract of [inSubTree]) a call that returns [false] after a test
    leaves [x] on the last leaf tested, whose EOA does not contain
    [phiq]. *)
Definition searchPost (strong : bool) (t : binaryTree) (phiq : list scalar)
    (s : search2) (sr : search2 * outcome bool) : Prop :=
  ∃ new,
    tested sr.1 = tested s ++ new ∧
    (cnt s + Z.of_nat (length new) ≤ cnt sr.1)%Z ∧
    (cnt sr.1 ≤ Z.max (cnt s) (max2ndSearch_ t))%Z ∧
    match sr.2 with
    | Done b =>
        cnt sr.1 = (cnt s + Z.of_nat (length new))%Z ∧
        (new = [] → b = false ∧ xref sr.1 = xref s) ∧
        (∀ l, last new = Some l →
           ∃ lf, leaves t !! l = Some lf ∧
             (b = true ∨ strong = true →
              xref sr.1 = Some l ∧ inEOA lf phiq = b))
    | _ => True
    end.

(** ** Boolean checks of the invariant, for concrete stores *)

Fixpoint reprb (N : gmap positive binaryNode) (L : gmap positive chemPointISAT)
    (p : nptr) (T : shape) (c : nptr) (e : lptr) : bool :=
  match T with
  | Leaf l =>
      bool_decide (c = None) && bool_decide (e = Some l) &&
      match L !! l with
      | Some lf => bool_decide (node_ lf = p)
      | None => false
      end
  | Node n tl tr =>
      bool_decide (c = Some n) && bool_decide (e = None) &&
      match N !! n with
      | Some nd =>
          bool_decide (parent_ nd = p) &&
          reprb N L (Some n) tl (left_ nd) (elementLeft_ nd) &&
          reprb N L (Some n) tr (right_ nd) (elementRight_ nd)
      | None => false
      end
  end.

Definition treeInvb (t : binaryTree) (a : abstree) : bool :=
  (size_ t =? Z.of_nat (length (treeLeaves a)))%Z &&
  bool_decide (NoDup (treeNodes a)) && bool_decide (NoDup (treeLeaves a)) &&
  match a with
  | TEmpty => bool_decide (root_ t = None)
  | TSingle r l =>
      bool_decide (root_ t = Some r) &&
      match nodes t !! r with
      | Some nd =>
          bool_decide (parent_ nd = None) && bool_decide (left_ nd = None) &&
          bool_decide (right_ nd = None) && bool_decide (elementRight_ nd = None) &&
          reprb (nodes t) (leaves t) (Some r) (Leaf l) (left_ nd) (elementLeft_ nd)
      | None => false
      end
  | TFull n tl tr =>
      reprb (nodes t) (leaves t) None (Node n tl tr) (root_ t) None
  end.

Definition ownsStoreb (t : binaryTree) (a : abstree) : bool :=
  bool_decide (dom (nodes t) ⊆ list_to_set (treeNodes a)) &&
  bool_decide (dom (leaves t) ⊆ list_to_set (treeLeaves a)).

(** The value of a finished computation ([d] when there is none). *)
Definition unDone {A : Type} (d : A) (o : outcome A) : A :=
  match o with
  | Done a => a
  | _ => d
  end.

(** ** Erasing objects from the store *)

(** The members of a tree other than its store. *)
Definition scalars (t : binaryTree) : binaryTree := setLeaves ∅ (setNodes ∅ t).

(** [t'] is [t] without the nodes [KN] and the leaves [KL]. *)
Definition erased (t t' : binaryTree) (KN KL : list positive) : Prop :=
  (∀ k, nodes t' !! k = if decide (k ∈ KN) then None else nodes t !! k) ∧
  (∀ k, leaves t' !! k = if decide (k ∈ KL) then None else leaves t !! k) ∧
  scalars t' = scalars t.

(** The leaves strictly below the root side of a shape, and the leaf held
    by the side itself. *)
Definition innerLeaves (S : shape) : list positive :=
  match S with
  | Leaf _ => []
  | Node _ _ _ => shapeLeaves S
  end.

Definition slotLeaf (S : shape) : list positive :=
  match S with
  | Leaf l => [l]
  | Node _ _ _ => []
  end.

(** ** In-order traversal *)

(** The element that follows [x] in [xs]. *)
Fixpoint nextIn (xs : list positive) (x : positive) : option positive :=
  match xs with
  | [] => None
  | y :: ys => if decide (y = x) then head ys else nextIn ys x
  end.

(** ** The tree while [balance] rebuilds it *)

(** [rebuilt t U]: the leaves that satisfy [U] are in the tree again.
    Either the tree is a well-formed shape whose leaves are those of [U],
    or (when the two extreme leaves of [balance] are one and the same leaf
    [x0]) the left slot of the root holds [x0] while the right side of the
    root is a well-formed shape that contains [x0] and whose leaves are
    those of [U]. *)
Definition rebuilt (t : binaryTree) (U : positive → Prop) : Prop :=
  (∃ n tl tr,
     repr (nodes t) (leaves t) None (Node n tl tr) (root_ t) None ∧
     NoDup (shapeNodes (Node n tl tr)) ∧ NoDup (shapeLeaves (Node n tl tr)) ∧
     ∀ l, l ∈ shapeLeaves (Node n tl tr) ↔ U l) ∨
  (∃ r rnd x0 S,
     root_ t = Some r ∧ nodes t !! r = Some rnd ∧
     left_ rnd = None ∧ elementLeft_ rnd = Some x0 ∧
     repr (nodes t) (leaves t) (Some r) S (right_ rnd) (elementRight_ rnd) ∧
     x0 ∈ shapeLeaves S ∧ (r ∉ shapeNodes S) ∧
     NoDup (shapeNodes S) ∧ NoDup (shapeLeaves S) ∧
     ∀ l, l ∈ shapeLeaves S ↔ U l).

(** The leaves [balance] has put back after [k] iterations of its last
    [forAll] over the shuffled positions [chPIndex]: the two extreme
    leaves, and the leaves of the positions already visited. *)
Definition reinserted (xs : list positive) (chPIndex : list Z)
    (minId maxId : Z) (k : nat) (l : positive) : Prop :=
  zlookup xs minId = Done l ∨ zlookup xs maxId = Done l ∨
  ∃ j idx, j < k ∧ chPIndex !! j = Some idx ∧
    idx ≠ minId ∧ idx ≠ maxId ∧ zlookup xs idx = Done l.

(** A boolean check of [dimsOk], for concrete stores. *)
Definition dimsOkb (t : binaryTree) (phiq : list scalar) : bool :=
  bool_decide (map_Forall (λ _ nd, length phiq ≤ length (v_ nd)) (nodes t)).

(** ** When [insertNewLeaf] may be called *)

(** The argument [phi0] of [insertNewLeaf] on a tree of two leaves or
    more: either null, and then the primary search has to reach a leaf
    (the query is no longer than the hyperplane normals, and the fuel
    covers the height), or a leaf of the tree. With one leaf, [phi0] is
    null or that leaf; with no leaf it is not read. *)
Definition insertPre (fuel : nat) (t : binaryTree) (a : abstree)
    (phiq : list scalar) (phi0 : lptr) : Prop :=
  match a with
  | TEmpty => True
  | TSingle r l => phi0 = None ∨ phi0 = Some l
  | TFull n tl tr =>
      (phi0 = None ∧ dimsOk t phiq ∧ shapeHeight (Node n tl tr) ≤ fuel) ∨
      (∃ l, phi0 = Some l ∧ l ∈ shapeLeaves (Node n tl tr))
  end.

(** The tree shape [insertNewLeaf] leaves: [c] is the new leaf, [n] the
    new node and [l] the leaf next to which [c] is hung. *)
Definition treeInsert (n c l : positive) (a : abstree) : abstree :=
  match a with
  | TEmpty => TSingle n c
  | TSingle _ l0 => TFull n (Leaf l0) (Leaf c)
  | TFull n0 tl tr => TFull n0 (shapeSplice l n c tl) (shapeSplice l n c tr)
  end.

(** ** Depth *)

(** The number of node levels of a tree: a single leaf is held by a root
    node, which counts for one level. *)
Definition treeDepth (a : abstree) : nat :=
  match a with
  | TEmpty => 0
  | TSingle _ _ => 1
  | TFull n tl tr => shapeHeight (Node n tl tr)
  end.

(** The two cases of [rebuilt], one by one: the tree is a well-formed
    shape with the leaves of [U]; or the left slot of the root holds a
    leaf that is also a leaf of the right side of the root. *)
Definition rebuiltFull (t : binaryTree) (U : positive → Prop) : Prop :=
  ∃ n tl tr,
    repr (nodes t) (leaves t) None (Node n tl tr) (root_ t) None ∧
    NoDup (shapeNodes (Node n tl tr)) ∧ NoDup (shapeLeaves (Node n tl tr)) ∧
    ∀ l, l ∈ shapeLeaves (Node n tl tr) ↔ U l.

Definition rebuiltTwice (t : binaryTree) (U : positive → Prop) : Prop :=
  ∃ r rnd x0 S,
    root_ t = Some r ∧ nodes t !! r = Some rnd ∧
    left_ rnd = None ∧ elementLeft_ rnd = Some x0 ∧
    repr (nodes t) (leaves t) (Some r) S (right_ rnd) (elementRight_ rnd) ∧
    x0 ∈ shapeLeaves S ∧ (r ∉ shapeNodes S) ∧
    NoDup (shapeNodes S) ∧ NoDup (shapeLeaves S) ∧
    ∀ l, l ∈ shapeLeaves S ↔ U l.

(** The body of the last [forAll] of [balance] for a leaf [c] that is
    put back: the same statements as in [reinsertOne]. *)
Definition reinsertLeaf (fuel : nat) (t : binaryTree) (c : positive)
    (clf : chemPointISAT) : outcome binaryTree :=
  phi0 ← binaryTreeSearch fuel t (phi_ clf) (root_ t) ;
  lf0 ← getLeaf t phi0 ;
  nd ← bnFrom t phi0 (Some c) (node_ lf0) ;
  let n := newNodeAddr t in
  let t1 := setNodes (<[n := nd]> (nodes t)) t in
  t2 ← insertNode t1 phi0 (Some n) ;
  t3 ← updLeaf t2 phi0 (withNode (Some n)) ;
  updLeaf t3 (Some c) (withNode (Some n)).

(** [subtreeOf S T]: the shape [S] is [T] or one of the sides below it. *)
Fixpoint subtreeOf (S T : shape) : Prop :=
  T = S ∨
  match T with
  | Leaf _ => False
  | Node _ tl tr => subtreeOf S tl ∨ subtreeOf S tr
  end.

End Model.

Arguments getNode : simpl never.
Arguments getLeaf : simpl never.
Arguments updNode : simpl never.
Arguments updLeaf : simpl never.
Arguments deleteNodeData : simpl never.
Arguments deleteLeafData : simpl never.
Arguments bnFrom : simpl never.
Arguments newNodeAddr : simpl never.
Arguments newLeafAddr : simpl never.
Arguments zlookup : simpl never.
Arguments zinsert : simpl never.
Arguments sbind : simpl never.
Arguments eoaTestSet : simpl never.
Arguments eoaTestKeep : simpl never.

(** * A concrete instance: rational scalars *)

(** The instance is used to run the model on concrete trees. On the
    inputs below every operation is exact in binary floating point too. *)
Definition QOps : ScalarOps := {|
  scalar := QArith_base.Q;
  sZero := QArith_base.inject_Z 0;
  sLit05 := QArith_base.Qmake 1 2;
  sGREAT := QArith_base.inject_Z (10 ^ 15);
  ofLabel := QArith_base.inject_Z;
  sadd := QArith_base.Qplus;
  ssub := QArith_base.Qminus;
  smul := QArith_base.Qmult;
  sdiv := QArith_base.Qdiv;
  ssqr := λ x, QArith_base.Qmult x x;
  sfabs := Qabs.Qabs;
  sgt := λ a b, negb (QArith_base.Qle_bool a b);
  slt := λ a b, negb (QArith_base.Qle_bool b a);
  sle := QArith_base.Qle_bool
|}.

Section Instance.
#[local] Existing Instance QOps.

Definition qdot (u w : list scalar) : scalar :=
  foldr sadd sZero (zip_with smul u w).

(** [M . d] for a matrix given by its rows, and [y . M]. *)
Definition matVec (M : list (list scalar)) (d : list scalar) : list scalar :=
  (λ row, qdot row d) <$> M.

Definition vecMat (y : list scalar) (M : list (list scalar)) : list scalar :=
  foldr (zip_with sadd) (replicate (length y) sZero)
    (zip_with (λ yi row, smul yi <$> row) y M).

(** Modelled from the spec: chemPointISAT.C is missing. [inEOA] computes
    [d = phiq - phi] and [y = LT.d] and returns whether the squared norm
    of [y] is at most one. *)
Definition qInEOA (c : chemPointISAT) (phiq : list scalar) : bool :=
  let d := zip_with ssub phiq (phi_ c) in
  let y := matVec (LT_ c) d in
  sle (qdot y y) (ofLabel 1).

(** Modelled from the spec: binaryNode.C is missing. The hyperplane of a
    node is [v = L.LT.(phiR - phiL)], with the [L] of the left leaf, and
    [a = v.(phiL + phiR)/2]. *)
Definition qCalcV (cl cr : chemPointISAT) : list scalar :=
  vecMat (matVec (LT_ cl) (zip_with ssub (phi_ cr) (phi_ cl))) (LT_ cl).

Definition qCalcA (cl cr : chemPointISAT) : scalar :=
  qdot (qCalcV cl cr) ((λ x, smul x sLit05) <$> zip_with sadd (phi_ cl) (phi_ cr)).

(** Modelled from the spec: chemPointISAT.C is missing. The initial
    ellipsoid matrix is that of [B.A/eps] with [B = diag(1/scaleFactor)];
    the factorisation and the clamping of the singular values need square
    roots and are left out of the instance, which keeps [B.A/eps]. *)
Definition qInitLT (A : list (list scalar)) (scaleFactor : list scalar)
    (epsTol : scalar) (nCols : Z) : list (list scalar) :=
  zip_with (λ sf row, (λ x, sdiv x (smul sf epsTol)) <$> row) scaleFactor A.

Definition qInitQT (A : list (list scalar)) (scaleFactor : list scalar)
    (epsTol : scalar) (nCols : Z) : list (list scalar) := [].

(** [SortableList::sort]: a stable sort in increasing order; the result
    is the list of the original positions. *)
Fixpoint insertSorted (x : scalar * Z) (l : list (scalar * Z)) : list (scalar * Z) :=
  match l with
  | [] => [x]
  | y :: l' => if slt y.1 x.1 then y :: insertSorted x l' else x :: y :: l'
  end.

Definition qSortedIndices (variance : list scalar) : list Z :=
  snd <$> foldr insertSorted []
            (zip variance (Z.of_nat <$> seq 0 (length variance))).

Definition QLeaf : LeafOps := {|
  inEOA := qInEOA;
  calcV := qCalcV;
  calcA := qCalcA;
  initLT := qInitLT;
  initQT := qInitQT;
  sortedIndices := qSortedIndices
|}.

#[local] Existing Instance QLeaf.

(** ** Example trees *)

Definition qz (z : Z) : scalar := ofLabel z.

Definition exIdentity : list (list scalar) := [[qz 1; qz 0]; [qz 0; qz 1]].

(** An empty tree over two composition dimensions: at most 10 leaves, a
    budget of 5 secondary tests, rebalancing allowed above one leaf with
    one trial direction and a balance proportion of 35%. *)
Definition exEmpty : binaryTree :=
  mkTree None 10%Z 0%Z 0%Z 5%Z 1%Z (qz 1) (QArith_base.Qmake 35 100) 2%Z ∅ ∅.

Definition exInsert (t : binaryTree) (phiq : list scalar) (phi0 : lptr) : binaryTree :=
  (unDone (t, None)
     (insertNewLeaf 8 t phiq phiq exIdentity [qz 1; qz 1] (qz 1) 2%Z phi0)).1.

Definition exPhi1 : list scalar := [qz 1; qz 1].
Definition exPhi2 : list scalar := [qz 5; qz 1].
Definition exPhi3 : list scalar := [qz 9; qz 3].
Definition exPhi4 : list scalar := [qz 3; qz 6].

Definition exTree1 : binaryTree := exInsert exEmpty exPhi1 None.
Definition exTree2 : binaryTree := exInsert exTree1 exPhi2 None.
Definition exTree3 : binaryTree := exInsert exTree2 exPhi3 None.
Definition exTree4 : binaryTree := exInsert exTree3 exPhi4 None.

(** The same four leaves in a tree whose cap on the number of trials is
    the constructor's default for 53 species, [0.01*53]. *)
Definition exFracEmpty : binaryTree :=
  mkTree None 10%Z 0%Z 0%Z 5%Z 1%Z (QArith_base.Qmake 53 100)
    (QArith_base.Qmake 35 100) 2%Z ∅ ∅.
Definition exFrac4 : binaryTree :=
  exInsert (exInsert (exInsert (exInsert exFracEmpty exPhi1 None) exPhi2 None)
              exPhi3 None) exPhi4 None.

(** The same four leaves in a tree whose cap is 0, the whole part of
    [0.01*53]. *)
Definition exZeroEmpty : binaryTree :=
  mkTree None 10%Z 0%Z 0%Z 5%Z 1%Z (qz 0) (QArith_base.Qmake 35 100) 2%Z ∅ ∅.
Definition exZero4 : binaryTree :=
  exInsert (exInsert (exInsert (exInsert exZeroEmpty exPhi1 None) exPhi2 None)
              exPhi3 None) exPhi4 None.

(** The abstract shapes of the example trees. *)
Definition exShape2 : abstree := TFull 1 (Leaf 1) (Leaf 2).
Definition exShape3 : abstree := TFull 1 (Leaf 1) (Node 2 (Leaf 2) (Leaf 3)).
Definition exShape4 : abstree :=
  TFull 1 (Node 3 (Leaf 1) (Leaf 4)) (Node 2 (Leaf 2) (Leaf 3)).

(** A query far from every leaf of the example trees. *)
Definition exFar : list scalar := [qz 100; qz 100].

(** A tree of two leaves without positive component. *)
Definition exNeg1 : binaryTree := exInsert exEmpty [qz (-1); qz 0] None.
Definition exNeg2 : binaryTree := exInsert exNeg1 [qz (-2); qz 0] None.

(** A tree of two leaves with the same composition. *)
Definition exDup1 : binaryTree := exInsert exEmpty exPhi1 None.
Definition exDup2 : binaryTree := exInsert exDup1 exPhi1 None.

(** A tree filled to its capacity of two leaves. *)
Definition exCap : binaryTree :=
  mkTree None 2%Z 0%Z 0%Z 5%Z 1%Z (qz 1) (QArith_base.Qmake 35 100) 2%Z ∅ ∅.
Definition exCap2 : binaryTree := exInsert (exInsert exCap exPhi1 None) exPhi2 None.

(** The node at [n] and the leaf at [l] of a store (an empty node and an
    empty leaf when there is none). *)
Definition exNodeOf (t : binaryTree) (n : positive) : binaryNode :=
  default bnNull (nodes t !! n).
Definition exLeafOf (t : binaryTree) (l : positive) : chemPointISAT :=
  default (newChP [] [] [] [] (qz 0) 0%Z None) (leaves t !! l).

(** A query with one component more than the hyperplane normals. *)
Definition exLong : list scalar := [qz 1; qz 2; qz 3].

End Instance.

(** * Verification *)

Section Proofs.
Context `{SO : ScalarOps} `{LO : !LeafOps}.

Implicit Types (t : binaryTree) (T : shape) (phiq : list scalar).
Implicit Types (N : gmap positive binaryNode) (L : gmap positive chemPointISAT).

(** ** Outcomes *)

Lemma bind_Done {A B : Type} (m : outcome A) (k : A → outcome B) (b : B) :
  mbind k m = Done b → ∃ a, m = Done a ∧ k a = Done b.
Proof. destruct m as [a| |]; simpl; intros H; try discriminate. eauto. Qed.

Lemma getNode_Some t n nd :
  nodes t !! n = Some nd → getNode t (Some n) = Done nd.
Proof. intros H. unfold getNode. by rewrite H. Qed.

Lemma getLeaf_Some t l lf :
  leaves t !! l = Some lf → getLeaf t (Some l) = Done lf.
Proof. intros H. unfold getLeaf. by rewrite H. Qed.

Lemma getNode_Done t p nd :
  getNode t p = Done nd → ∃ n, p = Some n ∧ nodes t !! n = Some nd.
Proof.
  destruct p as [n|]; unfold getNode; simpl; [|discriminate].
  destruct (nodes t !! n) eqn:E; simpl; intros [= ->]. eauto.
Qed.

Lemma getLeaf_Done t p lf :
  getLeaf t p = Done lf → ∃ l, p = Some l ∧ leaves t !! l = Some lf.
Proof.
  destruct p as [l|]; unfold getLeaf; simpl; [|discriminate].
  destruct (leaves t !! l) eqn:E; simpl; intros [= ->]. eauto.
Qed.

(** ** The dot product *)

Lemma vDotPhi_total phiq : ∀ (v : list scalar) acc,
  length phiq ≤ length v → ∃ r, vDotPhi acc phiq v = Done r.
Proof.
  induction phiq as [|p phiq IH]; intros v acc Hlen; simpl; [eauto|].
  destruct v as [|x v]; simpl in Hlen; [lia|].
  apply IH. lia.
Qed.

(** ** Primary search against its specification *)

Lemma binaryTreeSearch_S t phiq fuel n :
  (1 < size_ t)%Z →
  binaryTreeSearch (S fuel) t phiq (Some n) =
    (nd ← getNode t (Some n) ;
     vPhi ← vDotPhi sZero phiq (v_ nd) ;
     if sgt vPhi (a_ nd) then
       match right_ nd with
       | Some r => binaryTreeSearch fuel t phiq (Some r)
       | None => Done (elementRight_ nd)
       end
     else
       match left_ nd with
       | Some l => binaryTreeSearch fuel t phiq (Some l)
       | None => Done (elementLeft_ nd)
       end).
Proof. intros H. apply Z.ltb_lt in H. simpl. by rewrite H. Qed.

Lemma binaryTreeSearch_O t phiq n :
  (1 < size_ t)%Z → binaryTreeSearch 0 t phiq (Some n) = OutOfFuel.
Proof. intros H. apply Z.ltb_lt in H. simpl. by rewrite H. Qed.

Lemma binaryTreeSearch_sound t phiq fuel : ∀ n e,
  (1 < size_ t)%Z →
  binaryTreeSearch fuel t phiq (Some n) = Done e → descendsTo t phiq n e.
Proof.
  induction fuel as [|fuel IH]; intros n e Hsz.
  { by rewrite binaryTreeSearch_O. }
  rewrite binaryTreeSearch_S by done. intros H.
  apply bind_Done in H as (nd & Hnd & H).
  apply getNode_Done in Hnd as (? & [= <-] & Hnd).
  apply bind_Done in H as (vPhi & Hv & H).
  destruct (sgt vPhi (a_ nd)) eqn:Hgt.
  - destruct (right_ nd) as [r|] eqn:Hr.
    + eapply descends_right_node; eauto.
    + injection H as <-. eapply descends_right_leaf; eauto.
  - destruct (left_ nd) as [l|] eqn:Hl.
    + eapply descends_left_node; eauto.
    + injection H as <-. eapply descends_left_leaf; eauto.
Qed.

Lemma binaryTreeSearch_complete t phiq n e :
  (1 < size_ t)%Z → descendsTo t phiq n e →
  ∃ fuel0, ∀ fuel, fuel0 ≤ fuel → binaryTreeSearch fuel t phiq (Some n) = Done e.
Proof.
  intros Hsz Hd.
  induction Hd as [n nd vPhi Hnd Hv Hgt Hr|n nd vPhi r e Hnd Hv Hgt Hr _ [f0 IH]
                  |n nd vPhi Hnd Hv Hgt Hl|n nd vPhi l e Hnd Hv Hgt Hl _ [f0 IH]].
  - exists 1. intros [|fuel] ?; [lia|]. rewrite binaryTreeSearch_S by done.
    rewrite (getNode_Some _ _ _ Hnd). simpl. rewrite Hv. simpl.
    by rewrite Hgt, Hr.
  - exists (S f0). intros [|fuel] ?; [lia|]. rewrite binaryTreeSearch_S by done.
    rewrite (getNode_Some _ _ _ Hnd). simpl. rewrite Hv. simpl.
    rewrite Hgt, Hr. apply IH. lia.
  - exists 1. intros [|fuel] ?; [lia|]. rewrite binaryTreeSearch_S by done.
    rewrite (getNode_Some _ _ _ Hnd). simpl. rewrite Hv. simpl.
    by rewrite Hgt, Hl.
  - exists (S f0). intros [|fuel] ?; [lia|]. rewrite binaryTreeSearch_S by done.
    rewrite (getNode_Some _ _ _ Hnd). simpl. rewrite Hv. simpl.
    rewrite Hgt, Hl. apply IH. lia.
Qed.

(** ** Shapes *)

Lemma shape_leaf_or_node T l :
  l ∈ shapeLeaves T → T = Leaf l ∨ ∃ n tl tr, T = Node n tl tr.
Proof.
  destruct T as [l'|n tl tr]; simpl; [|eauto].
  intros ->%list_elem_of_singleton. by left.
Qed.

Lemma shapeLeaves_nonempty T : shapeLeaves T ≠ [].
Proof.
  induction T as [l|n tl IHl tr IHr]; simpl; [done|].
  intros [? ?]%app_eq_nil. done.
Qed.

Lemma shapeLeaves_length T : 1 ≤ length (shapeLeaves T).
Proof.
  pose proof (shapeLeaves_nonempty T). destruct (shapeLeaves T); simpl; [done|lia].
Qed.

(** ** Representation: frame and sites *)

Lemma repr_frame N L N' L' T : ∀ p c e,
  (∀ n, n ∈ shapeNodes T → N' !! n = N !! n) →
  (∀ l, l ∈ shapeLeaves T → L' !! l = L !! l) →
  repr N L p T c e → repr N' L' p T c e.
Proof.
  induction T as [l|n tl IHl tr IHr]; intros p c e HN HL; simpl.
  - intros (-> & -> & lf & Hlf & Hp). repeat split.
    exists lf. split; [|done]. rewrite HL; [done|]. simpl. set_solver.
  - intros (-> & -> & nd & Hnd & Hp & Hl & Hr). repeat split.
    exists nd. split; [rewrite HN; [done|]; simpl; set_solver|].
    split; [done|]. split.
    + apply IHl; [| |done]; intros; [apply HN|apply HL]; simpl; set_solver.
    + apply IHr; [| |done]; intros; [apply HN|apply HL]; simpl; set_solver.
Qed.

Lemma repr_nodes N L T : ∀ p c e n,
  repr N L p T c e → n ∈ shapeNodes T → is_Some (N !! n).
Proof.
  induction T as [l|m tl IHl tr IHr]; intros p c e n; simpl.
  - intros _ H. by apply elem_of_nil in H.
  - intros (-> & -> & nd & Hnd & Hp & Hl & Hr) Hin.
    apply elem_of_cons in Hin as [->|Hin]; [eauto|].
    apply elem_of_app in Hin as [Hin|Hin]; eauto.
Qed.

Lemma repr_leaves N L T : ∀ p c e l,
  repr N L p T c e → l ∈ shapeLeaves T → is_Some (L !! l).
Proof.
  induction T as [l'|m tl IHl tr IHr]; intros p c e l; simpl.
  - intros (-> & -> & lf & Hlf & Hp) ->%list_elem_of_singleton. eauto.
  - intros (-> & -> & nd & Hnd & Hp & Hl & Hr) Hin.
    apply elem_of_app in Hin as [Hin|Hin]; eauto.
Qed.

Lemma repr_leaf_site N L T : ∀ p c e l,
  repr N L p T c e → l ∈ shapeLeaves T →
  ∃ lf, L !! l = Some lf ∧
    ((T = Leaf l ∧ node_ lf = p) ∨
     (∃ q, node_ lf = Some q ∧ q ∈ shapeNodes T ∧ leafSlot N q l)).
Proof.
  induction T as [l'|m tl IHl tr IHr]; intros p c e l; simpl.
  - intros (-> & -> & lf & Hlf & Hp) ->%list_elem_of_singleton.
    exists lf. split; [done|]. by left.
  - intros (-> & -> & nd & Hnd & Hp & Hl & Hr) Hin.
    apply elem_of_app in Hin as [Hin|Hin].
    + destruct (IHl _ _ _ _ Hl Hin) as (lf & Hlf & [[-> Hq]|(q & Hq & Hqin & Hs)]);
        exists lf; (split; [done|]); right.
      * exists m. split; [done|]. split; [set_solver|].
        exists nd. split; [done|]. left. simpl in Hl. naive_solver.
      * exists q. split; [done|]. split; [set_solver|done].
    + destruct (IHr _ _ _ _ Hr Hin) as (lf & Hlf & [[-> Hq]|(q & Hq & Hqin & Hs)]);
        exists lf; (split; [done|]); right.
      * exists m. split; [done|]. split; [set_solver|].
        exists nd. split; [done|]. right. simpl in Hr. naive_solver.
      * exists q. split; [done|]. split; [set_solver|done].
Qed.

(** The subtree below a node of a represented shape. *)
Lemma repr_subtree N L T : ∀ p c e n,
  repr N L p T c e → n ∈ shapeNodes T →
  ∃ nd tl tr q, N !! n = Some nd ∧ parent_ nd = q ∧
    repr N L (Some n) tl (left_ nd) (elementLeft_ nd) ∧
    repr N L (Some n) tr (right_ nd) (elementRight_ nd) ∧
    shapeNodes tl ⊆ shapeNodes T ∧ shapeNodes tr ⊆ shapeNodes T ∧
    shapeLeaves tl ⊆ shapeLeaves T ∧ shapeLeaves tr ⊆ shapeLeaves T.
Proof.
  induction T as [l'|m tl IHl tr IHr]; intros p c e n; simpl.
  - intros _ H. by apply elem_of_nil in H.
  - intros (-> & -> & nd & Hnd & Hp & Hl & Hr) Hin.
    apply elem_of_cons in Hin as [->|Hin].
    { exists nd, tl, tr, p. repeat split; try done; set_solver. }
    apply elem_of_app in Hin as [Hin|Hin].
    + destruct (IHl _ _ _ _ Hl Hin) as (nd' & tl' & tr' & q & ? & ? & ? & ? & ? & ? & ? & ?).
      exists nd', tl', tr', q. repeat split; try done; set_solver.
    + destruct (IHr _ _ _ _ Hr Hin) as (nd' & tl' & tr' & q & ? & ? & ? & ? & ? & ? & ? & ?).
      exists nd', tl', tr', q. repeat split; try done; set_solver.
Qed.

(** ** Primary search on a represented shape *)

Lemma binaryTreeSearch_shape t phiq T : ∀ fuel p n e,
  (1 < size_ t)%Z →
  (∀ m nd, nodes t !! m = Some nd → length phiq ≤ length (v_ nd)) →
  repr (nodes t) (leaves t) p T (Some n) e →
  shapeHeight T ≤ fuel →
  ∃ l, l ∈ shapeLeaves T ∧ binaryTreeSearch fuel t phiq (Some n) = Done (Some l).
Proof.
  induction T as [l'|m tl IHl tr IHr]; intros fuel p n e Hsz Hdim; simpl.
  { intros (? & _). discriminate. }
  intros ([= <-] & -> & nd & Hnd & Hp & Hl & Hr) Hfuel.
  destruct fuel as [|fuel]; [lia|].
  rewrite binaryTreeSearch_S by done.
  rewrite (getNode_Some _ _ _ Hnd). simpl.
  destruct (vDotPhi_total phiq (v_ nd) sZero) as [vPhi ->]; [eauto|]. simpl.
  destruct (sgt vPhi (a_ nd)).
  - destruct tr as [lr|mr trl trr].
    + simpl in Hr. destruct Hr as (-> & -> & _). exists lr. split; [set_solver|done].
    + pose proof Hr as Hr'. simpl in Hr'. destruct Hr' as (Hr' & _). rewrite Hr'.
      rewrite Hr' in Hr.
      destruct (IHr fuel _ _ _ Hsz Hdim Hr) as (l & Hin & ->); [simpl in *; lia|].
      exists l. split; [set_solver|done].
  - destruct tl as [ll|ml tll tlr].
    + simpl in Hl. destruct Hl as (-> & -> & _). exists ll. split; [set_solver|done].
    + pose proof Hl as Hl'. simpl in Hl'. destruct Hl' as (Hl' & _). rewrite Hl'.
      rewrite Hl' in Hl.
      destruct (IHl fuel _ _ _ Hsz Hdim Hl) as (l & Hin & ->); [simpl in *; lia|].
      exists l. split; [set_solver|done].
Qed.

(** ** Insertion on shapes *)

Lemma shapeSplice_notin l n c T : l ∉ shapeLeaves T → shapeSplice l n c T = T.
Proof.
  induction T as [l'|m tl IHl tr IHr]; simpl; intros Hn.
  - case_decide; [|done]. set_solver.
  - rewrite IHl, IHr; [done|set_solver..].
Qed.

Lemma splice_repr N L (l n c q : positive) lfl clf qnd nnd T : ∀ p c0 e0,
  L !! l = Some lfl → node_ lfl = Some q → N !! q = Some qnd →
  L !! c = Some clf → c ∉ shapeLeaves T → N !! n = None →
  elementLeft_ nnd = Some l → elementRight_ nnd = Some c →
  left_ nnd = None → right_ nnd = None → parent_ nnd = Some q →
  NoDup (shapeNodes T) → NoDup (shapeLeaves T) →
  l ∈ shapeLeaves T → T ≠ Leaf l →
  repr N L p T c0 e0 →
  repr (<[q := spliceSide l n qnd]> (<[n := nnd]> N))
       (<[c := withNode (Some n) clf]> (<[l := withNode (Some n) lfl]> L))
       p (shapeSplice l n c T) c0 e0.
Proof.
  intros p c0 e0 Hl Hq Hqnd Hc HcT Hn HeL HeR HnL HnR HnP HndN HndL Hin.
  assert (Hcl : c ≠ l) by (intros ->; done).
  revert p c0 e0 HcT HndN HndL Hin.
  induction T as [l'|m tl IHl tr IHr]; intros p c0 e0 HcT HndN HndL Hin Hne Hrep.
  { simpl in Hin. apply list_elem_of_singleton in Hin as ->. done. }
  simpl in Hrep. destruct Hrep as (-> & -> & nd & Hnd & Hp & Hrl & Hrr).
  simpl in HndN, HndL, HcT, Hin.
  apply NoDup_cons in HndN as [Hm HndN].
  apply NoDup_app in HndN as (HndNl & HndNlr & HndNr).
  apply NoDup_app in HndL as (HndLl & HndLlr & HndLr).
  assert (Hmn : m ≠ n) by (intros ->; congruence).
  apply elem_of_app in Hin as [Hin|Hin].
  - assert (Hnr : l ∉ shapeLeaves tr) by (intros ?; by eapply HndLlr).
    simpl. rewrite (shapeSplice_notin _ _ _ tr) by done.
    destruct (repr_leaf_site _ _ _ _ _ _ _ Hrl Hin) as (lf & Hlf & Hsite).
    assert (lf = lfl) as -> by congruence.
    destruct Hsite as [[-> Hnode]|(q' & Hq' & Hq'in & Hslot)].
    + (* the slot of [l] is the left side of [m] *)
      assert (q = m) as -> by congruence.
      assert (qnd = nd) as -> by congruence.
      simpl in Hrl. destruct Hrl as (HL & HEL & _).
      assert (HER : Some l ≠ elementRight_ nd).
      { destruct tr; simpl in Hrr.
        - destruct Hrr as (_ & -> & _). intros [= ->]. apply Hnr. simpl. set_solver.
        - destruct Hrr as (_ & -> & _). done. }
      unfold spliceSide. rewrite bool_decide_eq_false_2 by done.
      simpl. rewrite decide_True by done.
      repeat split. eexists. split; [apply lookup_insert_eq|].
      split; [done|]. simpl. split.
      * repeat split. exists nnd. rewrite lookup_insert_ne by done.
        rewrite lookup_insert_eq. split; [done|]. split; [done|].
        rewrite HeL, HeR, HnL, HnR. simpl. split.
        -- repeat split. eexists. rewrite lookup_insert_ne by done.
           rewrite lookup_insert_eq. done.
        -- repeat split. eexists. rewrite lookup_insert_eq. done.
      * eapply repr_frame; [| |exact Hrr].
        -- intros k Hk. rewrite !lookup_insert_ne; [done|..].
           ++ intros ->. destruct (repr_nodes _ _ _ _ _ _ _ Hrr Hk). congruence.
           ++ intros ->. apply Hm. set_solver.
        -- intros k Hk. rewrite !lookup_insert_ne; [done|..].
           ++ intros ->. done.
           ++ intros ->. apply HcT. set_solver.
    + (* the slot of [l] is below the left child *)
      assert (q' = q) as -> by congruence.
      assert (Hqm : q ≠ m) by (intros ->; apply Hm; set_solver).
      assert (Htl : tl ≠ Leaf l).
      { intros ->. simpl in Hq'in. set_solver. }
      repeat split. exists nd. rewrite !lookup_insert_ne by done.
      split; [done|]. split; [done|]. split.
      * apply IHl; try done. set_solver.
      * eapply repr_frame; [| |exact Hrr].
        -- intros k Hk. rewrite !lookup_insert_ne; [done|..].
           ++ intros ->. destruct (repr_nodes _ _ _ _ _ _ _ Hrr Hk). congruence.
           ++ intros ->. by eapply HndNlr.
        -- intros k Hk. rewrite !lookup_insert_ne; [done|..].
           ++ intros ->. done.
           ++ intros ->. apply HcT. set_solver.
  - assert (Hnl : l ∉ shapeLeaves tl) by (intros ?; by eapply HndLlr).
    simpl. rewrite (shapeSplice_notin _ _ _ tl) by done.
    destruct (repr_leaf_site _ _ _ _ _ _ _ Hrr Hin) as (lf & Hlf & Hsite).
    assert (lf = lfl) as -> by congruence.
    destruct Hsite as [[-> Hnode]|(q' & Hq' & Hq'in & Hslot)].
    + (* the slot of [l] is the right side of [m] *)
      assert (q = m) as -> by congruence.
      assert (qnd = nd) as -> by congruence.
      simpl in Hrr. destruct Hrr as (HR & HER & _).
      unfold spliceSide. rewrite bool_decide_eq_true_2 by done.
      simpl. rewrite decide_True by done.
      repeat split. eexists. split; [apply lookup_insert_eq|].
      split; [done|]. simpl. split.
      * eapply repr_frame; [| |exact Hrl].
        -- intros k Hk. rewrite !lookup_insert_ne; [done|..].
           ++ intros ->. destruct (repr_nodes _ _ _ _ _ _ _ Hrl Hk). congruence.
           ++ intros ->. apply Hm. set_solver.
        -- intros k Hk. rewrite !lookup_insert_ne; [done|..].
           ++ intros ->. done.
           ++ intros ->. apply HcT. set_solver.
      * repeat split. exists nnd. rewrite lookup_insert_ne by done.
        rewrite lookup_insert_eq. split; [done|]. split; [done|].
        rewrite HeL, HeR, HnL, HnR. simpl. split.
        -- repeat split. eexists. rewrite lookup_insert_ne by done.
           rewrite lookup_insert_eq. done.
        -- repeat split. eexists. rewrite lookup_insert_eq. done.
    + (* the slot of [l] is below the right child *)
      assert (q' = q) as -> by congruence.
      assert (Hqm : q ≠ m) by (intros ->; apply Hm; set_solver).
      assert (Htr : tr ≠ Leaf l).
      { intros ->. simpl in Hq'in. set_solver. }
      repeat split. exists nd. rewrite !lookup_insert_ne by done.
      split; [done|]. split; [done|]. split.
      * eapply repr_frame; [| |exact Hrl].
        -- intros k Hk. rewrite !lookup_insert_ne; [done|..].
           ++ intros ->. destruct (repr_nodes _ _ _ _ _ _ _ Hrl Hk). congruence.
           ++ intros ->. by eapply HndNlr.
        -- intros k Hk. rewrite !lookup_insert_ne; [done|..].
           ++ intros ->. done.
           ++ intros ->. apply HcT. set_solver.
      * apply IHr; try done. set_solver.
Qed.

Lemma shapeSplice_nodes l n c T :
  l ∈ shapeLeaves T → NoDup (shapeLeaves T) →
  shapeNodes (shapeSplice l n c T) ≡ₚ n :: shapeNodes T.
Proof.
  induction T as [l'|m tl IHl tr IHr]; simpl; intros Hin Hnd.
  - apply list_elem_of_singleton in Hin as ->. by rewrite decide_True.
  - apply NoDup_app in Hnd as (Hndl & Hlr & Hndr).
    apply elem_of_app in Hin as [Hin|Hin].
    + rewrite (shapeSplice_notin _ _ _ tr) by (intros ?; by eapply Hlr).
      rewrite IHl by done. simpl. apply perm_swap.
    + rewrite (shapeSplice_notin _ _ _ tl) by (intros ?; by eapply Hlr).
      rewrite IHr by done. rewrite <- Permutation_middle. apply perm_swap.
Qed.

Lemma shapeSplice_leaves l n c T :
  l ∈ shapeLeaves T → NoDup (shapeLeaves T) →
  shapeLeaves (shapeSplice l n c T) ≡ₚ c :: shapeLeaves T.
Proof.
  induction T as [l'|m tl IHl tr IHr]; simpl; intros Hin Hnd.
  - apply list_elem_of_singleton in Hin as ->. rewrite decide_True by done.
    simpl. apply perm_swap.
  - apply NoDup_app in Hnd as (Hndl & Hlr & Hndr).
    apply elem_of_app in Hin as [Hin|Hin].
    + rewrite (shapeSplice_notin _ _ _ tr) by (intros ?; by eapply Hlr).
      by rewrite IHl.
    + rewrite (shapeSplice_notin _ _ _ tl) by (intros ?; by eapply Hlr).
      rewrite IHr by done. by rewrite <- Permutation_middle.
Qed.

(** ** Symbolic execution of the store updates *)

Lemma bnFrom_eq t l c p lfl clf :
  leaves t !! l = Some lfl → leaves t !! c = Some clf →
  bnFrom t (Some l) (Some c) p =
    Done (mkBn (Some l) (Some c) None None p (calcV lfl clf) (calcA lfl clf)).
Proof.
  intros Hl Hc. unfold bnFrom.
  by rewrite (getLeaf_Some _ _ _ Hl), (getLeaf_Some _ _ _ Hc).
Qed.

Lemma updNode_eq t n nd f :
  nodes t !! n = Some nd →
  updNode t (Some n) f = Done (setNodes (<[n := f nd]> (nodes t)) t).
Proof. intros H. unfold updNode. by rewrite (getNode_Some _ _ _ H). Qed.

Lemma updLeaf_eq t l lf f :
  leaves t !! l = Some lf →
  updLeaf t (Some l) f = Done (setLeaves (<[l := f lf]> (leaves t)) t).
Proof. intros H. unfold updLeaf. by rewrite (getLeaf_Some _ _ _ H). Qed.

Lemma deleteNodeData_eq t n nd :
  nodes t !! n = Some nd →
  deleteNodeData t (Some n) = Done (setNodes (delete n (nodes t)) t).
Proof. intros H. unfold deleteNodeData. by rewrite H. Qed.

Lemma deleteLeafData_eq t l lf :
  leaves t !! l = Some lf →
  deleteLeafData t (Some l) = Done (setLeaves (delete l (leaves t)) t).
Proof. intros H. unfold deleteLeafData. by rewrite H. Qed.

Lemma insertNode_eq t l n q lfl qnd :
  leaves t !! l = Some lfl → node_ lfl = Some q → nodes t !! q = Some qnd →
  insertNode t (Some l) (Some n) =
    Done (setNodes (<[q := spliceSide l n qnd]> (nodes t)) t).
Proof.
  intros Hl Hq Hqnd. unfold insertNode.
  rewrite (getLeaf_Some _ _ _ Hl). simpl. rewrite Hq.
  rewrite (getNode_Some _ _ _ Hqnd). simpl.
  unfold spliceSide. case_bool_decide; by rewrite (updNode_eq _ _ _ _ Hqnd).
Qed.

Lemma newNodeAddr_fresh t : nodes t !! newNodeAddr t = None.
Proof. apply not_elem_of_dom. unfold newNodeAddr. apply is_fresh. Qed.

Lemma newLeafAddr_fresh t : leaves t !! newLeafAddr t = None.
Proof. apply not_elem_of_dom. unfold newLeafAddr. apply is_fresh. Qed.

(** The store after hanging the leaf [c] next to the leaf [l] under a new
    node [n]: the common part of [insertNewLeaf] and of the re-insertion
    of [balance]. *)
Lemma spliceCode_eq t l c q lfl clf qnd :
  leaves t !! l = Some lfl → node_ lfl = Some q → nodes t !! q = Some qnd →
  leaves t !! c = Some clf → c ≠ l →
  let n := newNodeAddr t in
  (nd ← bnFrom t (Some l) (Some c) (node_ lfl) ;
   t2 ← insertNode (setNodes (<[n := nd]> (nodes t)) t) (Some l) (Some n) ;
   t3 ← updLeaf t2 (Some l) (withNode (Some n)) ;
   updLeaf t3 (Some c) (withNode (Some n))) =
  Done (spliceStore t l c).
Proof.
  intros Hl Hq Hqnd Hc Hcl n.
  pose proof (newNodeAddr_fresh t) as Hn. fold n in Hn.
  assert (q ≠ n) by (intros ->; congruence).
  rewrite (bnFrom_eq _ _ _ _ _ _ Hl Hc). simpl.
  erewrite insertNode_eq; [|exact Hl|exact Hq|simpl; by rewrite lookup_insert_ne]. simpl.
  erewrite updLeaf_eq by (simpl; exact Hl). simpl.
  erewrite updLeaf_eq by (simpl; rewrite lookup_insert_ne by done; exact Hc). simpl.
  unfold spliceStore. rewrite Hl, Hc. simpl. rewrite Hq, Hqnd. done.
Qed.

Lemma spliceStore_repr t l c clf T p c0 e0 :
  repr (nodes t) (leaves t) p T c0 e0 →
  NoDup (shapeNodes T) → NoDup (shapeLeaves T) →
  l ∈ shapeLeaves T → T ≠ Leaf l →
  leaves t !! c = Some clf → c ∉ shapeLeaves T →
  repr (nodes (spliceStore t l c)) (leaves (spliceStore t l c)) p
    (shapeSplice l (newNodeAddr t) c T) c0 e0.
Proof.
  intros Hrep HndN HndL Hin Hne Hc HcT.
  destruct (repr_leaf_site _ _ _ _ _ _ _ Hrep Hin) as (lfl & Hl & [[-> _]|(q & Hq & _ & qnd & Hqnd & _)]);
    [done|].
  unfold spliceStore. rewrite Hl, Hc, Hq, Hqnd. simpl.
  eapply splice_repr; eauto using newNodeAddr_fresh.
Qed.

Lemma spliceStore_eq t l c lfl clf q qnd :
  leaves t !! l = Some lfl → leaves t !! c = Some clf →
  node_ lfl = Some q → nodes t !! q = Some qnd →
  spliceStore t l c =
    setLeaves
      (<[c := withNode (Some (newNodeAddr t)) clf]>
         (<[l := withNode (Some (newNodeAddr t)) lfl]> (leaves t)))
      (setNodes
         (<[q := spliceSide l (newNodeAddr t) qnd]>
            (<[newNodeAddr t := mkBn (Some l) (Some c) None None (Some q)
                      (calcV lfl clf) (calcA lfl clf)]> (nodes t))) t).
Proof. intros Hl Hc Hq Hqnd. unfold spliceStore. by rewrite Hl, Hc, Hq, Hqnd. Qed.

(** ** [insertNewLeaf] *)

Lemma insertNewLeaf_empty_eq fuel t phiq Rphiq A sf eps nCols phi0 :
  size_ t = 0%Z →
  let r := newNodeAddr t in
  let c := newLeafAddr t in
  insertNewLeaf fuel t phiq Rphiq A sf eps nCols phi0 =
    Done (setSize 1%Z
            (setLeaves (<[c := newChP phiq Rphiq A sf eps nCols (Some r)]> (leaves t))
               (setNodes (<[r := withElementLeft (Some c) bnNull]> (nodes t))
                  (setRoot (Some r) t))), phi0).
Proof.
  intros Hsz r c. unfold insertNewLeaf. rewrite Hsz. simpl.
  erewrite updNode_eq by (simpl; apply lookup_insert_eq). simpl.
  rewrite insert_insert_eq. unfold setSize, setLeaves, setNodes, setRoot. simpl.
  rewrite Hsz. done.
Qed.

Lemma insertNewLeaf_single_eq fuel t phiq Rphiq A sf eps nCols phi0 r l rnd lfl :
  size_ t = 1%Z → root_ t = Some r → nodes t !! r = Some rnd →
  elementLeft_ rnd = Some l → leaves t !! l = Some lfl →
  phi0 = None ∨ phi0 = Some l →
  let c := newLeafAddr t in
  let newLf := newChP phiq Rphiq A sf eps nCols None in
  let N1 := delete r (nodes t) in
  let n := fresh (dom N1) in
  insertNewLeaf fuel t phiq Rphiq A sf eps nCols phi0 =
    Done (setSize 2%Z
            (setLeaves
               (<[c := withNode (Some n) newLf]>
                  (<[l := withNode (Some n) lfl]> (<[c := newLf]> (leaves t))))
               (setNodes
                  (<[n := mkBn (Some l) (Some c) None None None
                            (calcV lfl newLf) (calcA lfl newLf)]> N1)
                  (setRoot (Some n) t))), Some l).
Proof.
  intros Hsz Hroot Hrnd HeL Hl Hphi0 c newLf N1 n.
  pose proof (newLeafAddr_fresh t) as Hc. fold c in Hc.
  assert (Hcl : l ≠ c) by (intros ->; congruence).
  unfold insertNewLeaf. rewrite Hsz. simpl.
  assert (match phi0 with
          | Some _ => Done phi0
          | None => binaryTreeSearch fuel t phiq (root_ t)
          end = Done (Some l)) as ->.
  { destruct Hphi0 as [->| ->]; [|done].
    destruct fuel; simpl; rewrite Hsz; simpl;
      rewrite Hroot, (getNode_Some _ _ _ Hrnd); simpl; by rewrite HeL. }
  simpl. rewrite (getLeaf_Some _ _ _ Hl). simpl. rewrite Hsz. simpl.
  rewrite Hroot. erewrite deleteNodeData_eq by (simpl; exact Hrnd). simpl.
  erewrite bnFrom_eq; [|simpl; rewrite lookup_insert_ne by done; exact Hl
                       |simpl; apply lookup_insert_eq].
  simpl.
  erewrite updLeaf_eq by (simpl; rewrite lookup_insert_ne by done; exact Hl). simpl.
  erewrite updLeaf_eq by (simpl; rewrite lookup_insert_ne by done; apply lookup_insert_eq).
  simpl. rewrite Hsz. done.
Qed.

Lemma insertNewLeaf_full_eq fuel t phiq Rphiq A sf eps nCols phi0 l lfl q qnd :
  (1 < size_ t)%Z →
  leaves t !! l = Some lfl → node_ lfl = Some q → nodes t !! q = Some qnd →
  match phi0 with
  | Some _ => phi0 = Some l
  | None => binaryTreeSearch fuel t phiq (root_ t) = Done (Some l)
  end →
  let c := newLeafAddr t in
  let newLf := newChP phiq Rphiq A sf eps nCols None in
  insertNewLeaf fuel t phiq Rphiq A sf eps nCols phi0 =
    Done (setSize (size_ t + 1)%Z
            (spliceStore (setLeaves (<[c := newLf]> (leaves t)) t) l c), Some l).
Proof.
  intros Hsz Hl Hq Hqnd Hphi0 c newLf.
  pose proof (newLeafAddr_fresh t) as Hc. fold c in Hc.
  assert (Hcl : l ≠ c) by (intros ->; congruence).
  assert (Hsz0 : (size_ t =? 0)%Z = false) by lia.
  assert (Hsz1 : (1 <? size_ t)%Z = true) by lia.
  unfold insertNewLeaf. rewrite Hsz0.
  assert (match phi0 with
          | Some _ => Done phi0
          | None => binaryTreeSearch fuel t phiq (root_ t)
          end = Done (Some l)) as ->.
  { destruct phi0; [by rewrite Hphi0|done]. }
  simpl. rewrite (getLeaf_Some _ _ _ Hl). simpl. rewrite Hsz1.
  set (t1 := setLeaves (<[c:=newLf]> (leaves t)) t).
  assert (Hl1 : leaves t1 !! l = Some lfl) by (simpl; by rewrite lookup_insert_ne).
  assert (Hc1 : leaves t1 !! c = Some newLf) by (simpl; apply lookup_insert_eq).
  rewrite (spliceStore_eq t1 l c lfl newLf q qnd) by done.
  erewrite bnFrom_eq by done. simpl.
  assert (q ≠ newNodeAddr t1).
  { intros ->. pose proof (newNodeAddr_fresh t1). simpl in *. congruence. }
  erewrite insertNode_eq; [|exact Hl1|exact Hq|simpl; by rewrite lookup_insert_ne]. simpl.
  erewrite updLeaf_eq by (simpl; rewrite lookup_insert_ne by done; exact Hl). simpl.
  erewrite updLeaf_eq by (simpl; rewrite lookup_insert_ne by done; apply lookup_insert_eq).
  simpl. rewrite Hq. done.
Qed.

Lemma payload_withNode p (lf : chemPointISAT) : payload (withNode p lf) = payload lf.
Proof. done. Qed.

Lemma spliceStore_payload t l c : payloadKept t (spliceStore t l c).
Proof.
  intros k lf Hk. unfold spliceStore.
  destruct (leaves t !! l) as [lfl|] eqn:Hl; [|eauto].
  destruct (leaves t !! c) as [clf|] eqn:Hc; [|eauto].
  destruct (node_ lfl) as [q|]; [|eauto].
  destruct (nodes t !! q) as [qnd|]; [|eauto].
  simpl. destruct (decide (k = c)) as [->|Hkc].
  { rewrite lookup_insert_eq. eexists. split; [done|]. rewrite payload_withNode. congruence. }
  rewrite lookup_insert_ne by done.
  destruct (decide (k = l)) as [->|Hkl].
  { rewrite lookup_insert_eq. eexists. split; [done|]. rewrite payload_withNode. congruence. }
  rewrite lookup_insert_ne by done. eauto.
Qed.

Lemma spliceStore_size t l c : size_ (spliceStore t l c) = size_ t.
Proof.
  unfold spliceStore.
  destruct (leaves t !! l) as [lfl|]; [|done].
  destruct (leaves t !! c) as [clf|]; [|done].
  destruct (node_ lfl) as [q|]; [|done].
  by destruct (nodes t !! q).
Qed.

Lemma spliceStore_root t l c : root_ (spliceStore t l c) = root_ t.
Proof.
  unfold spliceStore.
  destruct (leaves t !! l) as [lfl|]; [|done].
  destruct (leaves t !! c) as [clf|]; [|done].
  destruct (node_ lfl) as [q|]; [|done].
  by destruct (nodes t !! q).
Qed.

Lemma insertNewLeaf_empty fuel t phiq Rphiq A sf eps nCols phi0 :
  treeInv t TEmpty →
  ∃ t', insertNewLeaf fuel t phiq Rphiq A sf eps nCols phi0 = Done (t', phi0) ∧
    size_ t' = (size_ t + 1)%Z ∧
    leaves t' !! newLeafAddr t =
      Some (newChP phiq Rphiq A sf eps nCols (Some (newNodeAddr t))) ∧
    payloadKept t t' ∧
    treeInv t' (TSingle (newNodeAddr t) (newLeafAddr t)).
Proof.
  intros (Hsz & _ & _ & Hroot). simpl in Hsz.
  eexists. split; [by apply insertNewLeaf_empty_eq|]. simpl.
  split; [lia|]. split; [apply lookup_insert_eq|]. split.
  { intros k lf Hk. exists lf. split; [|done]. simpl. rewrite lookup_insert_ne; [done|].
    intros <-. pose proof (newLeafAddr_fresh t). congruence. }
  split; [done|]. split; [apply NoDup_singleton|]. split; [apply NoDup_singleton|].
  simpl. split; [done|]. eexists. split; [apply lookup_insert_eq|]. simpl.
  repeat split. eexists. split; [apply lookup_insert_eq|done].
Qed.

Lemma insertNewLeaf_single fuel t phiq Rphiq A sf eps nCols phi0 r l :
  treeInv t (TSingle r l) → phi0 = None ∨ phi0 = Some l →
  let c := newLeafAddr t in
  let n := fresh (dom (delete r (nodes t))) in
  ∃ t', insertNewLeaf fuel t phiq Rphiq A sf eps nCols phi0 = Done (t', Some l) ∧
    size_ t' = (size_ t + 1)%Z ∧
    (∃ lfc, leaves t' !! c = Some lfc ∧
       payload lfc = payload (newChP phiq Rphiq A sf eps nCols None)) ∧
    payloadKept t t' ∧
    nodes t' = <[n := default bnNull (nodes t' !! n)]> (delete r (nodes t)) ∧
    treeInv t' (TFull n (Leaf l) (Leaf c)).
Proof.
  intros (Hsz & _ & _ & Hroot & rnd & Hrnd & HP & HL & HR & HER & Hrep) Hphi0 c n.
  simpl in Hsz, Hrep. destruct Hrep as (_ & HEL & lfl & Hl & Hnode).
  pose proof (newLeafAddr_fresh t) as Hc. fold c in Hc.
  assert (Hcl : l ≠ c) by (intros ->; congruence).
  eexists. split.
  { eapply insertNewLeaf_single_eq; eauto. }
  simpl. split; [lia|]. split.
  { eexists. split; [apply lookup_insert_eq|done]. }
  split.
  { intros k lf Hk. assert (k ≠ c) by (intros ->; congruence). simpl.
    rewrite lookup_insert_ne by done.
    destruct (decide (k = l)) as [->|Hkl].
    - rewrite lookup_insert_eq. eexists. split; [done|].
      rewrite payload_withNode. congruence.
    - rewrite !lookup_insert_ne by done. eauto. }
  split.
  { by rewrite lookup_insert_eq. }
  split; [done|]. split; [apply NoDup_singleton|]. split.
  { apply NoDup_cons. split; [set_solver|apply NoDup_singleton]. }
  simpl. repeat split. eexists. split; [apply lookup_insert_eq|]. simpl.
  repeat split.
  - eexists. rewrite lookup_insert_ne by done. rewrite lookup_insert_eq. done.
  - eexists. rewrite lookup_insert_eq. done.
Qed.

Lemma insertNewLeaf_full fuel t phiq Rphiq A sf eps nCols phi0 n0 tl tr :
  treeInv t (TFull n0 tl tr) →
  (phi0 = None ∧ dimsOk t phiq ∧ shapeHeight (Node n0 tl tr) ≤ fuel) ∨
    (∃ l, phi0 = Some l ∧ l ∈ shapeLeaves (Node n0 tl tr)) →
  let c := newLeafAddr t in
  let n := newNodeAddr t in
  ∃ t' l, insertNewLeaf fuel t phiq Rphiq A sf eps nCols phi0 = Done (t', Some l) ∧
    l ∈ shapeLeaves (Node n0 tl tr) ∧
    match phi0 with
    | Some _ => phi0 = Some l
    | None => binaryTreeSearch fuel t phiq (root_ t) = Done (Some l)
    end ∧
    size_ t' = (size_ t + 1)%Z ∧
    (∃ lfc, leaves t' !! c = Some lfc ∧
       payload lfc = payload (newChP phiq Rphiq A sf eps nCols None)) ∧
    payloadKept t t' ∧
    treeInv t' (TFull n0 (shapeSplice l n c tl) (shapeSplice l n c tr)).
Proof.
  intros (Hsz & HndN & HndL & Hrep) Hphi0 c n.
  change (treeLeaves (TFull n0 tl tr)) with (shapeLeaves (Node n0 tl tr)) in *.
  change (treeNodes (TFull n0 tl tr)) with (shapeNodes (Node n0 tl tr)) in *.
  set (T := Node n0 tl tr) in *.
  assert (Hsz1 : (1 < size_ t)%Z).
  { rewrite Hsz. simpl. rewrite length_app.
    pose proof (shapeLeaves_length tl). pose proof (shapeLeaves_length tr). lia. }
  assert (Hroot : root_ t = Some n0) by (simpl in Hrep; tauto).
  assert (∃ l, l ∈ shapeLeaves T ∧
            match phi0 with
            | Some _ => phi0 = Some l
            | None => binaryTreeSearch fuel t phiq (root_ t) = Done (Some l)
            end) as (l & Hin & Hsel).
  { destruct Hphi0 as [(-> & Hdim & Hfuel)|(l & -> & Hin)]; [|eauto].
    rewrite Hroot in Hrep |- *.
    eapply binaryTreeSearch_shape; eauto. }
  destruct (repr_leaf_site _ _ _ _ _ _ _ Hrep Hin)
    as (lfl & Hl & [[? _]|(q & Hq & _ & qnd & Hqnd & _)]); [done|].
  pose proof (newLeafAddr_fresh t) as Hc. fold c in Hc.
  assert (HcT : c ∉ shapeLeaves T).
  { intros HcT. destruct (repr_leaves _ _ _ _ _ _ _ Hrep HcT). congruence. }
  set (newLf := newChP phiq Rphiq A sf eps nCols None).
  set (t1 := setLeaves (<[c:=newLf]> (leaves t)) t).
  exists (setSize (size_ t + 1)%Z (spliceStore t1 l c)), l.
  split; [by eapply insertNewLeaf_full_eq|].
  split; [done|]. split; [done|]. split; [done|].
  assert (Hkept1 : payloadKept t t1).
  { intros k lf Hk. exists lf. split; [|done]. simpl. rewrite lookup_insert_ne; [done|].
    intros <-. congruence. }
  split.
  { destruct (spliceStore_payload t1 l c c newLf) as (lf' & ? & ?);
      [simpl; apply lookup_insert_eq|]. eauto. }
  split.
  { intros k lf Hk. destruct (Hkept1 k lf Hk) as (lf1 & Hk1 & Hp1).
    destruct (spliceStore_payload t1 l c k lf1 Hk1) as (lf2 & Hk2 & Hp2).
    exists lf2. split; [done|congruence]. }
  assert (Hn : n ∉ shapeNodes T).
  { intros HnT. destruct (repr_nodes _ _ _ _ _ _ _ Hrep HnT).
    pose proof (newNodeAddr_fresh t). fold n in H0. congruence. }
  change (Node n0 (shapeSplice l n c tl) (shapeSplice l n c tr))
    with (shapeSplice l n c T).
  split; [|split; [|split]].
  - change (treeLeaves (TFull n0 (shapeSplice l n c tl) (shapeSplice l n c tr)))
      with (shapeLeaves (shapeSplice l n c T)).
    rewrite (shapeSplice_leaves l n c T) by done.
    cbn [length setSize size_]. lia.
  - change (NoDup (shapeNodes (shapeSplice l n c T))).
    rewrite shapeSplice_nodes by done. by apply NoDup_cons.
  - change (NoDup (shapeLeaves (shapeSplice l n c T))).
    rewrite shapeSplice_leaves by done. by apply NoDup_cons.
  - change (repr (nodes (spliceStore t1 l c)) (leaves (spliceStore t1 l c)) None
              (shapeSplice l n c T) (root_ (spliceStore t1 l c)) None).
    rewrite spliceStore_root.
    eapply (spliceStore_repr t1 l c newLf); try done.
    + eapply repr_frame; [| |exact Hrep]; [done|].
      intros k Hk. simpl. rewrite lookup_insert_ne; [done|]. intros <-. done.
    + simpl. apply lookup_insert_eq.
Qed.

(** ** [deleteLeaf]: execution *)

Lemma chemPSibling_eq t x lfx z znd :
  (1 < size_ t)%Z → leaves t !! x = Some lfx → node_ lfx = Some z →
  nodes t !! z = Some znd →
  chemPSibling t (Some x) = Done (siblingSide x znd).2.
Proof.
  intros Hsz Hx Hz Hznd. unfold chemPSibling, siblingSide.
  apply Z.ltb_lt in Hsz. rewrite Hsz, (getLeaf_Some _ _ _ Hx). simpl.
  rewrite Hz, (getNode_Some _ _ _ Hznd). simpl. by case_bool_decide.
Qed.

Lemma nodeSibling_eq t x lfx z znd :
  (1 < size_ t)%Z → leaves t !! x = Some lfx → node_ lfx = Some z →
  nodes t !! z = Some znd →
  nodeSibling t (Some x) = Done (siblingSide x znd).1.
Proof.
  intros Hsz Hx Hz Hznd. unfold nodeSibling, siblingSide.
  apply Z.ltb_lt in Hsz. rewrite Hsz, (getLeaf_Some _ _ _ Hx). simpl.
  rewrite Hz, (getNode_Some _ _ _ Hznd). simpl. by case_bool_decide.
Qed.

Lemma withElementLeft_id (nd : binaryNode) :
  withElementLeft (elementLeft_ nd) nd = nd.
Proof. by destruct nd. Qed.

Lemma withElementRight_id (nd : binaryNode) :
  withElementRight (elementRight_ nd) nd = nd.
Proof. by destruct nd. Qed.

Lemma deleteLeaf_single_eq t x r rnd lfx :
  size_ t = 1%Z → root_ t = Some r → nodes t !! r = Some rnd →
  leaves t !! x = Some lfx →
  deleteLeaf t (Some x) =
    Done (setSize 0%Z
            (setRoot None
               (setNodes (delete r (nodes t)) (setLeaves (delete x (leaves t)) t)))).
Proof.
  intros Hsz Hroot Hrnd Hx. unfold deleteLeaf. rewrite Hsz. simpl.
  rewrite (deleteLeafData_eq _ _ _ Hx). simpl. rewrite Hroot.
  erewrite deleteNodeData_eq by (simpl; exact Hrnd). simpl.
  by rewrite Hsz.
Qed.

Lemma deleteLeaf_full_eq t x lfx z znd :
  (1 < size_ t)%Z → leaves t !! x = Some lfx → node_ lfx = Some z →
  nodes t !! z = Some znd →
  (∀ l, (siblingSide x znd).2 = Some l →
     (siblingSide x znd).1 = None ∧ l ≠ x ∧ is_Some (leaves t !! l)) →
  (∀ m, (siblingSide x znd).1 = Some m → m ≠ z ∧ is_Some (nodes t !! m)) →
  (∀ g, parent_ znd = Some g → g ≠ z ∧ (siblingSide x znd).1 ≠ Some g ∧
     ∃ gnd, nodes t !! g = Some gnd ∧
       (Some z = left_ gnd → elementLeft_ gnd = None) ∧
       (Some z ≠ left_ gnd → elementRight_ gnd = None)) →
  deleteLeaf t (Some x) = Done (setSize (size_ t - 1)%Z (removeStore t x)).
Proof.
  intros Hsz Hx Hz Hznd HeS HcS Hg.
  assert (Hsz0 : (size_ t =? 1)%Z = false) by lia.
  assert (Hsz1 : (1 <? size_ t)%Z = true) by lia.
  unfold deleteLeaf. rewrite Hsz0, Hsz1.
  rewrite (getLeaf_Some _ _ _ Hx). simpl.
  rewrite (chemPSibling_eq _ _ _ _ _ Hsz Hx Hz Hznd). simpl.
  rewrite Hz, (getNode_Some _ _ _ Hznd). simpl.
  unfold removeStore. rewrite Hx, Hz, Hznd.
  destruct (siblingSide x znd) as [cS eS] eqn:Hside. simpl in *.
  destruct eS as [l|].
  - (* the sibling is a leaf *)
    destruct (HeS l eq_refl) as (-> & Hlx & lfl & Hl).
    destruct (parent_ znd) as [g|] eqn:Hpar.
    + destruct (Hg g eq_refl) as (Hgz & _ & gnd & Hgnd & _ & _).
      rewrite (getNode_Some _ _ _ Hgnd), Hgnd. simpl.
      unfold moveUp.
      case_bool_decide.
      * erewrite updNode_eq by exact Hgnd. simpl.
        erewrite updNode_eq by (simpl; apply lookup_insert_eq). simpl.
        rewrite insert_insert_eq.
        erewrite updLeaf_eq by (simpl; exact Hl). simpl.
        erewrite deleteLeafData_eq
          by (simpl; rewrite lookup_insert_ne by done; exact Hx).
        simpl.
        erewrite deleteNodeData_eq by (simpl; rewrite lookup_insert_ne by done; exact Hznd).
        simpl. by rewrite Hl.
      * erewrite updNode_eq by exact Hgnd. simpl.
        erewrite updNode_eq by (simpl; apply lookup_insert_eq). simpl.
        rewrite insert_insert_eq.
        erewrite updLeaf_eq by (simpl; exact Hl). simpl.
        erewrite deleteLeafData_eq
          by (simpl; rewrite lookup_insert_ne by done; exact Hx).
        simpl.
        erewrite deleteNodeData_eq by (simpl; rewrite lookup_insert_ne by done; exact Hznd).
        simpl. by rewrite Hl.
    + erewrite updNode_eq by (simpl; apply lookup_insert_eq). simpl.
      rewrite insert_insert_eq.
      erewrite updLeaf_eq by (simpl; exact Hl). simpl.
      erewrite deleteLeafData_eq
        by (simpl; rewrite lookup_insert_ne by done; exact Hx).
      simpl.
      assert (newNodeAddr t ≠ z).
      { intros E. pose proof (newNodeAddr_fresh t) as Hf. rewrite E in Hf. congruence. }
      erewrite deleteNodeData_eq by (simpl; rewrite lookup_insert_ne by done; exact Hznd).
      simpl. by rewrite Hl.
  - (* the sibling is a node *)
    rewrite (nodeSibling_eq _ _ _ _ _ Hsz Hx Hz Hznd), Hside. simpl.
    unfold transplant. rewrite (getNode_Some _ _ _ Hznd). simpl.
    destruct (parent_ znd) as [g|] eqn:Hpar.
    + destruct (Hg g eq_refl) as (Hgz & HcSg & gnd & Hgnd & HgL & HgR).
      rewrite (getNode_Some _ _ _ Hgnd), Hgnd. simpl.
      unfold moveUp.
      assert (Hgnd' : (if bool_decide (Some z = left_ gnd)
                       then withLeft cS (withElementLeft None gnd)
                       else withRight cS (withElementRight None gnd)) =
                      (if bool_decide (Some z = left_ gnd)
                       then withLeft cS gnd else withRight cS gnd)).
      { case_bool_decide as Hzl.
        - rewrite <- (HgL Hzl) at 1. by rewrite withElementLeft_id.
        - rewrite <- (HgR Hzl) at 1. by rewrite withElementRight_id. }
      rewrite Hgnd'. clear Hgnd'.
      assert (Hupd : (if bool_decide (Some z = left_ gnd)
                      then updNode t (Some g) (withLeft cS)
                      else updNode t (Some g) (withRight cS)) =
                     Done (setNodes (<[g := if bool_decide (Some z = left_ gnd)
                                         then withLeft cS gnd else withRight cS gnd]>
                                       (nodes t)) t)).
      { case_bool_decide; by erewrite updNode_eq by exact Hgnd. }
      rewrite Hupd. clear Hupd. simpl.
      set (gnd' := if bool_decide (Some z = left_ gnd)
                   then withLeft cS gnd else withRight cS gnd).
      assert (Hznd1 : <[g:=gnd']> (nodes t) !! z = Some znd)
        by (by rewrite lookup_insert_ne).
      destruct cS as [m|].
      * destruct (HcS m eq_refl) as (Hmz & mnd & Hmnd).
        assert (Hmg : m ≠ g) by congruence.
        erewrite (getNode_Some _ z) by (simpl; exact Hznd1). simpl.
        assert (Hm1 : <[g:=gnd']> (nodes t) !! m = Some mnd)
          by (by rewrite lookup_insert_ne).
        erewrite updNode_eq by (simpl; exact Hm1). simpl. rewrite Hpar.
        erewrite deleteLeafData_eq by (simpl; exact Hx). simpl.
        erewrite deleteNodeData_eq
          by (simpl; rewrite lookup_insert_ne by done; exact Hznd1).
        simpl. by rewrite Hm1.
      * simpl. erewrite deleteLeafData_eq by (simpl; exact Hx). simpl.
        erewrite deleteNodeData_eq by (simpl; exact Hznd1). done.
    + simpl. destruct cS as [m|].
      * destruct (HcS m eq_refl) as (Hmz & mnd & Hmnd).
        erewrite (getNode_Some _ z) by (simpl; exact Hznd). simpl.
        erewrite updNode_eq by (simpl; exact Hmnd). simpl. rewrite Hpar.
        erewrite deleteLeafData_eq by (simpl; exact Hx). simpl.
        erewrite deleteNodeData_eq
          by (simpl; rewrite lookup_insert_ne by done; exact Hznd).
        simpl. by rewrite Hmnd.
      * simpl. erewrite deleteLeafData_eq by (simpl; exact Hx). simpl.
        erewrite deleteNodeData_eq by (simpl; exact Hznd). done.
Qed.

(** ** Deletion on shapes *)

Lemma shapeRemove_notin x T : x ∉ shapeLeaves T → shapeRemove x T = T.
Proof.
  induction T as [l|m tl IHl tr IHr]; simpl; intros Hn; [done|].
  rewrite decide_False by (intros ->; simpl in Hn; set_solver).
  rewrite decide_False by (intros ->; simpl in Hn; set_solver).
  rewrite IHl, IHr; [done|set_solver..].
Qed.

Lemma reparent_repr N L N1 L1 p p' S cS eS :
  repr N L p S cS eS → NoDup (shapeNodes S) →
  (∀ n, n ∈ shapeNodes S → N1 !! n = N !! n) →
  (∀ l, l ∈ shapeLeaves S → L1 !! l = L !! l) →
  repr (reparentN cS p' N1) (reparentL eS p' L1) p' S cS eS.
Proof.
  intros Hrep Hnd HN HL. destruct S as [l|m a b]; simpl in *.
  - destruct Hrep as (-> & -> & lf & Hlf & _). repeat split. simpl.
    rewrite HL by set_solver. rewrite Hlf. eexists. by rewrite lookup_insert_eq.
  - destruct Hrep as (-> & -> & nd & Hnd' & _ & Ha & Hb). repeat split. simpl.
    apply NoDup_cons in Hnd as [Hm Hnd].
    rewrite HN by set_solver. rewrite Hnd'.
    eexists. rewrite lookup_insert_eq. split; [done|]. split; [done|]. simpl.
    split; (eapply repr_frame; [| |eassumption]).
    + intros k Hk. rewrite lookup_insert_ne by set_solver. apply HN. set_solver.
    + intros k Hk. apply HL. set_solver.
    + intros k Hk. rewrite lookup_insert_ne by set_solver. apply HN. set_solver.
    + intros k Hk. apply HL. set_solver.
Qed.

(** The other side of the node that holds [x] in one of its slots. *)
Lemma immediate_sibling N L z a b x znd :
  N !! z = Some znd →
  repr N L (Some z) a (left_ znd) (elementLeft_ znd) →
  repr N L (Some z) b (right_ znd) (elementRight_ znd) →
  NoDup (shapeLeaves a ++ shapeLeaves b) →
  immediate x (Node z a b) →
  let S := shapeRemove x (Node z a b) in
  repr N L (Some z) S (siblingSide x znd).1 (siblingSide x znd).2 ∧
  (S = a ∨ S = b) ∧ x ∉ shapeLeaves S.
Proof.
  intros Hznd Ha Hb Hnd Him. simpl. simpl in Him.
  apply NoDup_app in Hnd as (Hnda & Hab & Hndb).
  unfold siblingSide.
  destruct (decide (a = Leaf x)) as [->|Hna].
  - simpl in Ha. destruct Ha as (_ & -> & _).
    rewrite bool_decide_eq_true_2 by done. simpl.
    split; [done|]. split; [by right|]. apply Hab. simpl. set_solver.
  - destruct Him as [?| ->]; [done|].
    rewrite decide_True by done.
    assert (Hxa : x ∉ shapeLeaves a).
    { intros Hx. eapply Hab; [exact Hx|]. simpl. set_solver. }
    rewrite bool_decide_eq_false_2.
    + simpl. split; [done|]. split; [by left|done].
    + destruct a as [l|m a1 a2]; simpl in Ha.
      * destruct Ha as (_ & -> & _). intros [= ->]. apply Hxa. simpl. set_solver.
      * destruct Ha as (_ & -> & _). done.
Qed.

Lemma remove_repr_deep N L x lfx z znd g gnd :
  L !! x = Some lfx → node_ lfx = Some z → N !! z = Some znd →
  parent_ znd = Some g → N !! g = Some gnd →
  let cS := (siblingSide x znd).1 in
  let eS := (siblingSide x znd).2 in
  let N' := delete z (reparentN cS (Some g) (<[g := moveUp z cS eS gnd]> N)) in
  let L' := delete x (reparentL eS (Some g) L) in
  ∀ T p c0 e0,
    repr N L p T c0 e0 → NoDup (shapeNodes T) → NoDup (shapeLeaves T) →
    x ∈ shapeLeaves T → T ≠ Leaf x → ¬ immediate x T →
    repr N' L' p (shapeRemove x T) c0 e0 ∧
    z ∈ shapeNodes T ∧ g ∈ shapeNodes T ∧
    (∀ m, cS = Some m → m ∈ shapeNodes T) ∧
    (∀ l, eS = Some l → l ∈ shapeLeaves T).
Proof.
  intros Hx Hz Hznd Hpar Hgnd cS eS N' L'.
  assert (HframeN : ∀ n, n ≠ z → n ≠ g → cS ≠ Some n → N' !! n = N !! n).
  { intros n ? ? ?. unfold N', reparentN. rewrite lookup_delete_ne by done.
    destruct cS as [m|]; [|by rewrite lookup_insert_ne].
    destruct (_ !! m); [rewrite lookup_insert_ne by congruence|];
      by rewrite lookup_insert_ne. }
  assert (HframeL : ∀ l, l ≠ x → eS ≠ Some l → L' !! l = L !! l).
  { intros l ? ?. unfold L', reparentL. rewrite lookup_delete_ne by done.
    destruct eS as [l'|]; [|done].
    destruct (_ !! l'); [rewrite lookup_insert_ne by congruence|]; done. }
  induction T as [l|k tl IHl tr IHr]; intros p c0 e0 Hrep HndN HndL Hin Hne Him.
  { simpl in Hin. apply list_elem_of_singleton in Hin as ->. done. }
  simpl in Hrep. destruct Hrep as (-> & -> & nd & Hnd & Hp & Hrl & Hrr).
  simpl in HndN, HndL, Hin, Him.
  apply NoDup_cons in HndN as [Hk HndN].
  apply NoDup_app in HndN as (HndNl & HndNlr & HndNr).
  pose proof HndL as HndL0.
  apply NoDup_app in HndL as (HndLl & HndLlr & HndLr).
  simpl. rewrite decide_False by tauto. rewrite decide_False by tauto.
  apply elem_of_app in Hin as [Hin|Hin].
  - (* [x] is on the left *)
    assert (Hxr : x ∉ shapeLeaves tr) by (intros ?; by eapply HndLlr).
    rewrite (shapeRemove_notin x tr) by done.
    destruct tl as [l|z' a b];
      [simpl in Hin; apply list_elem_of_singleton in Hin; subst l; tauto|].
    destruct (decide (immediate x (Node z' a b))) as [Himl|Himl].
    + (* the left child is the node of [x] *)
      pose proof Hrl as Hrl0.
      simpl in Hrl. destruct Hrl as (HL & HEL & nd' & Hnd' & Hp' & Ha & Hb).
      assert (z' = z ∧ nd' = znd) as [-> ->].
      { destruct Himl as [-> | ->]; simpl in Ha, Hb.
        - destruct Ha as (_ & _ & lf & Hlf & Hn). split; congruence.
        - destruct Hb as (_ & _ & lf & Hlf & Hn). split; congruence. }
      assert (k = g) as -> by congruence.
      assert (nd = gnd) as -> by congruence.
      destruct (immediate_sibling N L z a b x znd Hznd Ha Hb) as (HS & HSab & HxS);
        [simpl in HndLl; done|done|].
      fold cS eS in HS.
      set (S := shapeRemove x (Node z a b)) in *.
      assert (HSN : ∀ n, n ∈ shapeNodes S → n ∈ shapeNodes a ++ shapeNodes b).
      { intros n. destruct HSab as [-> | ->]; set_solver. }
      assert (HSL : ∀ l, l ∈ shapeLeaves S → l ∈ shapeLeaves a ++ shapeLeaves b).
      { intros l. destruct HSab as [-> | ->]; set_solver. }
      simpl in HndNl. apply NoDup_cons in HndNl as [Hza HndNab].
      assert (HndS : NoDup (shapeNodes S)).
      { apply NoDup_app in HndNab as (? & ? & ?). by destruct HSab as [-> | ->]. }
      assert (HcSin : ∀ m, cS = Some m → m ∈ shapeNodes S).
      { intros m Hm. destruct S; simpl in HS; destruct HS as (HS1 & _);
          rewrite Hm in HS1; [done|]. injection HS1 as ->. set_solver. }
      assert (HeSin : ∀ l, eS = Some l → l ∈ shapeLeaves S).
      { intros l Hl. destruct S; simpl in HS; destruct HS as (_ & HS2 & _);
          rewrite Hl in HS2; [|done]. injection HS2 as ->. set_solver. }
      assert (Hgz : g ≠ z) by (intros ->; apply Hk; set_solver).
      assert (HgS : g ∉ shapeNodes S).
      { intros HgS. apply Hk. simpl. apply HSN in HgS. set_solver. }
      split; [|split; [set_solver|split; [set_solver|split]]].
      * repeat split.
        exists (moveUp z cS eS gnd). split.
        { unfold N', reparentN. rewrite lookup_delete_ne by done.
          destruct cS as [m|] eqn:HcS; [|apply lookup_insert_eq].
          assert (m ≠ g) by (intros ->; apply HgS; by apply HcSin).
          rewrite lookup_insert_ne by done.
          destruct (N !! m); [rewrite lookup_insert_ne by done|]; apply lookup_insert_eq. }
        unfold moveUp. rewrite bool_decide_eq_true_2 by done. simpl.
        split; [done|]. split.
        -- eapply repr_frame;
             [| |apply (reparent_repr N L (<[g:=moveUp z cS eS gnd]> N) L (Some z) (Some g));
                 [exact HS|exact HndS| |done]].
           ++ intros n Hn. unfold N'. rewrite lookup_delete_ne; [done|].
              intros ->. apply Hza. by apply HSN.
           ++ intros l Hl. unfold L'. rewrite lookup_delete_ne; [done|].
              intros ->. done.
           ++ intros n Hn. rewrite lookup_insert_ne; [done|]. intros ->. done.
        -- eapply repr_frame; [| |exact Hrr].
           ++ intros n Hn. apply HframeN.
              ** intros ->. eapply HndNlr; [|exact Hn]. simpl. set_solver.
              ** intros ->. apply Hk. set_solver.
              ** intros HcS. apply HcSin, HSN in HcS.
                 eapply HndNlr; [|exact Hn]. simpl. set_solver.
           ++ intros l Hl. apply HframeL.
              ** intros ->. done.
              ** intros HeS. apply HeSin, HSL in HeS.
                 eapply HndLlr; [|exact Hl]. simpl. done.
      * intros m Hm. apply HcSin, HSN in Hm. set_solver.
      * intros l Hl. apply HeSin, HSL in Hl. simpl. set_solver.
    + (* [x] is deeper on the left *)
      destruct (IHl _ _ _ Hrl HndNl HndLl Hin) as (IH & Hzin & Hgin & HcSin & HeSin);
        [done|done|].
      split; [|split; [set_solver|split; [set_solver|split]]].
      * repeat split. exists nd. split.
        { rewrite HframeN; [done|..].
          - intros ->. apply Hk. set_solver.
          - intros ->. apply Hk. set_solver.
          - intros HcS. apply HcSin in HcS. apply Hk. set_solver. }
        split; [done|]. split; [exact IH|].
        eapply repr_frame; [| |exact Hrr].
        -- intros n Hn. apply HframeN.
           ++ intros ->. exact (HndNlr _ Hzin Hn).
           ++ intros ->. exact (HndNlr _ Hgin Hn).
           ++ intros HcS. apply HcSin in HcS. exact (HndNlr _ HcS Hn).
        -- intros l Hl. apply HframeL.
           ++ intros ->. done.
           ++ intros HeS. apply HeSin in HeS. exact (HndLlr _ HeS Hl).
      * intros m Hm. apply HcSin in Hm. set_solver.
      * intros l Hl. apply HeSin in Hl. set_solver.
  - (* [x] is on the right *)
    assert (Hxl : x ∉ shapeLeaves tl) by (intros ?; by eapply HndLlr).
    rewrite (shapeRemove_notin x tl) by done.
    destruct tr as [l|z' a b];
      [simpl in Hin; apply list_elem_of_singleton in Hin; subst l; tauto|].
    destruct (decide (immediate x (Node z' a b))) as [Himr|Himr].
    + (* the right child is the node of [x] *)
      pose proof Hrr as Hrr0.
      simpl in Hrr. destruct Hrr as (HR & HER & nd' & Hnd' & Hp' & Ha & Hb).
      assert (z' = z ∧ nd' = znd) as [-> ->].
      { destruct Himr as [-> | ->]; simpl in Ha, Hb.
        - destruct Ha as (_ & _ & lf & Hlf & Hn). split; congruence.
        - destruct Hb as (_ & _ & lf & Hlf & Hn). split; congruence. }
      assert (k = g) as -> by congruence.
      assert (nd = gnd) as -> by congruence.
      destruct (immediate_sibling N L z a b x znd Hznd Ha Hb) as (HS & HSab & HxS);
        [simpl in HndLr; done|done|].
      fold cS eS in HS.
      set (S := shapeRemove x (Node z a b)) in *.
      assert (HSN : ∀ n, n ∈ shapeNodes S → n ∈ shapeNodes a ++ shapeNodes b).
      { intros n. destruct HSab as [-> | ->]; set_solver. }
      assert (HSL : ∀ l, l ∈ shapeLeaves S → l ∈ shapeLeaves a ++ shapeLeaves b).
      { intros l. destruct HSab as [-> | ->]; set_solver. }
      simpl in HndNr. apply NoDup_cons in HndNr as [Hza HndNab].
      assert (HndS : NoDup (shapeNodes S)).
      { apply NoDup_app in HndNab as (? & ? & ?). by destruct HSab as [-> | ->]. }
      assert (HcSin : ∀ m, cS = Some m → m ∈ shapeNodes S).
      { intros m Hm. destruct S; simpl in HS; destruct HS as (HS1 & _);
          rewrite Hm in HS1; [done|]. injection HS1 as ->. set_solver. }
      assert (HeSin : ∀ l, eS = Some l → l ∈ shapeLeaves S).
      { intros l Hl. destruct S; simpl in HS; destruct HS as (_ & HS2 & _);
          rewrite Hl in HS2; [|done]. injection HS2 as ->. set_solver. }
      assert (Hgz : g ≠ z) by (intros ->; apply Hk; set_solver).
      assert (HgS : g ∉ shapeNodes S).
      { intros HgS. apply Hk. simpl. apply HSN in HgS. set_solver. }
      assert (Hzl : Some z ≠ left_ gnd).
      { destruct tl as [l|z'' a' b']; simpl in Hrl.
        - destruct Hrl as (-> & _). done.
        - destruct Hrl as (-> & _). intros [= Hzz].
          apply (HndNlr z); [rewrite Hzz; simpl; set_solver|simpl; set_solver]. }
      split; [|split; [set_solver|split; [set_solver|split]]].
      * repeat split.
        exists (moveUp z cS eS gnd). split.
        { unfold N', reparentN. rewrite lookup_delete_ne by done.
          destruct cS as [m|] eqn:HcS; [|apply lookup_insert_eq].
          assert (m ≠ g) by (intros ->; apply HgS; by apply HcSin).
          rewrite lookup_insert_ne by done.
          destruct (N !! m); [rewrite lookup_insert_ne by done|]; apply lookup_insert_eq. }
        unfold moveUp. rewrite bool_decide_eq_false_2 by done. simpl.
        split; [done|]. split.
        -- eapply repr_frame; [| |exact Hrl].
           ++ intros n Hn. apply HframeN.
              ** intros ->. eapply HndNlr; [exact Hn|]. simpl. set_solver.
              ** intros ->. apply Hk. set_solver.
              ** intros HcS. apply HcSin, HSN in HcS.
                 eapply HndNlr; [exact Hn|]. simpl. set_solver.
           ++ intros l Hl. apply HframeL.
              ** intros ->. done.
              ** intros HeS. apply HeSin, HSL in HeS.
                 eapply HndLlr; [exact Hl|]. simpl. done.
        -- eapply repr_frame;
             [| |apply (reparent_repr N L (<[g:=moveUp z cS eS gnd]> N) L (Some z) (Some g));
                 [exact HS|exact HndS| |done]].
           ++ intros n Hn. unfold N'. rewrite lookup_delete_ne; [done|].
              intros ->. apply Hza. by apply HSN.
           ++ intros l Hl. unfold L'. rewrite lookup_delete_ne; [done|].
              intros ->. done.
           ++ intros n Hn. rewrite lookup_insert_ne; [done|]. intros ->. done.
      * intros m Hm. apply HcSin, HSN in Hm. set_solver.
      * intros l Hl. apply HeSin, HSL in Hl. simpl. set_solver.
    + (* [x] is deeper on the right *)
      destruct (IHr _ _ _ Hrr HndNr HndLr Hin) as (IH & Hzin & Hgin & HcSin & HeSin);
        [done|done|].
      split; [|split; [set_solver|split; [set_solver|split]]].
      * repeat split. exists nd. split.
        { rewrite HframeN; [done|..].
          - intros ->. apply Hk. set_solver.
          - intros ->. apply Hk. set_solver.
          - intros HcS. apply HcSin in HcS. apply Hk. set_solver. }
        split; [done|]. split; [|exact IH].
        eapply repr_frame; [| |exact Hrl].
        -- intros n Hn. apply HframeN.
           ++ intros ->. exact (HndNlr _ Hn Hzin).
           ++ intros ->. exact (HndNlr _ Hn Hgin).
           ++ intros HcS. apply HcSin in HcS. exact (HndNlr _ Hn HcS).
        -- intros l Hl. apply HframeL.
           ++ intros ->. done.
           ++ intros HeS. apply HeSin in HeS. exact (HndLlr _ Hl HeS).
      * intros m Hm. apply HcSin in Hm. set_solver.
      * intros l Hl. apply HeSin in Hl. set_solver.
Qed.

(** The node that holds the leaf [x] of a represented shape, its two
    sides, and its parent. *)
Lemma repr_locate N L x T : ∀ p c0 e0,
  repr N L p T c0 e0 → NoDup (shapeNodes T) → NoDup (shapeLeaves T) →
  x ∈ shapeLeaves T → T ≠ Leaf x →
  ∃ lfx z znd a b,
    L !! x = Some lfx ∧ node_ lfx = Some z ∧ N !! z = Some znd ∧
    repr N L (Some z) a (left_ znd) (elementLeft_ znd) ∧
    repr N L (Some z) b (right_ znd) (elementRight_ znd) ∧
    immediate x (Node z a b) ∧
    NoDup (shapeNodes (Node z a b)) ∧ NoDup (shapeLeaves (Node z a b)) ∧
    ((T = Node z a b ∧ c0 = Some z ∧ parent_ znd = p) ∨
     (¬ immediate x T ∧
      ∃ g gnd, parent_ znd = Some g ∧ N !! g = Some gnd ∧ g ≠ z ∧
        (g ∉ shapeNodes a ++ shapeNodes b) ∧
        (Some z = left_ gnd → elementLeft_ gnd = None) ∧
        (Some z ≠ left_ gnd → elementRight_ gnd = None))).
Proof.
  induction T as [l|k tl IHl tr IHr]; intros p c0 e0 Hrep HndN HndL Hin Hne.
  { simpl in Hin. apply list_elem_of_singleton in Hin as ->. done. }
  destruct (decide (immediate x (Node k tl tr))) as [Him|Him].
  { pose proof Hrep as Hrep0.
    simpl in Hrep. destruct Hrep as (-> & -> & nd & Hnd & Hp & Hrl & Hrr).
    assert (∃ lfx, L !! x = Some lfx ∧ node_ lfx = Some k) as (lfx & Hx & Hz).
    { destruct Him as [-> | ->]; simpl in Hrl, Hrr.
      - destruct Hrl as (_ & _ & lf & ? & ?). eauto.
      - destruct Hrr as (_ & _ & lf & ? & ?). eauto. }
    exists lfx, k, nd, tl, tr. repeat (split; [done|]). by left. }
  simpl in Hrep. destruct Hrep as (-> & -> & nd & Hnd & Hp & Hrl & Hrr).
  simpl in HndN, HndL, Hin, Him.
  apply NoDup_cons in HndN as [Hk HndN].
  apply NoDup_app in HndN as (HndNl & HndNlr & HndNr).
  apply NoDup_app in HndL as (HndLl & HndLlr & HndLr).
  apply elem_of_app in Hin as [Hin|Hin].
  - assert (Htl : tl ≠ Leaf x) by tauto.
    destruct (IHl _ _ _ Hrl HndNl HndLl Hin Htl)
      as (lfx & z & znd & a & b & Hx & Hz & Hznd & Ha & Hb & Hi & HnN & HnL & Hcase).
    exists lfx, z, znd, a, b. repeat (split; [done|]). right. split; [simpl; tauto|].
    destruct Hcase as [(-> & Hl & Hpar)|(_ & g & gnd & ? & ? & ? & ? & ? & ?)].
    + exists k, nd. split; [done|]. split; [done|].
      split; [intros ->; apply Hk; set_solver|].
      split; [intros ?; apply Hk; set_solver|].
      simpl in Hrl. destruct Hrl as (_ & HEL & _). split; [done|].
      intros Hzl. by rewrite Hl in Hzl.
    + exists g, gnd. done.
  - assert (Htr : tr ≠ Leaf x) by tauto.
    destruct (IHr _ _ _ Hrr HndNr HndLr Hin Htr)
      as (lfx & z & znd & a & b & Hx & Hz & Hznd & Ha & Hb & Hi & HnN & HnL & Hcase).
    exists lfx, z, znd, a, b. repeat (split; [done|]). right. split; [simpl; tauto|].
    destruct Hcase as [(-> & Hr & Hpar)|(_ & g & gnd & ? & ? & ? & ? & ? & ?)].
    + exists k, nd. split; [done|]. split; [done|].
      split; [intros ->; apply Hk; set_solver|].
      split; [intros ?; apply Hk; set_solver|].
      simpl in Hrr. destruct Hrr as (_ & HER & _). split; [|done].
      intros Hzl. exfalso.
      destruct tl as [l|z'' a' b']; simpl in Hrl; destruct Hrl as (Hl & _);
        rewrite Hl in Hzl; [done|]. injection Hzl as ->.
      apply (HndNlr z''); simpl; set_solver.
    + exists g, gnd. done.
Qed.

Lemma shapeRemove_leaves x T :
  x ∈ shapeLeaves T → T ≠ Leaf x → NoDup (shapeLeaves T) →
  shapeLeaves T ≡ₚ x :: shapeLeaves (shapeRemove x T).
Proof.
  induction T as [l|k tl IHl tr IHr]; simpl; intros Hin Hne Hnd.
  { apply list_elem_of_singleton in Hin as ->. done. }
  apply NoDup_app in Hnd as (Hndl & Hlr & Hndr).
  destruct (decide (tl = Leaf x)) as [->|Hl]; [done|].
  destruct (decide (tr = Leaf x)) as [->|Hr].
  { simpl. by rewrite Permutation_app_comm. }
  apply elem_of_app in Hin as [Hin|Hin].
  - rewrite (shapeRemove_notin x tr) by (intros ?; by eapply Hlr).
    simpl. by rewrite (IHl Hin Hl Hndl) at 1.
  - rewrite (shapeRemove_notin x tl) by (intros ?; by eapply Hlr).
    simpl. rewrite (IHr Hin Hr Hndr) at 1. by rewrite Permutation_middle.
Qed.

Lemma shapeRemove_nodes x T : shapeNodes (shapeRemove x T) `sublist_of` shapeNodes T.
Proof.
  induction T as [l|k tl IHl tr IHr]; simpl; [done|].
  destruct (decide (tl = Leaf x)) as [->|Hl].
  { simpl. by apply sublist_cons. }
  destruct (decide (tr = Leaf x)) as [->|Hr].
  { simpl. rewrite app_nil_r. by apply sublist_cons. }
  simpl. apply sublist_skip. by apply sublist_app.
Qed.

(** ** [deleteLeaf] on a well-formed tree *)

Lemma deleteLeaf_single t r x :
  treeInv t (TSingle r x) →
  ∃ t', deleteLeaf t (Some x) = Done t' ∧
    size_ t' = (size_ t - 1)%Z ∧
    nodes t' = delete r (nodes t) ∧ leaves t' = delete x (leaves t) ∧
    treeInv t' TEmpty.
Proof.
  intros (Hsz & _ & _ & Hroot & rnd & Hrnd & _ & _ & _ & _ & Hrep).
  simpl in Hsz, Hrep. destruct Hrep as (_ & _ & lfx & Hx & _).
  eexists. split; [by eapply deleteLeaf_single_eq|]. simpl.
  split; [lia|]. split; [done|]. split; [done|].
  split; [done|]. split; [apply NoDup_nil_2|]. split; [apply NoDup_nil_2|done].
Qed.

Lemma sibling_facts N L z S cS eS x (X : list positive) :
  repr N L (Some z) S cS eS → x ∉ shapeLeaves S → z ∉ shapeNodes S →
  (∀ l, eS = Some l → cS = None ∧ l ≠ x ∧ is_Some (L !! l) ∧ S = Leaf l) ∧
  (∀ m, cS = Some m → m ≠ z ∧ is_Some (N !! m) ∧ m ∈ shapeNodes S ∧ eS = None).
Proof.
  intros HS HxS HzS. destruct S as [l'|m' a' b']; simpl in HS.
  - destruct HS as (-> & -> & lf & Hlf & _). split; [|done].
    intros l [= <-]. split; [done|]. split; [|eauto].
    intros ->. apply HxS. simpl. set_solver.
  - destruct HS as (-> & -> & nd & Hnd & _). split; [done|].
    intros m [= <-]. split; [|split; [eauto|split; [simpl; set_solver|done]]].
    intros ->. apply HzS. simpl. set_solver.
Qed.

Lemma deleteLeaf_full t n0 tl tr x :
  treeInv t (TFull n0 tl tr) → x ∈ shapeLeaves (Node n0 tl tr) →
  deleteLeaf t (Some x) = Done (setSize (size_ t - 1)%Z (removeStore t x)) ∧
  treeInv (setSize (size_ t - 1)%Z (removeStore t x))
    (treeRemove (newNodeAddr t) x (TFull n0 tl tr)).
Proof.
  intros (Hsz & HndN & HndL & Hrep) Hin.
  change (treeLeaves (TFull n0 tl tr)) with (shapeLeaves (Node n0 tl tr)) in *.
  change (treeNodes (TFull n0 tl tr)) with (shapeNodes (Node n0 tl tr)) in *.
  unfold treeRemove.
  assert (Hsz1 : (1 < size_ t)%Z).
  { rewrite Hsz. simpl. rewrite length_app.
    pose proof (shapeLeaves_length tl). pose proof (shapeLeaves_length tr). lia. }
  remember (Node n0 tl tr) as T eqn:HTdef.
  assert (HT : T ≠ Leaf x) by (by subst T).
  destruct (repr_locate _ _ _ _ _ _ _ Hrep HndN HndL Hin HT)
    as (lfx & z & znd & a & b & Hx & Hz & Hznd & Ha & Hb & Hi & HnN & HnL & Hcase).
  destruct (immediate_sibling _ _ _ _ _ _ _ Hznd Ha Hb HnL Hi) as (HS & HSab & HxS).
  remember (shapeRemove x (Node z a b)) as S eqn:HSdef.
  destruct (siblingSide x znd) as [cS eS] eqn:Hside. simpl in HS.
  pose proof HnN as HnN'. simpl in HnN'. apply NoDup_cons in HnN' as [Hzab HnNab].
  assert (HSN : ∀ n, n ∈ shapeNodes S → n ∈ shapeNodes a ++ shapeNodes b).
  { intros n. destruct HSab as [-> | ->]; set_solver. }
  assert (HzS : z ∉ shapeNodes S) by (intros ?; apply Hzab; by apply HSN).
  assert (HndS : NoDup (shapeNodes S)).
  { apply NoDup_app in HnNab as (? & ? & ?). by destruct HSab as [-> | ->]. }
  destruct (sibling_facts _ _ _ _ _ _ _ [] HS HxS HzS) as (HeS & HcS).
  (* the shape after the deletion *)
  remember (shapeRemove x T) as T' eqn:HT'def.
  assert (Hlen : length (shapeLeaves T) = Datatypes.S (length (shapeLeaves T'))).
  { subst T'. by rewrite (shapeRemove_leaves x T Hin HT HndL) at 1. }
  rewrite Hlen in Hsz. clear Hlen.
  assert (HndL' : NoDup (shapeLeaves T')).
  { rewrite (shapeRemove_leaves x T Hin HT HndL) in HndL. subst T'.
    by apply NoDup_cons in HndL as [_ ?]. }
  assert (HndN' : NoDup (shapeNodes T')).
  { subst T'. eapply sublist_NoDup; [|apply shapeRemove_nodes]. done. }
  split.
  { eapply deleteLeaf_full_eq; eauto; rewrite Hside; simpl.
    - intros l Hl. destruct (HeS l Hl) as (? & ? & ? & _). done.
    - intros m Hm. destruct (HcS m Hm) as (? & ? & _). done.
    - intros g Hg.
      destruct Hcase as [(_ & _ & Hp)|(_ & g' & gnd & Hp & Hgnd & Hgz & Hgab & HgL & HgR)];
        [congruence|].
      assert (g' = g) as -> by congruence.
      split; [done|]. split; [|eauto].
      intros HcSg. destruct (HcS g HcSg) as (_ & _ & HgS & _).
      apply Hgab. by apply HSN. }
  unfold removeStore. rewrite Hx, Hz, Hznd, Hside.
  destruct Hcase as [(HTz & Hroot & Hp)|(Him & g & gnd & Hp & Hgnd & Hgz & Hgab & HgL & HgR)].
  - (* the node of [x] is the root *)
    rewrite Hp.
    assert (T' = S) as -> by (by rewrite HT'def, HSdef, HTz).
    destruct eS as [l|].
    + destruct (HeS l eq_refl) as (-> & Hlx & (lfl & Hl) & HSl).
      rewrite HSl in *. simpl in Hsz.
      pose proof (newNodeAddr_fresh t) as Hr.
      assert (Hrz : newNodeAddr t ≠ z) by (intros E; rewrite E in Hr; congruence).
      split; [simpl; lia|]. split; [apply NoDup_singleton|]. split; [apply NoDup_singleton|].
      simpl. split; [done|].
      eexists. split; [rewrite lookup_delete_ne by done; apply lookup_insert_eq|].
      simpl. repeat split.
      rewrite lookup_delete_ne by done. rewrite Hl. rewrite lookup_insert_eq. eauto.
    + clear HSdef. destruct S as [l|m a' b']; simpl in HS; [destruct HS as (_ & ? & _); done|].
      pose proof HS as (-> & _ & mnd & Hmnd & _).
      split; [simpl in *; lia|]. split; [done|]. split; [done|].
      simpl root_. simpl nodes. simpl leaves.
      eapply repr_frame;
        [| |apply (reparent_repr (nodes t) (leaves t) (nodes t) (leaves t) (Some z) None
                     (Node m a' b') (Some m) None); [exact HS|done|done|done]].
      * intros n Hn. rewrite lookup_delete_ne; [done|]. intros ->. done.
      * intros l Hl. simpl. rewrite lookup_delete_ne; [done|]. intros ->. done.
  - (* the node of [x] has a parent *)
    rewrite Hp, Hgnd.
    destruct (remove_repr_deep (nodes t) (leaves t) x lfx z znd g gnd Hx Hz Hznd Hp Hgnd
                T None (root_ t) None Hrep HndN HndL Hin HT Him) as (Hrep' & _).
    rewrite Hside in Hrep'. simpl in Hrep'.
    assert (HTeq : T' = Node n0 (shapeRemove x tl) (shapeRemove x tr)).
    { rewrite HT'def, HTdef. rewrite HTdef in Him. simpl. simpl in Him.
      by rewrite !decide_False by tauto. }
    rewrite <- HT'def in Hrep'. rewrite HTeq in *.
    split; [simpl in *; lia|]. split; [done|]. split; [done|]. exact Hrep'.
Qed.

Lemma reparentL_payload eS p L k lf :
  L !! k = Some lf →
  ∃ lf', reparentL eS p L !! k = Some lf' ∧ payload lf' = payload lf.
Proof.
  intros Hk. unfold reparentL. destruct eS as [l|]; [|eauto].
  destruct (L !! l) as [lfl|] eqn:Hl; [|eauto].
  destruct (decide (l = k)) as [->|].
  - rewrite lookup_insert_eq. eexists. split; [done|].
    rewrite payload_withNode. congruence.
  - rewrite lookup_insert_ne by done. eauto.
Qed.

Lemma reparentL_other eS p L k : eS ≠ Some k → reparentL eS p L !! k = L !! k.
Proof.
  intros Hk. unfold reparentL. destruct eS as [l|]; [|done].
  destruct (L !! l); [|done]. rewrite lookup_insert_ne; [done|]. congruence.
Qed.

Lemma removeStore_payload t x k lf :
  k ≠ x → leaves t !! k = Some lf →
  ∃ lf', leaves (removeStore t x) !! k = Some lf' ∧ payload lf' = payload lf.
Proof.
  intros Hkx Hk. unfold removeStore.
  destruct (leaves t !! x) as [lfx|]; [|eauto].
  destruct (node_ lfx) as [z|]; [|eauto].
  destruct (nodes t !! z) as [znd|]; [|eauto].
  destruct (siblingSide x znd) as [cS eS].
  destruct (parent_ znd) as [g|].
  - destruct (nodes t !! g); [|eauto]. cbn [leaves nodes setLeaves setNodes setRoot].
    rewrite lookup_delete_ne by done. by apply reparentL_payload.
  - destruct eS as [l|]; cbn [leaves nodes setLeaves setNodes setRoot];
      rewrite lookup_delete_ne by done; [|eauto].
    by apply reparentL_payload.
Qed.

Lemma removeStore_other t x lfx z znd k :
  leaves t !! x = Some lfx → node_ lfx = Some z → nodes t !! z = Some znd →
  k ≠ x → (siblingSide x znd).2 ≠ Some k →
  leaves (removeStore t x) !! k = leaves t !! k.
Proof.
  intros Hx Hz Hznd Hkx Hk. unfold removeStore. rewrite Hx, Hz, Hznd.
  destruct (siblingSide x znd) as [cS eS]. simpl in Hk.
  destruct (parent_ znd) as [g|].
  - destruct (nodes t !! g); [|done]. cbn [leaves nodes setLeaves setNodes setRoot].
    rewrite lookup_delete_ne by done. by apply reparentL_other.
  - destruct eS as [l|]; cbn [leaves nodes setLeaves setNodes setRoot];
      rewrite lookup_delete_ne by done; [|done].
    by apply reparentL_other.
Qed.

Lemma removeStore_freed t x lfx z znd :
  leaves t !! x = Some lfx → node_ lfx = Some z → nodes t !! z = Some znd →
  (∀ g, parent_ znd = Some g → is_Some (nodes t !! g)) →
  leaves (removeStore t x) !! x = None ∧ nodes (removeStore t x) !! z = None.
Proof.
  intros Hx Hz Hznd Hg. unfold removeStore. rewrite Hx, Hz, Hznd.
  destruct (siblingSide x znd) as [cS eS].
  destruct (parent_ znd) as [g|].
  - destruct (Hg g eq_refl) as (gnd & ->). simpl. by rewrite !lookup_delete_eq.
  - destruct eS as [l|]; simpl; by rewrite !lookup_delete_eq.
Qed.

Lemma siblingSide_holds t x z znd k :
  nodes t !! z = Some znd → (siblingSide x znd).2 = Some k → holds t z k.
Proof.
  intros Hznd Hk. exists znd. split; [done|]. unfold siblingSide in Hk.
  case_bool_decide; simpl in Hk; eauto.
Qed.

(** ** Stored leaves and back-pointers of a well-formed tree *)

Lemma reachable_shape_in t T n :
  repr (nodes t) (leaves t) None T (root_ t) None →
  reachable t n → n ∈ shapeNodes T.
Proof.
  intros Hrep Hreach. induction Hreach as [n Hroot|n nd m _ IH Hnd Hl|n nd m _ IH Hnd Hr].
  - destruct T as [l|k tl tr]; simpl in Hrep.
    + destruct Hrep as (? & _). congruence.
    + destruct Hrep as (? & _). simpl. set_solver.
  - destruct (repr_subtree _ _ _ _ _ _ _ Hrep IH)
      as (nd' & tl & tr & q & Hnd' & _ & Htl & _ & Hsub & _).
    assert (nd' = nd) as -> by congruence.
    destruct tl as [l|k a b]; simpl in Htl; destruct Htl as (Hc & _); [congruence|].
    apply Hsub. simpl. rewrite Hl in Hc. injection Hc as ->. set_solver.
  - destruct (repr_subtree _ _ _ _ _ _ _ Hrep IH)
      as (nd' & tl & tr & q & Hnd' & _ & _ & Htr & _ & Hsub & _).
    assert (nd' = nd) as -> by congruence.
    destruct tr as [l|k a b]; simpl in Htr; destruct Htr as (Hc & _); [congruence|].
    apply Hsub. simpl. rewrite Hr in Hc. injection Hc as ->. set_solver.
Qed.

Lemma shape_reachable t T : ∀ p c e n,
  repr (nodes t) (leaves t) p T c e →
  (∀ m, c = Some m → reachable t m) →
  n ∈ shapeNodes T → reachable t n.
Proof.
  induction T as [l|k tl IHl tr IHr]; intros p c e n; simpl.
  - intros _ _ H. by apply elem_of_nil in H.
  - intros (-> & -> & nd & Hnd & Hp & Hl & Hr) Hc Hin.
    assert (Hk : reachable t k) by (by apply Hc).
    apply elem_of_cons in Hin as [->|Hin]; [done|].
    apply elem_of_app in Hin as [Hin|Hin].
    + eapply IHl; [exact Hl| |done]. intros m Hm. eapply reach_left; eauto.
    + eapply IHr; [exact Hr| |done]. intros m Hm. eapply reach_right; eauto.
Qed.

(** A node of a represented shape holds exactly the leaves of its slots. *)
Lemma holds_shape N L T : ∀ p c e n l nd,
  repr N L p T c e → n ∈ shapeNodes T → N !! n = Some nd →
  elementLeft_ nd = Some l ∨ elementRight_ nd = Some l → l ∈ shapeLeaves T.
Proof.
  intros p c e n l nd Hrep Hin Hnd Hl.
  destruct (repr_subtree _ _ _ _ _ _ _ Hrep Hin)
    as (nd' & tl & tr & q & Hnd' & _ & Htl & Htr & _ & _ & Hsubl & Hsubr).
  assert (nd' = nd) as -> by congruence.
  destruct Hl as [Hl|Hl].
  - destruct tl as [l'|k a b]; simpl in Htl; destruct Htl as (_ & He & _); [|congruence].
    apply Hsubl. simpl. rewrite Hl in He. injection He as ->. set_solver.
  - destruct tr as [l'|k a b]; simpl in Htr; destruct Htr as (_ & He & _); [|congruence].
    apply Hsubr. simpl. rewrite Hl in He. injection He as ->. set_solver.
Qed.

Lemma leafSlot_holds t q l : leafSlot (nodes t) q l → holds t q l.
Proof. intros (qnd & Hq & Hs). exists qnd. split; [done|]. tauto. Qed.

Lemma treeInv_stored t a l : treeInv t a → stored t l ↔ l ∈ treeLeaves a.
Proof.
  intros (Hsz & HndN & HndL & Hinv). destruct a as [|r x|n0 tl tr].
  - simpl in *. split; [|intros H; by apply elem_of_nil in H].
    intros (n & Hreach & _). exfalso.
    induction Hreach; [congruence|done..].
  - destruct Hinv as (Hroot & nd & Hnd & HP & HL & HR & HER & Hrep).
    simpl in Hrep. destruct Hrep as (_ & HEL & lf & Hlf & Hnode).
    assert (Hreach : ∀ n, reachable t n → n = r).
    { intros n H. induction H as [n H|n nd' m _ IH Hnd' Hl|n nd' m _ IH Hnd' Hr];
        [congruence|subst n; congruence..]. }
    simpl. rewrite list_elem_of_singleton. split.
    + intros (n & Hr & nd' & Hnd' & Hl). apply Hreach in Hr as ->.
      assert (nd' = nd) as -> by congruence. destruct Hl; congruence.
    + intros ->. exists r. split; [by apply reach_root|]. exists nd. eauto.
  - change (treeLeaves (TFull n0 tl tr)) with (shapeLeaves (Node n0 tl tr)) in *.
    change (treeNodes (TFull n0 tl tr)) with (shapeNodes (Node n0 tl tr)) in *.
    set (T := Node n0 tl tr) in *. split.
    + intros (n & Hreach & nd & Hnd & Hl).
      eapply holds_shape; eauto using reachable_shape_in.
    + intros Hin.
      destruct (repr_leaf_site _ _ _ _ _ _ _ Hinv Hin)
        as (lf & Hlf & [[? _]|(q & Hq & Hqin & Hs)]); [done|].
      exists q. split; [|by apply leafSlot_holds].
      eapply shape_reachable; [exact Hinv| |done].
      intros m Hm. by apply reach_root.
Qed.

Lemma treeInv_backPointer t a l : treeInv t a → l ∈ treeLeaves a → backPointerOk t l.
Proof.
  intros (Hsz & HndN & HndL & Hinv) Hin. destruct a as [|r x|n0 tl tr].
  - by apply elem_of_nil in Hin.
  - simpl in Hin. apply list_elem_of_singleton in Hin as ->.
    destruct Hinv as (Hroot & nd & Hnd & HP & HL & HR & HER & Hrep).
    simpl in Hrep. destruct Hrep as (_ & HEL & lf & Hlf & Hnode).
    exists lf, r. split; [done|]. split; [done|]. exists nd. eauto.
  - change (treeLeaves (TFull n0 tl tr)) with (shapeLeaves (Node n0 tl tr)) in *.
    destruct (repr_leaf_site _ _ _ _ _ _ _ Hinv Hin)
      as (lf & Hlf & [[? _]|(q & Hq & Hqin & Hs)]); [done|].
    exists lf, q. split; [done|]. split; [done|]. by apply leafSlot_holds.
Qed.

(** ** Secondary search *)

Lemma searchPost_weaken t phiq s sr :
  searchPost true t phiq s sr → searchPost false t phiq s sr.
Proof.
  intros (new & Ht & Hc1 & Hc2 & Hr). exists new. repeat (split; [done|]).
  destruct sr.2 as [b| |]; [|done..].
  destruct Hr as (Hc & Hnil & Hlast). repeat (split; [done|]).
  intros l Hl. destruct (Hlast l Hl) as (lf & Hlf & Hx). exists lf. split; [done|].
  intros [?|?]; [|done]. apply Hx. by left.
Qed.

Lemma searchPost_stop strong t phiq s (r : outcome bool) :
  r ≠ Done true → searchPost strong t phiq s (s, r).
Proof.
  intros Hr. exists []. rewrite app_nil_r. simpl.
  split; [done|]. split; [lia|]. split; [lia|].
  destruct r as [[]| |]; [done| |done..].
  split; [lia|]. split; [done|]. intros l Hl. done.
Qed.

Lemma searchPost_trans strong t phiq s s1 sr :
  searchPost strong t phiq s (s1, Done false) →
  searchPost strong t phiq s1 sr →
  searchPost strong t phiq s sr.
Proof.
  intros (new1 & Ht1 & Ha1 & Hb1 & Hc1 & Hnil1 & Hlast1) (new2 & Ht2 & Ha2 & Hb2 & Hr2).
  simpl in *. exists (new1 ++ new2).
  split; [by rewrite Ht2, Ht1, app_assoc|].
  rewrite length_app. split; [lia|]. split; [lia|].
  destruct sr.2 as [b| |]; [|done..].
  destruct Hr2 as (Hc2 & Hnil2 & Hlast2).
  split; [lia|]. split.
  - intros [-> ->]%app_eq_nil.
    destruct (Hnil1 eq_refl) as (_ & <-). by apply Hnil2.
  - intros l Hl. destruct new2 as [|y new2].
    + rewrite app_nil_r in Hl. destruct (Hnil2 eq_refl) as (-> & Hx).
      destruct (Hlast1 l Hl) as (lf & Hlf & Hs). exists lf. split; [done|].
      intros [?|Hstrong]; [done|]. rewrite Hx. apply Hs. by right.
    + apply Hlast2. rewrite last_app in Hl.
      destruct (last (y :: new2)) eqn:E; [done|]. by apply last_None in E.
Qed.

Lemma last_nonempty {A : Type} (l : list A) : l ≠ [] → ∃ x, last l = Some x.
Proof.
  intros Hl. destruct (last l) eqn:E; [eauto|]. by apply last_None in E.
Qed.

Lemma last_app_nonempty {A : Type} (l1 l2 : list A) (x : A) :
  last l2 = Some x → last (l1 ++ l2) = Some x.
Proof. intros H. by rewrite last_app, H. Qed.

Lemma searchPost_found strong t phiq s s' :
  searchPost strong t phiq s (s', Done true) →
  ∃ l lf, xref s' = Some l ∧ last (tested s') = Some l ∧
    leaves t !! l = Some lf ∧ inEOA lf phiq = true.
Proof.
  intros (new & Ht & _ & _ & _ & Hnil & Hlast). simpl in *.
  destruct (last_nonempty new) as (l & Hl).
  { intros ->. by destruct (Hnil eq_refl). }
  destruct (Hlast l Hl) as (lf & Hlf & Hx). destruct Hx as [Hx Hin]; [by left|].
  exists l, lf. rewrite Ht. eauto using last_app_nonempty.
Qed.

Lemma searchPost_failed t phiq s s' :
  searchPost true t phiq s (s', Done false) → tested s' ≠ tested s →
  ∃ l lf, xref s' = Some l ∧ last (tested s') = Some l ∧
    leaves t !! l = Some lf ∧ inEOA lf phiq = false.
Proof.
  intros (new & Ht & _ & _ & _ & Hnil & Hlast) Hne. simpl in *.
  destruct (last_nonempty new) as (l & Hl).
  { intros ->. by rewrite app_nil_r in Ht. }
  destruct (Hlast l Hl) as (lf & Hlf & Hx). destruct Hx as [Hx Hin]; [by right|].
  exists l, lf. rewrite Ht. eauto using last_app_nonempty.
Qed.

Lemma eoaTestSet_post strong t phiq e s :
  (cnt s < max2ndSearch_ t)%Z → searchPost strong t phiq s (eoaTestSet t phiq e s).
Proof.
  intros Hlt. unfold eoaTestSet. destruct e as [l|].
  - destruct (leaves t !! l) as [lf|] eqn:Hl.
    + exists [l]. simpl. split; [done|]. split; [lia|]. split; [lia|].
      split; [lia|]. split; [done|]. intros ? [= <-]. eauto.
    + exists []. simpl. rewrite app_nil_r. split; [done|]. split; [lia|]. split; [lia|done].
  - exists []. simpl. rewrite app_nil_r. split; [done|]. split; [lia|]. split; [lia|done].
Qed.

Lemma eoaTestKeep_post t phiq xS s :
  (cnt s < max2ndSearch_ t)%Z → searchPost false t phiq s (eoaTestKeep t phiq xS s).
Proof.
  intros Hlt. unfold eoaTestKeep. destruct xS as [l|].
  - destruct (leaves t !! l) as [lf|] eqn:Hl.
    + destruct (inEOA lf phiq) eqn:Hin.
      * exists [l]. simpl. split; [done|]. split; [lia|]. split; [lia|].
        split; [lia|]. split; [done|]. intros ? [= <-]. eauto.
      * exists [l]. simpl. split; [done|]. split; [lia|]. split; [lia|].
        split; [lia|]. split; [done|]. intros ? [= <-]. exists lf. split; [done|].
        intros [?|?]; done.
    + exists []. simpl. rewrite app_nil_r. split; [done|]. split; [lia|]. split; [lia|done].
  - exists []. simpl. rewrite app_nil_r. split; [done|]. split; [lia|]. split; [lia|done].
Qed.

(** Sequencing: a first call that does not return [true] is followed by
    the continuation. *)
Lemma sbind_post strong t phiq s (m : search2 * outcome bool)
    (k : search2 → bool → search2 * outcome bool) :
  searchPost strong t phiq s m →
  (∀ s1, m = (s1, Done true) → k s1 true = (s1, Done true)) →
  (∀ s1, m = (s1, Done false) → searchPost strong t phiq s1 (k s1 false)) →
  searchPost strong t phiq s (sbind m k).
Proof.
  intros Hm Htrue Hfalse. destruct m as [s1 [[]| |]] eqn:Em; unfold sbind.
  - by rewrite Htrue.
  - eapply searchPost_trans; [exact Hm|]. by apply Hfalse.
  - destruct Hm as (new & ? & ? & ? & _). exists new. done.
  - destruct Hm as (new & ? & ? & ? & _). exists new. done.
Qed.

Lemma sbind_pure_post {A : Type} strong t phiq s (o : outcome A)
    (k : search2 → A → search2 * outcome bool) :
  (∀ a, o = Done a → searchPost strong t phiq s (k s a)) →
  searchPost strong t phiq s (sbind (s, o) k).
Proof.
  intros Hk. destruct o as [a| |]; unfold sbind; [by apply Hk|by apply searchPost_stop..].
Qed.

Lemma inSubTree_post t phiq fuel : ∀ y s,
  searchPost true t phiq s (inSubTree fuel t phiq y s).
Proof.
  induction fuel as [|fuel IH]; intros y s; simpl.
  { destruct (_ && _); by apply searchPost_stop. }
  destruct ((cnt s <? max2ndSearch_ t)%Z && bool_decide (y ≠ None)) eqn:Hguard;
    [|by apply searchPost_stop].
  apply andb_prop in Hguard as [Hlt%Z.ltb_lt _].
  apply sbind_pure_post. intros ynd _.
  apply sbind_pure_post. intros vPhi _.
  destruct (sle vPhi (a_ ynd)).
  - apply sbind_post.
    + destruct (left_ ynd); [apply IH|by apply eoaTestSet_post].
    + done.
    + intros s1 _.
      destruct ((cnt s1 <? max2ndSearch_ t)%Z && bool_decide (right_ ynd = None)) eqn:Hg2;
        [|apply IH].
      apply andb_prop in Hg2 as [Hlt2%Z.ltb_lt _]. by apply eoaTestSet_post.
  - apply sbind_post.
    + destruct (right_ ynd); [apply IH|by apply eoaTestSet_post].
    + done.
    + intros s1 _.
      destruct ((cnt s1 <? max2ndSearch_ t)%Z && bool_decide (left_ ynd = None)) eqn:Hg2;
        [|apply IH].
      apply andb_prop in Hg2 as [Hlt2%Z.ltb_lt _]. by apply eoaTestSet_post.
Qed.

Lemma secondaryClimb_post t phiq fuel : ∀ y s,
  searchPost false t phiq s (secondaryClimb fuel t phiq y s).
Proof.
  induction fuel as [|fuel IH]; intros y s; simpl.
  { apply sbind_pure_post. intros ynd _.
    destruct (_ && _); by apply searchPost_stop. }
  apply sbind_pure_post. intros ynd _.
  destruct (bool_decide (parent_ ynd ≠ None) && (cnt s <? max2ndSearch_ t)%Z) eqn:Hguard;
    [|by apply searchPost_stop].
  apply andb_prop in Hguard as [_ Hlt%Z.ltb_lt].
  apply sbind_pure_post. intros xS _.
  apply sbind_post.
  - destruct xS; [by apply eoaTestKeep_post|].
    apply sbind_pure_post. intros ys _. apply searchPost_weaken, inSubTree_post.
  - done.
  - intros s1 _. apply IH.
Qed.

Lemma secondaryBTSearchFrom_post t phiq fuel s0 :
  searchPost false t phiq (mkS2 0%Z (xref s0) (tested s0))
    (secondaryBTSearchFrom fuel t phiq s0).
Proof.
  unfold secondaryBTSearchFrom.
  destruct ((cnt _ <? max2ndSearch_ t)%Z && (1 <? size_ t)%Z) eqn:Hguard;
    [|by apply searchPost_stop].
  apply andb_prop in Hguard as [Hlt%Z.ltb_lt _].
  apply sbind_pure_post. intros xS _.
  apply sbind_post.
  - destruct xS; [by apply eoaTestKeep_post|].
    apply sbind_pure_post. intros ys _. apply searchPost_weaken, inSubTree_post.
  - done.
  - intros s1 _. apply sbind_pure_post. intros xlf _. apply secondaryClimb_post.
Qed.

Lemma sbind_ext {A B : Type} (m : search2 * outcome A)
    (k k' : search2 → A → search2 * outcome B) :
  (∀ s a, k s a = k' s a) → sbind m k = sbind m k'.
Proof. intros H. destruct m as [s [a| |]]; unfold sbind; [apply H|done..]. Qed.

(** The secondary search does not read the value [n2ndSearch_] has at
    entry. *)
Lemma inSubTree_setN2ndSearch c t phiq fuel : ∀ y s,
  inSubTree fuel (setN2ndSearch c t) phiq y s = inSubTree fuel t phiq y s.
Proof.
  induction fuel as [|fuel IH]; intros y s; [done|].
  cbn [inSubTree]. cbn [max2ndSearch_ setN2ndSearch].
  destruct (_ && _); [|done].
  change (getNode (setN2ndSearch c t) y) with (getNode t y).
  apply sbind_ext. intros s1 ynd. apply sbind_ext. intros s2 vPhi.
  change (eoaTestSet (setN2ndSearch c t)) with (eoaTestSet t).
  destruct (sle vPhi (a_ ynd)).
  - rewrite IH. apply sbind_ext. intros s3 found. by rewrite IH.
  - rewrite IH. apply sbind_ext. intros s3 found. by rewrite IH.
Qed.

Lemma secondaryClimb_setN2ndSearch c t phiq fuel : ∀ y s,
  secondaryClimb fuel (setN2ndSearch c t) phiq y s = secondaryClimb fuel t phiq y s.
Proof.
  induction fuel as [|fuel IH]; intros y s; [done|].
  cbn [secondaryClimb]. cbn [max2ndSearch_ setN2ndSearch].
  change (getNode (setN2ndSearch c t) y) with (getNode t y).
  apply sbind_ext. intros s1 ynd.
  destruct (_ && _); [|done].
  change (chemPSiblingN (setN2ndSearch c t) y) with (chemPSiblingN t y).
  apply sbind_ext. intros s2 xS.
  change (eoaTestKeep (setN2ndSearch c t)) with (eoaTestKeep t).
  change (nodeSiblingN (setN2ndSearch c t) y) with (nodeSiblingN t y).
  replace (sbind (s2, nodeSiblingN t y)
             (λ s0 ys, inSubTree fuel (setN2ndSearch c t) phiq ys s0))
    with (sbind (s2, nodeSiblingN t y) (λ s0 ys, inSubTree fuel t phiq ys s0))
    by (apply sbind_ext; intros; by rewrite inSubTree_setN2ndSearch).
  apply sbind_ext. intros s3 found. by rewrite IH.
Qed.

Lemma secondaryBTSearch_setN2ndSearch c fuel t phiq x :
  secondaryBTSearch fuel (setN2ndSearch c t) phiq x = secondaryBTSearch fuel t phiq x.
Proof.
  unfold secondaryBTSearch.
  assert (secondaryBTSearchFrom fuel (setN2ndSearch c t) phiq
            (mkS2 (n2ndSearch_ (setN2ndSearch c t)) x []) =
          secondaryBTSearchFrom fuel t phiq (mkS2 (n2ndSearch_ t) x [])) as ->; [|done].
  unfold secondaryBTSearchFrom. cbn [cnt xref tested max2ndSearch_ size_ setN2ndSearch].
  destruct (_ && _); [|done].
  change (chemPSibling (setN2ndSearch c t)) with (chemPSibling t).
  apply sbind_ext. intros s2 xS.
  change (eoaTestKeep (setN2ndSearch c t)) with (eoaTestKeep t).
  change (nodeSibling (setN2ndSearch c t)) with (nodeSibling t).
  replace (sbind (s2, nodeSibling t (xref s2))
             (λ s0 ys, inSubTree fuel (setN2ndSearch c t) phiq ys s0))
    with (sbind (s2, nodeSibling t (xref s2)) (λ s0 ys, inSubTree fuel t phiq ys s0))
    by (apply sbind_ext; intros; by rewrite inSubTree_setN2ndSearch).
  apply sbind_ext. intros s3 found. destruct found; [done|].
  change (getLeaf (setN2ndSearch c t)) with (getLeaf t).
  apply sbind_ext. intros s4 xlf. apply secondaryClimb_setN2ndSearch.
Qed.

(** C2. Every top-level call of [secondaryBTSearch] starts its count of
    leaf tests at zero whatever [n2ndSearch_] held before, the calls of
    [inSubTree] it makes only count upwards, the number of [inEOA] tests of
    the whole call never exceeds [max2ndSearch_] (and the counter equals
    that number when the call returns), and with [max2ndSearch_ <= 0] or
    [size_ <= 1] the call tests no leaf, leaves [x] alone and returns
    [false]. *)
Theorem secondaryBTSearch_budget fuel t phiq x :
  let res := secondaryBTSearch fuel t phiq x in
  let t' := res.1.1.1 in
  let x' := res.1.1.2 in
  let log := res.1.2 in
  let r := res.2 in
  (∀ c, secondaryBTSearch fuel (setN2ndSearch c t) phiq x = res) ∧
  (∀ fuel' y s,
     ∃ new, tested (inSubTree fuel' t phiq y s).1 = tested s ++ new ∧
       (cnt s + Z.of_nat (length new) ≤ cnt (inSubTree fuel' t phiq y s).1)%Z) ∧
  (Z.of_nat (length log) ≤ n2ndSearch_ t')%Z ∧
  (n2ndSearch_ t' ≤ Z.max 0 (max2ndSearch_ t))%Z ∧
  (∀ b, r = Done b → n2ndSearch_ t' = Z.of_nat (length log)) ∧
  ((max2ndSearch_ t ≤ 0)%Z ∨ (size_ t ≤ 1)%Z →
   log = [] ∧ r = Done false ∧ x' = x ∧ n2ndSearch_ t' = 0%Z).
Proof.
  intros res t' x' log r.
  split; [intros c; apply secondaryBTSearch_setN2ndSearch|].
  split.
  { intros fuel' y s.
    destruct (inSubTree_post t phiq fuel' y s) as (new & ? & ? & _). eauto. }
  pose proof (secondaryBTSearchFrom_post t phiq fuel (mkS2 (n2ndSearch_ t) x [])) as Hpost.
  subst res t' x' log r. unfold secondaryBTSearch.
  destruct (secondaryBTSearchFrom fuel t phiq (mkS2 (n2ndSearch_ t) x [])) as [s r] eqn:E.
  destruct Hpost as (new & Ht & Ha & Hb & Hr). simpl in *. subst new.
  split; [lia|]. split; [lia|]. split.
  { intros b ->. lia. }
  intros Hoff. unfold secondaryBTSearchFrom in E. simpl in E.
  assert ((0 <? max2ndSearch_ t)%Z && (1 <? size_ t)%Z = false) as Hg.
  { apply andb_false_iff. destruct Hoff; [left|right]; lia. }
  rewrite Hg in E. by injection E as <- <-.
Qed.

(** ** Soundness of the boolean checks *)

Lemma reprb_sound N L T : ∀ p c e, reprb N L p T c e = true → repr N L p T c e.
Proof.
  induction T as [l|n tl IHl tr IHr]; intros p c e; simpl.
  - intros [[Hc%bool_decide_eq_true He%bool_decide_eq_true]%andb_prop H]%andb_prop.
    destruct (L !! l) as [lf|]; [|done]. apply bool_decide_eq_true in H.
    repeat (split; [done|]). eauto.
  - intros [[Hc%bool_decide_eq_true He%bool_decide_eq_true]%andb_prop H]%andb_prop.
    destruct (N !! n) as [nd|]; [|done].
    apply andb_prop in H as [[Hp%bool_decide_eq_true Hl]%andb_prop Hr].
    repeat (split; [done|]). exists nd. repeat (split; [done|]). eauto.
Qed.

Lemma treeInvb_sound t a : treeInvb t a = true → treeInv t a.
Proof.
  unfold treeInvb, treeInv.
  intros [[[Hsz%Z.eqb_eq HN%bool_decide_eq_true]%andb_prop
           HL%bool_decide_eq_true]%andb_prop H]%andb_prop.
  repeat (split; [done|]). destruct a as [|r l|n tl tr].
  - by apply bool_decide_eq_true in H.
  - apply andb_prop in H as [Hr%bool_decide_eq_true H].
    split; [done|]. destruct (nodes t !! r) as [nd|]; [|done].
    apply andb_prop in H as [[[[H1%bool_decide_eq_true H2%bool_decide_eq_true]%andb_prop
      H3%bool_decide_eq_true]%andb_prop H4%bool_decide_eq_true]%andb_prop H5].
    exists nd. do 5 (split; [done|]). by apply reprb_sound.
  - by apply reprb_sound.
Qed.

Lemma ownsStoreb_sound t a : ownsStoreb t a = true → ownsStore t a.
Proof.
  intros [HN%bool_decide_eq_true HL%bool_decide_eq_true]%andb_prop. split.
  - intros n Hn%elem_of_dom. apply HN in Hn. by apply elem_of_list_to_set in Hn.
  - intros l Hl%elem_of_dom. apply HL in Hl. by apply elem_of_list_to_set in Hl.
Qed.

(** ** [clear] *)

Lemma scalars_root t t' : scalars t' = scalars t → root_ t' = root_ t.
Proof. intros H. by injection H. Qed.

Lemma scalars_size t t' : scalars t' = scalars t → size_ t' = size_ t.
Proof. intros H. by injection H. Qed.

Lemma slotLeaf_sub S k : k ∈ slotLeaf S → k ∈ shapeLeaves S.
Proof. destruct S; simpl; [done|]. intros H. by apply elem_of_nil in H. Qed.

Lemma shapeLeaves_split S k : k ∈ shapeLeaves S ↔ k ∈ slotLeaf S ∨ k ∈ innerLeaves S.
Proof. destruct S; simpl; set_solver. Qed.

Lemma deleteSubTree_shape S : ∀ t p c e fuel,
  match S with
  | Leaf _ => c = None
  | Node _ _ _ => repr (nodes t) (leaves t) p S c e
  end →
  NoDup (shapeNodes S) → NoDup (shapeLeaves S) → shapeHeight S ≤ fuel →
  ∃ t', deleteSubTree fuel t c = Done t' ∧ erased t t' (shapeNodes S) (innerLeaves S).
Proof.
  induction S as [l|n tl IHl tr IHr]; intros t p c e fuel Hrep HndN HndL Hfuel.
  { subst c. exists t. split; [by destruct fuel|].
    split; [done|]. split; [done|]. done. }
  simpl in Hrep. destruct Hrep as (-> & -> & nd & Hnd & Hp & Hl & Hr).
  destruct fuel as [|fuel]; [simpl in Hfuel; lia|].
  simpl in Hfuel, HndN, HndL.
  apply NoDup_cons in HndN as [Hn HndN].
  apply NoDup_app in HndN as (HndNl & HndNlr & HndNr).
  apply NoDup_app in HndL as (HndLl & HndLlr & HndLr).
  cbn [deleteSubTree]. rewrite (getNode_Some _ _ _ Hnd). cbn [mbind outcome_bind].
  (* the two element slots *)
  assert (∃ t1, deleteLeafData t (elementLeft_ nd) = Done t1 ∧ nodes t1 = nodes t ∧
            (∀ k, leaves t1 !! k = if decide (k ∈ slotLeaf tl) then None else leaves t !! k) ∧
            scalars t1 = scalars t) as (t1 & -> & HN1 & HL1 & Ht1).
  { destruct tl as [l|m a b]; simpl in Hl.
    - destruct Hl as (_ & -> & lf & Hlf & _). rewrite (deleteLeafData_eq _ _ _ Hlf).
      eexists. split; [done|]. split; [done|]. split; [|done].
      intros k. simpl. case_decide as Hk.
      + apply list_elem_of_singleton in Hk as ->. apply lookup_delete_eq.
      + rewrite lookup_delete_ne; [done|]. intros ->. apply Hk. set_solver.
    - destruct Hl as (_ & -> & _). exists t. split; [done|]. split; [done|].
      split; [done|]. done. }
  cbn [mbind outcome_bind].
  erewrite updNode_eq by (rewrite HN1; exact Hnd). cbn [mbind outcome_bind].
  set (t1' := setNodes _ t1).
  assert (∃ t2, deleteLeafData t1' (elementRight_ nd) = Done t2 ∧ nodes t2 = nodes t1' ∧
            (∀ k, leaves t2 !! k = if decide (k ∈ slotLeaf tl ++ slotLeaf tr)
                                   then None else leaves t !! k) ∧
            scalars t2 = scalars t) as (t2 & -> & HN2 & HL2 & Ht2).
  { destruct tr as [r|m a b]; simpl in Hr.
    - destruct Hr as (_ & -> & lf & Hlf & _).
      assert (Hr1 : leaves t1' !! r = Some lf).
      { simpl. rewrite HL1. rewrite decide_False; [done|].
        intros Hk%slotLeaf_sub. apply (HndLlr r Hk). simpl. set_solver. }
      rewrite (deleteLeafData_eq _ _ _ Hr1).
      eexists. split; [done|]. split; [done|]. split; [|exact Ht1].
      intros k. simpl. destruct (decide (k = r)) as [->|Hkr].
      + rewrite lookup_delete_eq. rewrite decide_True; [done|]. set_solver.
      + rewrite lookup_delete_ne by done. rewrite HL1.
        repeat case_decide; try done; set_solver.
    - destruct Hr as (_ & -> & _). exists t1'. split; [done|]. split; [done|].
      split; [|exact Ht1].
      intros k. simpl. rewrite HL1. simpl. rewrite app_nil_r. done. }
  cbn [mbind outcome_bind].
  assert (Hn2 : nodes t2 !! n = Some (withElementLeft None nd)).
  { rewrite HN2. simpl. apply lookup_insert_eq. }
  erewrite updNode_eq by exact Hn2. cbn [mbind outcome_bind].
  set (t2' := setNodes _ t2).
  assert (HN2' : ∀ k, k ≠ n → nodes t2' !! k = nodes t !! k).
  { intros k Hk. simpl. rewrite lookup_insert_ne by done. rewrite HN2. simpl.
    rewrite lookup_insert_ne by done. by rewrite HN1. }
  assert (HL2' : ∀ k, leaves t2' !! k = if decide (k ∈ slotLeaf tl ++ slotLeaf tr)
                                        then None else leaves t !! k) by exact HL2.
  (* the left subtree *)
  destruct (IHl t2' (Some n) (left_ nd) (elementLeft_ nd) fuel) as (t3 & -> & HN3 & HL3 & Ht3);
    [|done|done|lia|].
  { destruct tl as [l|m a b]; [simpl in Hl; tauto|].
    eapply repr_frame; [| |exact Hl].
    - intros k Hk. apply HN2'. intros ->. apply Hn. set_solver.
    - intros k Hk. rewrite HL2'. rewrite decide_False; [done|].
      simpl. intros Hk'%slotLeaf_sub. exact (HndLlr k Hk Hk'). }
  cbn [mbind outcome_bind].
  (* the right subtree *)
  destruct (IHr t3 (Some n) (right_ nd) (elementRight_ nd) fuel) as (t4 & -> & HN4 & HL4 & Ht4);
    [|done|done|lia|].
  { destruct tr as [r|m a b]; [simpl in Hr; tauto|].
    eapply repr_frame; [| |exact Hr].
    - intros k Hk. rewrite HN3. rewrite decide_False by (intros ?; by eapply HndNlr).
      apply HN2'. intros ->. apply Hn. set_solver.
    - intros k Hk. rewrite HL3, HL2'.
      rewrite decide_False.
      + rewrite decide_False; [done|]. simpl. rewrite app_nil_r.
        intros Hk'%slotLeaf_sub. exact (HndLlr k Hk' Hk).
      + intros Hk'. apply (HndLlr k); [|exact Hk]. apply shapeLeaves_split. by right. }
  cbn [mbind outcome_bind].
  assert (Hn4 : is_Some (nodes t4 !! n)).
  { rewrite HN4. rewrite decide_False by set_solver.
    rewrite HN3. rewrite decide_False by set_solver.
    simpl. rewrite lookup_insert_eq. eauto. }
  destruct Hn4 as (nd4 & Hn4). rewrite (deleteNodeData_eq _ _ _ Hn4).
  eexists. split; [done|]. split; [|split].
  - intros k. simpl. destruct (decide (k = n)) as [->|Hkn].
    { rewrite lookup_delete_eq. rewrite decide_True; [done|]. set_solver. }
    rewrite lookup_delete_ne by done. rewrite HN4, HN3, HN2' by done.
    repeat case_decide; try done; set_solver.
  - intros k. simpl. rewrite HL4, HL3, HL2'.
    pose proof (shapeLeaves_split tl k). pose proof (shapeLeaves_split tr k).
    repeat case_decide; try done; set_solver.
  - change (scalars t4 = scalars t). rewrite Ht4, Ht3. exact Ht2.
Qed.

Lemma clear_erases fuel t a :
  treeInv t a → treeHeight a < fuel →
  ∃ t', clear fuel t = Done t' ∧ root_ t' = None ∧ size_ t' = 0%Z ∧
    (∀ k, nodes t' !! k = if decide (k ∈ treeNodes a) then None else nodes t !! k) ∧
    (∀ k, leaves t' !! k = if decide (k ∈ treeLeaves a) then None else leaves t !! k).
Proof.
  intros (Hsz & HndN & HndL & Hinv) Hfuel. unfold clear.
  destruct a as [|r l|n tl tr].
  - rewrite Hinv. exists (setSize 0%Z (setRoot None t)).
    split; [by destruct fuel|]. done.
  - destruct Hinv as (Hroot & nd & Hnd & HP & HL & HR & HER & Hrep).
    simpl in Hrep. destruct Hrep as (_ & HEL & lf & Hlf & Hnode).
    destruct fuel as [|fuel]; [lia|].
    rewrite Hroot. cbn [deleteSubTree]. rewrite (getNode_Some _ _ _ Hnd).
    cbn [mbind outcome_bind]. rewrite HEL, HER, HL, HR.
    rewrite (deleteLeafData_eq _ _ _ Hlf). cbn [mbind outcome_bind].
    erewrite updNode_eq by (simpl; exact Hnd). cbn [mbind outcome_bind deleteLeafData].
    unfold deleteLeafData. cbn [mbind outcome_bind].
    erewrite updNode_eq by (simpl; apply lookup_insert_eq). cbn [mbind outcome_bind].
    assert (Hd : ∀ t0, deleteSubTree fuel t0 None = Done t0) by (intros; by destruct fuel).
    rewrite Hd. cbn [mbind outcome_bind]. rewrite Hd. cbn [mbind outcome_bind].
    erewrite deleteNodeData_eq by (simpl; apply lookup_insert_eq). cbn [mbind outcome_bind].
    eexists. split; [done|]. split; [done|]. split; [done|]. split.
    + intros k. simpl. case_decide as Hk.
      * apply list_elem_of_singleton in Hk as ->. apply lookup_delete_eq.
      * rewrite lookup_delete_ne by set_solver. by rewrite !lookup_insert_ne by set_solver.
    + intros k. simpl. case_decide as Hk.
      * apply list_elem_of_singleton in Hk as ->. apply lookup_delete_eq.
      * rewrite lookup_delete_ne by set_solver. done.
  - destruct (deleteSubTree_shape (Node n tl tr) t None (root_ t) None fuel)
      as (t' & -> & HN & HL & Hs); [done|done|done|simpl in *; lia|].
    cbn [mbind outcome_bind]. eexists. split; [done|]. done.
Qed.

(** C8. On every well-formed tree [clear] returns (with fuel above the
    height of the tree), frees every node and every leaf of the tree and
    nothing else, and leaves the root [NULL] and the size zero; a
    following [insertNewLeaf] takes the branch of the empty tree and
    gives a tree of one leaf held by a new root placeholder. *)
Theorem clear_then_insert fuel t a :
  treeInv t a → treeHeight a < fuel →
  ∃ t', clear fuel t = Done t' ∧ root_ t' = None ∧ size_ t' = 0%Z ∧
    (∀ n, n ∈ treeNodes a → nodes t' !! n = None) ∧
    (∀ l, l ∈ treeLeaves a → leaves t' !! l = None) ∧
    (∀ n, n ∉ treeNodes a → nodes t' !! n = nodes t !! n) ∧
    (∀ l, l ∉ treeLeaves a → leaves t' !! l = leaves t !! l) ∧
    (ownsStore t a → nodes t' = ∅ ∧ leaves t' = ∅) ∧
    treeInv t' TEmpty ∧
    ∀ fuel' phiq Rphiq A sf eps nCols phi0,
      ∃ t'', insertNewLeaf fuel' t' phiq Rphiq A sf eps nCols phi0 = Done (t'', phi0) ∧
        size_ t'' = 1%Z ∧
        treeInv t'' (TSingle (newNodeAddr t') (newLeafAddr t')).
Proof.
  intros Hinv Hfuel.
  destruct (clear_erases fuel t a Hinv Hfuel) as (t' & Hclear & Hroot & Hsz & HN & HL).
  assert (Hinv' : treeInv t' TEmpty).
  { split; [done|]. split; [apply NoDup_nil_2|]. split; [apply NoDup_nil_2|done]. }
  exists t'. split; [done|]. split; [done|]. split; [done|].
  split; [intros n Hn; by rewrite HN, decide_True|].
  split; [intros l Hl; by rewrite HL, decide_True|].
  split; [intros n Hn; by rewrite HN, decide_False|].
  split; [intros l Hl; by rewrite HL, decide_False|].
  split.
  { intros (HoN & HoL). split; apply map_eq; intros k; rewrite lookup_empty.
    - rewrite HN. case_decide as Hk; [done|].
      destruct (nodes t !! k) eqn:E; [|done]. exfalso. apply Hk, HoN. eauto.
    - rewrite HL. case_decide as Hk; [done|].
      destruct (leaves t !! k) eqn:E; [|done]. exfalso. apply Hk, HoL. eauto. }
  split; [done|].
  intros fuel' phiq Rphiq A sf eps nCols phi0.
  destruct (insertNewLeaf_empty fuel' t' phiq Rphiq A sf eps nCols phi0 Hinv')
    as (t'' & Hins & Hsz'' & _ & _ & Hinv'').
  exists t''. split; [done|]. split; [lia|done].
Qed.

(** ** The split direction of [balance] *)

Lemma varianceAdd_length (variance : list scalar) : ∀ phij mean r,
  varianceAdd variance phij mean = Done r → length r = length variance.
Proof.
  induction variance as [|w variance IH]; intros phij mean r; simpl.
  { by intros [= <-]. }
  destruct phij as [|x phij]; [done|]. destruct mean as [|m mean]; [done|].
  intros (r' & Hr' & [= <-])%bind_Done. simpl. f_equal. eauto.
Qed.

Lemma varianceLoop_length t (chemPoints : list (option positive)) : ∀ mean variance r,
  varianceLoop t chemPoints mean variance = Done r → length r = length variance.
Proof.
  induction chemPoints as [|c chemPoints IH]; intros mean variance r; simpl.
  { by intros [= <-]. }
  intros (clf & _ & (variance' & Hv & Hr)%bind_Done)%bind_Done.
  apply IH in Hr. apply varianceAdd_length in Hv. congruence.
Qed.

Lemma balanceGuard_first t varianceSize :
  balanceGuard t varianceSize 0 0 = true →
  slt (ofLabel 0) (maxNbBalanceTest_ t) = true ∧ (2 ≤ varianceSize)%Z.
Proof.
  unfold balanceGuard. intros [_ [H1 H2%Z.ltb_lt]%andb_prop]%andb_prop.
  split; [done|lia].
Qed.

Lemma selectDir_skipped fuel t chemPoints mean indices varianceSize maxDir bestBalance :
  balanceGuard t varianceSize 0 0 = false →
  selectDir fuel t chemPoints mean indices varianceSize maxDir 0 0 bestBalance =
    Done maxDir.
Proof. intros H. destruct fuel; simpl; by rewrite H. Qed.

Lemma zlookup_negative {A : Type} (l : list A) (i : Z) :
  (i < 0)%Z → zlookup l i = Fault.
Proof. intros H. unfold zlookup. by rewrite (proj2 (Z.ltb_lt _ _) H). Qed.

Lemma findExtremes_negative t chemPoints maxDir j maxPhi minPhi minId maxId r :
  (maxDir < 0)%Z →
  findExtremes t chemPoints maxDir j maxPhi minPhi minId maxId = Done r →
  chemPoints = [] ∧ r = (minId, maxId).
Proof.
  intros Hneg. destruct chemPoints as [|c chemPoints]; simpl.
  { by intros [= <-]. }
  intros (clf & _ & (x & Hx & _)%bind_Done)%bind_Done.
  by rewrite zlookup_negative in Hx.
Qed.

(** C10 (amended). In [balance] the split direction starts at -1 and is
    assigned only in the body of the selection loop. The body runs at
    least once only if the first test [nbTests < maxNbBalanceTest_]
    passes, that is if the cap is above zero, and the composition space
    has at least two dimensions; otherwise the loop returns -1, every
    access [phi()[maxDir]] is out of bounds, and a call of [balance]
    that passes the size threshold does not complete, so that [balance]
    returns [true] only with a cap above zero and two dimensions. For a
    whole cap [k] (a member declared as a [label]), and scalars that
    compare converted labels as the labels compare, a cap above zero is
    [k >= 1]. *)
Theorem balance_split_direction t :
  (∀ varianceSize, balanceGuard t varianceSize 0 0 = true →
     slt (ofLabel 0) (maxNbBalanceTest_ t) = true ∧ (2 ≤ varianceSize)%Z) ∧
  (∀ fuel chemPoints mean indices varianceSize bestBalance,
     slt (ofLabel 0) (maxNbBalanceTest_ t) = false ∨ (varianceSize < 2)%Z →
     selectDir fuel t chemPoints mean indices varianceSize (-1) 0 0 bestBalance =
       Done (-1)%Z) ∧
  (∀ fuel chemPoints mean indices varianceSize bestBalance maxDir,
     selectDir fuel t chemPoints mean indices varianceSize (-1) 0 0 bestBalance =
       Done maxDir →
     maxDir ≠ (-1)%Z → balanceGuard t varianceSize 0 0 = true) ∧
  (∀ (phi : list scalar), zlookup phi (-1) = Fault) ∧
  (∀ fuel rand r,
     (minBalanceThreshold_ t < size_ t)%Z →
     slt (ofLabel 0) (maxNbBalanceTest_ t) = false ∨ (nEqns_ t < 2)%Z →
     balance fuel rand t ≠ Done r) ∧
  (∀ fuel rand t', balance fuel rand t = Done (t', true) →
     slt (ofLabel 0) (maxNbBalanceTest_ t) = true ∧ (2 ≤ nEqns_ t)%Z) ∧
  (∀ k, (∀ i j, slt (ofLabel i) (ofLabel j) = (i <? j)%Z) →
     maxNbBalanceTest_ t = ofLabel k →
     (slt (ofLabel 0) (maxNbBalanceTest_ t) = true ↔ (1 ≤ k)%Z)).
Proof.
  assert (Hskip : ∀ varianceSize,
            slt (ofLabel 0) (maxNbBalanceTest_ t) = false ∨ (varianceSize < 2)%Z →
            balanceGuard t varianceSize 0 0 = false).
  { intros vs Hor. destruct (balanceGuard t vs 0 0) eqn:E; [|done].
    apply balanceGuard_first in E as [E1 E2]. destruct Hor; [congruence|lia]. }
  assert (Hstuck : ∀ fuel rand r,
            (minBalanceThreshold_ t < size_ t)%Z →
            slt (ofLabel 0) (maxNbBalanceTest_ t) = false ∨ (nEqns_ t < 2)%Z →
            balance fuel rand t ≠ Done r).
  { intros fuel rand r Hthr Hor Hbal. unfold balance in Hbal.
    rewrite (proj2 (Z.ltb_lt _ _) Hthr) in Hbal.
    apply bind_Done in Hbal as ([[[cps maxDir] minId] maxId] & Hsel & Hbal).
    unfold balanceSelect in Hsel.
    apply bind_Done in Hsel as (x & _ & Hsel).
    apply bind_Done in Hsel as ([mean cps'] & _ & Hsel).
    apply bind_Done in Hsel as (variance & Hvar & Hsel).
    apply bind_Done in Hsel as (maxDir' & Hdir & Hsel).
    apply bind_Done in Hsel as ([minId' maxId'] & Hext & [= -> -> -> ->]).
    apply varianceLoop_length in Hvar. rewrite length_replicate in Hvar.
    rewrite selectDir_skipped in Hdir by (apply Hskip; destruct Hor; [by left|right; lia]).
    injection Hdir as <-.
    apply findExtremes_negative in Hext as [-> [= -> ->]]; [|lia].
    apply bind_Done in Hbal as (minRef & Hmin & _).
    by rewrite zlookup_negative in Hmin. }
  split; [intros; by apply balanceGuard_first|].
  split; [intros; apply selectDir_skipped; by apply Hskip|].
  split.
  { intros fuel cps mean idx vs best maxDir Hsel Hne.
    destruct (balanceGuard t vs 0 0) eqn:E; [done|].
    rewrite selectDir_skipped in Hsel by done. congruence. }
  split; [intros; by apply zlookup_negative|].
  split; [exact Hstuck|].
  split.
  { intros fuel rand t' Hbal.
    assert (minBalanceThreshold_ t < size_ t)%Z as Hthr.
    { unfold balance in Hbal.
      destruct (minBalanceThreshold_ t <? size_ t)%Z eqn:E; [by apply Z.ltb_lt|done]. }
    destruct (slt (ofLabel 0) (maxNbBalanceTest_ t)) eqn:Hcap;
      [|exfalso; eapply Hstuck; [exact Hthr|by left|exact Hbal]].
    split; [done|].
    destruct (decide (2 ≤ nEqns_ t)%Z) as [?|Hn]; [done|].
    exfalso. eapply Hstuck; [exact Hthr|right; lia|exact Hbal]. }
  intros k Hord ->. rewrite Hord. rewrite Z.ltb_lt. lia.
Qed.

(** ** Traversal of a represented shape *)

Lemma nextIn_app_l xs ys x :
  x ∈ xs →
  nextIn (xs ++ ys) x =
    match nextIn xs x with
    | Some r => Some r
    | None => head ys
    end.
Proof.
  induction xs as [|y xs IH]; intros Hin; [by apply elem_of_nil in Hin|].
  simpl. case_decide as Hy.
  - by destruct xs.
  - apply IH. apply elem_of_cons in Hin as [->|]; done.
Qed.

Lemma nextIn_app_r xs ys x : x ∉ xs → nextIn (xs ++ ys) x = nextIn ys x.
Proof.
  induction xs as [|y xs IH]; intros Hin; [done|].
  simpl. rewrite decide_False by set_solver. apply IH. set_solver.
Qed.

Lemma head_shapeLeaves_app T ys :
  head (shapeLeaves T ++ ys) = head (shapeLeaves T).
Proof.
  pose proof (shapeLeaves_nonempty T). by destruct (shapeLeaves T).
Qed.

Lemma treeMinLoop_eq fuel t n nd :
  nodes t !! n = Some nd →
  treeMinLoop fuel t (Some n) =
    match left_ nd with
    | Some _ =>
        match fuel with
        | O => OutOfFuel
        | S fuel' => treeMinLoop fuel' t (left_ nd)
        end
    | None => Done (elementLeft_ nd)
    end.
Proof. intros H. destruct fuel; simpl; by rewrite (getNode_Some _ _ _ H). Qed.

Lemma treeMinLoop_shape t T : ∀ p n e fuel r,
  repr (nodes t) (leaves t) p T (Some n) e →
  treeMinLoop fuel t (Some n) = Done r → r = head (shapeLeaves T).
Proof.
  induction T as [l|k tl IHl tr _]; intros p n e fuel r Hrep; simpl in Hrep.
  { destruct Hrep as (? & _). done. }
  destruct Hrep as ([= <-] & -> & nd & Hnd & Hp & Hl & Hr).
  rewrite (treeMinLoop_eq _ _ _ _ Hnd). simpl. rewrite head_shapeLeaves_app.
  destruct tl as [l|m a b].
  - simpl in Hl. destruct Hl as (-> & -> & _). by intros [= <-].
  - pose proof Hl as (Hc & _). rewrite Hc in Hl |- *.
    destruct fuel as [|fuel]; [done|]. by eapply IHl.
Qed.

Lemma treeMin_side t S p c e fuel r :
  repr (nodes t) (leaves t) p S c e →
  match c with
  | None => Done e
  | Some _ => treeMin fuel t c
  end = Done r →
  r = head (shapeLeaves S).
Proof.
  intros Hrep. destruct S as [l|m a b].
  - simpl in Hrep. destruct Hrep as (-> & -> & _). by intros [= <-].
  - pose proof Hrep as (-> & _). unfold treeMin. by eapply treeMinLoop_shape.
Qed.

Lemma successorClimb_eq fuel t m mnd :
  nodes t !! m = Some mnd →
  successorClimb fuel t (Some m) =
    match parent_ mnd with
    | None => Done None
    | Some _ =>
        match fuel with
        | O => OutOfFuel
        | S fuel' =>
            pnd ← getNode t (parent_ mnd) ;
            if bool_decide (Some m = left_ pnd) then
              match right_ pnd with
              | None => Done (elementRight_ pnd)
              | Some _ => treeMin fuel' t (right_ pnd)
              end
            else successorClimb fuel' t (parent_ mnd)
        end
    end.
Proof. intros H. destruct fuel; simpl; by rewrite (getNode_Some _ _ _ H). Qed.

(** The successor of a leaf of a subtree is the next leaf of the subtree
    or, for its last leaf, what the climb from the root of the subtree
    yields. *)
Lemma treeSuccessor_shape t T : ∀ p n e,
  (1 < size_ t)%Z →
  repr (nodes t) (leaves t) p T (Some n) e →
  NoDup (shapeNodes T) → NoDup (shapeLeaves T) →
  ∀ x fuel r, x ∈ shapeLeaves T →
    treeSuccessor fuel t (Some x) = Done r →
    match nextIn (shapeLeaves T) x with
    | Some r' => r = Some r'
    | None => ∃ fuel', successorClimb fuel' t (Some n) = Done r
    end.
Proof.
  intros p n e Hsz. revert p n e.
  induction T as [l|k tl IHl tr IHr]; intros p n e Hrep HndN HndL x fuel r Hin Hsucc.
  { simpl in Hrep. destruct Hrep as (? & _). done. }
  pose proof Hrep as Hrep0.
  simpl in Hrep. destruct Hrep as ([= <-] & -> & nd & Hnd & Hp & Hl & Hr).
  simpl in HndN, HndL, Hin.
  apply NoDup_cons in HndN as [Hk HndN].
  apply NoDup_app in HndN as (HndNl & HndNlr & HndNr).
  apply NoDup_app in HndL as (HndLl & HndLlr & HndLr).
  (* the right side seen from [k] *)
  assert (Hright : ∀ f r0,
            match right_ nd with
            | None => Done (elementRight_ nd)
            | Some _ => treeMin f t (right_ nd)
            end = Done r0 → r0 = head (shapeLeaves tr)).
  { intros f r0. by apply (treeMin_side t tr (Some n) (right_ nd) (elementRight_ nd)). }
  simpl. apply elem_of_app in Hin as [Hin|Hin].
  - rewrite nextIn_app_l by done.
    destruct tl as [l|m a b].
    + (* [x] is the left element of [k] *)
      simpl in Hin. apply list_elem_of_singleton in Hin as ->.
      simpl. rewrite decide_True by done. simpl.
      simpl in Hl. destruct Hl as (HL & HEL & lf & Hlf & Hnode).
      unfold treeSuccessor in Hsucc. rewrite (proj2 (Z.ltb_lt _ _) Hsz) in Hsucc.
      rewrite (getLeaf_Some _ _ _ Hlf) in Hsucc. simpl in Hsucc.
      rewrite Hnode, (getNode_Some _ _ _ Hnd) in Hsucc. simpl in Hsucc.
      rewrite bool_decide_eq_true_2 in Hsucc by done.
      apply Hright in Hsucc. subst r.
      pose proof (shapeLeaves_nonempty tr). by destruct (shapeLeaves tr).
    + (* [x] is below the left child *)
      pose proof Hl as (Hc & _). rewrite Hc in Hl.
      specialize (IHl _ _ _ Hl HndNl HndLl x fuel r Hin Hsucc).
      destruct (nextIn (shapeLeaves (Node m a b)) x) as [r'|]; [done|].
      destruct IHl as (fuel' & Hclimb).
      pose proof Hl as (_ & _ & mnd & Hmnd & Hpm & _).
      rewrite (successorClimb_eq _ _ _ _ Hmnd), Hpm in Hclimb.
      destruct fuel' as [|fuel']; [done|].
      rewrite (getNode_Some _ _ _ Hnd) in Hclimb. simpl in Hclimb.
      rewrite bool_decide_eq_true_2 in Hclimb by done.
      apply Hright in Hclimb. subst r.
      pose proof (shapeLeaves_nonempty tr). by destruct (shapeLeaves tr).
  - assert (Hxl : x ∉ shapeLeaves tl) by (intros ?; by eapply HndLlr).
    rewrite nextIn_app_r by done.
    assert (Hnotleft : ∀ m, m ∈ shapeNodes tr → Some m ≠ left_ nd).
    { intros m Hm E. destruct tl as [l|m' a' b']; simpl in Hl; destruct Hl as (Hc & _);
        rewrite Hc in E; [done|]. injection E as ->.
      apply (HndNlr m'); [simpl; set_solver|done]. }
    destruct tr as [l|m a b].
    + (* [x] is the right element of [k] *)
      simpl in Hin. apply list_elem_of_singleton in Hin as ->.
      simpl. rewrite decide_True by done. simpl.
      simpl in Hr. destruct Hr as (HR & HER & lf & Hlf & Hnode).
      unfold treeSuccessor in Hsucc. rewrite (proj2 (Z.ltb_lt _ _) Hsz) in Hsucc.
      rewrite (getLeaf_Some _ _ _ Hlf) in Hsucc. simpl in Hsucc.
      rewrite Hnode, (getNode_Some _ _ _ Hnd) in Hsucc. simpl in Hsucc.
      rewrite bool_decide_eq_false_2 in Hsucc; [eauto|].
      destruct tl as [l'|m' a' b']; simpl in Hl; destruct Hl as (_ & -> & _); [|done].
      intros [= ->]. apply Hxl. simpl. set_solver.
    + (* [x] is below the right child *)
      pose proof Hr as (Hc & _). rewrite Hc in Hr.
      specialize (IHr _ _ _ Hr HndNr HndLr x fuel r Hin Hsucc).
      destruct (nextIn (shapeLeaves (Node m a b)) x) as [r'|]; [done|].
      destruct IHr as (fuel' & Hclimb).
      pose proof Hr as (_ & _ & mnd & Hmnd & Hpm & _).
      rewrite (successorClimb_eq _ _ _ _ Hmnd), Hpm in Hclimb.
      destruct fuel' as [|fuel']; [done|].
      rewrite (getNode_Some _ _ _ Hnd) in Hclimb. simpl in Hclimb.
      rewrite bool_decide_eq_false_2 in Hclimb by (apply Hnotleft; simpl; set_solver).
      eauto.
Qed.

Lemma treeSuccessor_tree t a x fuel r :
  treeInv t a → x ∈ treeLeaves a →
  treeSuccessor fuel t (Some x) = Done r → r = nextIn (treeLeaves a) x.
Proof.
  intros (Hsz & HndN & HndL & Hinv) Hin Hsucc. destruct a as [|r0 l|n tl tr].
  - by apply elem_of_nil in Hin.
  - simpl in Hin. apply list_elem_of_singleton in Hin as ->.
    simpl in Hsz. unfold treeSuccessor in Hsucc. rewrite Hsz in Hsucc. simpl in Hsucc.
    injection Hsucc as <-. simpl. by rewrite decide_True.
  - change (treeLeaves (TFull n tl tr)) with (shapeLeaves (Node n tl tr)) in *.
    change (treeNodes (TFull n tl tr)) with (shapeNodes (Node n tl tr)) in *.
    assert (Hsz1 : (1 < size_ t)%Z).
    { rewrite Hsz. simpl. rewrite length_app.
      pose proof (shapeLeaves_length tl). pose proof (shapeLeaves_length tr). lia. }
    pose proof Hinv as (Hroot & _ & nd & Hnd & Hp & _). rewrite Hroot in Hinv.
    pose proof (treeSuccessor_shape t _ _ _ _ Hsz1 Hinv HndN HndL x fuel r Hin Hsucc) as H.
    destruct (nextIn _ x) as [r'|]; [done|].
    destruct H as (fuel' & Hclimb).
    rewrite (successorClimb_eq _ _ _ _ Hnd), Hp in Hclimb. congruence.
Qed.

Lemma treeMin_tree t a fuel r :
  treeInv t a → treeMin fuel t (root_ t) = Done r → r = head (treeLeaves a).
Proof.
  intros (Hsz & HndN & HndL & Hinv). destruct a as [|r0 l|n tl tr].
  - rewrite Hinv. simpl. congruence.
  - destruct Hinv as (Hroot & nd & Hnd & HP & HL & HR & HER & Hrep).
    simpl in Hrep. destruct Hrep as (_ & HEL & _).
    rewrite Hroot. unfold treeMin. rewrite (treeMinLoop_eq _ _ _ _ Hnd), HL, HEL.
    simpl. congruence.
  - pose proof Hinv as (Hroot & _). rewrite Hroot in Hinv |- *.
    unfold treeMin. by eapply treeMinLoop_shape.
Qed.

Lemma zinsert_middle {A : Type} (l1 l2 : list A) (a x : A) :
  zinsert (l1 ++ a :: l2) (Z.of_nat (length l1)) x = Done (l1 ++ x :: l2).
Proof.
  unfold zinsert.
  rewrite (proj2 (Z.ltb_ge _ _)) by lia. rewrite Nat2Z.id.
  rewrite (proj2 (Nat.ltb_lt _ _)) by (rewrite length_app; simpl; lia).
  f_equal. by rewrite insert_app_r_alt, Nat.sub_diag by lia.
Qed.

Lemma nextIn_middle (seen rest : list positive) y :
  y ∉ seen → nextIn (seen ++ y :: rest) y = head rest.
Proof. intros H. rewrite nextIn_app_r by done. simpl. by rewrite decide_True. Qed.

Lemma collectLeaves_chemPoints t xs fuel : ∀ seen rest x mean cps chPi r,
  xs = seen ++ rest → NoDup xs → x = head rest →
  (∀ y f r, y ∈ xs → treeSuccessor f t (Some y) = Done r → r = nextIn xs y) →
  cps = (Some <$> seen) ++ replicate (length rest) None →
  chPi = Z.of_nat (length seen) →
  collectLeaves fuel t x mean cps chPi = Done r → r.2 = Some <$> xs.
Proof.
  induction fuel as [|fuel IH]; intros seen rest x mean cps chPi r Hxs Hnd Hx Hsucc Hcps HchPi.
  - destruct rest as [|y rest]; simpl in Hx; subst x; simpl; [|done].
    intros [= <-]. simpl. subst. by rewrite !app_nil_r.
  - destruct rest as [|y rest]; simpl in Hx; subst x; simpl.
    { intros [= <-]. simpl. subst. by rewrite !app_nil_r. }
    intros (xlf & _ & (mean' & _ & (cps' & Hins & (x' & Hs & Hrec)%bind_Done)%bind_Done)
            %bind_Done)%bind_Done.
    subst cps chPi. simpl in Hins. rewrite <- (length_fmap Some seen) in Hins.
    rewrite zinsert_middle in Hins. injection Hins as <-.
    assert (Hy : y ∈ xs) by (subst xs; set_solver).
    apply Hsucc in Hs; [|done].
    assert (Hyd : y ∉ seen).
    { subst xs. apply NoDup_app in Hnd as (_ & Hd & _). intros Hyd.
      apply (Hd y Hyd). set_solver. }
    rewrite Hxs, nextIn_middle in Hs by done.
    eapply (IH (seen ++ [y]) rest); [| | | | | |exact Hrec].
    + by rewrite <- app_assoc.
    + done.
    + done.
    + done.
    + rewrite fmap_app. simpl. by rewrite <- app_assoc.
    + rewrite length_app. simpl. lia.
Qed.

Lemma balanceSelect_chemPoints t a fuel cps maxDir minId maxId :
  treeInv t a → balanceSelect fuel t = Done (cps, maxDir, minId, maxId) →
  cps = Some <$> treeLeaves a.
Proof.
  intros Hinv Hsel. pose proof Hinv as (Hsz & HndN & HndL & _).
  unfold balanceSelect in Hsel.
  apply bind_Done in Hsel as (x & Hmin & Hsel).
  apply bind_Done in Hsel as ([mean cps'] & Hcol & Hsel).
  apply bind_Done in Hsel as (variance & Hvar & Hsel).
  apply bind_Done in Hsel as (maxDir' & Hdir & Hsel).
  apply bind_Done in Hsel as ([minId' maxId'] & Hext & [= -> -> -> ->]).
  apply (treeMin_tree _ a) in Hmin; [|done].
  apply (collectLeaves_chemPoints t (treeLeaves a) fuel [] (treeLeaves a)) in Hcol; try done.
  - intros y f r Hy Hs. by eapply treeSuccessor_tree.
  - simpl. by rewrite Hsz, Nat2Z.id.
Qed.

(** ** [deleteAllNode] *)

Lemma deleteAllNode_eq fuel t n nd :
  nodes t !! n = Some nd →
  deleteAllNode (S fuel) t (Some n) =
    (t1 ← deleteAllNode fuel t (left_ nd) ;
     t2 ← deleteAllNode fuel t1 (right_ nd) ;
     deleteNodeData t2 (Some n)).
Proof. intros H. simpl. by rewrite (getNode_Some _ _ _ H). Qed.

Lemma deleteNodeData_Done t n t' :
  deleteNodeData t (Some n) = Done t' → t' = setNodes (delete n (nodes t)) t.
Proof. unfold deleteNodeData. destruct (nodes t !! n); by intros [= <-]. Qed.

Lemma deleteAllNode_shape S : ∀ t p c e fuel t',
  match S with
  | Leaf _ => c = None
  | Node _ _ _ => repr (nodes t) (leaves t) p S c e
  end →
  NoDup (shapeNodes S) →
  deleteAllNode fuel t c = Done t' →
  (∀ k, nodes t' !! k = if decide (k ∈ shapeNodes S) then None else nodes t !! k) ∧
  leaves t' = leaves t ∧ scalars t' = scalars t.
Proof.
  induction S as [l|n tl IHl tr IHr]; intros t p c e fuel t' Hrep HndN Hdel.
  { subst c. assert (t' = t) as -> by (destruct fuel; simpl in Hdel; congruence). done. }
  simpl in Hrep. destruct Hrep as (-> & -> & nd & Hnd & Hp & Hl & Hr).
  destruct fuel as [|fuel]; [done|].
  rewrite (deleteAllNode_eq _ _ _ _ Hnd) in Hdel.
  apply bind_Done in Hdel as (t1 & H1 & Hdel).
  apply bind_Done in Hdel as (t2 & H2 & Hdel).
  apply deleteNodeData_Done in Hdel. subst t'.
  simpl in HndN. apply NoDup_cons in HndN as [Hn HndN].
  apply NoDup_app in HndN as (HndNl & HndNlr & HndNr).
  destruct (IHl t (Some n) (left_ nd) (elementLeft_ nd) fuel t1) as (HN1 & HL1 & Hs1);
    [|done|done|].
  { destruct tl; [simpl in Hl; tauto|done]. }
  destruct (IHr t1 (Some n) (right_ nd) (elementRight_ nd) fuel t2) as (HN2 & HL2 & Hs2);
    [|done|done|].
  { destruct tr as [r|m a b]; [simpl in Hr; tauto|].
    rewrite HL1. eapply repr_frame; [| |exact Hr]; [|done].
    intros k Hk. rewrite HN1. rewrite decide_False; [done|].
    intros ?. by eapply HndNlr. }
  split; [|split].
  - intros k. simpl. destruct (decide (k = n)) as [->|Hkn].
    { rewrite lookup_delete_eq. rewrite decide_True; [done|]. set_solver. }
    rewrite lookup_delete_ne by done. rewrite HN2, HN1.
    repeat case_decide; try done; set_solver.
  - simpl. congruence.
  - change (scalars t2 = scalars t). congruence.
Qed.

Lemma deleteAllNode_tree t a fuel t' :
  treeInv t a → deleteAllNode fuel t (root_ t) = Done t' →
  (∀ k, nodes t' !! k = if decide (k ∈ treeNodes a) then None else nodes t !! k) ∧
  leaves t' = leaves t ∧ scalars t' = scalars t.
Proof.
  intros (Hsz & HndN & HndL & Hinv) Hdel. destruct a as [|r l|n tl tr].
  - rewrite Hinv in Hdel.
    assert (t' = t) as -> by (destruct fuel; simpl in Hdel; congruence). done.
  - destruct Hinv as (Hroot & nd & Hnd & HP & HL & HR & HER & Hrep).
    rewrite Hroot in Hdel. destruct fuel as [|fuel]; [done|].
    rewrite (deleteAllNode_eq _ _ _ _ Hnd), HL, HR in Hdel.
    assert (Hd : ∀ t0, deleteAllNode fuel t0 None = Done t0) by (intros; by destruct fuel).
    rewrite Hd in Hdel. cbn [mbind outcome_bind] in Hdel.
    rewrite Hd in Hdel. cbn [mbind outcome_bind] in Hdel.
    apply deleteNodeData_Done in Hdel. subst t'. split; [|done].
    intros k. simpl. case_decide as Hk.
    + apply list_elem_of_singleton in Hk as ->. apply lookup_delete_eq.
    + rewrite lookup_delete_ne; [done|]. set_solver.
  - by eapply (deleteAllNode_shape (Node n tl tr)).
Qed.

(** ** Re-insertion in [balance] *)

Lemma zlookup_Done {A : Type} (l : list A) (i : Z) (x : A) :
  zlookup l i = Done x → (0 ≤ i)%Z ∧ l !! Z.to_nat i = Some x.
Proof.
  unfold zlookup. destruct (i <? 0)%Z eqn:E; [done|].
  apply Z.ltb_ge in E. destruct (l !! Z.to_nat i); [|done]. by intros [= <-].
Qed.

Lemma zlookup_Some {A : Type} (l : list A) (i : nat) (x : A) :
  l !! i = Some x → zlookup l (Z.of_nat i) = Done x.
Proof.
  intros H. unfold zlookup. rewrite (proj2 (Z.ltb_ge _ _)) by lia.
  by rewrite Nat2Z.id, H.
Qed.

Lemma zinsert_Done {A : Type} (l : list A) (i : Z) (x : A) l' :
  zinsert l i x = Done l' → l' = <[Z.to_nat i := x]> l.
Proof.
  unfold zinsert. destruct (i <? 0)%Z; [done|].
  destruct (_ <? _)%nat; [|done]. by intros [= <-].
Qed.

Lemma shuffle_Permutation rand n : ∀ i (l l' : list Z),
  shuffle rand n i l = Done l' → l' ≡ₚ l.
Proof.
  induction n as [|n IH]; intros i l l'; simpl.
  { by intros [= <-]. }
  intros (tmp & Htmp & (cj & Hcj & (l1 & H1 & (l2 & H2 & Hrec)%bind_Done)%bind_Done)
          %bind_Done)%bind_Done.
  apply zlookup_Done in Htmp as [_ Htmp]. apply zlookup_Done in Hcj as [_ Hcj].
  apply zinsert_Done in H1. apply zinsert_Done in H2. subst l1 l2.
  apply IH in Hrec. rewrite Hrec. by apply Permutation_insert_swap.
Qed.

Lemma binaryTreeSearch_in t phiq T : ∀ fuel p n e r,
  (1 < size_ t)%Z →
  repr (nodes t) (leaves t) p T (Some n) e →
  binaryTreeSearch fuel t phiq (Some n) = Done r →
  ∃ l, r = Some l ∧ l ∈ shapeLeaves T.
Proof.
  induction T as [l'|m tl IHl tr IHr]; intros fuel p n e r Hsz; simpl.
  { intros (? & _). discriminate. }
  intros ([= <-] & -> & nd & Hnd & Hp & Hl & Hr).
  destruct fuel as [|fuel]; [by rewrite binaryTreeSearch_O|].
  rewrite binaryTreeSearch_S by done.
  rewrite (getNode_Some _ _ _ Hnd). simpl.
  intros (vPhi & _ & Hs)%bind_Done.
  destruct (sgt vPhi (a_ nd)).
  - destruct tr as [lr|mr trl trr].
    + simpl in Hr. destruct Hr as (HR & HER & _). rewrite HR, HER in Hs.
      injection Hs as <-. exists lr. split; [done|set_solver].
    + pose proof Hr as (Hr' & _). rewrite Hr' in Hr, Hs.
      destruct (IHr _ _ _ _ _ Hsz Hr Hs) as (l & -> & Hin).
      exists l. split; [done|set_solver].
  - destruct tl as [ll|ml tll tlr].
    + simpl in Hl. destruct Hl as (HL & HEL & _). rewrite HL, HEL in Hs.
      injection Hs as <-. exists ll. split; [done|set_solver].
    + pose proof Hl as (Hl' & _). rewrite Hl' in Hl, Hs.
      destruct (IHl _ _ _ _ _ Hsz Hl Hs) as (l & -> & Hin).
      exists l. split; [done|set_solver].
Qed.

Lemma rebuilt_ext t (U U' : positive → Prop) :
  (∀ l, U l ↔ U' l) → rebuilt t U → rebuilt t U'.
Proof.
  intros HU [(n & tl & tr & ? & ? & ? & H)|(r & rnd & x0 & S & ? & ? & ? & ? & ? & ? & ? & ? & ? & H)].
  - left. exists n, tl, tr. repeat (split; [done|]). intros l. by rewrite H.
  - right. exists r, rnd, x0, S. repeat (split; [done|]). intros l. by rewrite H.
Qed.

(** Where the primary search of a tree under reconstruction ends, and the
    node that holds the leaf it returns. *)
Lemma rebuilt_search t U phiq fuel r :
  (1 < size_ t)%Z → rebuilt t U →
  binaryTreeSearch fuel t phiq (root_ t) = Done r →
  ∃ l lfl q qnd, r = Some l ∧ U l ∧ leaves t !! l = Some lfl ∧
    node_ lfl = Some q ∧ nodes t !! q = Some qnd.
Proof.
  intros Hsz [(n & tl & tr & Hrep & HnN & HnL & HU)
             |(r0 & rnd & x0 & S & Hroot & Hrnd & HL & HEL & Hrep & Hx0 & Hr0 & HnN & HnL & HU)] Hs.
  - pose proof Hrep as (Hroot & _). rewrite Hroot in Hrep, Hs.
    destruct (binaryTreeSearch_in _ _ _ _ _ _ _ _ Hsz Hrep Hs) as (l & -> & Hin).
    destruct (repr_leaf_site _ _ _ _ _ _ _ Hrep Hin)
      as (lfl & Hl & [[? _]|(q & Hq & _ & qnd & Hqnd & _)]); [done|].
    exists l, lfl, q, qnd. repeat (split; [done|]). split; [by apply HU|done].
  - assert (∃ l, r = Some l ∧ l ∈ shapeLeaves S) as (l & -> & Hin).
    { rewrite Hroot in Hs. destruct fuel as [|fuel]; [by rewrite binaryTreeSearch_O in Hs|].
      rewrite binaryTreeSearch_S in Hs by done.
      rewrite (getNode_Some _ _ _ Hrnd) in Hs. simpl in Hs.
      apply bind_Done in Hs as (vPhi & _ & Hs).
      destruct (sgt vPhi (a_ rnd)).
      - destruct S as [lr|mr trl trr].
        + simpl in Hrep. destruct Hrep as (HR & HER & _). rewrite HR, HER in Hs.
          injection Hs as <-. exists lr. split; [done|set_solver].
        + pose proof Hrep as (Hr' & _). rewrite Hr' in Hrep, Hs.
          by eapply binaryTreeSearch_in.
      - rewrite HL, HEL in Hs. injection Hs as <-. eauto. }
    destruct (repr_leaf_site _ _ _ _ _ _ _ Hrep Hin)
      as (lfl & Hl & [[-> Hq]|(q & Hq & _ & qnd & Hqnd & _)]).
    + exists l, lfl, r0, rnd. repeat (split; [done|]). split; [by apply HU|done].
    + exists l, lfl, q, qnd. repeat (split; [done|]). split; [by apply HU|done].
Qed.

Lemma spliceStore_scalars t l c : scalars (spliceStore t l c) = scalars t.
Proof.
  unfold spliceStore.
  destruct (leaves t !! l) as [lfl|]; [|done].
  destruct (leaves t !! c) as [clf|]; [|done].
  destruct (node_ lfl) as [q|]; [|done].
  destruct (nodes t !! q); [|done]. by destruct t.
Qed.

Lemma reinsert_step t (U : positive → Prop) fuel c clf t' :
  (1 < size_ t)%Z → rebuilt t U → leaves t !! c = Some clf → ¬ U c →
  (phi0 ← binaryTreeSearch fuel t (phi_ clf) (root_ t) ;
   lf0 ← getLeaf t phi0 ;
   nd ← bnFrom t phi0 (Some c) (node_ lf0) ;
   let n := newNodeAddr t in
   let t1 := setNodes (<[n := nd]> (nodes t)) t in
   t2 ← insertNode t1 phi0 (Some n) ;
   t3 ← updLeaf t2 phi0 (withNode (Some n)) ;
   updLeaf t3 (Some c) (withNode (Some n))) = Done t' →
  rebuilt t' (λ l, l = c ∨ U l) ∧ payloadKept t t' ∧ scalars t' = scalars t.
Proof.
  intros Hsz Hinv Hc HUc (phi0 & Hs & Hrest)%bind_Done.
  destruct (rebuilt_search _ _ _ _ _ Hsz Hinv Hs)
    as (l & lfl & q & qnd & -> & HUl & Hl & Hq & Hqnd).
  assert (c ≠ l) as Hcl by (by intros ->).
  rewrite (getLeaf_Some _ _ _ Hl) in Hrest. simpl in Hrest.
  pose proof (spliceCode_eq t l c q lfl clf qnd Hl Hq Hqnd Hc Hcl) as Heq.
  simpl in Heq. rewrite Heq in Hrest. injection Hrest as <-.
  split; [|split; [apply spliceStore_payload|apply spliceStore_scalars]].
  pose proof (newNodeAddr_fresh t) as Hfresh.
  destruct Hinv as [(n & tl & tr & Hrep & HnN & HnL & HU)
             |(r0 & rnd & x0 & S & Hroot & Hrnd & HL & HEL & Hrep & Hx0 & Hr0 & HnN & HnL & HU)].
  - left. exists n, (shapeSplice l (newNodeAddr t) c tl), (shapeSplice l (newNodeAddr t) c tr).
    assert (l ∈ shapeLeaves (Node n tl tr)) as Hlin by (by apply HU).
    assert (c ∉ shapeLeaves (Node n tl tr)) as Hcin by (by rewrite HU).
    change (Node n (shapeSplice l (newNodeAddr t) c tl) (shapeSplice l (newNodeAddr t) c tr))
      with (shapeSplice l (newNodeAddr t) c (Node n tl tr)).
    split.
    { rewrite spliceStore_root. by eapply spliceStore_repr. }
    split.
    { rewrite shapeSplice_nodes by done. apply NoDup_cons. split; [|done].
      intros Hin. destruct (repr_nodes _ _ _ _ _ _ _ Hrep Hin) as [? Hx]. congruence. }
    split.
    { rewrite shapeSplice_leaves by done. by apply NoDup_cons. }
    intros k. rewrite shapeSplice_leaves by done. rewrite <- HU. set_solver.
  - right.
    assert (l ∈ shapeLeaves S) as Hlin by (by apply HU).
    assert (c ∉ shapeLeaves S) as Hcin by (by rewrite HU).
    destruct (decide (S = Leaf l)) as [->|HS].
    + assert (x0 = l) as -> by set_solver.
      simpl in Hrep. destruct Hrep as (HR & HER & lf' & Hlf' & Hnode).
      assert (lf' = lfl) as -> by congruence.
      assert (q = r0) as -> by congruence.
      assert (qnd = rnd) as -> by congruence.
      assert (newNodeAddr t ≠ r0) as Hne by congruence.
      exists r0, (spliceSide l (newNodeAddr t) rnd), l,
        (Node (newNodeAddr t) (Leaf l) (Leaf c)).
      unfold spliceStore. rewrite Hl, Hc, Hq, Hrnd.
      unfold spliceSide. rewrite bool_decide_eq_true_2 by (by rewrite HER).
      cbn -[newNodeAddr].
      split; [done|]. split; [by rewrite lookup_insert_eq|].
      split; [done|]. split; [done|].
      split.
      { split; [done|]. split; [done|].
        eexists. split; [rewrite lookup_insert_ne by done; apply lookup_insert_eq|].
        cbn -[newNodeAddr]. split; [done|]. split.
        - split; [done|]. split; [done|]. eexists.
          split; [rewrite lookup_insert_ne by done; apply lookup_insert_eq|done].
        - split; [done|]. split; [done|]. eexists.
          split; [apply lookup_insert_eq|done]. }
      split; [set_solver|]. split; [set_solver|].
      split; [apply NoDup_singleton|].
      split.
      { apply NoDup_cons. split; [set_solver|apply NoDup_singleton]. }
      intros k. rewrite <- HU. set_solver.
    + destruct (repr_leaf_site _ _ _ _ _ _ _ Hrep Hlin)
        as (lf' & Hlf' & [[? _]|(q' & Hq' & Hq'in & _)]); [done|].
      assert (lf' = lfl) as -> by congruence.
      assert (q' = q) as -> by congruence.
      assert (q ≠ r0) as Hqr by (by intros ->).
      assert (newNodeAddr t ≠ r0) as Hne by congruence.
      exists r0, rnd, x0, (shapeSplice l (newNodeAddr t) c S).
      rewrite spliceStore_root. split; [done|].
      split.
      { unfold spliceStore. rewrite Hl, Hc, Hq, Hqnd. cbn -[newNodeAddr].
        by rewrite !lookup_insert_ne by done. }
      split; [done|]. split; [done|].
      split; [by eapply spliceStore_repr|].
      split; [rewrite shapeSplice_leaves by done; set_solver|].
      split.
      { rewrite shapeSplice_nodes by done. set_solver. }
      split.
      { rewrite shapeSplice_nodes by done. apply NoDup_cons. split; [|done].
        intros Hin. destruct (repr_nodes _ _ _ _ _ _ _ Hrep Hin) as [? Hx]. congruence. }
      split.
      { rewrite shapeSplice_leaves by done. by apply NoDup_cons. }
      intros k. rewrite shapeSplice_leaves by done. rewrite <- HU. set_solver.
Qed.

Lemma rebuilt_stored t (U : positive → Prop) l : rebuilt t U → stored t l ↔ U l.
Proof.
  intros [(n & tl & tr & Hrep & HnN & HnL & HU)
         |(r0 & rnd & x0 & S & Hroot & Hrnd & HL & HEL & Hrep & Hx0 & Hr0 & HnN & HnL & HU)].
  - rewrite <- HU. split.
    + intros (m & Hreach & nd & Hnd & Hl).
      eapply holds_shape; eauto using reachable_shape_in.
    + intros Hin.
      destruct (repr_leaf_site _ _ _ _ _ _ _ Hrep Hin)
        as (lf & Hlf & [[? _]|(q & Hq & Hqin & Hs)]); [done|].
      exists q. split; [|by apply leafSlot_holds].
      eapply shape_reachable; [exact Hrep| |done].
      intros m Hm. by apply reach_root.
  - rewrite <- HU.
    assert (Hreach : ∀ m, reachable t m → m = r0 ∨ m ∈ shapeNodes S).
    { intros m H.
      induction H as [m H|m nd' k _ IH Hnd' Hl|m nd' k _ IH Hnd' Hr].
      - left. congruence.
      - destruct IH as [->|Hin].
        + assert (nd' = rnd) as -> by congruence. congruence.
        + right. destruct (repr_subtree _ _ _ _ _ _ _ Hrep Hin)
            as (nd & a & b & p' & Hnd & _ & Hra & _ & Hsa & _).
          assert (nd' = nd) as -> by congruence.
          destruct a as [?|ma ? ?]; simpl in Hra.
          * destruct Hra as (? & _). congruence.
          * destruct Hra as (? & _). assert (k = ma) as -> by congruence.
            apply Hsa. set_solver.
      - destruct IH as [->|Hin].
        + assert (nd' = rnd) as -> by congruence. right.
          destruct S as [?|ms ? ?]; simpl in Hrep.
          * destruct Hrep as (? & _). congruence.
          * destruct Hrep as (? & _). assert (k = ms) as -> by congruence.
            set_solver.
        + right. destruct (repr_subtree _ _ _ _ _ _ _ Hrep Hin)
            as (nd & a & b & p' & Hnd & _ & _ & Hrb & _ & Hsb & _).
          assert (nd' = nd) as -> by congruence.
          destruct b as [?|mb ? ?]; simpl in Hrb.
          * destruct Hrb as (? & _). congruence.
          * destruct Hrb as (? & _). assert (k = mb) as -> by congruence.
            apply Hsb. set_solver. }
    split.
    + intros (m & Hm & nd & Hnd & Hl). destruct (Hreach _ Hm) as [->|Hin].
      * assert (nd = rnd) as -> by congruence. destruct Hl as [Hl|Hl].
        -- congruence.
        -- destruct S as [?|ms ? ?]; simpl in Hrep.
           ++ destruct Hrep as (_ & ? & _). set_solver.
           ++ destruct Hrep as (_ & ? & _). congruence.
      * eapply holds_shape; eauto.
    + intros Hin.
      assert (reachable t r0) as Hr0r by (by apply reach_root).
      destruct (repr_leaf_site _ _ _ _ _ _ _ Hrep Hin)
        as (lf & Hlf & [[-> _]|(q & Hq & Hqin & Hs)]).
      * exists r0. split; [done|]. exists rnd. split; [done|].
        simpl in Hrep. destruct Hrep as (_ & ? & _). by right.
      * exists q. split; [|by apply leafSlot_holds].
        eapply shape_reachable; [exact Hrep| |done].
        intros m Hm. by eapply reach_right.
Qed.

Lemma rebuilt_backPointer t (U : positive → Prop) l :
  rebuilt t U → U l → backPointerOk t l.
Proof.
  intros [(n & tl & tr & Hrep & HnN & HnL & HU)
         |(r0 & rnd & x0 & S & Hroot & Hrnd & HL & HEL & Hrep & Hx0 & Hr0 & HnN & HnL & HU)]
    Hin%HU.
  - destruct (repr_leaf_site _ _ _ _ _ _ _ Hrep Hin)
      as (lf & Hlf & [[? _]|(q & Hq & Hqin & Hs)]); [done|].
    exists lf, q. split; [done|]. split; [done|]. by apply leafSlot_holds.
  - destruct (repr_leaf_site _ _ _ _ _ _ _ Hrep Hin)
      as (lf & Hlf & [[-> Hq]|(q & Hq & Hqin & Hs)]).
    + exists lf, r0. split; [done|]. split; [done|]. exists rnd. split; [done|].
      simpl in Hrep. destruct Hrep as (_ & ? & _). by right.
    + exists lf, q. split; [done|]. split; [done|]. by apply leafSlot_holds.
Qed.

Lemma payloadKept_refl t : payloadKept t t.
Proof. intros k lf H. eauto. Qed.

Lemma payloadKept_trans t1 t2 t3 :
  payloadKept t1 t2 → payloadKept t2 t3 → payloadKept t1 t3.
Proof.
  intros H12 H23 k lf H. destruct (H12 _ _ H) as (lf2 & H2 & E2).
  destruct (H23 _ _ H2) as (lf3 & H3 & E3). exists lf3. split; [done|congruence].
Qed.

Lemma zlookup_fmap_Some (xs : list positive) i c :
  zlookup (Some <$> xs) i = Done c → ∃ l, c = Some l ∧ zlookup xs i = Done l.
Proof.
  unfold zlookup. destruct (i <? 0)%Z; [done|].
  rewrite list_lookup_fmap. destruct (xs !! Z.to_nat i) as [l|]; [|done].
  intros [= <-]. eauto.
Qed.

Lemma zlookup_NoDup (xs : list positive) i j l :
  NoDup xs → zlookup xs i = Done l → zlookup xs j = Done l → i = j.
Proof.
  intros Hnd [Hi Hi']%zlookup_Done [Hj Hj']%zlookup_Done.
  pose proof (NoDup_lookup _ _ _ _ Hnd Hi' Hj'). lia.
Qed.

Lemma zlookup_two (xs : list positive) i j l l' :
  zlookup xs i = Done l → zlookup xs j = Done l' → i ≠ j →
  (1 < Z.of_nat (length xs))%Z.
Proof.
  intros [Hi Hi']%zlookup_Done [Hj Hj']%zlookup_Done Hne.
  apply lookup_lt_Some in Hi', Hj'. lia.
Qed.

Lemma reinsertAll_rebuilt fuel xs minId maxId chPIndex lmin :
  NoDup xs → NoDup chPIndex → zlookup xs minId = Done lmin →
  ∀ todo cpi t t',
    rebuilt t (reinserted xs chPIndex minId maxId cpi) →
    size_ t = Z.of_nat (length xs) →
    (∀ l, l ∈ xs → is_Some (leaves t !! l)) →
    reinsertAll fuel t (Some <$> xs) minId maxId chPIndex cpi todo = Done t' →
    rebuilt t' (reinserted xs chPIndex minId maxId (cpi + todo)) ∧
    payloadKept t t' ∧ scalars t' = scalars t.
Proof.
  intros Hxs Hidx Hmin. induction todo as [|todo IH]; intros cpi t t' Hinv Hsz Hlv; simpl.
  { intros [= <-]. rewrite Nat.add_0_r. split; [done|]. split; [apply payloadKept_refl|done]. }
  intros (idx & Hi & (t1 & H1 & Hrec)%bind_Done)%bind_Done.
  assert (chPIndex !! cpi = Some idx) as Hcpi.
  { destruct (chPIndex !! cpi); [|done]. by injection Hi as ->. }
  clear Hi.
  assert (rebuilt t1 (reinserted xs chPIndex minId maxId (S cpi)) ∧
          payloadKept t t1 ∧ scalars t1 = scalars t) as (Hinv1 & Hpay1 & Hsc1).
  { unfold reinsertOne in H1.
    destruct (negb (idx =? minId)%Z && negb (idx =? maxId)%Z) eqn:Hcond.
    - apply andb_true_iff in Hcond as [Hn1 Hn2].
      apply negb_true_iff, Z.eqb_neq in Hn1, Hn2.
      apply bind_Done in H1 as (c & Hc & H1).
      apply zlookup_fmap_Some in Hc as (lc & -> & Hlc).
      apply bind_Done in H1 as (clf & Hclf & H1).
      apply getLeaf_Done in Hclf as (? & [= <-] & Hclf).
      assert (¬ reinserted xs chPIndex minId maxId cpi lc) as Hnot.
      { intros [H|[H|(j & idx' & Hj & Hj' & _ & _ & H)]].
        - by pose proof (zlookup_NoDup _ _ _ _ Hxs Hlc H).
        - by pose proof (zlookup_NoDup _ _ _ _ Hxs Hlc H).
        - pose proof (zlookup_NoDup _ _ _ _ Hxs Hlc H) as <-.
          pose proof (NoDup_lookup _ _ _ _ Hidx Hcpi Hj'). lia. }
      assert (1 < size_ t)%Z as Hsz1.
      { rewrite Hsz. by eapply (zlookup_two xs idx minId). }
      destruct (reinsert_step _ _ _ _ _ _ Hsz1 Hinv Hclf Hnot H1) as (Hr & Hp & Hs).
      split; [|done]. eapply rebuilt_ext; [|exact Hr].
      intros l. unfold reinserted. split.
      + intros [->|[H|[H|(j & idx' & Hj & Hj' & ?)]]]; [|tauto|tauto|].
        * right. right. exists cpi, idx. split; [lia|done].
        * right. right. exists j, idx'. split; [lia|done].
      + intros [H|[H|(j & idx' & Hj & Hj' & Hm & HM & H)]]; [tauto|tauto|].
        destruct (decide (j = cpi)) as [->|Hne].
        * left. assert (idx' = idx) as -> by congruence. congruence.
        * right. right. right. exists j, idx'. split; [lia|done].
    - injection H1 as <-. split; [|split; [apply payloadKept_refl|done]].
      eapply rebuilt_ext; [|exact Hinv].
      intros l. unfold reinserted. split.
      + intros [H|[H|(j & idx' & Hj & ?)]]; [tauto|tauto|].
        right. right. exists j, idx'. split; [lia|done].
      + intros [H|[H|(j & idx' & Hj & Hj' & Hm & HM & H)]]; [tauto|tauto|].
        right. right. exists j, idx'. split; [|done].
        destruct (decide (j = cpi)) as [->|Hne]; [|lia].
        assert (idx' = idx) as -> by congruence. exfalso.
        apply andb_false_iff in Hcond as [Hc|Hc];
          apply negb_false_iff, Z.eqb_eq in Hc; congruence. }
  destruct (IH (S cpi) t1 t' Hinv1) as (Hinv' & Hpay' & Hsc'); [| |done|].
  { by rewrite (scalars_size _ _ Hsc1). }
  { intros l Hl. destruct (Hlv _ Hl) as [lf Hlf].
    destruct (Hpay1 _ _ Hlf) as (lf' & Hlf' & _). eauto. }
  rewrite Nat.add_succ_r. split; [done|].
  split; [by eapply payloadKept_trans|congruence].
Qed.

Lemma treeInv_leaf t a l : treeInv t a → l ∈ treeLeaves a → is_Some (leaves t !! l).
Proof.
  intros Hinv Hin.
  destruct (treeInv_backPointer _ _ _ Hinv Hin) as (lf & ? & ? & _). eauto.
Qed.

Lemma reinserted_all xs chPIndex minId maxId lmin lmax l :
  chPIndex ≡ₚ Z.of_nat <$> seq 0 (length xs) →
  zlookup xs minId = Done lmin → zlookup xs maxId = Done lmax →
  reinserted xs chPIndex minId maxId (length xs) l ↔ l ∈ xs.
Proof.
  intros Hperm Hmin Hmax. unfold reinserted. split.
  - intros [H|[H|(j & idx & _ & _ & _ & _ & H)]];
      apply zlookup_Done in H as [_ H]; by eapply list_elem_of_lookup_2.
  - intros (i & Hi)%list_elem_of_lookup_1.
    destruct (decide (Z.of_nat i = minId)) as [<-|Hn1]; [left; by apply zlookup_Some|].
    destruct (decide (Z.of_nat i = maxId)) as [<-|Hn2];
      [right; left; by apply zlookup_Some|].
    right. right.
    assert (Z.of_nat i ∈ chPIndex) as (j & Hj)%list_elem_of_lookup_1.
    { rewrite Hperm. apply list_elem_of_fmap. exists i. split; [done|].
      apply elem_of_seq. apply lookup_lt_Some in Hi. lia. }
    exists j, (Z.of_nat i). split.
    { apply lookup_lt_Some in Hj. rewrite Hperm, length_fmap, length_seq in Hj. lia. }
    repeat (split; [done|]). by apply zlookup_Some.
Qed.

(** A run of [balance] that returns [true]: the leaves of the tree are
    back in the tree, with their payload and with back-pointers to the
    nodes that hold them. *)
Lemma balance_post fuel rand t a t' :
  treeInv t a → balance fuel rand t = Done (t', true) →
  (∀ l, stored t' l ↔ l ∈ treeLeaves a) ∧
  size_ t' = size_ t ∧ payloadKept t t' ∧
  (∀ l, l ∈ treeLeaves a → backPointerOk t' l).
Proof.
  intros Hinv. unfold balance.
  destruct (minBalanceThreshold_ t <? size_ t)%Z; [|done].
  intros ([[[cps maxDir] minId] maxId] & Hsel & H)%bind_Done.
  pose proof (balanceSelect_chemPoints _ _ _ _ _ _ _ Hinv Hsel) as ->.
  set (xs := treeLeaves a) in *.
  apply bind_Done in H as (minRef & Hmin & H).
  apply zlookup_fmap_Some in Hmin as (lmin & -> & Hmin).
  apply bind_Done in H as (maxRef & Hmax & H).
  apply zlookup_fmap_Some in Hmax as (lmax & -> & Hmax).
  apply bind_Done in H as (t0 & Hdel & H).
  destruct (deleteAllNode_tree _ _ _ _ Hinv Hdel) as (HN0 & HL0 & Hsc0).
  assert (lmin ∈ xs) as Hminin.
  { apply zlookup_Done in Hmin as [_ ?]. by eapply list_elem_of_lookup_2. }
  assert (lmax ∈ xs) as Hmaxin.
  { apply zlookup_Done in Hmax as [_ ?]. by eapply list_elem_of_lookup_2. }
  destruct (treeInv_leaf _ _ _ Hinv Hminin) as [lfmin Hlfmin].
  destruct (treeInv_leaf _ _ _ Hinv Hmaxin) as [lfmax Hlfmax].
  rewrite (bnFrom_eq _ lmin lmax None lfmin lfmax) in H
    by (simpl; by rewrite HL0).
  cbn [mbind outcome_bind] in H.
  remember (newNodeAddr (setRoot None t0)) as n eqn:Hn.
  erewrite updLeaf_eq in H by (simpl; rewrite HL0; exact Hlfmin).
  cbn [mbind outcome_bind] in H.
  assert (∃ lfmax', <[lmin:=withNode (Some n) lfmin]> (leaves t) !! lmax = Some lfmax'
            ∧ payload lfmax' = payload lfmax) as (lfmax' & Hlfmax' & Hpmax).
  { destruct (decide (lmin = lmax)) as [->|Hne].
    - rewrite lookup_insert_eq. eexists. split; [done|].
      rewrite payload_withNode. congruence.
    - rewrite lookup_insert_ne by done. eauto. }
  erewrite updLeaf_eq in H by (simpl; rewrite HL0; exact Hlfmax').
  cbn [mbind outcome_bind] in H.
  apply bind_Done in H as (chPIndex & Hshuf & H).
  apply bind_Done in H as (t5 & Hre & H). injection H as <-.
  remember (setLeaves _ _) as t4 eqn:Ht4 in Hshuf, Hre.
  assert (size_ t4 = size_ t) as Hsz4.
  { rewrite Ht4. simpl. by apply scalars_size. }
  assert (root_ t4 = Some n) as Hroot4 by (by rewrite Ht4).
  assert (leaves t4 = <[lmax:=withNode (Some n) lfmax']>
                        (<[lmin:=withNode (Some n) lfmin]> (leaves t))) as HL4.
  { rewrite Ht4. simpl. by rewrite HL0. }
  assert (nodes t4 !! n = Some (mkBn (Some lmin) (Some lmax) None None None
                                  (calcV lfmin lfmax) (calcA lfmin lfmax))) as HN4.
  { rewrite Ht4. simpl. by rewrite lookup_insert_eq. }
  clear Ht4.
  destruct Hinv as (Hsz & HndN & HndL & Hshape).
  fold xs in Hsz, HndL.
  apply shuffle_Permutation in Hshuf.
  rewrite Hsz4, Hsz, Nat2Z.id in Hshuf.
  assert (NoDup chPIndex) as Hidx.
  { rewrite Hshuf. apply NoDup_fmap_2; [apply _|apply NoDup_seq]. }
  assert (payloadKept t t4) as Hpay4.
  { intros k lf Hk. rewrite HL4.
    destruct (decide (k = lmax)) as [->|Hk1].
    - rewrite lookup_insert_eq. eexists. split; [done|].
      rewrite payload_withNode. congruence.
    - rewrite lookup_insert_ne by done.
      destruct (decide (k = lmin)) as [->|Hk2].
      + rewrite lookup_insert_eq. eexists. split; [done|].
        rewrite payload_withNode. congruence.
      + rewrite lookup_insert_ne by done. eauto. }
  assert (rebuilt t4 (reinserted xs chPIndex minId maxId 0)) as Hinv4.
  { destruct (decide (lmin = lmax)) as [Heq|Hne].
    - subst lmax. right.
      eexists n, _, lmin, (Leaf lmin). rewrite HL4.
      split; [done|]. split; [exact HN4|]. simpl.
      split; [done|]. split; [done|].
      split.
      { split; [done|]. split; [done|]. eexists.
        split; [apply lookup_insert_eq|done]. }
      split; [set_solver|]. split; [set_solver|].
      split; [apply NoDup_nil_2|]. split; [apply NoDup_singleton|].
      intros l. unfold reinserted. rewrite list_elem_of_singleton. split.
      + intros ->. by left.
      + intros [H|[H|(j & ? & ? & _)]]; [congruence|congruence|lia].
    - left. exists n, (Leaf lmin), (Leaf lmax). rewrite HL4, Hroot4.
      split.
      { simpl. split; [done|]. split; [done|]. eexists. split; [exact HN4|].
        simpl. split; [done|]. split.
        - split; [done|]. split; [done|]. eexists.
          split; [rewrite lookup_insert_ne by done; apply lookup_insert_eq|done].
        - split; [done|]. split; [done|]. eexists.
          split; [apply lookup_insert_eq|done]. }
      split; [apply NoDup_singleton|].
      split.
      { simpl. apply NoDup_cons. split; [set_solver|apply NoDup_singleton]. }
      intros l. unfold reinserted. simpl. split.
      + intros [->|[->|?]%elem_of_cons]%elem_of_cons; [tauto|tauto|set_solver].
      + intros [H|[H|(j & ? & ? & _)]]; [| |lia].
        * assert (l = lmin) as -> by congruence. set_solver.
        * assert (l = lmax) as -> by congruence. set_solver. }
  rewrite length_fmap in Hre.
  destruct (reinsertAll_rebuilt _ _ _ _ _ _ HndL Hidx Hmin _ _ _ _ Hinv4
              ltac:(congruence)
              ltac:(intros l Hl; destruct (treeInv_leaf t a l) as [lf Hlf];
                    [done|done|]; destruct (Hpay4 _ _ Hlf) as (? & ? & _); eauto)
              Hre) as (Hinv5 & Hpay5 & Hsc5).
  simpl in Hinv5.
  assert (Hall : ∀ l, reinserted xs chPIndex minId maxId (length xs) l ↔ l ∈ xs).
  { intros l. by eapply reinserted_all. }
  split.
  { intros l. rewrite <- Hall. by apply rebuilt_stored. }
  split.
  { rewrite (scalars_size _ _ Hsc5). done. }
  split; [by eapply payloadKept_trans|].
  intros l Hl. eapply rebuilt_backPointer; [exact Hinv5|]. by apply Hall.
Qed.

(** ** Statements about whole operations *)

Lemma dimsOkb_sound t phiq : dimsOkb t phiq = true → dimsOk t phiq.
Proof.
  intros H%bool_decide_eq_true_1 m nd Hm. exact (H m nd Hm).
Qed.

Lemma treeInv_full_size t n tl tr : treeInv t (TFull n tl tr) → (1 < size_ t)%Z.
Proof.
  intros (Hsz & _). rewrite Hsz.
  change (treeLeaves (TFull n tl tr)) with (shapeLeaves tl ++ shapeLeaves tr).
  rewrite length_app.
  pose proof (shapeLeaves_nonempty tl). pose proof (shapeLeaves_nonempty tr).
  destruct (shapeLeaves tl), (shapeLeaves tr); simpl; try done; lia.
Qed.

(** What [insertNewLeaf] does to a well-formed tree, for the three kinds
    of trees. *)
Lemma insertNewLeaf_inv fuel t a phiq Rphiq A sf eps nCols phi0 :
  treeInv t a → insertPre fuel t a phiq phi0 →
  ∃ t' p n l,
    insertNewLeaf fuel t phiq Rphiq A sf eps nCols phi0 = Done (t', p) ∧
    size_ t' = (size_ t + 1)%Z ∧
    (∃ lfc, leaves t' !! newLeafAddr t = Some lfc ∧
       payload lfc = payload (newChP phiq Rphiq A sf eps nCols None)) ∧
    payloadKept t t' ∧
    treeInv t' (treeInsert n (newLeafAddr t) l a) ∧
    match a with
    | TEmpty => n = newNodeAddr t ∧ p = phi0
    | TSingle r l0 =>
        n = fresh (dom (delete r (nodes t))) ∧ p = Some l0 ∧
        nodes t' = <[n := default bnNull (nodes t' !! n)]> (delete r (nodes t))
    | TFull n0 tl tr =>
        n = newNodeAddr t ∧ p = Some l ∧ l ∈ shapeLeaves (Node n0 tl tr) ∧
        match phi0 with
        | Some _ => phi0 = Some l
        | None => binaryTreeSearch fuel t phiq (root_ t) = Done (Some l)
        end
    end.
Proof.
  intros Hinv Hpre. destruct a as [|r l0|n0 tl tr].
  - destruct (insertNewLeaf_empty fuel t phiq Rphiq A sf eps nCols phi0 Hinv)
      as (t' & Hrun & Hsz & Hnew & Hpay & Hinv').
    exists t', phi0, (newNodeAddr t), (newLeafAddr t).
    split; [done|]. split; [done|]. split; [eauto|]. done.
  - destruct (insertNewLeaf_single fuel t phiq Rphiq A sf eps nCols phi0 r l0 Hinv Hpre)
      as (t' & Hrun & Hsz & Hnew & Hpay & Hnodes & Hinv').
    exists t', (Some l0), (fresh (dom (delete r (nodes t)))), l0.
    done.
  - destruct (insertNewLeaf_full fuel t phiq Rphiq A sf eps nCols phi0 n0 tl tr Hinv Hpre)
      as (t' & l & Hrun & Hl & Hphi & Hsz & Hnew & Hpay & Hinv').
    exists t', (Some l), (newNodeAddr t), l. done.
Qed.

(** C1. [binaryTreeSearch] returns the null pointer when the tree has no
    leaf, and the left element of the root when it has one leaf, wherever
    it is started. With two leaves or more it returns [e] from the node
    [n] exactly when the walk from [n] that computes [v.phiq] at each
    node, goes right if it exceeds [a] and left otherwise, ends on a side
    without child node whose element slot is [e]. On a well-formed tree
    of two leaves or more, with a query no longer than the hyperplane
    normals and fuel for the height, the search from the root returns a
    leaf of the tree. *)
Theorem binaryTreeSearch_cases t phiq :
  (size_ t = 0%Z → ∀ fuel node, binaryTreeSearch fuel t phiq node = Done None) ∧
  (size_ t = 1%Z → ∀ fuel node r rt, root_ t = Some r → nodes t !! r = Some rt →
     binaryTreeSearch fuel t phiq node = Done (elementLeft_ rt)) ∧
  (∀ r l, treeInv t (TSingle r l) →
     ∀ fuel node, binaryTreeSearch fuel t phiq node = Done (Some l)) ∧
  ((1 < size_ t)%Z → ∀ n e,
     (∃ fuel, binaryTreeSearch fuel t phiq (Some n) = Done e) ↔ descendsTo t phiq n e) ∧
  (∀ n tl tr fuel, treeInv t (TFull n tl tr) → dimsOk t phiq →
     shapeHeight (Node n tl tr) ≤ fuel →
     ∃ l, l ∈ shapeLeaves (Node n tl tr) ∧
       binaryTreeSearch fuel t phiq (root_ t) = Done (Some l) ∧
       descendsTo t phiq n (Some l)).
Proof.
  split; [|split; [|split; [|split]]].
  - intros Hsz fuel node. destruct fuel; simpl; by rewrite Hsz.
  - intros Hsz fuel node r rt Hroot Hrt.
    assert (binaryTreeSearch fuel t phiq node =
            (rt ← getNode t (root_ t) ; Done (elementLeft_ rt))) as ->.
    { destruct fuel; simpl; by rewrite Hsz. }
    by rewrite Hroot, (getNode_Some _ _ _ Hrt).
  - intros r l (Hsz & _ & _ & Hroot & nd & Hnd & _ & _ & _ & _ & Hrep) fuel node.
    simpl in Hsz, Hrep. destruct Hrep as (_ & HEL & _).
    assert (binaryTreeSearch fuel t phiq node =
            (rt ← getNode t (root_ t) ; Done (elementLeft_ rt))) as ->.
    { destruct fuel; simpl; by rewrite Hsz. }
    rewrite Hroot, (getNode_Some _ _ _ Hnd). simpl. by rewrite HEL.
  - intros Hsz n e. split.
    + intros (fuel & H). by eapply binaryTreeSearch_sound.
    + intros H. destruct (binaryTreeSearch_complete _ _ _ _ Hsz H) as (fuel0 & Hf).
      exists fuel0. by apply Hf.
  - intros n tl tr fuel Hinv Hdims Hfuel.
    pose proof (treeInv_full_size _ _ _ _ Hinv) as Hsz.
    destruct Hinv as (_ & _ & _ & Hrep).
    pose proof Hrep as (Hroot & _). rewrite Hroot in Hrep |- *.
    destruct (binaryTreeSearch_shape _ _ _ _ _ _ _ Hsz Hdims Hrep Hfuel) as (l & Hl & Hs).
    exists l. split; [done|]. split; [done|]. by eapply binaryTreeSearch_sound.
Qed.

(** C3. On a well-formed tree [insertNewLeaf] returns, the size grows by
    one, the new leaf carries the data it was given and the other leaves
    keep theirs. With no leaf, the tree becomes a new empty root node
    that holds the new leaf in its left slot. With one leaf, the root
    placeholder is freed and the root is a node with the old leaf on its
    left and the new leaf on its right. With two leaves or more, the
    leaf [l] is the result of the primary search when [phi0] is null
    (and [phi0] otherwise), and a new node with [l] on its left and the
    new leaf on its right takes the slot of [l]; the parent link of the
    new node and the back-pointers of both leaves are those of a
    well-formed tree. *)
Theorem insertNewLeaf_cases fuel t a phiq Rphiq A sf eps nCols phi0 :
  treeInv t a → insertPre fuel t a phiq phi0 →
  ∃ t' p n l,
    insertNewLeaf fuel t phiq Rphiq A sf eps nCols phi0 = Done (t', p) ∧
    size_ t' = (size_ t + 1)%Z ∧
    (∃ lfc, leaves t' !! newLeafAddr t = Some lfc ∧
       payload lfc = payload (newChP phiq Rphiq A sf eps nCols None)) ∧
    payloadKept t t' ∧
    treeInv t' (treeInsert n (newLeafAddr t) l a) ∧
    match a with
    | TEmpty => n = newNodeAddr t ∧ p = phi0
    | TSingle r l0 =>
        n = fresh (dom (delete r (nodes t))) ∧ p = Some l0 ∧
        nodes t' = <[n := default bnNull (nodes t' !! n)]> (delete r (nodes t))
    | TFull n0 tl tr =>
        n = newNodeAddr t ∧ p = Some l ∧ l ∈ shapeLeaves (Node n0 tl tr) ∧
        match phi0 with
        | Some _ => phi0 = Some l
        | None =>
            binaryTreeSearch fuel t phiq (root_ t) = Done (Some l) ∧
            descendsTo t phiq n0 (Some l)
        end
    end.
Proof.
  intros Hinv Hpre.
  destruct (insertNewLeaf_inv fuel t a phiq Rphiq A sf eps nCols phi0 Hinv Hpre)
    as (t' & p & n & l & Hrun & Hsz & Hnew & Hpay & Hinv' & Hcase).
  exists t', p, n, l. repeat (split; [done|]).
  destruct a as [|r l0|n0 tl tr]; [done|done|].
  destruct Hcase as (Hn & Hp & Hl & Hphi). repeat (split; [done|]).
  destruct phi0; [done|]. split; [done|].
  pose proof (treeInv_full_size _ _ _ _ Hinv) as Hsz1.
  destruct Hinv as (_ & _ & _ & Hroot & _). rewrite Hroot in Hphi.
  by eapply binaryTreeSearch_sound.
Qed.

Lemma repr_parent N L T : ∀ p c e z znd,
  repr N L p T c e → z ∈ shapeNodes T → N !! z = Some znd →
  parent_ znd = p ∨ ∃ g, parent_ znd = Some g ∧ g ∈ shapeNodes T.
Proof.
  induction T as [l|m tl IHl tr IHr]; intros p c e z znd; simpl.
  { intros _ H. by apply elem_of_nil in H. }
  intros (-> & -> & nd & Hnd & Hp & Hl & Hr) Hin Hz.
  apply elem_of_cons in Hin as [->|Hin].
  { left. congruence. }
  right. apply elem_of_app in Hin as [Hin|Hin].
  - destruct (IHl _ _ _ _ _ Hl Hin Hz) as [H|(g & Hg & Hgin)].
    + exists m. split; [done|set_solver].
    + exists g. split; [done|set_solver].
  - destruct (IHr _ _ _ _ _ Hr Hin Hz) as [H|(g & Hg & Hgin)].
    + exists m. split; [done|set_solver].
    + exists g. split; [done|set_solver].
Qed.

(** What [deleteLeaf] does to a well-formed tree that holds [x]. *)
Lemma deleteLeaf_inv t a x :
  treeInv t a → x ∈ treeLeaves a →
  ∃ t', deleteLeaf t (Some x) = Done t' ∧
    size_ t' = (size_ t - 1)%Z ∧
    treeInv t' (treeRemove (newNodeAddr t) x a) ∧
    leaves t' !! x = None ∧
    (∀ lfx z, leaves t !! x = Some lfx → node_ lfx = Some z → nodes t' !! z = None) ∧
    (∀ k lf, k ≠ x → leaves t !! k = Some lf →
       ∃ lf', leaves t' !! k = Some lf' ∧ payload lf' = payload lf) ∧
    (∀ lfx z znd k, leaves t !! x = Some lfx → node_ lfx = Some z →
       nodes t !! z = Some znd → k ≠ x → (siblingSide x znd).2 ≠ Some k →
       leaves t' !! k = leaves t !! k).
Proof.
  intros Hinv Hx. destruct a as [|r x0|n0 tl tr].
  - by apply elem_of_nil in Hx.
  - simpl in Hx. apply list_elem_of_singleton in Hx as ->.
    destruct (deleteLeaf_single _ _ _ Hinv) as (t' & Hrun & Hsz & HN & HL & Hinv').
    exists t'. split; [done|]. split; [done|]. split; [done|].
    destruct Hinv as (_ & _ & _ & Hroot & nd & Hnd & _ & _ & _ & _ & Hrep).
    simpl in Hrep. destruct Hrep as (_ & _ & lf & Hlf & Hnode).
    rewrite HL, HN.
    split; [apply lookup_delete_eq|].
    split.
    { intros lfx z Hlfx Hz. assert (z = r) as -> by congruence. apply lookup_delete_eq. }
    split.
    { intros k lf' Hk Hlf'. rewrite lookup_delete_ne by done. eauto. }
    intros lfx z znd k _ _ _ Hk _. by rewrite lookup_delete_ne.
  - change (treeLeaves (TFull n0 tl tr)) with (shapeLeaves (Node n0 tl tr)) in Hx.
    destruct (deleteLeaf_full _ _ _ _ _ Hinv Hx) as (Hrun & Hinv').
    eexists. split; [exact Hrun|]. split; [done|]. split; [done|].
    cbn [leaves nodes setSize].
    destruct Hinv as (_ & _ & _ & Hrep).
    destruct (repr_leaf_site _ _ _ _ _ _ _ Hrep Hx)
      as (lfx & Hlfx & [[? _]|(z & Hz & Hzin & (znd & Hznd & _))]); [done|].
    assert (∀ g, parent_ znd = Some g → is_Some (nodes t !! g)) as Hg.
    { intros g Hpg.
      destruct (repr_parent _ _ _ _ _ _ _ _ Hrep Hzin Hznd) as [?|(g' & Hg' & Hin)];
        [congruence|].
      assert (g' = g) as -> by congruence. by eapply repr_nodes. }
    destruct (removeStore_freed _ _ _ _ _ Hlfx Hz Hznd Hg) as (Hfx & Hfz).
    split; [done|].
    split.
    { intros lfx' z' Hlfx' Hz'. assert (z' = z) as -> by congruence. done. }
    split.
    { intros k lf Hk Hlf. by apply removeStore_payload. }
    intros lfx' z' znd' k Hlfx' Hz' Hznd' Hk Hsib.
    by eapply removeStore_other.
Qed.

Lemma treeInv_backPointers t a l : treeInv t a → stored t l → backPointerOk t l.
Proof.
  intros Hinv Hl. eapply treeInv_backPointer; [done|]. by eapply treeInv_stored.
Qed.

(** C4 (amended). On a well-formed tree that holds [x], [deleteLeaf]
    returns and the size decreases by one. With one leaf the tree
    becomes empty. With more, the node that holds [x] is replaced, in
    the slot of its parent, by its other side: a leaf is promoted into
    that slot, a node is transplanted there; when the node of [x] is the
    root, the remaining node becomes the root, and a remaining leaf is
    held in the left slot of a new empty root. The leaf [x] and its node
    are freed. Every other leaf stays in the store with its payload; the
    leaves other than the one on the other side of the node of [x] are
    not written at all. *)
Theorem deleteLeaf_cases t a x :
  treeInv t a → x ∈ treeLeaves a →
  ∃ t', deleteLeaf t (Some x) = Done t' ∧
    size_ t' = (size_ t - 1)%Z ∧
    treeInv t' (treeRemove (newNodeAddr t) x a) ∧
    leaves t' !! x = None ∧
    (∀ lfx z, leaves t !! x = Some lfx → node_ lfx = Some z → nodes t' !! z = None) ∧
    (∀ k lf, k ≠ x → leaves t !! k = Some lf →
       ∃ lf', leaves t' !! k = Some lf' ∧ payload lf' = payload lf) ∧
    (∀ lfx z znd k, leaves t !! x = Some lfx → node_ lfx = Some z →
       nodes t !! z = Some znd → k ≠ x → (siblingSide x znd).2 ≠ Some k →
       leaves t' !! k = leaves t !! k).
Proof. apply deleteLeaf_inv. Qed.

(** C5. When [balance] returns [true] on a well-formed tree, the leaves
    stored in the tree are the same leaf objects as before, [size_] is
    unchanged, and every leaf of the store is still there with the same
    [phi], [Rphi], [A] and [LT] (and the rest of its payload); when it
    returns [false] the tree is unchanged. *)
Theorem balance_preserves_leaves fuel rand t a t' b :
  treeInv t a → balance fuel rand t = Done (t', b) →
  (b = true →
     (∀ l, stored t' l ↔ stored t l) ∧
     size_ t' = size_ t ∧
     ∀ k lf, leaves t !! k = Some lf →
       ∃ lf', leaves t' !! k = Some lf' ∧
         phi_ lf' = phi_ lf ∧ Rphi_ lf' = Rphi_ lf ∧ A_ lf' = A_ lf ∧
         LT_ lf' = LT_ lf ∧ payload lf' = payload lf) ∧
  (b = false → t' = t).
Proof.
  intros Hinv Hrun. split.
  - intros ->. destruct (balance_post _ _ _ _ _ Hinv Hrun) as (Hst & Hsz & Hpay & _).
    split.
    { intros l. by rewrite Hst, (treeInv_stored _ _ _ Hinv). }
    split; [done|].
    intros k lf Hk. destruct (Hpay _ _ Hk) as (lf' & Hk' & Hp).
    exists lf'. split; [done|].
    split; [exact (f_equal phi_ Hp)|]. split; [exact (f_equal Rphi_ Hp)|].
    split; [exact (f_equal A_ Hp)|]. split; [exact (f_equal LT_ Hp)|done].
  - intros ->. unfold balance in Hrun.
    destruct (minBalanceThreshold_ t <? size_ t)%Z; [|by injection Hrun].
    apply bind_Done in Hrun as ([[[cps maxDir] minId] maxId] & _ & H).
    apply bind_Done in H as (? & _ & H). apply bind_Done in H as (? & _ & H).
    apply bind_Done in H as (? & _ & H). apply bind_Done in H as (? & _ & H).
    apply bind_Done in H as (? & _ & H). apply bind_Done in H as (? & _ & H).
    apply bind_Done in H as (? & _ & H). apply bind_Done in H as (? & _ & H).
    done.
Qed.

(** C7. The leaves stored in a well-formed tree have a node back-pointer
    that refers to a node holding them in its left or right element
    slot, and this is still so after [insertNewLeaf], after
    [deleteLeaf] of a leaf of the tree, and after a [balance] that
    returns [true]. *)
Theorem backPointer_invariant t a :
  treeInv t a →
  (∀ l, stored t l → backPointerOk t l) ∧
  (∀ fuel phiq Rphiq A sf eps nCols phi0, insertPre fuel t a phiq phi0 →
     ∃ t' p, insertNewLeaf fuel t phiq Rphiq A sf eps nCols phi0 = Done (t', p) ∧
       ∀ l, stored t' l → backPointerOk t' l) ∧
  (∀ x, x ∈ treeLeaves a →
     ∃ t', deleteLeaf t (Some x) = Done t' ∧ ∀ l, stored t' l → backPointerOk t' l) ∧
  (∀ fuel rand t', balance fuel rand t = Done (t', true) →
     ∀ l, stored t' l → backPointerOk t' l).
Proof.
  intros Hinv. split; [|split; [|split]].
  - intros l. by apply (treeInv_backPointers t a).
  - intros fuel phiq Rphiq A sf eps nCols phi0 Hpre.
    destruct (insertNewLeaf_inv fuel t a phiq Rphiq A sf eps nCols phi0 Hinv Hpre)
      as (t' & p & n & l0 & Hrun & _ & _ & _ & Hinv' & _).
    exists t', p. split; [done|]. intros l. by eapply treeInv_backPointers.
  - intros x Hx. destruct (deleteLeaf_inv _ _ _ Hinv Hx) as (t' & Hrun & _ & Hinv' & _).
    exists t'. split; [done|]. intros l. by eapply treeInv_backPointers.
  - intros fuel rand t' Hrun l Hl.
    destruct (balance_post _ _ _ _ _ Hinv Hrun) as (Hst & _ & _ & Hbp).
    apply Hbp. by apply Hst.
Qed.

(** ** The extreme leaves of [balance] *)

Lemma findExtremes_maxId t maxDir : ∀ cps j maxPhi minPhi minId maxId r,
  (∀ c lf v, c ∈ cps → getLeaf t c = Done lf → zlookup (phi_ lf) maxDir = Done v →
     sgt v maxPhi = false) →
  findExtremes t cps maxDir j maxPhi minPhi minId maxId = Done r → r.2 = maxId.
Proof.
  induction cps as [|c cps IH]; intros j maxPhi minPhi minId maxId r Hle; simpl.
  { by intros [= <-]. }
  intros (clf & Hclf & (v & Hv & H)%bind_Done)%bind_Done.
  rewrite (Hle c clf v) in H by (done || set_solver).
  destruct (slt v minPhi); simpl in H.
  - eapply IH; [|exact H]. intros c' lf' v' Hc'. apply Hle. set_solver.
  - eapply IH; [|exact H]. intros c' lf' v' Hc'. apply Hle. set_solver.
Qed.

Lemma balanceSelect_findExtremes fuel t cps maxDir minId maxId :
  balanceSelect fuel t = Done (cps, maxDir, minId, maxId) →
  findExtremes t cps maxDir 0%Z (ofLabel 0) sGREAT (-1)%Z (-1)%Z = Done (minId, maxId).
Proof.
  unfold balanceSelect.
  intros (x & _ & ([mean cps'] & _ & (variance & _ & (maxDir' & _ &
          ([minId' maxId'] & Hfe & H)%bind_Done)%bind_Done)%bind_Done)%bind_Done)%bind_Done.
  by injection H as -> -> -> ->.
Qed.

(** C6. [balance] looks for the leaf of largest [phi[maxDir]] among the
    values above the initial [maxPhi = 0]. On a well-formed tree whose
    leaves have no component above zero, no leaf is selected: the
    position [maxId] of the second child of the new root stays at -1,
    reading [chemPoints[maxId]] is out of bounds, and [balance] does not
    return. *)
Theorem balance_extremes_no_positive fuel rand t a :
  treeInv t a → (minBalanceThreshold_ t < size_ t)%Z →
  (∀ l lf, l ∈ treeLeaves a → leaves t !! l = Some lf →
     Forall (λ v, sgt v (ofLabel 0) = false) (phi_ lf)) →
  (∀ cps maxDir minId maxId,
     balanceSelect fuel t = Done (cps, maxDir, minId, maxId) →
     maxId = (-1)%Z ∧ zlookup cps maxId = Fault) ∧
  (∀ r, balance fuel rand t ≠ Done r).
Proof.
  intros Hinv Hthr Hneg.
  assert (Hsel : ∀ cps maxDir minId maxId,
     balanceSelect fuel t = Done (cps, maxDir, minId, maxId) →
     maxId = (-1)%Z ∧ zlookup cps maxId = Fault).
  { intros cps maxDir minId maxId Hsel.
    pose proof (balanceSelect_chemPoints _ _ _ _ _ _ _ Hinv Hsel) as ->.
    apply balanceSelect_findExtremes in Hsel.
    apply findExtremes_maxId in Hsel.
    - simpl in Hsel. subst maxId. split; [done|apply zlookup_negative; lia].
    - intros c lf v (l & -> & Hl)%list_elem_of_fmap (? & [= <-] & Hlf)%getLeaf_Done
        [_ Hv]%zlookup_Done.
      pose proof (Hneg _ _ Hl Hlf) as Hall.
      rewrite Forall_forall in Hall. apply Hall. by eapply list_elem_of_lookup_2. }
  split; [done|].
  intros r. unfold balance. rewrite (proj2 (Z.ltb_lt _ _) Hthr).
  intros ([[[cps maxDir] minId] maxId] & Hs & H)%bind_Done.
  destruct (Hsel _ _ _ _ Hs) as (-> & Hf).
  apply bind_Done in H as (minRef & _ & H).
  apply bind_Done in H as (maxRef & Hmax & _). congruence.
Qed.

(** ** The reference argument of the secondary search *)

Lemma secondaryBTSearch_found fuel t phiq x :
  (secondaryBTSearch fuel t phiq x).2 = Done true →
  ∃ l lf, (secondaryBTSearch fuel t phiq x).1.1.2 = Some l ∧
    last (secondaryBTSearch fuel t phiq x).1.2 = Some l ∧
    leaves t !! l = Some lf ∧ inEOA lf phiq = true.
Proof.
  unfold secondaryBTSearch.
  pose proof (secondaryBTSearchFrom_post t phiq fuel (mkS2 (n2ndSearch_ t) x [])) as Hpost.
  destruct (secondaryBTSearchFrom fuel t phiq (mkS2 (n2ndSearch_ t) x [])) as [s r].
  simpl. intros ->. by eapply searchPost_found.
Qed.

Lemma inSubTree_result fuel t phiq y s b :
  (inSubTree fuel t phiq y s).2 = Done b →
  (b = true ∨ tested (inSubTree fuel t phiq y s).1 ≠ tested s →
   ∃ l lf, xref (inSubTree fuel t phiq y s).1 = Some l ∧
     last (tested (inSubTree fuel t phiq y s).1) = Some l ∧
     leaves t !! l = Some lf ∧ inEOA lf phiq = b) ∧
  (tested (inSubTree fuel t phiq y s).1 = tested s →
   b = false ∧ xref (inSubTree fuel t phiq y s).1 = xref s).
Proof.
  pose proof (inSubTree_post t phiq fuel y s) as Hpost.
  destruct (inSubTree fuel t phiq y s) as [s' r]. simpl. intros ->. split.
  - intros [->|Hne].
    + by eapply searchPost_found.
    + destruct b; [by eapply searchPost_found|by eapply searchPost_failed].
  - intros Heq. destruct Hpost as (new & Hnew & _ & _ & _ & Hnil & _).
    simpl in Hnew, Hnil. apply Hnil.
    rewrite Heq in Hnew. rewrite <- (app_nil_r (tested s)) in Hnew at 1.
    by apply app_inv_head in Hnew.
Qed.

End Proofs.

(** * The model run on the example trees *)

Section Examples.
#[local] Existing Instance QOps.
#[local] Existing Instance QLeaf.

(** C9. When [secondaryBTSearch] or [inSubTree] returns [true], the
    reference argument [x] is the last leaf tested and its [inEOA]
    returned [true]. When [inSubTree] returns [false] after testing a
    leaf, [x] is left on the last leaf tested, whose [inEOA] returned
    [false]; it keeps its value only when no leaf was tested. On the
    example tree, a call of [secondaryBTSearch] with [x] on leaf 1
    returns [false] with [x] on leaf 2, the last of the three leaves
    tested, and so does the call of [inSubTree] on the node 2. *)
Theorem secondary_search_out_parameter :
  (∀ (SO : ScalarOps) (LO : LeafOps) fuel t phiq x,
     (secondaryBTSearch fuel t phiq x).2 = Done true →
     ∃ l lf, (secondaryBTSearch fuel t phiq x).1.1.2 = Some l ∧
       last (secondaryBTSearch fuel t phiq x).1.2 = Some l ∧
       leaves t !! l = Some lf ∧ inEOA lf phiq = true) ∧
  (∀ (SO : ScalarOps) (LO : LeafOps) fuel t phiq y s b,
     (inSubTree fuel t phiq y s).2 = Done b →
     (b = true ∨ tested (inSubTree fuel t phiq y s).1 ≠ tested s →
      ∃ l lf, xref (inSubTree fuel t phiq y s).1 = Some l ∧
        last (tested (inSubTree fuel t phiq y s).1) = Some l ∧
        leaves t !! l = Some lf ∧ inEOA lf phiq = b) ∧
     (tested (inSubTree fuel t phiq y s).1 = tested s →
      b = false ∧ xref (inSubTree fuel t phiq y s).1 = xref s)) ∧
  (treeInv exTree4 exShape4 ∧
   secondaryBTSearch 5 exTree4 exFar (Some 1%positive) =
     (setN2ndSearch 3 exTree4, Some 2%positive, [4; 3; 2]%positive, Done false) ∧
   inSubTree 5 exTree4 exFar (Some 2%positive) (mkS2 0 (Some 1%positive) []) =
     (mkS2 2 (Some 2%positive) [3; 2]%positive, Done false) ∧
   (λ lf, inEOA lf exFar) <$> leaves exTree4 !! 2%positive = Some false).
Proof.
  split; [|split; [|split; [|split; [|split]]]].
  - intros SO LO fuel t phiq x. apply secondaryBTSearch_found.
  - intros SO LO fuel t phiq y s b. apply inSubTree_result.
  - apply treeInvb_sound. by vm_compute.
  - by vm_compute.
  - by vm_compute.
  - by vm_compute.
Qed.

Lemma secondary_search_out_parameter_witness :
  ∃ l lf, (secondaryBTSearch 5 exTree4 exPhi3 (Some 1%positive)).1.1.2 = Some l ∧
    last (secondaryBTSearch 5 exTree4 exPhi3 (Some 1%positive)).1.2 = Some l ∧
    leaves exTree4 !! l = Some lf ∧ inEOA lf exPhi3 = true.
Proof.
  apply (proj1 secondary_search_out_parameter QOps QLeaf 5 exTree4 exPhi3
           (Some 1%positive)).
  vm_compute. reflexivity.
Defined.

Lemma binaryTreeSearch_cases_witness :
  ∃ l, l ∈ treeLeaves exShape4 ∧
    binaryTreeSearch 5 exTree4 exPhi3 (root_ exTree4) = Done (Some l) ∧
    descendsTo exTree4 exPhi3 1 (Some l).
Proof.
  apply (proj2 (proj2 (proj2 (proj2 (binaryTreeSearch_cases exTree4 exPhi3))))
           1%positive (Node 3 (Leaf 1) (Leaf 4)) (Node 2 (Leaf 2) (Leaf 3)) 5).
  - apply treeInvb_sound. vm_compute. reflexivity.
  - apply dimsOkb_sound. vm_compute. reflexivity.
  - simpl. lia.
Defined.

Lemma secondaryBTSearch_budget_witness :
  let res := secondaryBTSearch 5 exTree4 exFar (Some 1%positive) in
  (Z.of_nat (length res.1.2) ≤ n2ndSearch_ res.1.1.1)%Z ∧
  (n2ndSearch_ res.1.1.1 ≤ Z.max 0 (max2ndSearch_ exTree4))%Z.
Proof.
  pose proof (secondaryBTSearch_budget 5 exTree4 exFar (Some 1%positive))
    as (_ & _ & H1 & H2 & _).
  split; [exact H1|exact H2].
Defined.

Lemma insertNewLeaf_cases_witness :
  ∃ t' p n l,
    insertNewLeaf 8 exTree3 exPhi4 exPhi4 exIdentity [qz 1; qz 1] (qz 1) 2 None =
      Done (t', p) ∧
    size_ t' = (size_ exTree3 + 1)%Z ∧
    (∃ lfc, leaves t' !! newLeafAddr exTree3 = Some lfc ∧
       payload lfc =
         payload (newChP exPhi4 exPhi4 exIdentity [qz 1; qz 1] (qz 1) 2 None)) ∧
    payloadKept exTree3 t' ∧
    treeInv t' (treeInsert n (newLeafAddr exTree3) l exShape3) ∧
    n = newNodeAddr exTree3 ∧ p = Some l ∧ l ∈ treeLeaves exShape3 ∧
    binaryTreeSearch 8 exTree3 exPhi4 (root_ exTree3) = Done (Some l) ∧
    descendsTo exTree3 exPhi4 1 (Some l).
Proof.
  apply (insertNewLeaf_cases 8 exTree3 exShape3 exPhi4 exPhi4 exIdentity
           [qz 1; qz 1] (qz 1) 2 None).
  - apply treeInvb_sound. vm_compute. reflexivity.
  - left. split; [reflexivity|]. split.
    + apply dimsOkb_sound. vm_compute. reflexivity.
    + simpl. lia.
Defined.

Lemma deleteLeaf_cases_witness :
  ∃ t', deleteLeaf exTree4 (Some 1%positive) = Done t' ∧
    size_ t' = (size_ exTree4 - 1)%Z ∧
    treeInv t' (treeRemove (newNodeAddr exTree4) 1 exShape4) ∧
    leaves t' !! 1%positive = None ∧
    (∀ lfx z, leaves exTree4 !! 1%positive = Some lfx → node_ lfx = Some z →
       nodes t' !! z = None) ∧
    (∀ k lf, k ≠ 1%positive → leaves exTree4 !! k = Some lf →
       ∃ lf', leaves t' !! k = Some lf' ∧ payload lf' = payload lf) ∧
    (∀ lfx z znd k, leaves exTree4 !! 1%positive = Some lfx → node_ lfx = Some z →
       nodes exTree4 !! z = Some znd → k ≠ 1%positive →
       (siblingSide 1 znd).2 ≠ Some k →
       leaves t' !! k = leaves exTree4 !! k).
Proof.
  apply (deleteLeaf_cases exTree4 exShape4 1%positive).
  - apply treeInvb_sound. vm_compute. reflexivity.
  - apply (bool_decide_unpack _). vm_compute. exact I.
Defined.

(** On the example tree of two leaves, deleting leaf 1 writes leaf 2: its
    node back-pointer goes from node 1 to the new root, node 2. *)
Lemma deleteLeaf_writes_sibling :
  treeInv exTree2 exShape2 ∧
  ∃ t', deleteLeaf exTree2 (Some 1%positive) = Done t' ∧
    node_ <$> leaves exTree2 !! 2%positive = Some (Some 1%positive) ∧
    node_ <$> leaves t' !! 2%positive = Some (Some 2%positive) ∧
    leaves t' !! 2%positive ≠ leaves exTree2 !! 2%positive.
Proof.
  split; [apply treeInvb_sound; by vm_compute|].
  exists (unDone exTree2 (deleteLeaf exTree2 (Some 1%positive))).
  split; [by vm_compute|]. split; [by vm_compute|]. split; [by vm_compute|].
  intros H. apply (f_equal (fmap node_)) in H. vm_compute in H. discriminate.
Qed.

Lemma balance_preserves_leaves_witness :
  let t' := (unDone (exTree4, false) (balance 8 (λ i, i) exTree4)).1 in
  (true = true →
     (∀ l, stored t' l ↔ stored exTree4 l) ∧
     size_ t' = size_ exTree4 ∧
     ∀ k lf, leaves exTree4 !! k = Some lf →
       ∃ lf', leaves t' !! k = Some lf' ∧
         phi_ lf' = phi_ lf ∧ Rphi_ lf' = Rphi_ lf ∧ A_ lf' = A_ lf ∧
         LT_ lf' = LT_ lf ∧ payload lf' = payload lf) ∧
  (true = false → t' = exTree4).
Proof.
  apply (balance_preserves_leaves 8 (λ i, i) exTree4 exShape4).
  - apply treeInvb_sound. vm_compute. reflexivity.
  - vm_compute. reflexivity.
Defined.

Lemma balance_extremes_no_positive_witness :
  (∀ cps maxDir minId maxId,
     balanceSelect 5 exNeg2 = Done (cps, maxDir, minId, maxId) →
     maxId = (-1)%Z ∧ zlookup cps maxId = Fault) ∧
  (∀ r, balance 5 (λ i, i) exNeg2 ≠ Done r).
Proof.
  apply (balance_extremes_no_positive 5 (λ i, i) exNeg2 exShape2).
  - apply treeInvb_sound. vm_compute. reflexivity.
  - vm_compute. reflexivity.
  - intros l lf Hl Hlf. simpl in Hl.
    apply elem_of_cons in Hl as [->|Hl].
    { vm_compute in Hlf. injection Hlf as <-. repeat constructor. }
    apply elem_of_cons in Hl as [->|Hl].
    { vm_compute in Hlf. injection Hlf as <-. repeat constructor. }
    by apply elem_of_nil in Hl.
Defined.

Lemma backPointer_invariant_witness :
  (∀ l, stored exTree4 l → backPointerOk exTree4 l) ∧
  (∀ fuel phiq Rphiq A sf eps nCols phi0, insertPre fuel exTree4 exShape4 phiq phi0 →
     ∃ t' p, insertNewLeaf fuel exTree4 phiq Rphiq A sf eps nCols phi0 = Done (t', p) ∧
       ∀ l, stored t' l → backPointerOk t' l) ∧
  (∀ x, x ∈ treeLeaves exShape4 →
     ∃ t', deleteLeaf exTree4 (Some x) = Done t' ∧
       ∀ l, stored t' l → backPointerOk t' l) ∧
  (∀ fuel rand t', balance fuel rand exTree4 = Done (t', true) →
     ∀ l, stored t' l → backPointerOk t' l).
Proof.
  apply (backPointer_invariant exTree4 exShape4).
  apply treeInvb_sound. vm_compute. reflexivity.
Defined.

Lemma clear_then_insert_witness :
  ∃ t', clear 8 exTree4 = Done t' ∧ root_ t' = None ∧ size_ t' = 0%Z ∧
    (∀ n, n ∈ treeNodes exShape4 → nodes t' !! n = None) ∧
    (∀ l, l ∈ treeLeaves exShape4 → leaves t' !! l = None) ∧
    (∀ n, n ∉ treeNodes exShape4 → nodes t' !! n = nodes exTree4 !! n) ∧
    (∀ l, l ∉ treeLeaves exShape4 → leaves t' !! l = leaves exTree4 !! l) ∧
    (ownsStore exTree4 exShape4 → nodes t' = ∅ ∧ leaves t' = ∅) ∧
    treeInv t' TEmpty ∧
    ∀ fuel' phiq Rphiq A sf eps nCols phi0,
      ∃ t'', insertNewLeaf fuel' t' phiq Rphiq A sf eps nCols phi0 = Done (t'', phi0) ∧
        size_ t'' = 1%Z ∧
        treeInv t'' (TSingle (newNodeAddr t') (newLeafAddr t')).
Proof.
  apply (clear_then_insert 8 exTree4 exShape4).
  - apply treeInvb_sound. vm_compute. reflexivity.
  - simpl. lia.
Defined.

Lemma balance_split_direction_witness :
  (slt (ofLabel 0) (maxNbBalanceTest_ exTree4) = true ∧ (2 ≤ 2)%Z) ∧
  (slt (ofLabel 0) (maxNbBalanceTest_ exTree4) = true ↔ (1 ≤ 1)%Z) ∧
  balance 8 (λ i, i) exZero4 ≠ Done (exZero4, true).
Proof.
  split; [|split].
  - apply (proj1 (balance_split_direction exTree4) 2%Z).
    vm_compute. reflexivity.
  - apply (proj2 (proj2 (proj2 (proj2 (proj2 (proj2
             (balance_split_direction exTree4)))))) 1%Z).
    + intros i j. unfold slt, ofLabel, QOps, QArith_base.Qle_bool. simpl.
      rewrite !Z.mul_1_r. symmetry. apply Z.ltb_antisym.
    + reflexivity.
  - apply (proj1 (proj2 (proj2 (proj2 (proj2 (balance_split_direction exZero4)))))
             8 (λ i, i) (exZero4, true)).
    + vm_compute. reflexivity.
    + left. vm_compute. reflexivity.
Defined.

(** With the fractional cap 0.53, which is below 1, the first test of
    the selection loop passes, the loop assigns the split direction 0,
    and [balance] returns [true]. *)
Lemma balance_fractional_cap :
  treeInv exFrac4 exShape4 ∧
  slt (maxNbBalanceTest_ exFrac4) (ofLabel 1) = true ∧
  balanceGuard exFrac4 (nEqns_ exFrac4) 0 0 = true ∧
  balanceSelect 8 exFrac4 =
    Done ([Some 1; Some 4; Some 2; Some 3]%positive, 0%Z, 0%Z, 3%Z) ∧
  ∃ t', balance 8 (λ i, i) exFrac4 = Done (t', true).
Proof.
  split; [apply treeInvb_sound; by vm_compute|].
  split; [by vm_compute|]. split; [by vm_compute|]. split; [by vm_compute|].
  exists (unDone (exFrac4, false) (balance 8 (λ i, i) exFrac4)).1.
  by vm_compute.
Qed.

End Examples.

(** * Further properties of the tree operations *)

Section Further.
Context `{SO : ScalarOps} `{LO : !LeafOps}.
Implicit Types (t : binaryTree) (T : shape) (phiq : list scalar).
Implicit Types (N : gmap positive binaryNode) (L : gmap positive chemPointISAT).

(** ** [depth] *)

Lemma depth_shape t T : ∀ p c e fuel,
  repr (nodes t) (leaves t) p T c e → shapeHeight T ≤ fuel →
  depth fuel t c = Done (Z.of_nat (shapeHeight T)).
Proof.
  induction T as [l|n tl IHl tr IHr]; intros p c e fuel; simpl.
  { intros (-> & _) _. by destruct fuel. }
  intros (-> & -> & nd & Hnd & Hp & Hl & Hr) Hfuel.
  destruct fuel as [|fuel]; [lia|]. simpl.
  rewrite (getNode_Some _ _ _ Hnd). simpl.
  rewrite (IHl _ _ _ fuel Hl) by lia. simpl.
  rewrite (IHr _ _ _ fuel Hr) by lia. simpl.
  f_equal. lia.
Qed.

Lemma shapeLeaves_le_pow T : length (shapeLeaves T) ≤ 2 ^ shapeHeight T.
Proof.
  induction T as [l|n tl IHl tr IHr]; simpl; [lia|].
  rewrite length_app.
  pose proof (Nat.pow_le_mono_r 2 (shapeHeight tl) (shapeHeight tl `max` shapeHeight tr)
                ltac:(lia) ltac:(lia)).
  pose proof (Nat.pow_le_mono_r 2 (shapeHeight tr) (shapeHeight tl `max` shapeHeight tr)
                ltac:(lia) ltac:(lia)).
  lia.
Qed.

Lemma shapeHeight_lt_leaves T : shapeHeight T < length (shapeLeaves T).
Proof.
  induction T as [l|n tl IHl tr IHr]; simpl; [lia|].
  rewrite length_app. lia.
Qed.

(** The value of [depth] on a well-formed tree, and its bounds. *)
Lemma depth_treeDepth fuel t a :
  treeInv t a → treeDepth a ≤ fuel →
  depth fuel t (root_ t) = Done (Z.of_nat (treeDepth a)) ∧
  (size_ t = 0%Z → treeDepth a = 0) ∧
  (size_ t = 1%Z → treeDepth a = 1) ∧
  ((1 < size_ t)%Z →
     (Z.of_nat (treeDepth a) + 1 ≤ size_ t)%Z ∧ (size_ t ≤ 2 ^ Z.of_nat (treeDepth a))%Z).
Proof.
  intros Hinv Hfuel.
  pose proof Hinv as (Hsz & _ & _ & Hshape). destruct a as [|r l|n tl tr].
  - simpl in *. rewrite Hshape. split; [by destruct fuel|]. split; [done|]. lia.
  - destruct Hshape as (Hroot & nd & Hnd & _ & HL & HR & _).
    simpl in Hsz, Hfuel |- *. split; [|split; [lia|split; [done|lia]]].
    rewrite Hroot. destruct fuel as [|fuel]; [lia|]. simpl.
    rewrite (getNode_Some _ _ _ Hnd). simpl. rewrite HL, HR.
    by destruct fuel.
  - change (treeDepth (TFull n tl tr)) with (shapeHeight (Node n tl tr)) in *.
    change (treeLeaves (TFull n tl tr)) with (shapeLeaves (Node n tl tr)) in *.
    split; [by eapply depth_shape|].
    pose proof (shapeLeaves_le_pow (Node n tl tr)).
    pose proof (shapeHeight_lt_leaves (Node n tl tr)).
    pose proof (treeInv_full_size _ _ _ _ Hinv).
    split; [lia|]. split; [lia|]. intros _. rewrite Hsz. split; [lia|].
    rewrite <- (Nat2Z.inj_pow 2). lia.
Qed.

(** X1. On a well-formed tree [depth(root_)] returns, with fuel for the
    levels of the tree, the number of node levels: 0 without leaf, 1 with
    one leaf, and with [size_] leaves a depth [d] such that
    [d + 1 <= size_ <= 2^d]. *)
Theorem depth_tree fuel t a :
  treeInv t a → treeDepth a ≤ fuel →
  depth fuel t (root_ t) = Done (Z.of_nat (treeDepth a)) ∧
  (size_ t = 0%Z → treeDepth a = 0) ∧
  (size_ t = 1%Z → treeDepth a = 1) ∧
  ((1 < size_ t)%Z →
     (Z.of_nat (treeDepth a) + 1 ≤ size_ t)%Z ∧ (size_ t ≤ 2 ^ Z.of_nat (treeDepth a))%Z).
Proof. apply depth_treeDepth. Qed.

Lemma shapeSplice_height l n c T :
  shapeHeight T ≤ shapeHeight (shapeSplice l n c T) ≤ S (shapeHeight T).
Proof.
  induction T as [l'|m tl IHl tr IHr]; simpl.
  - destruct (decide (l' = l)); simpl; lia.
  - lia.
Qed.

(** X2. Inserting a leaf into a well-formed tree never reduces the depth
    of the tree and adds at most one level: [depth] returns [d] before
    and [d'] after the insertion, with [d <= d' <= d + 1]. *)
Theorem insertNewLeaf_depth fuel t a phiq Rphiq A sf eps nCols phi0 :
  treeInv t a → insertPre fuel t a phiq phi0 →
  ∃ t' p d d',
    insertNewLeaf fuel t phiq Rphiq A sf eps nCols phi0 = Done (t', p) ∧
    (∀ f, d ≤ f → depth f t (root_ t) = Done (Z.of_nat d)) ∧
    (∀ f, d' ≤ f → depth f t' (root_ t') = Done (Z.of_nat d')) ∧
    d ≤ d' ≤ d + 1.
Proof.
  intros Hinv Hpre.
  destruct (insertNewLeaf_inv fuel t a phiq Rphiq A sf eps nCols phi0 Hinv Hpre)
    as (t' & p & n & l & Hrun & _ & _ & _ & Hinv' & _).
  exists t', p, (treeDepth a), (treeDepth (treeInsert n (newLeafAddr t) l a)).
  split; [done|].
  split; [intros f Hf; by apply depth_treeDepth|].
  split; [intros f Hf; by apply depth_treeDepth|].
  destruct a as [|r l0|n0 tl tr]; simpl; [lia|lia|].
  pose proof (shapeSplice_height l n (newLeafAddr t) tl).
  pose proof (shapeSplice_height l n (newLeafAddr t) tr). lia.
Qed.

(** ** Siblings *)

(** The pointers of a side determine its shape. *)
Lemma repr_unique N L T : ∀ T' p p' c e,
  repr N L p T c e → repr N L p' T' c e → T = T'.
Proof.
  induction T as [l|n tl IHl tr IHr]; intros T' p p' c e; simpl.
  - intros (-> & -> & _). destruct T' as [l'|n' tl' tr']; simpl.
    + intros (_ & [= ->] & _). done.
    + intros (? & _). done.
  - intros (-> & -> & nd & Hnd & _ & Hl & Hr). destruct T' as [l'|n' tl' tr']; simpl.
    + intros (? & _). done.
    + intros ([= <-] & _ & nd' & Hnd' & _ & Hl' & Hr').
      assert (nd' = nd) as -> by congruence.
      by rewrite (IHl _ _ _ _ _ Hl Hl'), (IHr _ _ _ _ _ Hr Hr').
Qed.

(** The sides of a node of a represented shape are parts of the shape. *)
Lemma repr_sides N L T p c e z znd a b :
  repr N L p T c e → z ∈ shapeNodes T → N !! z = Some znd →
  repr N L (Some z) a (left_ znd) (elementLeft_ znd) →
  repr N L (Some z) b (right_ znd) (elementRight_ znd) →
  shapeNodes a ⊆ shapeNodes T ∧ shapeNodes b ⊆ shapeNodes T ∧
  shapeLeaves a ⊆ shapeLeaves T ∧ shapeLeaves b ⊆ shapeLeaves T.
Proof.
  intros Hrep Hz Hznd Ha Hb.
  destruct (repr_subtree _ _ _ _ _ _ _ Hrep Hz)
    as (nd2 & a2 & b2 & q2 & Hnd2 & _ & Hra2 & Hrb2 & HNa & HNb & HLa & HLb).
  assert (nd2 = znd) as -> by congruence.
  by rewrite (repr_unique _ _ _ _ _ _ _ _ Ha Hra2), (repr_unique _ _ _ _ _ _ _ _ Hb Hrb2).
Qed.

Lemma leaf_sibling_cases t n tl tr x :
  treeInv t (TFull n tl tr) → x ∈ shapeLeaves (Node n tl tr) →
  (∃ l, l ≠ x ∧ l ∈ shapeLeaves (Node n tl tr) ∧
     chemPSibling t (Some x) = Done (Some l) ∧ nodeSibling t (Some x) = Done None ∧
     chemPSibling t (Some l) = Done (Some x) ∧ nodeSibling t (Some l) = Done None) ∨
  (∃ m mnd lfx, chemPSibling t (Some x) = Done None ∧
     nodeSibling t (Some x) = Done (Some m) ∧
     m ∈ shapeNodes (Node n tl tr) ∧ nodes t !! m = Some mnd ∧
     leaves t !! x = Some lfx ∧ parent_ mnd = node_ lfx).
Proof.
  intros Hinv Hx. pose proof (treeInv_full_size _ _ _ _ Hinv) as Hsz.
  destruct Hinv as (_ & HnN & HnL & Hrep).
  change (treeNodes (TFull n tl tr)) with (shapeNodes (Node n tl tr)) in HnN.
  change (treeLeaves (TFull n tl tr)) with (shapeLeaves (Node n tl tr)) in HnL.
  destruct (repr_locate _ _ x _ _ _ _ Hrep HnN HnL Hx ltac:(done))
    as (lfx & z & znd & a & b & Hlfx & Hz & Hznd & Hra & Hrb & Himm & HnNz & HnLz & _).
  assert (z ∈ shapeNodes (Node n tl tr)) as Hzin.
  { destruct (repr_leaf_site _ _ _ _ _ _ _ Hrep Hx)
      as (lf' & Hlf' & [[? _]|(q & Hq & Hqin & _)]); [done|]. congruence. }
  destruct (repr_sides _ _ _ _ _ _ _ _ _ _ Hrep Hzin Hznd Hra Hrb)
    as (HNa & HNb & HLa & HLb).
  destruct (immediate_sibling _ _ _ _ _ _ _ Hznd Hra Hrb HnLz Himm) as (HrS & HS & HxS).
  rewrite (chemPSibling_eq _ _ _ _ _ Hsz Hlfx Hz Hznd).
  rewrite (nodeSibling_eq _ _ _ _ _ Hsz Hlfx Hz Hznd).
  destruct (shapeRemove x (Node z a b)) as [l|m sa sb] eqn:ES.
  - left. simpl in HrS. destruct HrS as (-> & -> & lfl & Hlfl & Hnl).
    assert (l ≠ x) as Hlx by set_solver.
    exists l. split; [done|].
    split.
    { destruct HS as [<-|<-]; set_solver. }
    split; [done|]. split; [done|].
    rewrite (chemPSibling_eq _ _ _ _ _ Hsz Hlfl Hnl Hznd).
    rewrite (nodeSibling_eq _ _ _ _ _ Hsz Hlfl Hnl Hznd).
    unfold siblingSide. simpl in Himm.
    destruct Himm as [->| ->]; simpl in Hra, Hrb.
    + destruct Hra as (HL & HEL & _).
      rewrite HEL, bool_decide_eq_false_2 by congruence. by rewrite HL.
    + destruct Hrb as (HR & HER & _).
      destruct HS as [HS|HS]; [|congruence]. subst a.
      simpl in Hra. destruct Hra as (HL & HEL & _).
      rewrite HEL, bool_decide_eq_true_2 by done. by rewrite HR, HER.
  - right. simpl in HrS. destruct HrS as (-> & -> & mnd & Hmnd & Hpm & _).
    exists m, mnd, lfx. split; [done|]. split; [done|].
    split.
    { destruct HS as [<-|<-]; set_solver. }
    split; [done|]. split; [done|]. congruence.
Qed.

(** X3. With at most one leaf, [chemPSibling(x)] and [nodeSibling(x)]
    return the null pointer for every [x]. In a well-formed tree of two
    leaves or more, exactly one of them is non-null for a leaf [x] of
    the tree: either the sibling is another leaf [l] of the tree, and
    then [x] is in turn the sibling of [l]; or the sibling is a node of
    the tree whose parent is the node of [x]. *)
Theorem sibling_of_leaf t :
  (∀ x, (size_ t ≤ 1)%Z →
     chemPSibling t x = Done None ∧ nodeSibling t x = Done None) ∧
  (∀ n tl tr x, treeInv t (TFull n tl tr) → x ∈ shapeLeaves (Node n tl tr) →
     (∃ l, l ≠ x ∧ l ∈ shapeLeaves (Node n tl tr) ∧
        chemPSibling t (Some x) = Done (Some l) ∧ nodeSibling t (Some x) = Done None ∧
        chemPSibling t (Some l) = Done (Some x) ∧ nodeSibling t (Some l) = Done None) ∨
     (∃ m mnd lfx, chemPSibling t (Some x) = Done None ∧
        nodeSibling t (Some x) = Done (Some m) ∧
        m ∈ shapeNodes (Node n tl tr) ∧ nodes t !! m = Some mnd ∧
        leaves t !! x = Some lfx ∧ parent_ mnd = node_ lfx)).
Proof.
  split.
  - intros x Hsz. unfold chemPSibling, nodeSibling.
    by rewrite (proj2 (Z.ltb_ge _ _) Hsz).
  - intros n tl tr x. apply leaf_sibling_cases.
Qed.

(** The node above a node of a represented shape. *)
Lemma repr_child N L T : ∀ p c e y ynd,
  repr N L p T c e → NoDup (shapeNodes T) → y ∈ shapeNodes T → N !! y = Some ynd →
  (c = Some y ∧ parent_ ynd = p) ∨
  (∃ g gnd a b, parent_ ynd = Some g ∧ g ∈ shapeNodes T ∧ g ≠ y ∧ N !! g = Some gnd ∧
     repr N L (Some g) a (left_ gnd) (elementLeft_ gnd) ∧
     repr N L (Some g) b (right_ gnd) (elementRight_ gnd) ∧
     NoDup (shapeNodes a ++ shapeNodes b) ∧
     (left_ gnd = Some y ∨ right_ gnd = Some y)).
Proof.
  induction T as [l|n tl IHl tr IHr]; intros p c e y ynd; simpl.
  { intros _ _ H. by apply elem_of_nil in H. }
  intros (-> & -> & nd & Hnd & Hp & Hl & Hr) Hnodup Hin Hy.
  apply NoDup_cons in Hnodup as [Hn Hnodup].
  pose proof Hnodup as (HnL & Hdisj & HnR)%NoDup_app.
  apply elem_of_cons in Hin as [->|Hin].
  { left. split; [done|]. congruence. }
  right. apply elem_of_app in Hin as [Hin|Hin].
  - destruct (IHl _ _ _ _ _ Hl HnL Hin Hy) as [[Hc Hpy]|(g & gnd & a & b & ? & ? & ? & ?)].
    + exists n, nd, tl, tr. split; [done|]. split; [set_solver|].
      split; [set_solver|]. split; [done|]. split; [done|]. split; [done|].
      split; [done|]. by left.
    + exists g, gnd, a, b. split; [done|]. split; [set_solver|]. done.
  - destruct (IHr _ _ _ _ _ Hr HnR Hin Hy) as [[Hc Hpy]|(g & gnd & a & b & ? & ? & ? & ?)].
    + exists n, nd, tl, tr. split; [done|]. split; [set_solver|].
      split; [set_solver|]. split; [done|]. split; [done|]. split; [done|].
      split; [done|]. by right.
    + exists g, gnd, a, b. split; [done|]. split; [set_solver|]. done.
Qed.

Lemma repr_child_ptr N L S p c e m :
  repr N L p S c e → c = Some m → ∃ sa sb mnd, S = Node m sa sb ∧ N !! m = Some mnd ∧
    parent_ mnd = p ∧ e = None.
Proof.
  destruct S as [l|m' sa sb]; simpl.
  - intros (-> & _). done.
  - intros (-> & -> & mnd & Hm & Hp & _) [= ->]. eauto 10.
Qed.

Lemma repr_leaf_ptr N L S p c e :
  repr N L p S c e → c = None → ∃ l lf, S = Leaf l ∧ e = Some l ∧ L !! l = Some lf ∧
    node_ lf = p.
Proof.
  destruct S as [l|m' sa sb]; simpl.
  - intros (_ & -> & lf & ? & ?) _. eauto 10.
  - intros (-> & _). done.
Qed.

Lemma node_sibling_cases t n tl tr y :
  treeInv t (TFull n tl tr) → y ∈ shapeNodes (Node n tl tr) →
  (y = n ∧ chemPSiblingN t (Some y) = Done None ∧ nodeSiblingN t (Some y) = Done None) ∨
  (y ≠ n ∧ ∃ l lf ynd, l ∈ shapeLeaves (Node n tl tr) ∧
     chemPSiblingN t (Some y) = Done (Some l) ∧ nodeSiblingN t (Some y) = Done None ∧
     leaves t !! l = Some lf ∧ nodes t !! y = Some ynd ∧ node_ lf = parent_ ynd) ∨
  (y ≠ n ∧ ∃ m, m ≠ y ∧ m ∈ shapeNodes (Node n tl tr) ∧
     chemPSiblingN t (Some y) = Done None ∧ nodeSiblingN t (Some y) = Done (Some m) ∧
     chemPSiblingN t (Some m) = Done None ∧ nodeSiblingN t (Some m) = Done (Some y)).
Proof.
  intros (_ & HnN & HnL & Hrep) Hy.
  change (treeNodes (TFull n tl tr)) with (shapeNodes (Node n tl tr)) in HnN.
  destruct (repr_nodes _ _ _ _ _ _ _ Hrep Hy) as [ynd Hynd].
  destruct (repr_child _ _ _ _ _ _ _ _ Hrep HnN Hy Hynd)
    as [[Hroot Hpy]|(g & gnd & a & b & Hpy & Hg & Hgy & Hgnd & Hra & Hrb & Hnd & Hside)].
  - left. pose proof Hrep as (Hr & _). assert (y = n) as -> by congruence.
    split; [done|]. unfold chemPSiblingN, nodeSiblingN.
    rewrite (getNode_Some _ _ _ Hynd). simpl. by rewrite Hpy.
  - right.
    assert (y ≠ n) as Hyn.
    { intros ->. simpl in Hrep. destruct Hrep as (_ & _ & nd & Hnd' & Hp & _). congruence. }
    destruct (repr_sides _ _ _ _ _ _ _ _ _ _ Hrep Hg Hgnd Hra Hrb)
      as (HNa & HNb & HLa & HLb).
    unfold chemPSiblingN, nodeSiblingN.
    rewrite (getNode_Some _ _ _ Hynd). simpl. rewrite Hpy.
    rewrite (getNode_Some _ _ _ Hgnd). simpl.
    apply NoDup_app in Hnd as (HnA & Hdisj & HnB).
    destruct Hside as [HL|HR].
    + rewrite bool_decide_eq_true_2 by done.
      destruct (repr_child_ptr _ _ _ _ _ _ _ Hra HL) as (ya & yb & ? & -> & _ & _ & HEL).
      destruct (right_ gnd) as [m|] eqn:ER.
      * right. split; [done|].
        destruct (repr_child_ptr _ _ _ _ _ _ _ Hrb eq_refl) as (ma & mb & mnd & -> & Hm & Hpm & HER).
        assert (m ≠ y) as Hmy.
        { intros ->. apply (Hdisj y); simpl; set_solver. }
        exists m. split; [done|]. split; [apply HNb; simpl; set_solver|].
        rewrite HER. split; [done|]. split; [done|].
        rewrite (getNode_Some _ _ _ Hm). simpl. rewrite Hpm. simpl.
        rewrite (getNode_Some _ _ _ Hgnd). simpl.
        rewrite bool_decide_eq_false_2 by congruence. by rewrite HEL, HL.
      * left. split; [done|].
        destruct (repr_leaf_ptr _ _ _ _ _ _ Hrb eq_refl) as (l & lf & -> & HER & Hlf & Hnl).
        exists l, lf, ynd. split; [apply HLb; simpl; set_solver|].
        rewrite HER. split; [done|]. split; [done|]. split; [done|]. split; [done|].
        congruence.
    + assert (Some y ≠ left_ gnd) as Hnl.
      { intros HL. symmetry in HL.
        destruct (repr_child_ptr _ _ _ _ _ _ _ Hra HL) as (ya & yb & ? & -> & _).
        destruct (repr_child_ptr _ _ _ _ _ _ _ Hrb HR) as (ya' & yb' & ? & -> & _).
        apply (Hdisj y); simpl; set_solver. }
      rewrite bool_decide_eq_false_2 by done.
      destruct (repr_child_ptr _ _ _ _ _ _ _ Hrb HR) as (ya & yb & ? & -> & _ & _ & HER).
      destruct (left_ gnd) as [m|] eqn:EL.
      * right. split; [done|].
        destruct (repr_child_ptr _ _ _ _ _ _ _ Hra eq_refl) as (ma & mb & mnd & -> & Hm & Hpm & HEL).
        assert (m ≠ y) as Hmy by congruence.
        exists m. split; [done|]. split; [apply HNa; simpl; set_solver|].
        rewrite HEL. split; [done|]. split; [done|].
        rewrite (getNode_Some _ _ _ Hm). simpl. rewrite Hpm. simpl.
        rewrite (getNode_Some _ _ _ Hgnd). simpl.
        rewrite EL, bool_decide_eq_true_2 by done. by rewrite HER, HR.
      * left. split; [done|].
        destruct (repr_leaf_ptr _ _ _ _ _ _ Hra eq_refl) as (l & lf & -> & HEL & Hlf & Hnl').
        exists l, lf, ynd. split; [apply HLa; simpl; set_solver|].
        rewrite HEL. split; [done|]. split; [done|]. split; [done|]. split; [done|].
        congruence.
Qed.

(** X4. For a node [y] of a well-formed tree, [chemPSibling(y)] and
    [nodeSibling(y)] both return the null pointer when [y] is the root;
    otherwise exactly one of them is non-null: either the other side of
    the parent of [y] is a leaf of the tree, which [chemPSibling]
    returns, or it is another node [m] of the tree, which [nodeSibling]
    returns, and then [y] is in turn the node sibling of [m]. *)
Theorem sibling_of_node t n tl tr y :
  treeInv t (TFull n tl tr) → y ∈ shapeNodes (Node n tl tr) →
  (y = n ∧ chemPSiblingN t (Some y) = Done None ∧ nodeSiblingN t (Some y) = Done None) ∨
  (y ≠ n ∧ ∃ l lf ynd, l ∈ shapeLeaves (Node n tl tr) ∧
     chemPSiblingN t (Some y) = Done (Some l) ∧ nodeSiblingN t (Some y) = Done None ∧
     leaves t !! l = Some lf ∧ nodes t !! y = Some ynd ∧ node_ lf = parent_ ynd) ∨
  (y ≠ n ∧ ∃ m, m ≠ y ∧ m ∈ shapeNodes (Node n tl tr) ∧
     chemPSiblingN t (Some y) = Done None ∧ nodeSiblingN t (Some y) = Done (Some m) ∧
     chemPSiblingN t (Some m) = Done None ∧ nodeSiblingN t (Some m) = Done (Some y)).
Proof. apply node_sibling_cases. Qed.

(** ** Traversal *)

Lemma treeMinLoop_total t T : ∀ p n e fuel,
  repr (nodes t) (leaves t) p T (Some n) e → shapeHeight T ≤ S fuel →
  treeMinLoop fuel t (Some n) = Done (head (shapeLeaves T)).
Proof.
  induction T as [l|k tl IHl tr IHr]; intros p n e fuel; simpl.
  { intros (? & _). done. }
  intros ([= <-] & -> & nd & Hnd & Hp & Hl & Hr) Hfuel.
  rewrite (treeMinLoop_eq _ _ _ _ Hnd).
  destruct tl as [l|m a b].
  - simpl in Hl. destruct Hl as (-> & -> & _). done.
  - pose proof Hl as (Hc & _). rewrite Hc in Hl |- *.
    destruct fuel as [|fuel]; [simpl in Hfuel; lia|].
    rewrite (IHl _ _ _ fuel Hl) by (simpl in *; lia).
    by rewrite head_shapeLeaves_app.
Qed.

Lemma treeMin_side_total t T p c e fuel :
  repr (nodes t) (leaves t) p T c e → shapeHeight T ≤ S fuel →
  match c with
  | None => Done e
  | Some _ => treeMin fuel t c
  end = Done (head (shapeLeaves T)).
Proof.
  intros Hrep Hfuel. destruct T as [l|m a b].
  - simpl in Hrep. destruct Hrep as (-> & -> & _). done.
  - pose proof Hrep as (Hc & _). rewrite Hc in Hrep |- *.
    unfold treeMin. by eapply treeMinLoop_total.
Qed.

Lemma repr_height_le N L T : ∀ p c e z znd a b,
  repr N L p T c e → z ∈ shapeNodes T → N !! z = Some znd →
  repr N L (Some z) a (left_ znd) (elementLeft_ znd) →
  repr N L (Some z) b (right_ znd) (elementRight_ znd) →
  shapeHeight (Node z a b) ≤ shapeHeight T.
Proof.
  induction T as [l|k tl IHl tr IHr]; intros p c e z znd a b; simpl.
  { intros _ H. by apply elem_of_nil in H. }
  intros (-> & -> & nd & Hnd & Hp & Hl & Hr) Hin Hz Ha Hb.
  apply elem_of_cons in Hin as [->|Hin].
  { assert (nd = znd) as -> by congruence.
    by rewrite (repr_unique _ _ _ _ _ _ _ _ Ha Hl), (repr_unique _ _ _ _ _ _ _ _ Hb Hr). }
  apply elem_of_app in Hin as [Hin|Hin].
  - pose proof (IHl _ _ _ _ _ _ _ Hl Hin Hz Ha Hb). simpl in *. lia.
  - pose proof (IHr _ _ _ _ _ _ _ Hr Hin Hz Ha Hb). simpl in *. lia.
Qed.

Lemma successorClimb_total t T : ∀ p n e y fuel,
  repr (nodes t) (leaves t) p T (Some n) e →
  NoDup (shapeNodes T) → y ∈ shapeNodes T → 2 * shapeHeight T ≤ fuel →
  (∃ r, successorClimb fuel t (Some y) = Done r) ∨
  (∃ k, k < shapeHeight T ∧
     successorClimb fuel t (Some y) = successorClimb (fuel - k) t (Some n)).
Proof.
  induction T as [l|k0 tl IHl tr IHr]; intros p n e y fuel Hrep HndN Hin Hfuel.
  { simpl in Hin. by apply elem_of_nil in Hin. }
  simpl in Hrep. destruct Hrep as ([= <-] & -> & nd & Hnd & Hp & Hl & Hr).
  simpl in HndN, Hin, Hfuel.
  apply NoDup_cons in HndN as [Hk HndN].
  apply NoDup_app in HndN as (HndNl & HndNlr & HndNr).
  apply elem_of_cons in Hin as [->|Hin].
  { right. exists 0. split; [simpl; lia|]. by rewrite Nat.sub_0_r. }
  apply elem_of_app in Hin as [Hin|Hin].
  - destruct tl as [l|m a b]; [by apply elem_of_nil in Hin|].
    pose proof Hl as (Hc & _ & mnd & Hmnd & Hpm & _). rewrite Hc in Hl.
    assert (∀ j, j ≤ shapeHeight (Node m a b) →
              ∃ r, successorClimb (fuel - j) t (Some m) = Done r) as Hstep.
    { intros j Hj. rewrite (successorClimb_eq _ _ _ _ Hmnd), Hpm.
      destruct (fuel - j) as [|f] eqn:Ef; [simpl in *; lia|].
      rewrite (getNode_Some _ _ _ Hnd). simpl.
      rewrite bool_decide_eq_true_2 by done.
      eexists. eapply (treeMin_side_total t tr); [exact Hr|]. simpl in *. lia. }
    assert (2 * shapeHeight (Node m a b) ≤ fuel) as Hf2 by (simpl in Hfuel |- *; lia).
    destruct (IHl _ _ _ y fuel Hl HndNl Hin Hf2) as [?|(j & Hj & Heq)];
      [by left|].
    left. rewrite Heq. apply Hstep. lia.
  - destruct tr as [l|m a b]; [by apply elem_of_nil in Hin|].
    pose proof Hr as (Hc & _ & mnd & Hmnd & Hpm & _). rewrite Hc in Hr.
    assert (Some m ≠ left_ nd) as Hnl.
    { intros E. destruct tl as [l'|m' a' b']; simpl in Hl; destruct Hl as (Hc' & _);
        rewrite Hc' in E; [done|]. injection E as <-.
      apply (HndNlr m); simpl; set_solver. }
    assert (2 * shapeHeight (Node m a b) ≤ fuel) as Hf2 by (simpl in Hfuel |- *; lia).
    destruct (IHr _ _ _ y fuel Hr HndNr Hin Hf2) as [?|(j & Hj & Heq)];
      [by left|].
    right. exists (S j). split; [simpl in *; lia|].
    rewrite Heq, (successorClimb_eq _ _ _ _ Hmnd), Hpm.
    destruct (fuel - j) as [|f] eqn:Ef; [simpl in *; lia|].
    rewrite (getNode_Some _ _ _ Hnd). simpl.
    rewrite bool_decide_eq_false_2 by done.
    f_equal. lia.
Qed.

Lemma treeSuccessor_total t n tl tr x fuel :
  treeInv t (TFull n tl tr) → x ∈ shapeLeaves (Node n tl tr) →
  2 * shapeHeight (Node n tl tr) ≤ fuel →
  treeSuccessor fuel t (Some x) = Done (nextIn (shapeLeaves (Node n tl tr)) x).
Proof.
  intros Hinv Hx Hfuel.
  assert (∃ r, treeSuccessor fuel t (Some x) = Done r) as (r & Hr).
  { pose proof (treeInv_full_size _ _ _ _ Hinv) as Hsz.
    destruct Hinv as (_ & HnN & HnL & Hrep).
    change (treeNodes (TFull n tl tr)) with (shapeNodes (Node n tl tr)) in HnN.
    change (treeLeaves (TFull n tl tr)) with (shapeLeaves (Node n tl tr)) in HnL.
    destruct (repr_locate _ _ x _ _ _ _ Hrep HnN HnL Hx ltac:(done))
      as (lfx & z & znd & a & b & Hlfx & Hz & Hznd & Hra & Hrb & Himm & HnNz & HnLz & _).
    assert (z ∈ shapeNodes (Node n tl tr)) as Hzin.
    { destruct (repr_leaf_site _ _ _ _ _ _ _ Hrep Hx)
        as (lf' & Hlf' & [[? _]|(q & Hq & Hqin & _)]); [done|]. congruence. }
    unfold treeSuccessor. rewrite (proj2 (Z.ltb_lt _ _) Hsz).
    rewrite (getLeaf_Some _ _ _ Hlfx). simpl.
    rewrite Hz, (getNode_Some _ _ _ Hznd). simpl.
    case_bool_decide as Hleft.
    - eexists. eapply (treeMin_side_total t b); [exact Hrb|].
      assert (shapeHeight b ≤ shapeHeight (Node n tl tr)); [|lia].
      assert (shapeHeight (Node z a b) ≤ shapeHeight (Node n tl tr)) as Hle.
      { eapply repr_height_le; [exact Hrep|exact Hzin|exact Hznd|exact Hra|exact Hrb]. }
      simpl in Hle |- *. lia.
    - pose proof Hrep as (Hroot & _ & nd & Hnd & Hp & _). rewrite Hroot in Hrep.
      destruct (successorClimb_total t _ _ _ _ z fuel Hrep HnN Hzin Hfuel)
        as [?|(k & Hk & Heq)]; [done|].
      exists None. rewrite Heq, (successorClimb_eq _ _ _ _ Hnd), Hp. done. }
  rewrite Hr. f_equal. by eapply (treeSuccessor_tree t (TFull n tl tr)).
Qed.

(** X5. On a well-formed tree [treeMin(root_)] returns, with fuel for the
    levels of the tree, the leftmost leaf: the first leaf in left-to-right
    order, and the null pointer when the tree has no leaf. *)
Theorem treeMin_leftmost fuel t a :
  treeInv t a → treeDepth a ≤ fuel →
  treeMin fuel t (root_ t) = Done (head (treeLeaves a)).
Proof.
  intros Hinv Hfuel. pose proof Hinv as (Hsz & HndN & HndL & Hshape).
  destruct a as [|r0 l|n tl tr].
  - by rewrite Hshape.
  - destruct Hshape as (Hroot & nd & Hnd & HP & HL & HR & HER & Hrep).
    simpl in Hrep. destruct Hrep as (_ & HEL & _).
    rewrite Hroot. unfold treeMin. by rewrite (treeMinLoop_eq _ _ _ _ Hnd), HL, HEL.
  - pose proof Hshape as (Hroot & _). rewrite Hroot in Hshape |- *.
    unfold treeMin. eapply treeMinLoop_total; [exact Hshape|].
    simpl in Hfuel |- *. lia.
Qed.

(** X6. On a well-formed tree, with fuel for twice the levels of the
    tree, [treeSuccessor(x)] returns the leaf that follows the leaf [x]
    in left-to-right order, and the null pointer when [x] is the last
    leaf (in particular when it is the only one). *)
Theorem treeSuccessor_inorder fuel t a x pre post :
  treeInv t a → treeLeaves a = pre ++ x :: post → 2 * treeDepth a ≤ fuel →
  treeSuccessor fuel t (Some x) = Done (head post).
Proof.
  intros Hinv Hsplit Hfuel. pose proof Hinv as (Hsz & HndN & HndL & Hshape).
  assert (x ∉ pre) as Hpre.
  { rewrite Hsplit in HndL. apply NoDup_app in HndL as (_ & Hd & _).
    intros Hin. apply (Hd x Hin). set_solver. }
  destruct a as [|r0 l|n tl tr].
  - by destruct pre.
  - simpl in Hsz, Hsplit. unfold treeSuccessor. rewrite Hsz. simpl.
    destruct pre as [|? pre]; simpl in Hsplit.
    + by injection Hsplit as _ <-.
    + injection Hsplit as _ Hnil. by destruct pre.
  - change (treeLeaves (TFull n tl tr)) with (shapeLeaves (Node n tl tr)) in Hsplit.
    rewrite (treeSuccessor_total t n tl tr x fuel Hinv); [|rewrite Hsplit; set_solver|done].
    by rewrite Hsplit, nextIn_middle.
Qed.

(** ** [deleteAllNode] *)

Lemma deleteAllNode_total T : ∀ t p c e fuel,
  match T with
  | Leaf _ => c = None
  | Node _ _ _ => repr (nodes t) (leaves t) p T c e
  end →
  NoDup (shapeNodes T) → shapeHeight T ≤ fuel →
  ∃ t', deleteAllNode fuel t c = Done t'.
Proof.
  induction T as [l|n tl IHl tr IHr]; intros t p c e fuel Hrep HndN Hfuel.
  { subst c. exists t. by destruct fuel. }
  simpl in Hrep. destruct Hrep as (-> & -> & nd & Hnd & Hp & Hl & Hr).
  destruct fuel as [|fuel]; [simpl in Hfuel; lia|].
  rewrite (deleteAllNode_eq _ _ _ _ Hnd).
  simpl in HndN, Hfuel. apply NoDup_cons in HndN as [Hn HndN].
  apply NoDup_app in HndN as (HndNl & HndNlr & HndNr).
  assert (Hsl : match tl with
                | Leaf _ => left_ nd = None
                | Node _ _ _ => repr (nodes t) (leaves t) (Some n) tl (left_ nd)
                                  (elementLeft_ nd)
                end).
  { destruct tl; [simpl in Hl; tauto|done]. }
  destruct (IHl t (Some n) (left_ nd) (elementLeft_ nd) fuel Hsl HndNl ltac:(lia))
    as (t1 & H1).
  destruct (deleteAllNode_shape tl t (Some n) (left_ nd) (elementLeft_ nd) fuel t1
              Hsl HndNl H1) as (HN1 & HL1 & Hs1).
  assert (Hsr : match tr with
                | Leaf _ => right_ nd = None
                | Node _ _ _ => repr (nodes t1) (leaves t1) (Some n) tr (right_ nd)
                                  (elementRight_ nd)
                end).
  { destruct tr as [r|m a b]; [simpl in Hr; tauto|].
    rewrite HL1. eapply repr_frame; [| |exact Hr]; [|done].
    intros k Hk. rewrite HN1. rewrite decide_False; [done|].
    intros ?. by eapply HndNlr. }
  destruct (IHr t1 (Some n) (right_ nd) (elementRight_ nd) fuel Hsr HndNr ltac:(lia))
    as (t2 & H2).
  destruct (deleteAllNode_shape tr t1 (Some n) (right_ nd) (elementRight_ nd) fuel t2
              Hsr HndNr H2) as (HN2 & HL2 & Hs2).
  rewrite H1. simpl. rewrite H2. simpl.
  assert (nodes t2 !! n = Some nd) as Hn2.
  { rewrite HN2, decide_False by set_solver. rewrite HN1, decide_False by set_solver. done. }
  rewrite (deleteNodeData_eq _ _ _ Hn2). eauto.
Qed.

(** X7. On a well-formed tree [deleteAllNode(root_)] returns, with fuel
    for the levels of the tree, and frees every node of the tree and no
    other node. It frees no leaf and writes none, and it resets neither
    [root_] nor [size_]: the caller is left with a root pointer to a
    freed node and with leaves whose node back-pointers are stale. *)
Theorem deleteAllNode_frees_nodes fuel t a :
  treeInv t a → treeDepth a ≤ fuel →
  ∃ t', deleteAllNode fuel t (root_ t) = Done t' ∧
    (∀ n, n ∈ treeNodes a → nodes t' !! n = None) ∧
    (∀ n, n ∉ treeNodes a → nodes t' !! n = nodes t !! n) ∧
    leaves t' = leaves t ∧ root_ t' = root_ t ∧ size_ t' = size_ t.
Proof.
  intros Hinv Hfuel.
  assert (∃ t', deleteAllNode fuel t (root_ t) = Done t') as (t' & Hrun).
  { pose proof Hinv as (_ & HndN & _ & Hshape). destruct a as [|r l|n tl tr].
    - rewrite Hshape. exists t. by destruct fuel.
    - destruct Hshape as (Hroot & nd & Hnd & _ & HL & HR & _).
      rewrite Hroot. simpl in Hfuel. destruct fuel as [|fuel]; [lia|].
      rewrite (deleteAllNode_eq _ _ _ _ Hnd), HL, HR.
      assert (∀ t0, deleteAllNode fuel t0 None = Done t0) as Hnone by (by destruct fuel).
      rewrite Hnone. simpl. rewrite Hnone. simpl.
      rewrite (deleteNodeData_eq _ _ _ Hnd). eauto.
    - pose proof Hshape as (Hroot & _). rewrite Hroot in Hshape |- *.
      by eapply (deleteAllNode_total (Node n tl tr)). }
  exists t'. split; [done|].
  destruct (deleteAllNode_tree _ _ _ _ Hinv Hrun) as (HN & HL & Hsc).
  split; [intros n Hn; by rewrite HN, decide_True|].
  split; [intros n Hn; by rewrite HN, decide_False|].
  split; [done|]. split; [by apply scalars_root|by apply scalars_size].
Qed.

(** ** Insertion followed by deletion *)

Lemma shapeSplice_not_leaf l n c T x : x ∉ shapeLeaves T → shapeSplice l n c T ≠ Leaf x.
Proof.
  destruct T as [l'|m tl tr]; simpl; [|done].
  destruct (decide (l' = l)); [done|]. intros Hx [= ->]. set_solver.
Qed.

Lemma shapeRemove_splice l n c T :
  c ∉ shapeLeaves T → l ≠ c → shapeRemove c (shapeSplice l n c T) = T.
Proof.
  intros Hc Hlc. induction T as [l'|m tl IHl tr IHr]; simpl.
  - destruct (decide (l' = l)) as [->|Hne]; [|done]. simpl.
    rewrite decide_False by congruence. by rewrite decide_True.
  - simpl in Hc.
    rewrite decide_False by (apply shapeSplice_not_leaf; set_solver).
    rewrite decide_False by (apply shapeSplice_not_leaf; set_solver).
    rewrite IHl, IHr by set_solver. done.
Qed.

Lemma treeInsert_leaves n c l a :
  match a with
  | TFull n0 tl tr => l ∈ shapeLeaves (Node n0 tl tr)
  | _ => True
  end →
  NoDup (treeLeaves a) → treeLeaves (treeInsert n c l a) ≡ₚ c :: treeLeaves a.
Proof.
  intros Hl Hnd. destruct a as [|r l0|n0 tl tr]; simpl.
  - done.
  - apply Permutation_swap.
  - change (shapeLeaves (shapeSplice l n c tl) ++ shapeLeaves (shapeSplice l n c tr))
      with (shapeLeaves (shapeSplice l n c (Node n0 tl tr))).
    by apply shapeSplice_leaves.
Qed.

(** A leaf of the tree that is in the store before an insertion is not
    the leaf the insertion allocates. *)
Lemma treeInv_not_fresh t a l : treeInv t a → l ∈ treeLeaves a → l ≠ newLeafAddr t.
Proof.
  intros Hinv Hl ->. destruct (treeInv_leaf _ _ _ Hinv Hl) as [lf Hlf].
  pose proof (newLeafAddr_fresh t). congruence.
Qed.

Lemma insert_delete_inv fuel t a phiq Rphiq A sf eps nCols phi0 :
  treeInv t a → insertPre fuel t a phiq phi0 →
  ∃ t' p t'' a'',
    insertNewLeaf fuel t phiq Rphiq A sf eps nCols phi0 = Done (t', p) ∧
    deleteLeaf t' (Some (newLeafAddr t)) = Done t'' ∧
    size_ t'' = size_ t ∧ treeInv t'' a'' ∧ treeLeaves a'' = treeLeaves a ∧
    (∀ n tl tr, a = TFull n tl tr → a'' = a) ∧
    leaves t'' !! newLeafAddr t = None ∧
    payloadKept t t''.
Proof.
  intros Hinv Hpre.
  destruct (insertNewLeaf_inv fuel t a phiq Rphiq A sf eps nCols phi0 Hinv Hpre)
    as (t' & p & n & l & Hrun & Hsz & Hnew & Hpay & Hinv' & Hcase).
  set (c := newLeafAddr t) in *.
  pose proof Hinv as (_ & _ & HndL & _).
  assert (c ∉ treeLeaves a) as Hc.
  { intros Hin. by apply (treeInv_not_fresh _ _ _ Hinv Hin). }
  assert (match a with
          | TFull n0 tl tr => l ∈ shapeLeaves (Node n0 tl tr)
          | _ => True
          end) as Hl.
  { destruct a; [done|done|]. tauto. }
  assert (c ∈ treeLeaves (treeInsert n c l a)) as Hcin.
  { rewrite treeInsert_leaves by done. set_solver. }
  destruct (deleteLeaf_inv _ _ _ Hinv' Hcin)
    as (t'' & Hdel & Hsz' & Hinv'' & Hgone & _ & Hpay' & _).
  exists t', p, t'', (treeRemove (newNodeAddr t') c (treeInsert n c l a)).
  split; [done|]. split; [done|]. split; [lia|]. split; [done|].
  assert (∀ n0 tl tr, a = TFull n0 tl tr →
            treeRemove (newNodeAddr t') c (treeInsert n c l a) = a) as Hfull.
  { intros n0 tl tr ->. cbn [treeRemove treeInsert].
    change (Node n0 (shapeSplice l n c tl) (shapeSplice l n c tr))
      with (shapeSplice l n c (Node n0 tl tr)).
    rewrite shapeRemove_splice; [done|exact Hc|]. intros ->. by apply Hc. }
  split.
  { destruct a as [|r l0|n0 tl tr].
    - done.
    - simpl. rewrite decide_False by (intros [= ->]; set_solver).
      by rewrite decide_True.
    - by rewrite (Hfull n0 tl tr). }
  split; [done|]. split; [done|].
  intros k lf Hk. destruct (Hpay _ _ Hk) as (lf' & Hk' & Hp').
  assert (k ≠ c) as Hkc.
  { intros ->. pose proof (newLeafAddr_fresh t). unfold c in Hk. congruence. }
  destruct (Hpay' _ _ Hkc Hk') as (lf'' & Hk'' & Hp''). exists lf''.
  split; [done|congruence].
Qed.

(** X8. Inserting a leaf into a well-formed tree and then deleting the
    new leaf gives back a well-formed tree with the same leaves in the
    same left-to-right order and the same [size_]; with two leaves or
    more before the insertion the nodes and their arrangement are the
    same too. The new leaf is freed and the other leaves keep their
    payload. *)
Theorem insert_then_delete fuel t a phiq Rphiq A sf eps nCols phi0 :
  treeInv t a → insertPre fuel t a phiq phi0 →
  ∃ t' p t'' a'',
    insertNewLeaf fuel t phiq Rphiq A sf eps nCols phi0 = Done (t', p) ∧
    deleteLeaf t' (Some (newLeafAddr t)) = Done t'' ∧
    size_ t'' = size_ t ∧ treeInv t'' a'' ∧ treeLeaves a'' = treeLeaves a ∧
    (∀ n tl tr, a = TFull n tl tr → a'' = a) ∧
    leaves t'' !! newLeafAddr t = None ∧
    payloadKept t t''.
Proof. apply insert_delete_inv. Qed.

(** ** Searching after a deletion *)

Lemma binaryTreeSearch_tree t a fuel phiq r :
  treeInv t a → binaryTreeSearch fuel t phiq (root_ t) = Done r →
  match r with
  | Some l => l ∈ treeLeaves a
  | None => a = TEmpty
  end.
Proof.
  intros Hinv Hs. pose proof Hinv as (Hsz & _ & _ & Hshape).
  destruct a as [|r0 l|n tl tr].
  - simpl in Hsz.
    assert (binaryTreeSearch fuel t phiq (root_ t) = Done None) as H
      by (destruct fuel; simpl; by rewrite Hsz).
    rewrite H in Hs. by injection Hs as <-.
  - destruct Hshape as (Hroot & nd & Hnd & _ & _ & _ & _ & Hrep).
    simpl in Hsz, Hrep. destruct Hrep as (_ & HEL & _).
    assert (binaryTreeSearch fuel t phiq (root_ t) =
            (rt ← getNode t (root_ t) ; Done (elementLeft_ rt))) as H
      by (destruct fuel; simpl; by rewrite Hsz).
    rewrite H, Hroot, (getNode_Some _ _ _ Hnd) in Hs. simpl in Hs.
    injection Hs as <-. rewrite HEL. simpl. set_solver.
  - pose proof (treeInv_full_size _ _ _ _ Hinv) as Hsz1.
    pose proof Hshape as (Hroot & _). rewrite Hroot in Hshape, Hs.
    destruct (binaryTreeSearch_in _ _ _ _ _ _ _ _ Hsz1 Hshape Hs) as (l & -> & Hl).
    done.
Qed.

Lemma treeRemove_leaves r x a :
  NoDup (treeLeaves a) → x ∈ treeLeaves a →
  treeLeaves a ≡ₚ x :: treeLeaves (treeRemove r x a).
Proof.
  intros Hnd Hx. destruct a as [|r0 l|n tl tr].
  - by apply elem_of_nil in Hx.
  - simpl in Hx |- *. by apply list_elem_of_singleton in Hx as ->.
  - change (treeLeaves (TFull n tl tr)) with (shapeLeaves (Node n tl tr)) in *.
    assert (treeLeaves (treeRemove r x (TFull n tl tr)) =
            shapeLeaves (shapeRemove x (Node n tl tr))) as ->.
    { cbn [treeRemove]. by destruct (shapeRemove x (Node n tl tr)). }
    by apply shapeRemove_leaves.
Qed.

(** X9. After [deleteLeaf(x)] on a well-formed tree that holds [x], the
    primary search from the root never returns the freed leaf [x]: for
    every query it returns a leaf that was in the tree before and is
    still in the store, and the null pointer only when [x] was the only
    leaf. *)
Theorem deleteLeaf_then_search t a x :
  treeInv t a → x ∈ treeLeaves a →
  ∃ t', deleteLeaf t (Some x) = Done t' ∧
    ∀ fuel phiq r, binaryTreeSearch fuel t' phiq (root_ t') = Done r →
      r ≠ Some x ∧
      (∀ l, r = Some l → l ∈ treeLeaves a ∧ is_Some (leaves t' !! l)) ∧
      (r = None → treeLeaves a = [x]).
Proof.
  intros Hinv Hx. pose proof Hinv as (_ & _ & HndL & _).
  destruct (deleteLeaf_inv _ _ _ Hinv Hx) as (t' & Hdel & _ & Hinv' & _).
  exists t'. split; [done|]. intros fuel phiq r Hs.
  pose proof (binaryTreeSearch_tree _ _ _ _ _ Hinv' Hs) as Hr.
  pose proof (treeRemove_leaves (newNodeAddr t) x a HndL Hx) as Hperm.
  assert (x ∉ treeLeaves (treeRemove (newNodeAddr t) x a)) as Hnx.
  { rewrite Hperm in HndL. by apply NoDup_cons in HndL as [? _]. }
  destruct r as [l|].
  - split; [intros [= ->]; done|]. split; [|done].
    intros ? [= <-]. split; [rewrite Hperm; set_solver|].
    by eapply treeInv_leaf.
  - split; [done|]. split; [done|]. intros _.
    rewrite Hr in Hperm. simpl in Hperm. by apply Permutation_singleton_r in Hperm.
Qed.

(** ** Deletion on an empty tree *)

(** X10. [deleteLeaf] does not guard against a tree without leaf: with
    [size_ = 0] it frees nothing and still decrements [size_], to -1.
    In that state [isFull] is false for a positive capacity, the primary
    search returns the null pointer, and [insertNewLeaf] without
    reference leaf does not take its empty-tree branch: it dereferences
    the null result of the search. *)
Theorem deleteLeaf_on_empty t x :
  size_ t = 0%Z →
  deleteLeaf t x = Done (setSize (-1)%Z t) ∧
  ((0 < maxElements_ t)%Z → isFull (setSize (-1)%Z t) = false) ∧
  (∀ fuel phiq node, binaryTreeSearch fuel (setSize (-1)%Z t) phiq node = Done None) ∧
  (∀ fuel phiq Rphiq A sf eps nCols,
     insertNewLeaf fuel (setSize (-1)%Z t) phiq Rphiq A sf eps nCols None = Fault).
Proof.
  intros Hsz. split; [|split; [|split]].
  - unfold deleteLeaf. rewrite Hsz. simpl. by rewrite Hsz.
  - intros Hmax. unfold isFull. simpl. apply Z.leb_gt. lia.
  - intros fuel phiq node. by destruct fuel.
  - intros fuel phiq Rphiq A sf eps nCols. unfold insertNewLeaf.
    cbn [size_ setSize root_].
    assert (binaryTreeSearch fuel (setSize (-1)%Z t) phiq (root_ t) = Done None) as H
      by (by destruct fuel).
    change (root_ (setSize (-1)%Z t)) with (root_ t).
    simpl. rewrite H. done.
Qed.

(** ** The bounds of the hyperplane normal *)

Lemma vDotPhi_short phiq : ∀ (v : list scalar) acc,
  length v < length phiq → vDotPhi acc phiq v = Fault.
Proof.
  induction phiq as [|p phiq IH]; intros v acc Hlen; simpl in *; [lia|].
  destruct v as [|x v]; [done|]. apply IH. simpl in Hlen. lia.
Qed.

Lemma vDotPhi_app phiq : ∀ (v w : list scalar) acc,
  length phiq ≤ length v → vDotPhi acc phiq (v ++ w) = vDotPhi acc phiq v.
Proof.
  induction phiq as [|p phiq IH]; intros v w acc Hlen; simpl in *; [done|].
  destruct v as [|x v]; simpl in *; [lia|]. apply IH. lia.
Qed.

(** X11. The primary search reads [v[i]] for every [i] below the length
    of the query. In a tree of two leaves or more, a node whose normal
    [v] is shorter than the query is read out of bounds as soon as the
    search visits it; the entries of [v] beyond the length of the query
    are never read, and a normal at least as long as the query gives a
    dot product. *)
Theorem binaryTreeSearch_normal_bounds t phiq n nd :
  (1 < size_ t)%Z → nodes t !! n = Some nd →
  (length (v_ nd) < length phiq →
     ∀ fuel, binaryTreeSearch (S fuel) t phiq (Some n) = Fault) ∧
  (∀ v w acc, length phiq ≤ length v →
     vDotPhi acc phiq (v ++ w) = vDotPhi acc phiq v) ∧
  (length phiq ≤ length (v_ nd) → ∃ vPhi, vDotPhi sZero phiq (v_ nd) = Done vPhi).
Proof.
  intros Hsz Hnd. split; [|split].
  - intros Hlen fuel. rewrite binaryTreeSearch_S by done.
    rewrite (getNode_Some _ _ _ Hnd). simpl. by rewrite vDotPhi_short.
  - intros v w acc. apply vDotPhi_app.
  - intros Hlen. by apply vDotPhi_total.
Qed.

(** ** Capacity *)

Lemma updNode_maxElements t p f t' :
  updNode t p f = Done t' → maxElements_ t' = maxElements_ t.
Proof.
  unfold updNode. intros (nd & _ & H)%bind_Done.
  destruct p; [|done]. by injection H as <-.
Qed.

Lemma updLeaf_maxElements t p f t' :
  updLeaf t p f = Done t' → maxElements_ t' = maxElements_ t.
Proof.
  unfold updLeaf. intros (lf & _ & H)%bind_Done.
  destruct p; [|done]. by injection H as <-.
Qed.

Lemma deleteNodeData_maxElements t p t' :
  deleteNodeData t p = Done t' → maxElements_ t' = maxElements_ t.
Proof.
  unfold deleteNodeData. destruct p as [n|]; [|by intros [= <-]].
  destruct (nodes t !! n); [|done]. by intros [= <-].
Qed.

Lemma insertNode_maxElements t phi0 newNode t' :
  insertNode t phi0 newNode = Done t' → maxElements_ t' = maxElements_ t.
Proof.
  unfold insertNode. intros (lf & _ & (pnd & _ & H)%bind_Done)%bind_Done.
  destruct (bool_decide _); by apply updNode_maxElements in H.
Qed.

Lemma insertNewLeaf_maxElements fuel t phiq Rphiq A sf eps nCols phi0 t' p :
  insertNewLeaf fuel t phiq Rphiq A sf eps nCols phi0 = Done (t', p) →
  maxElements_ t' = maxElements_ t.
Proof.
  unfold insertNewLeaf. intros ([t1 p1] & H & [= <- _])%bind_Done.
  cbn [maxElements_ setSize].
  destruct (size_ t =? 0)%Z.
  - apply bind_Done in H as (t3 & H3 & [= <- _]).
    by apply updNode_maxElements in H3.
  - apply bind_Done in H as (phi0' & _ & H).
    apply bind_Done in H as (lf0 & _ & H).
    apply bind_Done in H as ([t2 newNode] & H2 & H).
    apply bind_Done in H as (t3 & H3 & H).
    apply bind_Done in H as (t4 & H4 & [= <- _]).
    apply updLeaf_maxElements in H3, H4.
    rewrite H4, H3. clear H3 H4.
    destruct (1 <? _)%Z.
    + apply bind_Done in H2 as (nd & _ & H2).
      apply bind_Done in H2 as (t3' & H3' & [= <- _]).
      by apply insertNode_maxElements in H3'.
    + apply bind_Done in H2 as (t2' & H2' & H2).
      apply bind_Done in H2 as (nd & _ & [= <- _]).
      by apply deleteNodeData_maxElements in H2'.
Qed.

(** X12. [insertNewLeaf] never consults [isFull] and never changes
    [maxElements_]: on a well-formed tree that is full, the insertion
    still returns and adds the leaf, so that afterwards [size_] exceeds
    [maxElements_] and the tree is still full. Keeping the tree within
    its capacity is left to the caller. *)
Theorem insertNewLeaf_ignores_capacity fuel t a phiq Rphiq A sf eps nCols phi0 :
  treeInv t a → insertPre fuel t a phiq phi0 → isFull t = true →
  ∃ t' p, insertNewLeaf fuel t phiq Rphiq A sf eps nCols phi0 = Done (t', p) ∧
    maxElements_ t' = maxElements_ t ∧ size_ t' = (size_ t + 1)%Z ∧
    (maxElements_ t' < size_ t')%Z ∧ isFull t' = true.
Proof.
  intros Hinv Hpre Hfull.
  destruct (insertNewLeaf_inv fuel t a phiq Rphiq A sf eps nCols phi0 Hinv Hpre)
    as (t' & p & n & l & Hrun & Hsz & _).
  pose proof (insertNewLeaf_maxElements _ _ _ _ _ _ _ _ _ _ _ Hrun) as Hmax.
  exists t', p. split; [done|]. split; [done|]. split; [done|].
  unfold isFull in *. apply Z.leb_le in Hfull.
  split; [lia|]. apply Z.leb_le. lia.
Qed.

(** ** The tree [balance] builds *)

Lemma rebuilt_cases t (U : positive → Prop) :
  rebuilt t U ↔ rebuiltFull t U ∨ rebuiltTwice t U.
Proof. done. Qed.

(** The two cases of [rebuilt] exclude each other. *)
Lemma rebuiltTwice_not_Full t (U U' : positive → Prop) :
  rebuiltTwice t U → ¬ rebuiltFull t U'.
Proof.
  intros (r & rnd & x0 & S & Hroot & Hrnd & HL & HEL & Hrep & Hx0 & Hr & _)
         (n & tl & tr & Hrep' & _ & HnL & _).
  simpl in Hrep'. destruct Hrep' as (Hroot' & _ & nd & Hnd & _ & Hl & Hr').
  assert (n = r) as -> by congruence. assert (nd = rnd) as -> by congruence.
  rewrite (repr_unique _ _ _ _ _ _ _ _ Hrep Hr') in Hx0.
  destruct (repr_leaf_ptr _ _ _ _ _ _ Hl HL) as (l & lf & -> & HEL' & _).
  assert (l = x0) as -> by congruence.
  simpl in HnL. apply NoDup_cons in HnL as [Hn _]. done.
Qed.

Lemma reinsert_step_cases t (U : positive → Prop) fuel c clf t' :
  (1 < size_ t)%Z → rebuilt t U → leaves t !! c = Some clf → ¬ U c →
  reinsertLeaf fuel t c clf = Done t' →
  (rebuiltFull t U → rebuiltFull t' (λ l, l = c ∨ U l)) ∧
  (rebuiltTwice t U → rebuiltTwice t' (λ l, l = c ∨ U l)) ∧
  payloadKept t t' ∧ scalars t' = scalars t.
Proof.
  intros Hsz Hinv Hc HUc Hrun.
  destruct (reinsert_step t U fuel c clf t' Hsz Hinv Hc HUc Hrun) as (Hinv' & Hpay & Hsc).
  split; [|split; [|done]].
  - intros Hfull. destruct Hinv' as [?|Htw]; [done|]. exfalso.
    (* the root of [t'] is that of [t], and its left side is kept *)
    unfold reinsertLeaf in Hrun.
    apply bind_Done in Hrun as (phi0 & Hs & Hrest).
    destruct (rebuilt_search _ _ _ _ _ Hsz Hinv Hs)
      as (l & lfl & q & qnd & -> & HUl & Hl & Hq & Hqnd).
    assert (c ≠ l) as Hcl by (by intros ->).
    rewrite (getLeaf_Some _ _ _ Hl) in Hrest. simpl in Hrest.
    pose proof (spliceCode_eq t l c q lfl clf qnd Hl Hq Hqnd Hc Hcl) as Heq.
    simpl in Heq. rewrite Heq in Hrest. injection Hrest as <-.
    destruct Hfull as (n & tl & tr & Hrep & HnN & HnL & HU).
    eapply (rebuiltTwice_not_Full _ _ (λ k, k = c ∨ U k)); [exact Htw|].
    exists n, (shapeSplice l (newNodeAddr t) c tl), (shapeSplice l (newNodeAddr t) c tr).
    assert (l ∈ shapeLeaves (Node n tl tr)) as Hlin by (by apply HU).
    assert (c ∉ shapeLeaves (Node n tl tr)) as Hcin by (by rewrite HU).
    pose proof (newNodeAddr_fresh t) as Hfresh.
    change (Node n (shapeSplice l (newNodeAddr t) c tl) (shapeSplice l (newNodeAddr t) c tr))
      with (shapeSplice l (newNodeAddr t) c (Node n tl tr)).
    split.
    { rewrite spliceStore_root. by eapply spliceStore_repr. }
    split.
    { rewrite shapeSplice_nodes by done. apply NoDup_cons. split; [|done].
      intros Hin. destruct (repr_nodes _ _ _ _ _ _ _ Hrep Hin) as [? Hx]. congruence. }
    split.
    { rewrite shapeSplice_leaves by done. by apply NoDup_cons. }
    intros k. rewrite shapeSplice_leaves by done. rewrite <- HU. set_solver.
  - intros Htw. destruct Hinv' as [Hfull'|?]; [|done]. exfalso.
    unfold reinsertLeaf in Hrun.
    apply bind_Done in Hrun as (phi0 & Hs & Hrest).
    destruct (rebuilt_search _ _ _ _ _ Hsz Hinv Hs)
      as (l & lfl & q & qnd & -> & HUl & Hl & Hq & Hqnd).
    assert (c ≠ l) as Hcl by (by intros ->).
    rewrite (getLeaf_Some _ _ _ Hl) in Hrest. simpl in Hrest.
    pose proof (spliceCode_eq t l c q lfl clf qnd Hl Hq Hqnd Hc Hcl) as Heq.
    simpl in Heq. rewrite Heq in Hrest. injection Hrest as <-.
    (* the left slot of the root still holds [x0], which is still on the right *)
    destruct Htw as (r0 & rnd & x0 & S & Hroot & Hrnd & HL & HEL & Hrep & Hx0 & Hr0 & HnN & HnL & HU).
    destruct Hfull' as (n & tl & tr & Hrep' & _ & HnL' & _).
    rewrite spliceStore_root, Hroot in Hrep'.
    simpl in Hrep'. destruct Hrep' as ([= <-] & _ & nd' & Hnd' & _ & Hl' & Hr').
    pose proof (newNodeAddr_fresh t) as Hfresh.
    assert (newNodeAddr t ≠ r0) as Hne by congruence.
    assert (l ∈ shapeLeaves S) as Hlin by (by apply HU).
    assert (c ∉ shapeLeaves S) as Hcin by (by rewrite HU).
    rewrite (spliceStore_eq _ _ _ _ _ _ _ Hl Hc Hq Hqnd) in Hnd', Hl', Hr'.
    cbn [nodes leaves setLeaves setNodes] in Hnd', Hl', Hr'.
    destruct (decide (S = Leaf l)) as [->|HS].
    + assert (x0 = l) as -> by set_solver.
      simpl in Hrep. destruct Hrep as (HR & HER & lf' & Hlf' & Hnode).
      assert (q = r0) as -> by congruence.
      assert (qnd = rnd) as -> by congruence.
      rewrite lookup_insert_eq in Hnd'. injection Hnd' as <-.
      unfold spliceSide in Hl', Hr'.
      rewrite bool_decide_eq_true_2 in Hl', Hr' by (by rewrite HER).
      cbn in Hl', Hr'.
      destruct (repr_leaf_ptr _ _ _ _ _ _ Hl' HL) as (l' & _ & -> & HEL' & _).
      assert (l' = l) as -> by congruence.
      destruct (repr_child_ptr _ _ _ _ _ _ _ Hr' eq_refl) as (sa & sb & mnd & -> & Hm & _).
      rewrite lookup_insert_ne, lookup_insert_eq in Hm by done.
      injection Hm as <-.
      simpl in Hr'. destruct Hr' as (_ & _ & nd2 & Hnd2 & _ & Hla & _).
      rewrite lookup_insert_ne, lookup_insert_eq in Hnd2 by done.
      injection Hnd2 as <-. cbn in Hla.
      destruct (repr_leaf_ptr _ _ _ _ _ _ Hla eq_refl) as (l2 & _ & -> & [= <-] & _).
      simpl in HnL'. apply NoDup_cons in HnL' as [Hn _]. set_solver.
    + destruct (repr_leaf_site _ _ _ _ _ _ _ Hrep Hlin)
        as (lf' & Hlf' & [[? _]|(q' & Hq' & Hq'in & _)]); [done|].
      assert (q' = q) as -> by congruence.
      assert (q ≠ r0) as Hqr by (by intros ->).
      rewrite !lookup_insert_ne in Hnd' by done.
      assert (nd' = rnd) as -> by congruence.
      destruct (repr_leaf_ptr _ _ _ _ _ _ Hl' HL) as (l' & _ & -> & HEL' & _).
      assert (l' = x0) as -> by congruence.
      pose proof (spliceStore_repr t l c clf S (Some r0) _ _ Hrep HnN HnL Hlin HS Hc Hcin)
        as Hrep2.
      rewrite (spliceStore_eq _ _ _ _ _ _ _ Hl Hc Hq Hqnd) in Hrep2.
      cbn [nodes leaves setLeaves setNodes] in Hrep2.
      rewrite <- (repr_unique _ _ _ _ _ _ _ _ Hrep2 Hr') in HnL'.
      simpl in HnL'. apply NoDup_cons in HnL' as [Hn _].
      apply Hn. rewrite shapeSplice_leaves by done. set_solver.
Qed.

Lemma rebuiltFull_ext t (U U' : positive → Prop) :
  (∀ l, U l ↔ U' l) → rebuiltFull t U → rebuiltFull t U'.
Proof.
  intros HU (n & tl & tr & ? & ? & ? & H).
  exists n, tl, tr. repeat (split; [done|]). intros l. by rewrite H.
Qed.

Lemma rebuiltTwice_ext t (U U' : positive → Prop) :
  (∀ l, U l ↔ U' l) → rebuiltTwice t U → rebuiltTwice t U'.
Proof.
  intros HU (r & rnd & x0 & S & ? & ? & ? & ? & ? & ? & ? & ? & ? & H).
  exists r, rnd, x0, S. repeat (split; [done|]). intros l. by rewrite H.
Qed.

Lemma reinsertOne_cases fuel xs minId maxId chPIndex lmin cpi idx t t1 :
  NoDup xs → NoDup chPIndex → zlookup xs minId = Done lmin →
  chPIndex !! cpi = Some idx →
  rebuilt t (reinserted xs chPIndex minId maxId cpi) →
  size_ t = Z.of_nat (length xs) →
  reinsertOne fuel t (Some <$> xs) minId maxId idx = Done t1 →
  (rebuiltFull t (reinserted xs chPIndex minId maxId cpi) →
   rebuiltFull t1 (reinserted xs chPIndex minId maxId (S cpi))) ∧
  (rebuiltTwice t (reinserted xs chPIndex minId maxId cpi) →
   rebuiltTwice t1 (reinserted xs chPIndex minId maxId (S cpi))) ∧
  payloadKept t t1 ∧ scalars t1 = scalars t.
Proof.
  intros Hxs Hidx Hmin Hcpi Hinv Hsz H1.
  unfold reinsertOne in H1.
  destruct (negb (idx =? minId)%Z && negb (idx =? maxId)%Z) eqn:Hcond.
  - apply andb_true_iff in Hcond as [Hn1 Hn2].
    apply negb_true_iff, Z.eqb_neq in Hn1, Hn2.
    apply bind_Done in H1 as (c & Hc & H1).
    apply zlookup_fmap_Some in Hc as (lc & -> & Hlc).
    apply bind_Done in H1 as (clf & Hclf & H1).
    apply getLeaf_Done in Hclf as (? & [= <-] & Hclf).
    assert (¬ reinserted xs chPIndex minId maxId cpi lc) as Hnot.
    { intros [H|[H|(j & idx' & Hj & Hj' & _ & _ & H)]].
      - by pose proof (zlookup_NoDup _ _ _ _ Hxs Hlc H).
      - by pose proof (zlookup_NoDup _ _ _ _ Hxs Hlc H).
      - pose proof (zlookup_NoDup _ _ _ _ Hxs Hlc H) as <-.
        pose proof (NoDup_lookup _ _ _ _ Hidx Hcpi Hj'). lia. }
    assert (1 < size_ t)%Z as Hsz1.
    { rewrite Hsz. by eapply (zlookup_two xs idx minId). }
    destruct (reinsert_step_cases _ _ _ _ _ _ Hsz1 Hinv Hclf Hnot H1)
      as (Hfull & Htwice & Hp & Hs).
    assert (Hext : ∀ l, l = lc ∨ reinserted xs chPIndex minId maxId cpi l ↔
                       reinserted xs chPIndex minId maxId (S cpi) l).
    { intros l. unfold reinserted. split.
      + intros [->|[H|[H|(j & idx' & Hj & Hj' & ?)]]]; [|tauto|tauto|].
        * right. right. exists cpi, idx. split; [lia|done].
        * right. right. exists j, idx'. split; [lia|done].
      + intros [H|[H|(j & idx' & Hj & Hj' & Hm & HM & H)]]; [tauto|tauto|].
        destruct (decide (j = cpi)) as [->|Hne].
        * left. assert (idx' = idx) as -> by congruence. congruence.
        * right. right. right. exists j, idx'. split; [lia|done]. }
    split; [|split; [|done]].
    + intros H. eapply rebuiltFull_ext; [exact Hext|]. by apply Hfull.
    + intros H. eapply rebuiltTwice_ext; [exact Hext|]. by apply Htwice.
  - injection H1 as <-.
    assert (Hext : ∀ l, reinserted xs chPIndex minId maxId cpi l ↔
                       reinserted xs chPIndex minId maxId (S cpi) l).
    { intros l. unfold reinserted. split.
      + intros [H|[H|(j & idx' & Hj & ?)]]; [tauto|tauto|].
        right. right. exists j, idx'. split; [lia|done].
      + intros [H|[H|(j & idx' & Hj & Hj' & Hm & HM & H)]]; [tauto|tauto|].
        right. right. exists j, idx'. split; [|done].
        destruct (decide (j = cpi)) as [->|Hne]; [|lia].
        assert (idx' = idx) as -> by congruence. exfalso.
        apply andb_false_iff in Hcond as [Hc|Hc];
          apply negb_false_iff, Z.eqb_eq in Hc; congruence. }
    split; [|split; [|split; [apply payloadKept_refl|done]]].
    + by apply rebuiltFull_ext.
    + by apply rebuiltTwice_ext.
Qed.

Lemma reinsertAll_cases fuel xs minId maxId chPIndex lmin :
  NoDup xs → NoDup chPIndex → zlookup xs minId = Done lmin →
  ∀ todo cpi t t',
    rebuilt t (reinserted xs chPIndex minId maxId cpi) →
    size_ t = Z.of_nat (length xs) →
    reinsertAll fuel t (Some <$> xs) minId maxId chPIndex cpi todo = Done t' →
    (rebuiltFull t (reinserted xs chPIndex minId maxId cpi) →
     rebuiltFull t' (reinserted xs chPIndex minId maxId (cpi + todo))) ∧
    (rebuiltTwice t (reinserted xs chPIndex minId maxId cpi) →
     rebuiltTwice t' (reinserted xs chPIndex minId maxId (cpi + todo))).
Proof.
  intros Hxs Hidx Hmin. induction todo as [|todo IH]; intros cpi t t' Hinv Hsz; simpl.
  { intros [= <-]. by rewrite Nat.add_0_r. }
  intros (idx & Hi & (t1 & H1 & Hrec)%bind_Done)%bind_Done.
  assert (chPIndex !! cpi = Some idx) as Hcpi.
  { destruct (chPIndex !! cpi); [|done]. by injection Hi as ->. }
  destruct (reinsertOne_cases _ _ _ _ _ _ _ _ _ _ Hxs Hidx Hmin Hcpi Hinv Hsz H1)
    as (Hfull & Htwice & _ & Hsc).
  assert (rebuilt t1 (reinserted xs chPIndex minId maxId (S cpi))) as Hinv1.
  { destruct Hinv as [H|H]; [left; by apply Hfull|right; by apply Htwice]. }
  destruct (IH (S cpi) t1 t' Hinv1) as (Hfull' & Htwice'); [|done|].
  { by rewrite (scalars_size _ _ Hsc). }
  rewrite Nat.add_succ_r. split; intros H; [apply Hfull'|apply Htwice']; auto.
Qed.

Lemma balance_cases fuel rand t a t' cps maxDir minId maxId :
  treeInv t a → balance fuel rand t = Done (t', true) →
  balanceSelect fuel t = Done (cps, maxDir, minId, maxId) →
  size_ t' = size_ t ∧
  (minId ≠ maxId → rebuiltFull t' (λ l, l ∈ treeLeaves a)) ∧
  (minId = maxId → rebuiltTwice t' (λ l, l ∈ treeLeaves a)).
Proof.
  intros Hinv Hrun Hsel. unfold balance in Hrun.
  destruct (minBalanceThreshold_ t <? size_ t)%Z; [|done].
  rewrite Hsel in Hrun. cbn [mbind outcome_bind] in Hrun.
  pose proof (balanceSelect_chemPoints _ _ _ _ _ _ _ Hinv Hsel) as ->.
  set (xs := treeLeaves a) in *.
  apply bind_Done in Hrun as (minRef & Hmin & H).
  apply zlookup_fmap_Some in Hmin as (lmin & -> & Hmin).
  apply bind_Done in H as (maxRef & Hmax & H).
  apply zlookup_fmap_Some in Hmax as (lmax & -> & Hmax).
  apply bind_Done in H as (t0 & Hdel & H).
  destruct (deleteAllNode_tree _ _ _ _ Hinv Hdel) as (HN0 & HL0 & Hsc0).
  assert (lmin ∈ xs) as Hminin.
  { apply zlookup_Done in Hmin as [_ ?]. by eapply list_elem_of_lookup_2. }
  assert (lmax ∈ xs) as Hmaxin.
  { apply zlookup_Done in Hmax as [_ ?]. by eapply list_elem_of_lookup_2. }
  destruct (treeInv_leaf _ _ _ Hinv Hminin) as [lfmin Hlfmin].
  destruct (treeInv_leaf _ _ _ Hinv Hmaxin) as [lfmax Hlfmax].
  rewrite (bnFrom_eq _ lmin lmax None lfmin lfmax) in H
    by (simpl; by rewrite HL0).
  cbn [mbind outcome_bind] in H.
  remember (newNodeAddr (setRoot None t0)) as n eqn:Hn.
  erewrite updLeaf_eq in H by (simpl; rewrite HL0; exact Hlfmin).
  cbn [mbind outcome_bind] in H.
  assert (∃ lfmax', <[lmin:=withNode (Some n) lfmin]> (leaves t) !! lmax = Some lfmax')
    as (lfmax' & Hlfmax').
  { destruct (decide (lmin = lmax)) as [->|Hne].
    - rewrite lookup_insert_eq. eauto.
    - rewrite lookup_insert_ne by done. eauto. }
  erewrite updLeaf_eq in H by (simpl; rewrite HL0; exact Hlfmax').
  cbn [mbind outcome_bind] in H.
  apply bind_Done in H as (chPIndex & Hshuf & H).
  apply bind_Done in H as (t5 & Hre & H). injection H as <-.
  remember (setLeaves _ _) as t4 eqn:Ht4 in Hshuf, Hre.
  assert (size_ t4 = size_ t) as Hsz4.
  { rewrite Ht4. simpl. by apply scalars_size. }
  assert (root_ t4 = Some n) as Hroot4 by (by rewrite Ht4).
  assert (leaves t4 = <[lmax:=withNode (Some n) lfmax']>
                        (<[lmin:=withNode (Some n) lfmin]> (leaves t))) as HL4.
  { rewrite Ht4. simpl. by rewrite HL0. }
  assert (nodes t4 !! n = Some (mkBn (Some lmin) (Some lmax) None None None
                                  (calcV lfmin lfmax) (calcA lfmin lfmax))) as HN4.
  { rewrite Ht4. simpl. by rewrite lookup_insert_eq. }
  clear Ht4.
  pose proof Hinv as (Hsz & HndN & HndL & Hshape).
  fold xs in Hsz, HndL.
  apply shuffle_Permutation in Hshuf.
  rewrite Hsz4, Hsz, Nat2Z.id in Hshuf.
  assert (NoDup chPIndex) as Hidx.
  { rewrite Hshuf. apply NoDup_fmap_2; [apply _|apply NoDup_seq]. }
  assert (Hfull4 : lmin ≠ lmax → rebuiltFull t4 (reinserted xs chPIndex minId maxId 0)).
  { intros Hne. exists n, (Leaf lmin), (Leaf lmax). rewrite HL4, Hroot4.
    split.
    { simpl. split; [done|]. split; [done|]. eexists. split; [exact HN4|].
      simpl. split; [done|]. split.
      - split; [done|]. split; [done|]. eexists.
        split; [rewrite lookup_insert_ne by done; apply lookup_insert_eq|done].
      - split; [done|]. split; [done|]. eexists.
        split; [apply lookup_insert_eq|done]. }
    split; [apply NoDup_singleton|].
    split.
    { simpl. apply NoDup_cons. split; [set_solver|apply NoDup_singleton]. }
    intros l. unfold reinserted. simpl. split.
    + intros [->|[->|?]%elem_of_cons]%elem_of_cons; [tauto|tauto|set_solver].
    + intros [H|[H|(j & ? & ? & _)]]; [| |lia].
      * assert (l = lmin) as -> by congruence. set_solver.
      * assert (l = lmax) as -> by congruence. set_solver. }
  assert (Htwice4 : lmin = lmax → rebuiltTwice t4 (reinserted xs chPIndex minId maxId 0)).
  { intros Heq. subst lmax.
    eexists n, _, lmin, (Leaf lmin). rewrite HL4.
    split; [done|]. split; [exact HN4|]. simpl.
    split; [done|]. split; [done|].
    split.
    { split; [done|]. split; [done|]. eexists.
      split; [apply lookup_insert_eq|done]. }
    split; [set_solver|]. split; [set_solver|].
    split; [apply NoDup_nil_2|]. split; [apply NoDup_singleton|].
    intros l. unfold reinserted. rewrite list_elem_of_singleton. split.
    + intros ->. by left.
    + intros [H|[H|(j & ? & ? & _)]]; [congruence|congruence|lia]. }
  assert (rebuilt t4 (reinserted xs chPIndex minId maxId 0)) as Hinv4.
  { destruct (decide (lmin = lmax)); [right; by apply Htwice4|left; by apply Hfull4]. }
  rewrite length_fmap in Hre.
  destruct (reinsertAll_rebuilt _ _ _ _ _ _ HndL Hidx Hmin _ _ _ _ Hinv4
              ltac:(congruence)
              ltac:(intros l Hl; rewrite HL4;
                    destruct (treeInv_leaf t a l Hinv Hl) as [lf Hlf];
                    destruct (decide (l = lmax)) as [->|?];
                      [rewrite lookup_insert_eq; eauto|];
                    rewrite lookup_insert_ne by done;
                    destruct (decide (l = lmin)) as [->|?];
                      [rewrite lookup_insert_eq; eauto|];
                    rewrite lookup_insert_ne by done; eauto)
              Hre) as (Hinv5 & Hpay5 & Hsc5).
  destruct (reinsertAll_cases _ _ _ _ _ _ HndL Hidx Hmin _ _ _ _ Hinv4
              ltac:(congruence) Hre) as (Hfull5 & Htwice5).
  simpl in Hfull5, Htwice5.
  assert (Hall : ∀ l, reinserted xs chPIndex minId maxId (length xs) l ↔ l ∈ xs).
  { intros l. by eapply reinserted_all. }
  split; [rewrite (scalars_size _ _ Hsc5); done|].
  split.
  - intros Hne. eapply rebuiltFull_ext; [exact Hall|]. apply Hfull5, Hfull4.
    intros ->. apply Hne. by eapply zlookup_NoDup.
  - intros Heq. assert (lmin = lmax) as Hll by congruence.
    eapply rebuiltTwice_ext; [exact Hall|]. by apply Htwice5, Htwice4.
Qed.

(** X13. When [balance] returns [true] on a well-formed tree and the two
    extreme leaves it selected are at different positions, the tree it
    leaves is well formed again: a tree of two leaves or more, with
    [size_] leaves, whose leaves are the leaves of the tree before. *)
Theorem balance_wellformed fuel rand t a t' cps maxDir minId maxId :
  treeInv t a → balance fuel rand t = Done (t', true) →
  balanceSelect fuel t = Done (cps, maxDir, minId, maxId) → minId ≠ maxId →
  ∃ n tl tr, treeInv t' (TFull n tl tr) ∧ shapeLeaves (Node n tl tr) ≡ₚ treeLeaves a.
Proof.
  intros Hinv Hrun Hsel Hne.
  destruct (balance_cases _ _ _ _ _ _ _ _ _ Hinv Hrun Hsel) as (Hsz & Hfull & _).
  destruct (Hfull Hne) as (n & tl & tr & Hrep & HnN & HnL & HU).
  pose proof Hinv as (Hsz0 & _ & HndL & _).
  assert (shapeLeaves (Node n tl tr) ≡ₚ treeLeaves a) as Hperm.
  { by apply NoDup_Permutation. }
  exists n, tl, tr. split; [|done].
  split; [|done].
  change (treeLeaves (TFull n tl tr)) with (shapeLeaves (Node n tl tr)).
  by rewrite Hsz, Hsz0, Hperm.
Qed.

(** X14. When [balance] returns [true] on a well-formed tree and the
    minimum and the maximum it selected are the same leaf (all leaves
    have the same positive value in the split direction), the new root
    is built from that leaf twice: afterwards its left slot still holds
    the leaf, which is held a second time on the right side of the
    root, and the tree is not well formed for any shape. *)
Theorem balance_same_extremes fuel rand t a t' cps maxDir minId maxId :
  treeInv t a → balance fuel rand t = Done (t', true) →
  balanceSelect fuel t = Done (cps, maxDir, minId, maxId) → minId = maxId →
  (∃ r rnd x0, root_ t' = Some r ∧ nodes t' !! r = Some rnd ∧
     left_ rnd = None ∧ elementLeft_ rnd = Some x0 ∧ x0 ∈ treeLeaves a ∧
     (elementRight_ rnd = Some x0 ∨
      ∃ lf q, leaves t' !! x0 = Some lf ∧ node_ lf = Some q ∧ q ≠ r ∧ holds t' q x0)) ∧
  (∀ a', ¬ treeInv t' a').
Proof.
  intros Hinv Hrun Hsel Heq.
  destruct (balance_cases _ _ _ _ _ _ _ _ _ Hinv Hrun Hsel) as (Hsz & _ & Htwice).
  specialize (Htwice Heq). split.
  - destruct Htwice as (r & rnd & x0 & S & Hroot & Hrnd & HL & HEL & Hrep & Hx0 & Hr & _ & _ & HU).
    exists r, rnd, x0. repeat (split; [done|]). split; [by apply HU|].
    destruct (repr_leaf_site _ _ _ _ _ _ _ Hrep Hx0)
      as (lf & Hlf & [[-> _]|(q & Hq & Hqin & Hslot)]).
    + left. simpl in Hrep. tauto.
    + right. exists lf, q. split; [done|]. split; [done|].
      split; [by intros ->|by apply leafSlot_holds].
  - intros a' Hinv'. destruct a' as [|r' l'|n tl tr].
    + destruct Hinv' as (_ & _ & _ & Hroot').
      destruct Htwice as (r & ? & ? & ? & Hroot & _). congruence.
    + destruct Hinv' as (_ & _ & _ & Hroot' & nd & Hnd & _ & _ & HR & HER & _).
      destruct Htwice as (r & rnd & x0 & S & Hroot & Hrnd & _ & _ & Hrep & _).
      assert (r' = r) as -> by congruence. assert (nd = rnd) as -> by congruence.
      rewrite HR, HER in Hrep. destruct S; simpl in Hrep; destruct Hrep as (? & ? & _); done.
    + eapply (rebuiltTwice_not_Full t' _ (λ l, l ∈ shapeLeaves (Node n tl tr)));
        [exact Htwice|].
      destruct Hinv' as (_ & HnN & HnL & Hrep).
      exists n, tl, tr. done.
Qed.

(** ** The reference argument inside [secondaryBTSearch] *)

Lemma repr_subtreeOf N L S T : ∀ p c e,
  repr N L p T c e → subtreeOf S T → ∃ p' c' e', repr N L p' S c' e'.
Proof.
  induction T as [l|n tl IHl tr IHr]; intros p c e Hrep Hsub.
  - destruct Hsub as [<-|[]]. eauto.
  - destruct Hsub as [<-|[Hsub|Hsub]]; [eauto| |];
      simpl in Hrep; destruct Hrep as (_ & _ & nd & _ & _ & Hl & Hr); eauto.
Qed.

Lemma sbind_Done {A B : Type} (s : search2) (a : A)
    (k : search2 → A → search2 * outcome B) :
  sbind (s, Done a) k = k s a.
Proof. done. Qed.

Lemma subtreeOf_NoDup S T :
  subtreeOf S T → NoDup (shapeLeaves T) → NoDup (shapeLeaves S).
Proof.
  induction T as [l|n tl IHl tr IHr]; intros Hsub Hnd.
  - by destruct Hsub as [<-|[]].
  - destruct Hsub as [<-|[Hsub|Hsub]]; [done| |];
      simpl in Hnd; apply NoDup_app in Hnd as (? & _ & ?); auto.
Qed.

Lemma secondaryClimb_tested t phiq fuel y s :
  ∃ new, tested (secondaryClimb fuel t phiq y s).1 = tested s ++ new.
Proof.
  destruct (secondaryClimb_post t phiq fuel y s) as (new & H & _). eauto.
Qed.

(** X15. [secondaryBTSearch] reads [x->node()] after the call of
    [inSubTree] that may have reassigned [x]. In a well-formed tree where
    the sibling of the leaf [x] is a node whose two sides are the leaves
    [a] and [b], neither of which covers the query, a call with a budget
    of three tests or more tests [a] and [b] and then starts its loop
    from their node, not from the node of [x]: the third leaf it tests,
    and counts, is [x] itself. *)
Theorem secondaryBTSearch_tests_start_leaf fuel t phiq n tl tr z x m a b mnd lfa lfb :
  treeInv t (TFull n tl tr) →
  subtreeOf (Node z (Leaf x) (Node m (Leaf a) (Leaf b))) (Node n tl tr) ∨
    subtreeOf (Node z (Node m (Leaf a) (Leaf b)) (Leaf x)) (Node n tl tr) →
  nodes t !! m = Some mnd → leaves t !! a = Some lfa → leaves t !! b = Some lfb →
  inEOA lfa phiq = false → inEOA lfb phiq = false →
  (3 ≤ max2ndSearch_ t)%Z → length phiq ≤ length (v_ mnd) → 0 < fuel →
  ∃ first second rest,
    ((first = a ∧ second = b) ∨ (first = b ∧ second = a)) ∧
    (secondaryBTSearch fuel t phiq (Some x)).1.2 = first :: second :: x :: rest.
Proof.
  intros Hinv Hsub Hm Ha Hb Hfa Hfb Hmax Hdim Hfuel.
  pose proof (treeInv_full_size _ _ _ _ Hinv) as Hsz.
  destruct Hinv as (_ & _ & HnL & Hrep).
  (* the store around [x] *)
  assert (∃ znd lfx, nodes t !! z = Some znd ∧ leaves t !! x = Some lfx ∧
            node_ lfx = Some z ∧ parent_ mnd = Some z ∧
            node_ lfa = Some m ∧ node_ lfb = Some m ∧
            left_ mnd = None ∧ right_ mnd = None ∧
            elementLeft_ mnd = Some a ∧ elementRight_ mnd = Some b ∧ x ≠ a ∧ x ≠ b ∧
            ((elementLeft_ znd = Some x ∧ left_ znd = None ∧
              right_ znd = Some m ∧ elementRight_ znd = None) ∨
             (elementRight_ znd = Some x ∧ right_ znd = None ∧
              left_ znd = Some m ∧ elementLeft_ znd = None)))
    as (znd & lfx & Hz & Hx & Hnx & Hpm & Hna & Hnb & HL & HR & HEL & HER & Hxa & Hxb & Hside).
  { destruct Hsub as [Hsub|Hsub];
      destruct (repr_subtreeOf _ _ _ _ _ _ _ Hrep Hsub) as (p' & c' & e' & Hs);
      pose proof (subtreeOf_NoDup _ _ Hsub HnL) as Hnd;
      simpl in Hs; destruct Hs as (_ & _ & znd & Hz & _ & Hl & Hr).
    - destruct Hl as (? & ? & lfx & Hx & Hnx).
      destruct Hr as (? & ? & mnd' & Hm' & Hpm & (? & ? & lfa' & Ha' & Hna)
                      & (? & ? & lfb' & Hb' & Hnb)).
      assert (mnd' = mnd) as -> by congruence.
      assert (lfa' = lfa) as -> by congruence. assert (lfb' = lfb) as -> by congruence.
      exists znd, lfx. repeat (split; [done|]).
      simpl in Hnd. apply NoDup_cons in Hnd as [Hn _].
      split; [set_solver|]. split; [set_solver|]. by left.
    - destruct Hr as (? & ? & lfx & Hx & Hnx).
      destruct Hl as (? & ? & mnd' & Hm' & Hpm & (? & ? & lfa' & Ha' & Hna)
                      & (? & ? & lfb' & Hb' & Hnb)).
      assert (mnd' = mnd) as -> by congruence.
      assert (lfa' = lfa) as -> by congruence. assert (lfb' = lfb) as -> by congruence.
      exists znd, lfx. repeat (split; [done|]).
      simpl in Hnd. apply NoDup_cons in Hnd as [Hn1 Hnd].
      apply NoDup_cons in Hnd as [Hn2 _].
      split; [set_solver|]. split; [set_solver|]. by right. }
  assert (∃ vPhi, vDotPhi sZero phiq (v_ mnd) = Done vPhi) as (vPhi & HvPhi)
    by (by apply vDotPhi_total).
  (* the sibling of [x] is the node [m] *)
  assert (chemPSibling t (Some x) = Done None) as HcS.
  { rewrite (chemPSibling_eq _ _ _ _ _ Hsz Hx Hnx Hz). unfold siblingSide.
    destruct Hside as [(H1 & H2 & H3 & H4)|(H1 & H2 & H3 & H4)].
    - by rewrite H1, bool_decide_eq_true_2, H4.
    - by rewrite H4, bool_decide_eq_false_2. }
  assert (nodeSibling t (Some x) = Done (Some m)) as HnS.
  { rewrite (nodeSibling_eq _ _ _ _ _ Hsz Hx Hnx Hz). unfold siblingSide.
    destruct Hside as [(H1 & H2 & H3 & H4)|(H1 & H2 & H3 & H4)].
    - by rewrite H1, bool_decide_eq_true_2, H3.
    - by rewrite H4, bool_decide_eq_false_2, H3. }
  assert (chemPSiblingN t (Some m) = Done (Some x)) as HcN.
  { unfold chemPSiblingN. rewrite (getNode_Some _ _ _ Hm). simpl. rewrite Hpm.
    rewrite (getNode_Some _ _ _ Hz). simpl.
    destruct Hside as [(H1 & H2 & H3 & H4)|(H1 & H2 & H3 & H4)].
    - by rewrite H2, bool_decide_eq_false_2, H1.
    - by rewrite H3, bool_decide_eq_true_2, H1. }
  (* the two leaves of [m] are tested and fail; [x] is left on the second *)
  set (s0 := mkS2 0%Z (Some x) []).
  assert (∃ first second lfs,
            ((first = a ∧ second = b) ∨ (first = b ∧ second = a)) ∧
            leaves t !! second = Some lfs ∧ node_ lfs = Some m ∧
            inSubTree fuel t phiq (Some m) s0 =
              (mkS2 2%Z (Some second) [first; second], Done false))
    as (first & second & lfs & Hfs & Hlfs & Hnfs & Hsub1).
  { destruct fuel as [|fuel]; [lia|].
    assert ((0 <? max2ndSearch_ t)%Z = true) as Hg0 by (apply Z.ltb_lt; lia).
    assert ((1 <? max2ndSearch_ t)%Z = true) as Hg1 by (apply Z.ltb_lt; lia).
    destruct (sle vPhi (a_ mnd)) eqn:Hsle.
    - exists a, b, lfb. split; [by left|]. split; [done|]. split; [done|].
      unfold s0. cbn [inSubTree]. cbn [cnt]. rewrite Hg0, bool_decide_eq_true_2 by done.
      cbn [andb]. rewrite (getNode_Some _ _ _ Hm). rewrite sbind_Done.
      rewrite HvPhi. rewrite sbind_Done. rewrite Hsle, HL, HEL.
      unfold eoaTestSet at 1. rewrite Ha, Hfa. rewrite sbind_Done.
      cbn [cnt tested app]. change (0 + 1)%Z with 1%Z.
      rewrite Hg1, HR, bool_decide_eq_true_2 by done. cbn [andb].
      unfold eoaTestSet. rewrite HER, Hb, Hfb. cbn [cnt tested xref app]. done.
    - exists b, a, lfa. split; [by right|]. split; [done|]. split; [done|].
      unfold s0. cbn [inSubTree]. cbn [cnt]. rewrite Hg0, bool_decide_eq_true_2 by done.
      cbn [andb]. rewrite (getNode_Some _ _ _ Hm). rewrite sbind_Done.
      rewrite HvPhi. rewrite sbind_Done. rewrite Hsle, HR, HER.
      unfold eoaTestSet at 1. rewrite Hb, Hfb. rewrite sbind_Done.
      cbn [cnt tested app]. change (0 + 1)%Z with 1%Z.
      rewrite Hg1, HL, bool_decide_eq_true_2 by done. cbn [andb].
      unfold eoaTestSet. rewrite HEL, Ha, Hfa. cbn [cnt tested xref app]. done. }
  exists first, second.
  unfold secondaryBTSearch, secondaryBTSearchFrom. cbn [xref tested cnt].
  rewrite (proj2 (Z.ltb_lt 0 (max2ndSearch_ t))) by lia.
  rewrite (proj2 (Z.ltb_lt _ _) Hsz). cbn [andb].
  rewrite HcS, sbind_Done. cbn beta iota. cbn [xref].
  rewrite HnS, sbind_Done. fold s0. rewrite Hsub1, sbind_Done.
  cbn beta iota. cbn [xref].
  rewrite (getLeaf_Some _ _ _ Hlfs), sbind_Done, Hnfs.
  (* the loop starts at [m], whose sibling is [x] itself *)
  destruct fuel as [|fuel]; [lia|].
  cbn [secondaryClimb]. rewrite (getNode_Some _ _ _ Hm), sbind_Done.
  rewrite Hpm, bool_decide_eq_true_2 by done. cbn [cnt andb].
  rewrite (proj2 (Z.ltb_lt 2 (max2ndSearch_ t))) by lia.
  rewrite HcN, sbind_Done. unfold eoaTestKeep. rewrite Hx.
  destruct (inEOA lfx phiq).
  - exists []. split; [done|]. by rewrite sbind_Done.
  - rewrite sbind_Done. cbn [cnt xref tested].
    destruct (secondaryClimb_tested t phiq fuel (Some z)
                (mkS2 (2 + 1) (Some second) ([first; second] ++ [x]))) as (new & Hnew).
    exists new. split; [done|].
    destruct (secondaryClimb fuel t phiq (Some z) _) as [s' r']. simpl in Hnew |- *.
    by rewrite Hnew.
Qed.

End Further.

(** * The further properties on the example trees *)

Section FurtherExamples.
#[local] Existing Instance QOps.
#[local] Existing Instance QLeaf.

Lemma depth_tree_witness :
  depth 5 exTree4 (root_ exTree4) = Done (Z.of_nat (treeDepth exShape4)) ∧
  (size_ exTree4 = 0%Z → treeDepth exShape4 = 0) ∧
  (size_ exTree4 = 1%Z → treeDepth exShape4 = 1) ∧
  ((1 < size_ exTree4)%Z →
     (Z.of_nat (treeDepth exShape4) + 1 ≤ size_ exTree4)%Z ∧
     (size_ exTree4 ≤ 2 ^ Z.of_nat (treeDepth exShape4))%Z).
Proof.
  apply (depth_tree 5 exTree4 exShape4).
  - apply treeInvb_sound. vm_compute. reflexivity.
  - simpl. lia.
Defined.

Lemma insertNewLeaf_depth_witness :
  ∃ t' p d d',
    insertNewLeaf 8 exTree3 exPhi4 exPhi4 exIdentity [qz 1; qz 1] (qz 1) 2 None =
      Done (t', p) ∧
    (∀ f, d ≤ f → depth f exTree3 (root_ exTree3) = Done (Z.of_nat d)) ∧
    (∀ f, d' ≤ f → depth f t' (root_ t') = Done (Z.of_nat d')) ∧
    d ≤ d' ≤ d + 1.
Proof.
  apply (insertNewLeaf_depth 8 exTree3 exShape3 exPhi4 exPhi4 exIdentity
           [qz 1; qz 1] (qz 1) 2 None).
  - apply treeInvb_sound. vm_compute. reflexivity.
  - left. split; [reflexivity|]. split.
    + apply dimsOkb_sound. vm_compute. reflexivity.
    + simpl. lia.
Defined.

Lemma sibling_of_leaf_witness :
  (∃ l, l ≠ 1%positive ∧ l ∈ treeLeaves exShape4 ∧
     chemPSibling exTree4 (Some 1%positive) = Done (Some l) ∧
     nodeSibling exTree4 (Some 1%positive) = Done None ∧
     chemPSibling exTree4 (Some l) = Done (Some 1%positive) ∧
     nodeSibling exTree4 (Some l) = Done None) ∨
  (∃ m mnd lfx, chemPSibling exTree4 (Some 1%positive) = Done None ∧
     nodeSibling exTree4 (Some 1%positive) = Done (Some m) ∧
     m ∈ treeNodes exShape4 ∧ nodes exTree4 !! m = Some mnd ∧
     leaves exTree4 !! 1%positive = Some lfx ∧ parent_ mnd = node_ lfx).
Proof.
  apply (proj2 (sibling_of_leaf exTree4) 1%positive
           (Node 3 (Leaf 1) (Leaf 4)) (Node 2 (Leaf 2) (Leaf 3)) 1%positive).
  - apply treeInvb_sound. vm_compute. reflexivity.
  - apply (bool_decide_unpack _). vm_compute. exact I.
Defined.

Lemma sibling_of_node_witness :
  (3%positive = 1%positive ∧ chemPSiblingN exTree4 (Some 3%positive) = Done None ∧
     nodeSiblingN exTree4 (Some 3%positive) = Done None) ∨
  (3%positive ≠ 1%positive ∧ ∃ l lf ynd, l ∈ treeLeaves exShape4 ∧
     chemPSiblingN exTree4 (Some 3%positive) = Done (Some l) ∧
     nodeSiblingN exTree4 (Some 3%positive) = Done None ∧
     leaves exTree4 !! l = Some lf ∧ nodes exTree4 !! 3%positive = Some ynd ∧
     node_ lf = parent_ ynd) ∨
  (3%positive ≠ 1%positive ∧ ∃ m, m ≠ 3%positive ∧ m ∈ treeNodes exShape4 ∧
     chemPSiblingN exTree4 (Some 3%positive) = Done None ∧
     nodeSiblingN exTree4 (Some 3%positive) = Done (Some m) ∧
     chemPSiblingN exTree4 (Some m) = Done None ∧
     nodeSiblingN exTree4 (Some m) = Done (Some 3%positive)).
Proof.
  apply (sibling_of_node exTree4 1%positive
           (Node 3 (Leaf 1) (Leaf 4)) (Node 2 (Leaf 2) (Leaf 3)) 3%positive).
  - apply treeInvb_sound. vm_compute. reflexivity.
  - apply (bool_decide_unpack _). vm_compute. exact I.
Defined.

Lemma treeMin_leftmost_witness :
  treeMin 5 exTree4 (root_ exTree4) = Done (head (treeLeaves exShape4)).
Proof.
  apply (treeMin_leftmost 5 exTree4 exShape4).
  - apply treeInvb_sound. vm_compute. reflexivity.
  - simpl. lia.
Defined.

Lemma treeSuccessor_inorder_witness :
  treeSuccessor 8 exTree4 (Some 4%positive) = Done (head [2; 3]%positive).
Proof.
  apply (treeSuccessor_inorder 8 exTree4 exShape4 4%positive [1%positive]
           [2; 3]%positive).
  - apply treeInvb_sound. vm_compute. reflexivity.
  - reflexivity.
  - simpl. lia.
Defined.

Lemma deleteAllNode_frees_nodes_witness :
  ∃ t', deleteAllNode 5 exTree4 (root_ exTree4) = Done t' ∧
    (∀ n, n ∈ treeNodes exShape4 → nodes t' !! n = None) ∧
    (∀ n, n ∉ treeNodes exShape4 → nodes t' !! n = nodes exTree4 !! n) ∧
    leaves t' = leaves exTree4 ∧ root_ t' = root_ exTree4 ∧ size_ t' = size_ exTree4.
Proof.
  apply (deleteAllNode_frees_nodes 5 exTree4 exShape4).
  - apply treeInvb_sound. vm_compute. reflexivity.
  - simpl. lia.
Defined.

Lemma insert_then_delete_witness :
  ∃ t' p t'' a'',
    insertNewLeaf 8 exTree3 exPhi4 exPhi4 exIdentity [qz 1; qz 1] (qz 1) 2 None =
      Done (t', p) ∧
    deleteLeaf t' (Some (newLeafAddr exTree3)) = Done t'' ∧
    size_ t'' = size_ exTree3 ∧ treeInv t'' a'' ∧
    treeLeaves a'' = treeLeaves exShape3 ∧
    (∀ n tl tr, exShape3 = TFull n tl tr → a'' = exShape3) ∧
    leaves t'' !! newLeafAddr exTree3 = None ∧
    payloadKept exTree3 t''.
Proof.
  apply (insert_then_delete 8 exTree3 exShape3 exPhi4 exPhi4 exIdentity
           [qz 1; qz 1] (qz 1) 2 None).
  - apply treeInvb_sound. vm_compute. reflexivity.
  - left. split; [reflexivity|]. split.
    + apply dimsOkb_sound. vm_compute. reflexivity.
    + simpl. lia.
Defined.

Lemma deleteLeaf_then_search_witness :
  ∃ t', deleteLeaf exTree4 (Some 1%positive) = Done t' ∧
    ∀ fuel phiq r, binaryTreeSearch fuel t' phiq (root_ t') = Done r →
      r ≠ Some 1%positive ∧
      (∀ l, r = Some l → l ∈ treeLeaves exShape4 ∧ is_Some (leaves t' !! l)) ∧
      (r = None → treeLeaves exShape4 = [1%positive]).
Proof.
  apply (deleteLeaf_then_search exTree4 exShape4 1%positive).
  - apply treeInvb_sound. vm_compute. reflexivity.
  - apply (bool_decide_unpack _). vm_compute. exact I.
Defined.

Lemma deleteLeaf_on_empty_witness :
  deleteLeaf exEmpty (Some 1%positive) = Done (setSize (-1)%Z exEmpty) ∧
  ((0 < maxElements_ exEmpty)%Z → isFull (setSize (-1)%Z exEmpty) = false) ∧
  (∀ fuel phiq node,
     binaryTreeSearch fuel (setSize (-1)%Z exEmpty) phiq node = Done None) ∧
  (∀ fuel phiq Rphiq A sf eps nCols,
     insertNewLeaf fuel (setSize (-1)%Z exEmpty) phiq Rphiq A sf eps nCols None = Fault).
Proof.
  apply (deleteLeaf_on_empty exEmpty (Some 1%positive)). reflexivity.
Defined.

Lemma binaryTreeSearch_normal_bounds_witness :
  binaryTreeSearch 5 exTree4 exLong (Some 1%positive) = Fault.
Proof.
  refine (proj1 (binaryTreeSearch_normal_bounds exTree4 exLong 1%positive
                   (default bnNull (nodes exTree4 !! 1%positive)) _ _) _ 4).
  - vm_compute. reflexivity.
  - vm_compute. reflexivity.
  - vm_compute. lia.
Defined.

Lemma insertNewLeaf_ignores_capacity_witness :
  ∃ t' p,
    insertNewLeaf 8 exCap2 exPhi3 exPhi3 exIdentity [qz 1; qz 1] (qz 1) 2 None =
      Done (t', p) ∧
    maxElements_ t' = maxElements_ exCap2 ∧ size_ t' = (size_ exCap2 + 1)%Z ∧
    (maxElements_ t' < size_ t')%Z ∧ isFull t' = true.
Proof.
  apply (insertNewLeaf_ignores_capacity 8 exCap2 exShape2 exPhi3 exPhi3 exIdentity
           [qz 1; qz 1] (qz 1) 2 None).
  - apply treeInvb_sound. vm_compute. reflexivity.
  - left. split; [reflexivity|]. split.
    + apply dimsOkb_sound. vm_compute. reflexivity.
    + simpl. lia.
  - vm_compute. reflexivity.
Defined.

Lemma balance_wellformed_witness :
  ∃ n tl tr,
    treeInv (unDone (exTree4, false) (balance 8 (λ i, i) exTree4)).1 (TFull n tl tr) ∧
    shapeLeaves (Node n tl tr) ≡ₚ treeLeaves exShape4.
Proof.
  apply (balance_wellformed 8 (λ i, i) exTree4 exShape4 _
           [Some 1; Some 4; Some 2; Some 3]%positive 0%Z 0%Z 3%Z).
  - apply treeInvb_sound. vm_compute. reflexivity.
  - vm_compute. reflexivity.
  - vm_compute. reflexivity.
  - lia.
Defined.

Lemma balance_same_extremes_witness :
  let t' := (unDone (exDup2, false) (balance 8 (λ i, i) exDup2)).1 in
  (∃ r rnd x0, root_ t' = Some r ∧ nodes t' !! r = Some rnd ∧
     left_ rnd = None ∧ elementLeft_ rnd = Some x0 ∧ x0 ∈ treeLeaves exShape2 ∧
     (elementRight_ rnd = Some x0 ∨
      ∃ lf q, leaves t' !! x0 = Some lf ∧ node_ lf = Some q ∧ q ≠ r ∧ holds t' q x0)) ∧
  (∀ a', ¬ treeInv t' a').
Proof.
  apply (balance_same_extremes 8 (λ i, i) exDup2 exShape2 _
           [Some 1; Some 2]%positive 1%Z 0%Z 0%Z).
  - apply treeInvb_sound. vm_compute. reflexivity.
  - vm_compute. reflexivity.
  - vm_compute. reflexivity.
  - reflexivity.
Defined.

Lemma secondaryBTSearch_tests_start_leaf_witness :
  ∃ first second rest,
    ((first = 2%positive ∧ second = 3%positive) ∨
     (first = 3%positive ∧ second = 2%positive)) ∧
    (secondaryBTSearch 5 exTree3 exFar (Some 1%positive)).1.2 =
      first :: second :: 1%positive :: rest.
Proof.
  apply (secondaryBTSearch_tests_start_leaf 5 exTree3 exFar 1%positive
           (Leaf 1) (Node 2 (Leaf 2) (Leaf 3)) 1%positive 1%positive 2%positive
           2%positive 3%positive (exNodeOf exTree3 2) (exLeafOf exTree3 2)
           (exLeafOf exTree3 3)).
  - apply treeInvb_sound. vm_compute. reflexivity.
  - left. left. reflexivity.
  - vm_compute. reflexivity.
  - vm_compute. reflexivity.
  - vm_compute. reflexivity.
  - vm_compute. reflexivity.
  - vm_compute. reflexivity.
  - vm_compute. discriminate.
  - vm_compute. lia.
  - lia.
Defined.

End FurtherExamples.
